(** * Address index of dcrd: level store, block indexer, unconfirmed mirror

    A shallow embedding of [blockchain/indexers/addrindex.go] and the
    properties of its level-based storage scheme.

    Conventions of the embedding:
    - a Go [[]byte] is a [list Z] of values in [0, 256); a [nil] slice returned
      by [bucket.Get] is [None], and a [nil] slice elsewhere is the empty list;
    - a [uint8] level is a [nat] below 256, every increment and decrement
      wraps modulo 256;
    - a [uint32] is a [Z] in [0, 2^32), its arithmetic wraps by [wrap32];
    - a Go [int] is a [Z]; the arithmetic of the level store on sizes and
      counts wraps to 64 bits by [wrap64]; the indexes of [range] loops,
      bounded by the length of the slice they walk, do not;
    - the bucket is threaded through every access, and unbounded [for]
      loops take fuel: [OutOfFuel] means the embedding stopped following
      the loop;
    - a slice expression out of range is the outcome [Panic]. *)

From stdpp Require Import gmap strings list fin_maps sorting.
From Stdlib Require Import ZArith Lia.

Local Open Scope Z_scope.

(** ** Machine integers *)

Definition wrap32 (z : Z) : Z := z mod 2 ^ 32.
Definition wrap64 (z : Z) : Z := (z + 2 ^ 63) mod 2 ^ 64 - 2 ^ 63.

(** [uint8] arithmetic on levels. *)
Definition u8_inc (l : nat) : nat := ((l + 1) mod 256)%nat.
Definition u8_dec (l : nat) : nat := ((l + 255) mod 256)%nat.

Abbreviation bytes := (list Z).

Definition len (s : bytes) : Z := Z.of_nat (length s).

(** The bytes of a slice that may be [nil]. *)
Definition data (s : option bytes) : bytes := default [] s.

(** ** Errors and outcomes *)

Inductive ErrorCode := ErrCorruption.

Inductive error :=
| AssertError (msg : string)
| errDeserialize (msg : string)
| DbError (code : ErrorCode) (msg : string)
| OtherError (msg : string).

Inductive outcome (A : Type) :=
| Ok (a : A)
| Err (e : error)
| Panic
| OutOfFuel.
Arguments Ok {A} a.
Arguments Err {A} e.
Arguments Panic {A}.
Arguments OutOfFuel {A}.

(** [isDeserializeErr] and [makeDbErr] live in files of the package that
    are not part of this development; they are the obvious test and
    constructor. *)
Definition isDeserializeErr (e : error) : bool :=
  match e with errDeserialize _ => true | _ => false end.
Definition makeDbErr (c : ErrorCode) (desc : string) : error := DbError c desc.

(** ** Constants *)

Definition level0MaxEntries : Z := 8.
Definition addrKeySize : Z := 1 + 20.
Definition levelKeySize : Z := addrKeySize + 1.
Definition levelOffset : Z := levelKeySize - 1.

(** Modelled from the spec: [txEntrySize] is declared next to the
    transaction index; an entry is four 32-bit fields, 16 bytes. *)
Definition txEntrySize : Z := 16.

(** ** Entry codec *)

(** Modelled from the spec: [byteOrder] is declared in another file of the
    package; the spec fixes the layout as big-endian. *)
Definition PutUint32 (v : Z) : bytes :=
  [ Z.land (Z.shiftr v 24) 255; Z.land (Z.shiftr v 16) 255;
    Z.land (Z.shiftr v 8) 255; Z.land v 255 ].

Definition Uint32 (b : bytes) : Z :=
  match b with
  | b0 :: b1 :: b2 :: b3 :: _ =>
      Z.lor (Z.lor (Z.lor b3 (Z.shiftl b2 8)) (Z.shiftl b1 16)) (Z.shiftl b0 24)
  | _ => 0
  end.

(** [s[lo:hi]] for in-range bounds. *)
Definition slice (s : bytes) (lo hi : nat) : bytes := take (hi - lo) (drop lo s).

Record TxLoc := { TxStart : Z; TxLen : Z }.

Record BlockRegion := { Hash : bytes; Offset : Z; Len : Z }.
Record TxIndexEntry := { Region : BlockRegion; BlockIndex : Z }.

Definition serializeAddrIndexEntry (blockID : Z) (txLoc : TxLoc) (blockIndex : Z) : bytes :=
  PutUint32 (wrap32 blockID) ++ PutUint32 (wrap32 (TxStart txLoc))
    ++ PutUint32 (wrap32 (TxLen txLoc)) ++ PutUint32 (wrap32 blockIndex).

Definition fetchBlockHashFunc := bytes → error + bytes.

Definition deserializeAddrIndexEntry (serialized : bytes)
    (fetchBlockHash : fetchBlockHashFunc) : error + TxIndexEntry :=
  if len serialized <? txEntrySize then inl (errDeserialize "unexpected end of data")
  else
    match fetchBlockHash (slice serialized 0 4) with
    | inl err => inl err
    | inr hash =>
        inr {| Region := {| Hash := hash;
                            Offset := Uint32 (slice serialized 4 8);
                            Len := Uint32 (slice serialized 8 12) |};
               BlockIndex := Uint32 (slice serialized 12 16) |}
    end.

(** ** Key codec *)

(** [addrKey] is a [[addrKeySize]byte]; the level goes in the last byte. *)
Definition keyForLevel (addrKey : bytes) (level : nat) : bytes :=
  addrKey ++ [Z.of_nat level].

(** ** The bucket interface and the monad of bucket programs *)

(** Modelled from the spec: [internalBucket] is declared in another file of
    the package; the spec gives it [get], [put] and [delete].  Every method
    threads the bucket, so that an implementation may record its accesses. *)
Class internalBucket (B : Type) := {
  bucketGet : bytes → B → option bytes * B;
  bucketPut : bytes → bytes → B → error + B;
  bucketDelete : bytes → B → error + B
}.

Definition M (B A : Type) : Type := B → outcome (A * B).

Definition ret {B A} (a : A) : M B A := λ b, Ok (a, b).
Definition bind {B A C} (c : M B A) (k : A → M B C) : M B C :=
  λ b, match c b with
       | Ok (a, b') => k a b'
       | Err e => Err e
       | Panic => Panic
       | OutOfFuel => OutOfFuel
       end.
Definition fail {B A} (e : error) : M B A := λ _, Err e.
Definition panic {B A} : M B A := λ _, Panic.
Definition outOfFuel {B A} : M B A := λ _, OutOfFuel.

Notation "'let*' x ':=' c 'in' k" := (bind c (λ x, k))
  (at level 10, x pattern, c at level 100, k at level 200).

(** ** Level sizes *)

(** One round of the loop of [minEntriesToReachLevel]. *)
Definition minEntriesStep (st : Z * Z) : Z * Z :=
  let '(minRequired, maxEntriesForLevel) := st in
  (wrap64 (minRequired + maxEntriesForLevel), wrap64 (maxEntriesForLevel * 2)).

(** [for l := uint8(1); l <= level; l++]: [level] rounds (the callers pass
    a level below 255, for which the counter does not wrap). *)
Definition minEntriesToReachLevel (level : nat) : Z :=
  fst (Nat.iter level minEntriesStep (1, level0MaxEntries)).

Definition maxEntriesForLevel (level : nat) : Z :=
  Nat.iter level (λ numEntries, wrap64 (numEntries * 2)) level0MaxEntries.

(** [pendingUpdates[level]]: a missing key reads as [nil]. *)
Definition pendingGet (pendingUpdates : gmap nat bytes) (level : nat) : bytes :=
  default [] (pendingUpdates !! level).

Section Bucket.
Context {B : Type} `{!internalBucket B}.

Definition Get (key : bytes) : M B (option bytes) :=
  λ b, Ok (bucketGet key b).
Definition Put (key value : bytes) : M B unit :=
  λ b, match bucketPut key value b with
       | inl e => Err e
       | inr b' => Ok (tt, b')
       end.
Definition Delete (key : bytes) : M B unit :=
  λ b, match bucketDelete key b with
       | inl e => Err e
       | inr b' => Ok (tt, b')
       end.

(** [s[:hi]], panicking out of range. *)
Definition sliceTo (s : bytes) (hi : Z) : M B bytes :=
  if (0 <=? hi) && (hi <=? len s) then ret (take (Z.to_nat hi) s) else panic.
(** [s[lo:]], panicking out of range. *)
Definition sliceFrom (s : bytes) (lo : Z) : M B bytes :=
  if (0 <=? lo) && (lo <=? len s) then ret (drop (Z.to_nat lo) s) else panic.

(** *** dbPutAddrIndexEntry *)

(** [for mergeLevel := curLevel - 1; mergeLevel > 0; mergeLevel--] *)
Fixpoint moveLevelsUp (addrKey : bytes) (mergeLevel : nat) : M B unit :=
  match mergeLevel with
  | O => ret tt
  | S prevLevel =>
      let mergeLevelKey := keyForLevel addrKey mergeLevel in
      let prevLevelKey := keyForLevel addrKey prevLevel in
      let* prevData := Get prevLevelKey in
      let* _ := Put mergeLevelKey (data prevData) in
      moveLevelsUp addrKey prevLevel
  end.

(** The [for] loop that merges each full level into a higher one. *)
Fixpoint mergeLevels (fuel : nat) (addrKey : bytes) (curLevel : nat)
    (maxLevelBytes : Z) (prevLevelData : option bytes) : M B unit :=
  match fuel with
  | O => outOfFuel
  | S fuel =>
      let curLevel := u8_inc curLevel in
      let maxLevelBytes := wrap64 (maxLevelBytes * 2) in
      let curLevelKey := keyForLevel addrKey curLevel in
      let* curLevelData := Get curLevelKey in
      if len (data curLevelData) =? maxLevelBytes then
        mergeLevels fuel addrKey curLevel maxLevelBytes curLevelData
      else
        let mergedData :=
          if 0 <? len (data curLevelData)
          then data curLevelData ++ data prevLevelData
          else data prevLevelData in
        let* _ := Put curLevelKey mergedData in
        moveLevelsUp addrKey (u8_dec curLevel)
  end.

(** Iterations granted to each unbounded loop of the model. *)
Definition loopFuel : nat := 600.

Definition dbPutAddrIndexEntry (addrKey : bytes) (blockID : Z)
    (txLoc : TxLoc) (blockIndex : Z) : M B unit :=
  let maxLevelBytes := wrap64 (level0MaxEntries * txEntrySize) in
  let newData := serializeAddrIndexEntry blockID txLoc blockIndex in
  let level0Key := keyForLevel addrKey 0 in
  let* level0Data := Get level0Key in
  if wrap64 (len (data level0Data) + len newData) <=? maxLevelBytes then
    let mergedData :=
      if 0 <? len (data level0Data) then data level0Data ++ newData else newData in
    Put level0Key mergedData
  else
    let* _ := mergeLevels loopFuel addrKey 0 maxLevelBytes level0Data in
    Put level0Key newData.

(** *** dbFetchAddrIndexEntries *)

(** The loop that loads the levels, prepending each to [serialized]. *)
Fixpoint fetchLevels (fuel : nat) (addrKey : bytes)
    (numToSkip numRequested : Z) (reverse : bool)
    (level : nat) (serialized : bytes) : M B bytes :=
  if negb reverse ||
     (len serialized <? wrap64 (wrap32 (numToSkip + numRequested) * txEntrySize))
  then
    match fuel with
    | O => outOfFuel
    | S fuel =>
        let curLevelKey := keyForLevel addrKey level in
        let* levelData := Get curLevelKey in
        match levelData with
        | None => ret serialized
        | Some levelData =>
            fetchLevels fuel addrKey numToSkip numRequested reverse
              (u8_inc level) (levelData ++ serialized)
        end
    end
  else ret serialized.

(** [for i := uint32(0); i < numToLoad; i++], with [todo = numToLoad - i]. *)
Fixpoint loadEntries (todo : nat) (addrKey serialized : bytes)
    (numEntries numToSkip : Z) (reverse : bool)
    (fetchBlockHash : fetchBlockHashFunc) (i : Z) : M B (list TxIndexEntry) :=
  match todo with
  | O => ret []
  | S todo =>
      let offset :=
        if reverse
        then wrap32 (wrap32 (wrap32 (wrap32 (numEntries - numToSkip) - i) - 1) * txEntrySize)
        else wrap32 (wrap32 (numToSkip + i) * txEntrySize) in
      let* tail := sliceFrom serialized offset in
      match deserializeAddrIndexEntry tail fetchBlockHash with
      | inl err =>
          if isDeserializeErr err
          then fail (makeDbErr ErrCorruption "failed to deserialized address index")
          else fail err
      | inr entry =>
          let* rest := loadEntries todo addrKey serialized numEntries numToSkip
                         reverse fetchBlockHash (wrap32 (i + 1)) in
          ret (entry :: rest)
      end
  end.

Definition dbFetchAddrIndexEntries (addrKey : bytes)
    (numToSkip numRequested : Z) (reverse : bool)
    (fetchBlockHash : fetchBlockHashFunc) : M B (list TxIndexEntry * Z) :=
  let* serialized :=
    fetchLevels loopFuel addrKey numToSkip numRequested reverse 0 [] in
  let numEntries := wrap32 (Z.quot (len serialized) txEntrySize) in
  if numEntries <=? numToSkip then ret ([], numEntries)
  else if numRequested =? 0 then ret ([], numToSkip)
  else
    let numToLoad := wrap32 (numEntries - numToSkip) in
    let numToLoad := if numRequested <? numToLoad then numRequested else numToLoad in
    let* results := loadEntries (Z.to_nat numToLoad) addrKey serialized
                      numEntries numToSkip reverse fetchBlockHash 0 in
    ret (results, numToSkip).

(** *** dbRemoveAddrIndexEntries *)

(** [applyPending]: the keys of the map are distinct levels, so the order
    in which Go ranges over it does not change the resulting bucket. *)
Fixpoint applyPendingList (addrKey : bytes) (updates : list (nat * bytes)) : M B unit :=
  match updates with
  | [] => ret tt
  | (level, levelData) :: updates =>
      let curLevelKey := keyForLevel addrKey level in
      let* _ := if len levelData =? 0 then Delete curLevelKey
                else Put curLevelKey levelData in
      applyPendingList addrKey updates
  end.

Definition applyPending (addrKey : bytes) (pendingUpdates : gmap nat bytes) : M B unit :=
  applyPendingList addrKey (map_to_list pendingUpdates).

(** The forward loop removing entries level by level. *)
Fixpoint removeFromLevels (fuel : nat) (addrKey : bytes)
    (pendingUpdates : gmap nat bytes) (highestLoadedLevel level : nat)
    (numRemaining : Z) : M B (gmap nat bytes * nat) :=
  if 0 <? numRemaining then
    match fuel with
    | O => outOfFuel
    | S fuel =>
        let curLevelKey := keyForLevel addrKey level in
        let* curLevelData := Get curLevelKey in
        let curLevelData := data curLevelData in
        if (len curLevelData =? 0) && (0 <? numRemaining) then
          fail (AssertError "dbRemoveAddrIndexEntries not enough entries")
        else
          let pendingUpdates := <[level := curLevelData]> pendingUpdates in
          let highestLoadedLevel := level in
          let numEntries := Z.quot (len curLevelData) txEntrySize in
          if numEntries <=? numRemaining then
            removeFromLevels fuel addrKey (<[level := []]> pendingUpdates)
              highestLoadedLevel (u8_inc level) (wrap64 (numRemaining - numEntries))
          else
            let offsetEnd :=
              wrap64 (len curLevelData - wrap64 (numRemaining * txEntrySize)) in
            let* kept := sliceTo curLevelData offsetEnd in
            ret (<[level := kept]> pendingUpdates, highestLoadedLevel)
    end
  else ret (pendingUpdates, highestLoadedLevel).

(** [for level := highestLoadedLevel; level > 0; level--] *)
Fixpoint squashLevels (level : nat) (pendingUpdates : gmap nat bytes)
    (lowestEmptyLevel : nat) (curLevelData : bytes) (curLevelMaxEntries : Z)
    : M B (gmap nat bytes * nat * bytes) :=
  match level with
  | O => ret (pendingUpdates, lowestEmptyLevel, curLevelData)
  | S prevLevel =>
      let numEntries := Z.quot (len curLevelData) txEntrySize in
      let prevLevelMaxEntries := Z.quot curLevelMaxEntries 2 in
      let minPrevRequired := minEntriesToReachLevel prevLevel in
      if numEntries <? wrap64 (prevLevelMaxEntries + minPrevRequired) then
        squashLevels prevLevel (<[level := []]> pendingUpdates) level
          curLevelData prevLevelMaxEntries
      else
        let offset :=
          if minPrevRequired <=? wrap64 (numEntries - curLevelMaxEntries)
          then wrap64 (curLevelMaxEntries * txEntrySize)
          else wrap64 (prevLevelMaxEntries * txEntrySize) in
        let* kept := sliceTo curLevelData offset in
        let* rest := sliceFrom curLevelData offset in
        squashLevels prevLevel (<[level := kept]> pendingUpdates) lowestEmptyLevel
          rest prevLevelMaxEntries
  end.

(** [for level > lowestEmptyLevel] *)
Fixpoint halveLevels (level lowestEmptyLevel : nat) (pendingUpdates : gmap nat bytes)
    (levelData : bytes) (curLevelMaxEntries : Z) : M B (gmap nat bytes) :=
  match level with
  | O => ret pendingUpdates
  | S prevLevel =>
      if (lowestEmptyLevel <? level)%nat then
        let offset := wrap64 (Z.quot curLevelMaxEntries 2 * txEntrySize) in
        let* kept := sliceTo levelData offset in
        let* levelData := sliceFrom levelData offset in
        halveLevels prevLevel lowestEmptyLevel
          (<[prevLevel := levelData]> (<[level := kept]> pendingUpdates))
          levelData (Z.quot curLevelMaxEntries 2)
      else ret pendingUpdates
  end.

(** [for len(pendingUpdates[highestLoadedLevel]) == 0] *)
Fixpoint backfillLevels (fuel : nat) (addrKey : bytes)
    (pendingUpdates : gmap nat bytes) (highestLoadedLevel lowestEmptyLevel : nat)
    : M B (gmap nat bytes) :=
  if len (pendingGet pendingUpdates highestLoadedLevel) =? 0 then
    match fuel with
    | O => outOfFuel
    | S fuel =>
        let level := u8_inc highestLoadedLevel in
        let curLevelKey := keyForLevel addrKey level in
        let* levelData := Get curLevelKey in
        let levelData := data levelData in
        if len levelData =? 0 then ret pendingUpdates
        else
          let pendingUpdates := <[level := levelData]> pendingUpdates in
          let highestLoadedLevel := level in
          let curLevelMaxEntries := maxEntriesForLevel level in
          let '(pendingUpdates, level, curLevelMaxEntries) :=
            if negb (Z.quot (len levelData) txEntrySize =? curLevelMaxEntries) then
              (<[u8_dec level := levelData]> (<[level := []]> pendingUpdates),
               u8_dec level, Z.quot curLevelMaxEntries 2)
            else (pendingUpdates, level, curLevelMaxEntries) in
          let* pendingUpdates :=
            halveLevels level lowestEmptyLevel pendingUpdates levelData
              curLevelMaxEntries in
          backfillLevels fuel addrKey pendingUpdates highestLoadedLevel
            highestLoadedLevel
    end
  else ret pendingUpdates.

Definition dbRemoveAddrIndexEntries (addrKey : bytes) (count : Z) : M B unit :=
  if count <=? 0 then ret tt
  else
    let* (pendingUpdates, highestLoadedLevel) :=
      removeFromLevels loopFuel addrKey ∅ 0%nat 0%nat count in
    if negb (len (pendingGet pendingUpdates 0) =? 0) then
      applyPending addrKey pendingUpdates
    else
      let lowestEmptyLevel := 255%nat in
      let curLevelData := pendingGet pendingUpdates highestLoadedLevel in
      let curLevelMaxEntries := maxEntriesForLevel highestLoadedLevel in
      let* (pendingUpdates, lowestEmptyLevel, curLevelData) :=
        squashLevels highestLoadedLevel pendingUpdates lowestEmptyLevel
          curLevelData curLevelMaxEntries in
      let pendingUpdates := <[0%nat := curLevelData]> pendingUpdates in
      let lowestEmptyLevel :=
        if len curLevelData =? 0 then 0%nat else lowestEmptyLevel in
      let* pendingUpdates :=
        backfillLevels loopFuel addrKey pendingUpdates highestLoadedLevel
          lowestEmptyLevel in
      applyPending addrKey pendingUpdates.

End Bucket.

(** ** The in-memory bucket *)

(** A finite map from keys to values; its [Put] and [Delete] do not fail. *)
Abbreviation membucket := (gmap bytes bytes).

#[export] Instance memBucket : internalBucket membucket := {|
  bucketGet key b := (b !! key, b);
  bucketPut key value b := inr (<[key := value]> b);
  bucketDelete key b := inr (delete key b)
|}.

(** ** Sequences of index operations *)

(** The fields of one entry, as [connectBlock] passes them to
    [dbPutAddrIndexEntry]. *)
Record IndexRecord := { recBlockID : Z; recTxLoc : TxLoc; recBlockIndex : Z }.

Definition serializeRecord (e : IndexRecord) : bytes :=
  serializeAddrIndexEntry (recBlockID e) (recTxLoc e) (recBlockIndex e).

Inductive indexOp :=
| OpAppend (addrKey : bytes) (e : IndexRecord)
| OpRemove (addrKey : bytes) (count : Z).

Section Operations.
Context {B : Type} `{!internalBucket B}.

(** One [dbPutAddrIndexEntry] per record, in order. *)
Fixpoint appendEntries (addrKey : bytes) (es : list IndexRecord) : M B unit :=
  match es with
  | [] => ret tt
  | e :: es =>
      let* _ := dbPutAddrIndexEntry addrKey (recBlockID e) (recTxLoc e)
                  (recBlockIndex e) in
      appendEntries addrKey es
  end.

Definition runOp (o : indexOp) : M B unit :=
  match o with
  | OpAppend addrKey e =>
      dbPutAddrIndexEntry addrKey (recBlockID e) (recTxLoc e) (recBlockIndex e)
  | OpRemove addrKey count => dbRemoveAddrIndexEntries addrKey count
  end.

Fixpoint runOps (ops : list indexOp) : M B unit :=
  match ops with
  | [] => ret tt
  | o :: ops => let* _ := runOp o in runOps ops
  end.
End Operations.

(** ** A bucket that records its accesses *)

Inductive access :=
| AccGet (key : bytes)
| AccPut (key value : bytes)
| AccDelete (key : bytes).

Record tracedBucket := { tracedStore : gmap bytes bytes; accesses : list access }.

#[export] Instance tracedInternalBucket : internalBucket tracedBucket := {|
  bucketGet key b :=
    (tracedStore b !! key,
     {| tracedStore := tracedStore b; accesses := AccGet key :: accesses b |});
  bucketPut key value b :=
    inr {| tracedStore := <[key := value]> (tracedStore b);
           accesses := AccPut key value :: accesses b |};
  bucketDelete key b :=
    inr {| tracedStore := delete key (tracedStore b);
           accesses := AccDelete key :: accesses b |}
|}.

(** ** Addresses and their keys *)

Definition addrKeyTypePubKeyHash : Z := 0.
Definition addrKeyTypePubKeyHashEdwards : Z := 1.
Definition addrKeyTypePubKeyHashSchnorr : Z := 2.
Definition addrKeyTypeScriptHash : Z := 3.

(** Modelled from the spec: the address types of [stdaddr] are declared in
    another module; the spec gives the four hashed kinds, the public-key
    kinds that project to a public-key hash, and the unsupported rest.  A
    public-key address carries the hash160 of its key. *)
Inductive Address :=
| AddressPubKeyHashEcdsaSecp256k1V0 (hash160 : bytes)
| AddressPubKeyHashEd25519V0 (hash160 : bytes)
| AddressPubKeyHashSchnorrSecp256k1V0 (hash160 : bytes)
| AddressScriptHashV0 (hash160 : bytes)
| AddressPubKeyEcdsaSecp256k1V0 (hash160 : bytes)
| AddressPubKeyEd25519V0 (hash160 : bytes)
| AddressPubKeySchnorrSecp256k1V0 (hash160 : bytes)
| AddressOther.

(** The type assertion to [stdaddr.AddressPubKeyHasher] and its method. *)
Definition AddressPubKeyHash (addr : Address) : option Address :=
  match addr with
  | AddressPubKeyEcdsaSecp256k1V0 h => Some (AddressPubKeyHashEcdsaSecp256k1V0 h)
  | AddressPubKeyEd25519V0 h => Some (AddressPubKeyHashEd25519V0 h)
  | AddressPubKeySchnorrSecp256k1V0 h => Some (AddressPubKeyHashSchnorrSecp256k1V0 h)
  | _ => None
  end.

(** [None] is [errUnsupportedAddressType]. *)
Definition addrToKey (addr : Address) : option bytes :=
  let addr := match AddressPubKeyHash addr with
              | Some addrPKH => addrPKH
              | None => addr
              end in
  match addr with
  | AddressPubKeyHashEcdsaSecp256k1V0 h => Some (addrKeyTypePubKeyHash :: h)
  | AddressPubKeyHashEd25519V0 h => Some (addrKeyTypePubKeyHashEdwards :: h)
  | AddressPubKeyHashSchnorrSecp256k1V0 h => Some (addrKeyTypePubKeyHashSchnorr :: h)
  | AddressScriptHashV0 h => Some (addrKeyTypeScriptHash :: h)
  | _ => None
  end.

(** ** Blocks and transactions *)

Record OutPoint := { OutHash : bytes; OutIndex : Z; OutTree : Z }.
Record TxIn := { PreviousOutPoint : OutPoint }.
Record TxOut := { Version : Z; PkScript : bytes }.
Record MsgTx := { MsgTxIn : list TxIn; MsgTxOut : list TxOut }.
(** A [dcrutil.Tx]: the transaction and its hash. *)
Record Tx := { TxHash : bytes; TxMsg : MsgTx }.
Record Block := { Transactions : list Tx; STransactions : list Tx }.

(** The script classes of [txscript], of which the code names one. *)
Inductive ScriptClass :=
| NullDataTy
| OtherTy (class : Z).

Definition isNullDataTy (class : ScriptClass) : bool :=
  match class with NullDataTy => true | OtherTy _ => false end.

(** [PrevScripter.PrevScript]: the version and script of an outpoint, when
    known. *)
Definition PrevScripter := OutPoint → option (Z * bytes).

(** [writeIndexData]: address key to the ordered transaction indexes. *)
Abbreviation writeIndexData := (gmap bytes (list Z)).

(** The state of the unconfirmed index. *)
Record Unconfirmed := {
  txnsByAddr : gmap bytes (gmap bytes Tx);
  addrsByTx : gmap bytes (gset bytes)
}.

Section Indexer.
(** The functions of [txscript] and [stake] the indexer calls; the last
    component of [ExtractPkScriptAddrs] tells whether it returned an
    error. *)
Variable ExtractPkScriptAddrs : Z → bytes → bool → ScriptClass * list Address * bool.
Variable AddrFromSStxPkScrCommitment : bytes → option Address.
Variable IsSSGen : MsgTx → bool → bool.
Variable IsTreasuryBase : MsgTx → bool.
Variable IsTSpend : MsgTx → bool.
Variable IsSStx : MsgTx → bool.

(** The body of the loop over the addresses of [indexPkScript]. *)
Definition indexAddr (txIdx : Z) (data : writeIndexData) (addr : Address)
    : writeIndexData :=
  match addrToKey addr with
  | None => data
  | Some addrKey =>
      let indexedTxns := default [] (data !! addrKey) in
      let numTxns := len indexedTxns in
      if (0 <? numTxns) && bool_decide (last indexedTxns = Some txIdx) then data
      else <[addrKey := indexedTxns ++ [txIdx]]> data
  end.

Definition indexPkScript (data : writeIndexData) (scriptVersion : Z)
    (pkScript : bytes) (txIdx : Z) (isSStx isTreasuryEnabled : bool)
    : writeIndexData :=
  let '(class, addrs, err) :=
    ExtractPkScriptAddrs scriptVersion pkScript isTreasuryEnabled in
  if err then data
  else
    let addrs :=
      if isSStx && isNullDataTy class then
        match AddrFromSStxPkScrCommitment pkScript with
        | None => None
        | Some addr => Some (addrs ++ [addr])
        end
      else Some addrs in
    match addrs with
    | None => data
    | Some addrs =>
        if (length addrs =? 0)%nat then data
        else foldl (indexAddr txIdx) data addrs
    end.

(** The loop over the inputs of a regular transaction. *)
Definition indexInputs (prevScripts : PrevScripter) (isTreasuryEnabled : bool)
    (txIdx : Z) (data : writeIndexData) (txIns : list TxIn) : writeIndexData :=
  foldl (λ data txIn,
           match prevScripts (PreviousOutPoint txIn) with
           | None => data
           | Some (version, pkScript) =>
               indexPkScript data version pkScript txIdx false isTreasuryEnabled
           end) data txIns.

Definition indexOutputs (isSStx isTreasuryEnabled : bool) (txIdx : Z)
    (data : writeIndexData) (txOuts : list TxOut) : writeIndexData :=
  foldl (λ data txOut,
           indexPkScript data (Version txOut) (PkScript txOut) txIdx isSStx
             isTreasuryEnabled) data txOuts.

(** [for txIdx, tx := range regularTxns], from index [txIdx] on. *)
Fixpoint indexRegular (prevScripts : PrevScripter) (isTreasuryEnabled : bool)
    (txIdx : Z) (data : writeIndexData) (txs : list Tx) : writeIndexData :=
  match txs with
  | [] => data
  | tx :: txs =>
      let data :=
        if negb (txIdx =? 0)
        then indexInputs prevScripts isTreasuryEnabled txIdx data (MsgTxIn (TxMsg tx))
        else data in
      let data := indexOutputs false isTreasuryEnabled txIdx data (MsgTxOut (TxMsg tx)) in
      indexRegular prevScripts isTreasuryEnabled (txIdx + 1) data txs
  end.

(** The loop over the inputs of a stake transaction, from input [i] on. *)
Fixpoint indexStakeInputs (prevScripts : PrevScripter) (isTreasuryEnabled : bool)
    (isSSGen isTreasuryBase isTSpend : bool) (thisTxOffset : Z) (i : Z)
    (data : writeIndexData) (txIns : list TxIn) : writeIndexData :=
  match txIns with
  | [] => data
  | txIn :: txIns =>
      let data :=
        if isSSGen && (i =? 0) then data
        else if isTreasuryBase || isTSpend then data
        else
          match prevScripts (PreviousOutPoint txIn) with
          | None => data
          | Some (version, pkScript) =>
              indexPkScript data version pkScript thisTxOffset false isTreasuryEnabled
          end in
      indexStakeInputs prevScripts isTreasuryEnabled isSSGen isTreasuryBase isTSpend
        thisTxOffset (i + 1) data txIns
  end.

(** [for txIdx, tx := range block.STransactions()], from index [txIdx] on. *)
Fixpoint indexStake (prevScripts : PrevScripter) (isTreasuryEnabled : bool)
    (numRegular : Z) (txIdx : Z) (data : writeIndexData) (txs : list Tx)
    : writeIndexData :=
  match txs with
  | [] => data
  | tx :: txs =>
      let msgTx := TxMsg tx in
      let thisTxOffset := txIdx + numRegular in
      let isSSGen := IsSSGen msgTx isTreasuryEnabled in
      let isTreasuryBase :=
        if isTreasuryEnabled then negb isSSGen && IsTreasuryBase msgTx else false in
      let isTSpend :=
        if isTreasuryEnabled then negb isTreasuryBase && IsTSpend msgTx else false in
      let data :=
        indexStakeInputs prevScripts isTreasuryEnabled isSSGen isTreasuryBase isTSpend
          thisTxOffset 0 data (MsgTxIn msgTx) in
      let isSStx := IsSStx msgTx in
      let data := indexOutputs isSStx isTreasuryEnabled thisTxOffset data (MsgTxOut msgTx) in
      indexStake prevScripts isTreasuryEnabled numRegular (txIdx + 1) data txs
  end.

Definition indexBlock (data : writeIndexData) (block : Block)
    (prevScripts : PrevScripter) (isTreasuryEnabled : bool) : writeIndexData :=
  let regularTxns := Transactions block in
  let data := indexRegular prevScripts isTreasuryEnabled 0 data regularTxns in
  indexStake prevScripts isTreasuryEnabled (Z.of_nat (length regularTxns)) 0 data
    (STransactions block).

(** *** The unconfirmed index *)

(** The body of the loop over the addresses of
    [indexUnconfirmedAddresses]. *)
Definition indexUnconfirmedAddr (tx : Tx) (idx : Unconfirmed) (addr : Address)
    : Unconfirmed :=
  match addrToKey addr with
  | None => idx
  | Some addrKey =>
      let addrIndexEntry := default ∅ (txnsByAddr idx !! addrKey) in
      let addrsByTxEntry := default ∅ (addrsByTx idx !! TxHash tx) in
      {| txnsByAddr := <[addrKey := <[TxHash tx := tx]> addrIndexEntry]> (txnsByAddr idx);
         addrsByTx := <[TxHash tx := {[addrKey]} ∪ addrsByTxEntry]> (addrsByTx idx) |}
  end.

Definition indexUnconfirmedAddresses (idx : Unconfirmed) (scriptVersion : Z)
    (pkScript : bytes) (tx : Tx) (isSStx isTreasuryEnabled : bool) : Unconfirmed :=
  let '(class, addrs, _) :=
    ExtractPkScriptAddrs scriptVersion pkScript isTreasuryEnabled in
  let addrs :=
    if isSStx && isNullDataTy class then
      match AddrFromSStxPkScrCommitment pkScript with
      | None => None
      | Some addr => Some (addrs ++ [addr])
      end
    else Some addrs in
  match addrs with
  | None => idx
  | Some addrs => foldl (indexUnconfirmedAddr tx) idx addrs
  end.

(** The loop over the inputs of [AddUnconfirmedTx], from input [i] on. *)
Fixpoint addUnconfirmedInputs (prevScripts : PrevScripter) (isTreasuryEnabled : bool)
    (tx : Tx) (isSSGen : bool) (i : Z) (idx : Unconfirmed) (txIns : list TxIn)
    : Unconfirmed :=
  match txIns with
  | [] => idx
  | txIn :: txIns =>
      let idx :=
        if (i =? 0) && isSSGen then idx
        else
          match prevScripts (PreviousOutPoint txIn) with
          | None => idx
          | Some (version, pkScript) =>
              indexUnconfirmedAddresses idx version pkScript tx false isTreasuryEnabled
          end in
      addUnconfirmedInputs prevScripts isTreasuryEnabled tx isSSGen (i + 1) idx txIns
  end.

Definition AddUnconfirmedTx (idx : Unconfirmed) (tx : Tx) (prevScripts : PrevScripter)
    (isTreasuryEnabled : bool) : Unconfirmed :=
  let msgTx := TxMsg tx in
  let isSSGen := IsSSGen msgTx isTreasuryEnabled in
  let idx :=
    addUnconfirmedInputs prevScripts isTreasuryEnabled tx isSSGen 0 idx (MsgTxIn msgTx) in
  let isSStx := IsSStx msgTx in
  foldl (λ idx txOut,
           indexUnconfirmedAddresses idx (Version txOut) (PkScript txOut) tx isSStx
             isTreasuryEnabled) idx (MsgTxOut msgTx).

(** The body of the loop of [RemoveUnconfirmedTx]. *)
Definition removeTxFromAddr (hash : bytes) (addrKey : bytes)
    (txns : gmap bytes (gmap bytes Tx)) : gmap bytes (gmap bytes Tx) :=
  let txns :=
    match txns !! addrKey with
    | Some inner => <[addrKey := delete hash inner]> txns
    | None => txns
    end in
  if bool_decide (size (default ∅ (txns !! addrKey)) = 0%nat)
  then delete addrKey txns
  else txns.

(** Go ranges over the set in an unspecified order; every order gives the
    same maps, as each address key is handled on its own. *)
Definition RemoveUnconfirmedTx (idx : Unconfirmed) (hash : bytes) : Unconfirmed :=
  {| txnsByAddr :=
       set_fold (removeTxFromAddr hash) (txnsByAddr idx)
         (default ∅ (addrsByTx idx !! hash));
     addrsByTx := delete hash (addrsByTx idx) |}.

Inductive unconfirmedOp :=
| OpAddUnconfirmed (tx : Tx) (prevScripts : PrevScripter) (isTreasuryEnabled : bool)
| OpRemoveUnconfirmed (hash : bytes).

Definition runUnconfirmedOp (idx : Unconfirmed) (o : unconfirmedOp) : Unconfirmed :=
  match o with
  | OpAddUnconfirmed tx prevScripts isTreasuryEnabled =>
      AddUnconfirmedTx idx tx prevScripts isTreasuryEnabled
  | OpRemoveUnconfirmed hash => RemoveUnconfirmedTx idx hash
  end.

(** The maps [NewAddrIndex] makes. *)
Definition newUnconfirmed : Unconfirmed := {| txnsByAddr := ∅; addrsByTx := ∅ |}.
End Indexer.

(** ** Connecting and disconnecting a block *)

(** [int32(x)] *)
Definition wrapInt32 (z : Z) : Z := (z + 2 ^ 31) mod 2 ^ 32 - 2 ^ 31.

(** [addrIndexKey = []byte("txbyaddridx")] *)
Definition addrIndexKey : bytes := [116; 120; 98; 121; 97; 100; 100; 114; 105; 100; 120].

Definition errUnsupportedAddressType : error :=
  OtherError "address type is not supported by the address index".

(** [s[i]], panicking out of range. *)
Definition indexTxLoc {B : Type} (s : list TxLoc) (i : Z) : M B TxLoc :=
  if (0 <=? i) && (i <? Z.of_nat (length s)) then
    match s !! Z.to_nat i with
    | Some txLoc => ret txLoc
    | None => panic
    end
  else panic.

Section Connector.
Context {B : Type} `{!internalBucket B}.
Variable ExtractPkScriptAddrs : Z → bytes → bool → ScriptClass * list Address * bool.
Variable AddrFromSStxPkScrCommitment : bytes → option Address.
Variable IsSSGen : MsgTx → bool → bool.
Variable IsTreasuryBase : MsgTx → bool.
Variable IsTSpend : MsgTx → bool.
Variable IsSStx : MsgTx → bool.

(** What the connector reads of a block and calls in the rest of the
    package: [block.TxLoc()], [block.Hash()], [block.Height()], the
    previous block of the header, [dbFetchBlockIDByHash] and
    [dbPutIndexerTip].  The last two work on other buckets of the database
    transaction than the address bucket threaded here. *)
Variable blockTxLoc : Block → error + (list TxLoc * list TxLoc).
Variable blockHash : Block → bytes.
Variable blockHeight : Block → Z.
Variable blockPrevBlock : Block → bytes.
Variable dbFetchBlockIDByHash : bytes → error + Z.
Variable dbPutIndexerTip : bytes → bytes → Z → M B unit.

(** [for _, txIdx := range txIdxs] of [connectBlock]. *)
Fixpoint connectTxIdxs (txLocs stakeTxLocs : list TxLoc) (blockID : Z)
    (addrKey : bytes) (txIdxs : list Z) : M B unit :=
  match txIdxs with
  | [] => ret tt
  | txIdx :: txIdxs =>
      let stakeIdxsStart := Z.of_nat (length txLocs) in
      let '(txLocations, blockIndex) :=
        if stakeIdxsStart <=? txIdx
        then (stakeTxLocs, wrap64 (txIdx - stakeIdxsStart))
        else (txLocs, txIdx) in
      let* txLoc := indexTxLoc txLocations blockIndex in
      let* _ := dbPutAddrIndexEntry addrKey blockID txLoc (wrap32 blockIndex) in
      connectTxIdxs txLocs stakeTxLocs blockID addrKey txIdxs
  end.

(** [for addrKey, txIdxs := range addrsToTxns] of [connectBlock], in the
    order [entries] lists the map. *)
Fixpoint connectAddrs (txLocs stakeTxLocs : list TxLoc) (blockID : Z)
    (entries : list (bytes * list Z)) : M B unit :=
  match entries with
  | [] => ret tt
  | (addrKey, txIdxs) :: entries =>
      let* _ := connectTxIdxs txLocs stakeTxLocs blockID addrKey txIdxs in
      connectAddrs txLocs stakeTxLocs blockID entries
  end.

(** Go ranges over the map in an unspecified order; [map_to_list] is one. *)
Definition connectBlock (block parent : Block) (prevScripts : PrevScripter)
    (isTreasuryEnabled : bool) : M B unit :=
  match blockTxLoc block with
  | inl err => fail err
  | inr (txLocs, stakeTxLocs) =>
      match dbFetchBlockIDByHash (blockHash block) with
      | inl err => fail err
      | inr blockID =>
          let addrsToTxns :=
            indexBlock ExtractPkScriptAddrs AddrFromSStxPkScrCommitment IsSSGen
              IsTreasuryBase IsTSpend IsSStx ∅ block prevScripts isTreasuryEnabled in
          let* _ := connectAddrs txLocs stakeTxLocs blockID (map_to_list addrsToTxns) in
          dbPutIndexerTip addrIndexKey (blockHash block) (wrapInt32 (blockHeight block))
      end
  end.

(** [for addrKey, txIdxs := range addrsToTxns] of [disconnectBlock]. *)
Fixpoint disconnectAddrs (entries : list (bytes * list Z)) : M B unit :=
  match entries with
  | [] => ret tt
  | (addrKey, txIdxs) :: entries =>
      let* _ := dbRemoveAddrIndexEntries addrKey (Z.of_nat (length txIdxs)) in
      disconnectAddrs entries
  end.

Definition disconnectBlock (block parent : Block) (prevScripts : PrevScripter)
    (isTreasuryEnabled : bool) : M B unit :=
  let addrsToTxns :=
    indexBlock ExtractPkScriptAddrs AddrFromSStxPkScrCommitment IsSSGen
      IsTreasuryBase IsTSpend IsSStx ∅ block prevScripts isTreasuryEnabled in
  let* _ := disconnectAddrs (map_to_list addrsToTxns) in
  dbPutIndexerTip addrIndexKey (blockPrevBlock block)
    (wrapInt32 (wrap64 (blockHeight block - 1))).

(** The function [EntriesForAddress] hands to [db.View], with
    [dbFetchBlockHashBySerializedID] of the transaction as the resolver. *)
Definition EntriesForAddress (dbFetchBlockHashBySerializedID : fetchBlockHashFunc)
    (addr : Address) (numToSkip numRequested : Z) (reverse : bool)
    : M B (list TxIndexEntry * Z) :=
  match addrToKey addr with
  | None => fail errUnsupportedAddressType
  | Some addrKey =>
      dbFetchAddrIndexEntries addrKey numToSkip numRequested reverse
        dbFetchBlockHashBySerializedID
  end.
End Connector.

(** The slice of the transactions of an address; Go ranges over the inner
    map in an unspecified order, [map_to_list] is one. *)
Definition UnconfirmedTxnsForAddress (idx : Unconfirmed) (addr : Address) : list Tx :=
  match addrToKey addr with
  | None => []
  | Some addrKey =>
      match txnsByAddr idx !! addrKey with
      | Some txns => (map_to_list txns).*2
      | None => []
      end
  end.

(** * Vocabulary of the properties *)

(** Powers of two indexed by a level. *)
Definition p2 (L : nat) : Z := 2 ^ Z.of_nat L.

(** ** The level layout of an address *)

(** The bytes stored at level [L] of address [a]; nothing when the key is absent. *)
Definition levelData (b : membucket) (a : bytes) (L : nat) : bytes :=
  data (b !! keyForLevel a L).

(** [E_L(a)], the number of entries at level [L]. *)
Definition E (b : membucket) (a : bytes) (L : nat) : Z :=
  Z.quot (len (levelData b a L)) txEntrySize.

(** [M_L = 8 * 2^L], the capacity of level [L] in entries. *)
Definition levelMax (L : nat) : Z := 8 * p2 L.

(** Level 0 holds between one and eight whole entries; a higher level that
    is stored is half full or full. *)
Definition good_level (L : nat) (v : bytes) : Prop :=
  match L with
  | O => ∃ k, 1 ≤ k ≤ 8 ∧ len v = 16 * k
  | S _ => len v = 64 * p2 L ∨ len v = 128 * p2 L
  end.

(** Levels [0 .. n-1] are stored and well-sized, no level above is stored. *)
Definition layout (b : membucket) (a : bytes) (n : nat) : Prop :=
  (n ≤ 256)%nat ∧
  (∀ L, (n ≤ L < 256)%nat → b !! keyForLevel a L = None) ∧
  (∀ L, (L < n)%nat → ∃ v, b !! keyForLevel a L = Some v ∧ good_level L v).

Definition stored_ok (b : membucket) (a : bytes) : Prop := ∃ n, layout b a n.

(** [f (n-1) ++ ... ++ f 0]: the levels below [n], highest first. *)
Fixpoint cat (f : nat → bytes) (n : nat) : bytes :=
  match n with
  | O => []
  | S m => f m ++ cat f m
  end.

(** The logical sequence of an address: all its levels, highest first. *)
Definition contents (b : membucket) (a : bytes) : bytes := cat (levelData b a) 256.

(** The number of entries stored for an address. *)
Definition totalEntries (b : membucket) (a : bytes) : Z :=
  Z.quot (len (contents b a)) txEntrySize.

(** The effect of moving the levels below [m + 1] up by one. *)
Definition moved_up (a : bytes) (m : nat) (b b' : membucket) : Prop :=
  (∀ i, (1 ≤ i ≤ m)%nat → b' !! keyForLevel a i = Some (levelData b a (i - 1))) ∧
  (∀ k, (∀ i, (1 ≤ i ≤ m)%nat → k ≠ keyForLevel a i) → b' !! k = b !! k).

(** What the bucket holds at a level once the pending updates are applied. *)
Definition merged (p : gmap nat bytes) (f : nat → bytes) (i : nat) : bytes :=
  match p !! i with
  | Some d => d
  | None => f i
  end.

(** Levels below [n'] are well-sized, the levels from [n'] on are empty. *)
Definition valid_levels (F : nat → bytes) (n' : nat) : Prop :=
  (n' ≤ 256)%nat ∧
  (∀ i, (i < n')%nat → good_level i (F i)) ∧
  (∀ i, (n' ≤ i < 256)%nat → F i = []).

(** ** The level invariants *)

(** The invariants the code maintains: a level above 0 is empty, half full
    or full; below a populated level no level is empty; level 0 holds at
    most eight entries. *)
Definition level_invariants (b : membucket) (a : bytes) : Prop :=
  (∀ L, (1 ≤ L < 256)%nat →
     E b a L = 0 ∨ E b a L = levelMax L / 2 ∨ E b a L = levelMax L) ∧
  (∀ L, (1 ≤ L < 256)%nat → 0 < E b a L → ∀ K, (K < L)%nat → 0 < E b a K) ∧
  E b a 0 ≤ 8.

(** Every value stored under a level key of the address is a non-empty
    whole number of entries (the code deletes a level rather than store it
    empty). *)
Definition whole_entries (b : membucket) (a : bytes) : Prop :=
  ∀ L v, (L < 256)%nat → b !! keyForLevel a L = Some v →
         v ≠ [] ∧ ∃ k, len v = 16 * k.

(** The invariants with the second one read as: below a populated level
    every level is full. *)
Definition level_invariants_full_below (b : membucket) (a : bytes) : Prop :=
  (∀ L, (1 ≤ L < 256)%nat →
     E b a L = 0 ∨ E b a L = levelMax L / 2 ∨ E b a L = levelMax L) ∧
  (∀ L, (1 ≤ L < 256)%nat → 0 < E b a L → ∀ K, (K < L)%nat → E b a K = levelMax K) ∧
  E b a 0 ≤ 8.

(** Every remove of the sequence asks for no more entries than its address
    holds when it runs. *)
Fixpoint counts_ok (b : membucket) (ops : list indexOp) : Prop :=
  match ops with
  | [] => True
  | o :: ops =>
      match o with
      | OpAppend _ _ => True
      | OpRemove a count => count ≤ totalEntries b a
      end ∧
      ∀ b', runOp o b = Ok (tt, b') → counts_ok b' ops
  end.

(** Every address has a layout and holds at most [j] entries. *)
Definition all_layouts (b : membucket) (j : Z) : Prop :=
  ∀ a, ∃ n, layout b a n ∧ len (contents b a) ≤ 16 * j.

(** ** Sample data *)

Definition sampleAddr : bytes := replicate 21 7.

(** The [i]-th entry of the seed scenarios. *)
Definition sampleRecord (i : Z) : IndexRecord :=
  {| recBlockID := 1; recTxLoc := {| TxStart := i; TxLen := 1 |}; recBlockIndex := i |}.

(** The entries [i, i+1, ..., i+n-1]. *)
Fixpoint sampleRecords (n : nat) (i : Z) : list IndexRecord :=
  match n with
  | O => []
  | S n => sampleRecord i :: sampleRecords n (i + 1)
  end.

(** [counts_ok] as a computation. *)
Fixpoint counts_okb (b : membucket) (ops : list indexOp) : bool :=
  match ops with
  | [] => true
  | o :: ops =>
      match o with
      | OpAppend _ _ => true
      | OpRemove a count => count <=? totalEntries b a
      end &&
      match runOp o b with
      | Ok (_, b') => counts_okb b' ops
      | _ => true
      end
  end.

(** ** What a fetch returns *)

(** The error [dbFetchAddrIndexEntries] reports for a failed decode. *)
Definition fetchError (err : error) : error :=
  if isDeserializeErr err
  then makeDbErr ErrCorruption "failed to deserialized address index"
  else err.

(** Decoding the entries of [serialized] at the given entry offsets, in
    order, up to the first failure. *)
Fixpoint decodeAt (serialized : bytes) (fetchBlockHash : fetchBlockHashFunc)
    (offsets : list Z) : error + list TxIndexEntry :=
  match offsets with
  | [] => inr []
  | o :: offsets =>
      match deserializeAddrIndexEntry (drop (Z.to_nat (16 * o)) serialized)
              fetchBlockHash with
      | inl err => inl err
      | inr entry =>
          match decodeAt serialized fetchBlockHash offsets with
          | inl err => inl err
          | inr entries => inr (entry :: entries)
          end
      end
  end.

(** The entry offsets [g i, g (i + 1), ...], [todo] of them. *)
Fixpoint offsetsFrom (todo : nat) (i : Z) (g : Z → Z) : list Z :=
  match todo with
  | O => []
  | S todo => g i :: offsetsFrom todo (i + 1) g
  end.

(** The entry offset of the [j]-th result of a fetch over [N] entries. *)
Definition fetchOffset (N numToSkip : Z) (reverse : bool) (j : Z) : Z :=
  if reverse then N - numToSkip - j - 1 else numToSkip + j.

(** The entry a record decodes to, given the hash of its block. *)
Definition entryOf (hash : bytes) (e : IndexRecord) : TxIndexEntry :=
  {| Region := {| Hash := hash;
                  Offset := wrap32 (TxStart (recTxLoc e));
                  Len := wrap32 (TxLen (recTxLoc e)) |};
     BlockIndex := wrap32 (recBlockIndex e) |}.

(** ** The block indexer *)

(** The indexes recorded for an address up to transaction [t]: no index
    twice, none above [t], none above the last one. *)
Definition indexed_upto (t : Z) (l : list Z) : Prop :=
  NoDup l ∧ (∀ y, y ∈ l → y ≤ t) ∧ (∀ x y, last l = Some x → y ∈ l → y ≤ x).

Definition all_indexed_upto (t : Z) (data : writeIndexData) : Prop :=
  ∀ addrKey l, data !! addrKey = Some l → indexed_upto t l.

(** ** The unconfirmed index *)

(** [hash] is a key of [txnsByAddr[addrKey]]. *)
Definition tx_of_addr (idx : Unconfirmed) (addrKey hash : bytes) : Prop :=
  ∃ inner, txnsByAddr idx !! addrKey = Some inner ∧ is_Some (inner !! hash).

(** [addrKey] is a member of [addrsByTx[hash]]. *)
Definition addr_of_tx (idx : Unconfirmed) (hash addrKey : bytes) : Prop :=
  ∃ addrs, addrsByTx idx !! hash = Some addrs ∧ addrKey ∈ addrs.

Definition mirror_consistent (idx : Unconfirmed) : Prop :=
  (∀ addrKey hash, tx_of_addr idx addrKey hash ↔ addr_of_tx idx hash addrKey) ∧
  (∀ addrKey inner, txnsByAddr idx !! addrKey = Some inner → inner ≠ ∅).

(** [hash] is a key of the inner map of [addrKey] in [txns]. *)
Definition in_txns (txns : gmap bytes (gmap bytes Tx)) (addrKey hash : bytes) : Prop :=
  ∃ inner, txns !! addrKey = Some inner ∧ is_Some (inner !! hash).

Definition inner_nonempty (txns : gmap bytes (gmap bytes Tx)) : Prop :=
  ∀ addrKey inner, txns !! addrKey = Some inner → inner ≠ ∅.


(** A block whose first transaction pays one script hash twice and whose
    second pays it again. *)
Definition sampleScript : bytes := replicate 20 5.
Definition sampleExtract (version : Z) (pkScript : bytes) (isTreasuryEnabled : bool)
    : ScriptClass * list Address * bool :=
  (OtherTy 0, [AddressScriptHashV0 pkScript], false).
Definition sampleBlock : Block :=
  {| Transactions :=
       [ {| TxHash := [0];
            TxMsg := {| MsgTxIn := [];
                        MsgTxOut := [ {| Version := 0; PkScript := sampleScript |};
                                      {| Version := 0; PkScript := sampleScript |} ] |} |};
         {| TxHash := [1];
            TxMsg := {| MsgTxIn := [];
                        MsgTxOut := [ {| Version := 0; PkScript := sampleScript |} ] |} |} ];
     STransactions := [] |}.

(** * Vocabulary of the further properties *)

(** ** More vocabulary of the level store *)

(** Every key of the bucket is a level key of some address. *)
Definition only_level_keys (b : membucket) : Prop :=
  ∀ k, is_Some (b !! k) → ∃ a L, (L < 256)%nat ∧ k = keyForLevel a L.

(** ** Recorded accesses *)

(** The key an access names. *)
Definition accessKey (x : access) : bytes :=
  match x with
  | AccGet key => key
  | AccPut key _ => key
  | AccDelete key => key
  end.

(** The effect of an access on the store. *)
Definition applyAccess (x : access) (s : gmap bytes bytes) : gmap bytes bytes :=
  match x with
  | AccGet _ => s
  | AccPut key value => <[key := value]> s
  | AccDelete key => delete key s
  end.

(** From [b] to [b'] the bucket recorded the accesses [l] (newest first),
    each satisfying [P], and its store changed as they say. *)
Definition recorded (P : access → Prop) (b b' : tracedBucket) : Prop :=
  ∃ l, accesses b' = l ++ accesses b ∧
       tracedStore b' = foldr applyAccess (tracedStore b) l ∧
       Forall P l.

(** Every successful run of [c] records accesses satisfying [P] only. *)
Definition accesses_only (P : access → Prop) {A : Type} (c : M tracedBucket A) : Prop :=
  ∀ b r b', c b = Ok (r, b') → recorded P b b'.

(** No key is read after it was written: in [l] (newest first), every
    access to its key that is older than an [AccGet] is an [AccGet]. *)
Definition no_read_after_write (l : list access) : Prop :=
  ∀ l1 l2 key x, l = l2 ++ AccGet key :: l1 → x ∈ l1 → accessKey x = key →
    ∃ key', x = AccGet key'.

(** The reads of [l] are of levels below [n] of the address. *)
Definition gets_below (a : bytes) (n : nat) (l : list access) : Prop :=
  ∀ key, AccGet key ∈ l → ∃ L : nat, (L < n)%nat ∧ key = keyForLevel a L.

(** The writes of [l] are of levels from [n] on of the address. *)
Definition writes_from (a : bytes) (n : nat) (l : list access) : Prop :=
  ∀ x, x ∈ l → (∀ key, x ≠ AccGet key) →
    ∃ L : nat, (n ≤ L)%nat ∧ accessKey x = keyForLevel a L.

(** The write [applyPending] makes for one pending level: a delete when the
    level is empty, a put otherwise. *)
Definition pendingWrite (addrKey : bytes) (update : nat * bytes) : access :=
  if len update.2 =? 0 then AccDelete (keyForLevel addrKey update.1)
  else AccPut (keyForLevel addrKey update.1) update.2.

(** ** More vocabulary of the block indexer *)

(** The indexes recorded for an address before transaction [t] is visited:
    strictly increasing, at least one, all in [0, t). *)
Definition ordered_below (t : Z) (l : list Z) : Prop :=
  StronglySorted Z.lt l ∧ l ≠ [] ∧ ∀ y, y ∈ l → 0 ≤ y < t.

(** A script [indexBlock] reads for the regular transaction at position [i]:
    the script of an output, or, for a transaction other than the coinbase,
    the script the scripter gives for an input. *)
Definition regular_script (prevScripts : PrevScripter) (i : nat) (tx : Tx)
    (version : Z) (pkScript : bytes) : Prop :=
  (∃ txOut, txOut ∈ MsgTxOut (TxMsg tx) ∧
            version = Version txOut ∧ pkScript = PkScript txOut) ∨
  (i ≠ 0%nat ∧
   ∃ txIn, txIn ∈ MsgTxIn (TxMsg tx) ∧
           prevScripts (PreviousOutPoint txIn) = Some (version, pkScript)).

(** Transaction index [t] is recorded under [addrKey]. *)
Definition has_index (data : writeIndexData) (addrKey : bytes) (t : Z) : Prop :=
  ∃ txIdxs, data !! addrKey = Some txIdxs ∧ t ∈ txIdxs.

(** [addr] is one of the addresses [indexPkScript] walks for a script: an
    address the extraction returns without error, or, for a null-data script
    of a ticket purchase, also the address of the commitment; when that
    commitment does not decode no address is walked. *)
Definition script_address
    (ExtractPkScriptAddrs : Z → bytes → bool → ScriptClass * list Address * bool)
    (AddrFromSStxPkScrCommitment : bytes → option Address)
    (version : Z) (pkScript : bytes) (isSStx isTreasuryEnabled : bool)
    (addr : Address) : Prop :=
  ∃ class addrs,
    ExtractPkScriptAddrs version pkScript isTreasuryEnabled = (class, addrs, false) ∧
    if isSStx && isNullDataTy class
    then ∃ c, AddrFromSStxPkScrCommitment pkScript = Some c ∧ addr ∈ addrs ++ [c]
    else addr ∈ addrs.

(** A script [indexBlock] reads for a stake transaction, with the flag it
    passes on: the script of an output, flagged when the transaction is a
    ticket purchase; or the script the scripter gives for an input, unless
    the input is the stakebase of a vote or the transaction is a treasury
    base or a treasury spend. *)
Definition stake_script (IsSSGen : MsgTx → bool → bool)
    (IsTreasuryBase IsTSpend IsSStx : MsgTx → bool)
    (prevScripts : PrevScripter) (isTreasuryEnabled : bool) (tx : Tx)
    (version : Z) (pkScript : bytes) (isSStx : bool) : Prop :=
  let msgTx := TxMsg tx in
  let isSSGen := IsSSGen msgTx isTreasuryEnabled in
  let isTreasuryBase :=
    if isTreasuryEnabled then negb isSSGen && IsTreasuryBase msgTx else false in
  let isTSpend :=
    if isTreasuryEnabled then negb isTreasuryBase && IsTSpend msgTx else false in
  (∃ txOut, txOut ∈ MsgTxOut msgTx ∧
            version = Version txOut ∧ pkScript = PkScript txOut ∧
            isSStx = IsSStx msgTx) ∨
  (isSStx = false ∧ isTreasuryBase = false ∧ isTSpend = false ∧
   ∃ (j : nat) txIn, MsgTxIn msgTx !! j = Some txIn ∧
                     ¬ (isSSGen = true ∧ j = 0%nat) ∧
                     prevScripts (PreviousOutPoint txIn) = Some (version, pkScript)).

(** [sampleBlock] with one stake transaction paying the same script. *)
Definition sampleStakeBlock : Block :=
  {| Transactions := Transactions sampleBlock;
     STransactions :=
       [ {| TxHash := [2];
            TxMsg := {| MsgTxIn := [];
                        MsgTxOut := [ {| Version := 0; PkScript := sampleScript |} ] |} |} ] |}.

(** ** Vocabulary of the connector *)

(** The entry [connectBlock] writes for transaction index [txIdx]: the
    location and the position in its tree, the stake tree starting at
    [len(txLocs)]. *)
Definition blockRecord (txLocs stakeTxLocs : list TxLoc) (blockID txIdx : Z)
    : IndexRecord :=
  let stakeIdxsStart := Z.of_nat (length txLocs) in
  let noLoc := {| TxStart := 0; TxLen := 0 |} in
  if stakeIdxsStart <=? txIdx
  then {| recBlockID := blockID;
          recTxLoc := default noLoc (stakeTxLocs !! Z.to_nat (txIdx - stakeIdxsStart));
          recBlockIndex := wrap32 (txIdx - stakeIdxsStart) |}
  else {| recBlockID := blockID;
          recTxLoc := default noLoc (txLocs !! Z.to_nat txIdx);
          recBlockIndex := wrap32 txIdx |}.

(** The bytes [connectBlock] appends for the transaction indexes [txIdxs]. *)
Definition blockEntries (txLocs stakeTxLocs : list TxLoc) (blockID : Z)
    (txIdxs : list Z) : bytes :=
  concat (map serializeRecord (map (blockRecord txLocs stakeTxLocs blockID) txIdxs)).

(** A bucket whose addresses in [entries] are laid out and have room for
    [N] more entries each. *)
Definition room_for (entries : list (bytes * list Z)) (N : Z) (b : membucket) : Prop :=
  ∀ a l, (a, l) ∈ entries →
    Z.of_nat (length l) ≤ N ∧
    ∃ n, layout b a n ∧ len (contents b a) + 16 * N < 2 ^ 32.

(** A bucket whose addresses in [entries] are laid out and hold at least
    the entries of their lists. *)
Definition holds_entries (entries : list (bytes * list Z)) (b : membucket) : Prop :=
  ∀ a l, (a, l) ∈ entries →
    ∃ n, layout b a n ∧ len (contents b a) < 2 ^ 32 ∧
         16 * Z.of_nat (length l) ≤ len (contents b a).

(** The locations of the two transactions of [sampleBlock]. *)
Definition sampleTxLocs : list TxLoc :=
  [ {| TxStart := 0; TxLen := 10 |}; {| TxStart := 10; TxLen := 20 |} ].

(** ** More vocabulary of the unconfirmed index *)

(** Every transaction of [txnsByAddr] is stored under its own hash. *)
Definition keyed_by_hash (idx : Unconfirmed) : Prop :=
  ∀ addrKey inner hash tx,
    txnsByAddr idx !! addrKey = Some inner → inner !! hash = Some tx → TxHash tx = hash.

(** [tx] is stored for [addrKey]. *)
Definition stores_tx (idx : Unconfirmed) (addrKey : bytes) (tx : Tx) : Prop :=
  ∃ inner, txnsByAddr idx !! addrKey = Some inner ∧ inner !! TxHash tx = Some tx.

(** What [removeTxFromAddr] leaves of the inner map of the address. *)
Definition withoutTx (hash : bytes) (inner : option (gmap bytes Tx))
    : option (gmap bytes Tx) :=
  match inner with
  | Some inner =>
      if decide (delete hash inner = ∅) then None else Some (delete hash inner)
  | None => None
  end.

(** The index after the address keys [K] were indexed for [tx] on top of
    [idx0]. *)
Definition added_keys (idx0 : Unconfirmed) (tx : Tx) (K : gset bytes)
    (idx : Unconfirmed) : Prop :=
  addrsByTx idx =
    (if decide (K = ∅) then addrsByTx idx0 else <[TxHash tx := K]> (addrsByTx idx0)) ∧
  ∀ a, txnsByAddr idx !! a =
       if decide (a ∈ K)
       then Some (<[TxHash tx := tx]> (default ∅ (txnsByAddr idx0 !! a)))
       else txnsByAddr idx0 !! a.

(** An operation of [ops] added [tx], and no later operation of [ops]
    removes its hash. *)
Definition added_and_kept (ops : list unconfirmedOp) (tx : Tx) : Prop :=
  ∃ ops1 ops2 prevScripts isTreasuryEnabled,
    ops = ops1 ++ OpAddUnconfirmed tx prevScripts isTreasuryEnabled :: ops2 ∧
    OpRemoveUnconfirmed (TxHash tx) ∉ ops2.

(** [tx] is stored under [hash] for [addrKey]. *)
Definition has_entry (idx : Unconfirmed) (addrKey hash : bytes) (tx : Tx) : Prop :=
  ∃ inner, txnsByAddr idx !! addrKey = Some inner ∧ inner !! hash = Some tx.

(** The second transaction of [sampleBlock]. *)
Definition sampleTx : Tx :=
  {| TxHash := [1];
     TxMsg := {| MsgTxIn := [];
                 MsgTxOut := [ {| Version := 0; PkScript := sampleScript |} ] |} |}.

(** * Properties *)

(** ** Arithmetic of the machine integers *)

Lemma wrap64_small z : - 2 ^ 63 ≤ z < 2 ^ 63 → wrap64 z = z.
Proof. intros Hz. unfold wrap64. rewrite Z.mod_small; lia. Qed.

Lemma wrap32_small z : 0 ≤ z < 2 ^ 32 → wrap32 z = z.
Proof. intros Hz. unfold wrap32. rewrite Z.mod_small; lia. Qed.

Lemma u8_inc_small l : (l < 255)%nat → u8_inc l = S l.
Proof. intros Hl. unfold u8_inc. rewrite Nat.mod_small; lia. Qed.

Lemma u8_dec_succ l : (l < 256)%nat → u8_dec (S l) = l.
Proof.
  intros Hl. unfold u8_dec.
  replace (S l + 255)%nat with (l + 1 * 256)%nat by lia.
  rewrite Nat.Div0.mod_add. apply Nat.mod_small. lia.
Qed.

Lemma p2_0 : p2 0 = 1.
Proof. reflexivity. Qed.

Lemma p2_S L : p2 (S L) = 2 * p2 L.
Proof. unfold p2. rewrite Nat2Z.inj_succ, Z.pow_succ_r; lia. Qed.

Lemma p2_pos L : 0 < p2 L.
Proof. unfold p2. apply Z.pow_pos_nonneg; lia. Qed.

Lemma p2_mono L L' : (L ≤ L')%nat → p2 L ≤ p2 L'.
Proof. intros H. unfold p2. apply Z.pow_le_mono_r; lia. Qed.

Lemma p2_lt_inv L (k : nat) : p2 L < p2 k → (L < k)%nat.
Proof.
  intros H. destruct (decide (L < k)%nat) as [|Hge]; [done|].
  pose proof (p2_mono k L ltac:(lia)). lia.
Qed.

Lemma maxEntriesForLevel_S L :
  maxEntriesForLevel (S L) = wrap64 (maxEntriesForLevel L * 2).
Proof. reflexivity. Qed.

Lemma maxEntriesForLevel_small L :
  (L ≤ 59)%nat → maxEntriesForLevel L = 8 * p2 L.
Proof.
  induction L as [|L IH]; intros HL; [reflexivity|].
  rewrite maxEntriesForLevel_S, IH, p2_S by lia.
  pose proof (p2_mono L 58 ltac:(lia)) as Hb. pose proof (p2_pos L).
  change (p2 58) with (2 ^ 58) in Hb.
  rewrite wrap64_small; lia.
Qed.

Lemma minEntriesToReachLevel_iter L :
  (L ≤ 59)%nat →
  Nat.iter L minEntriesStep (1, level0MaxEntries) = (8 * p2 L - 7, 8 * p2 L).
Proof.
  induction L as [|L IH]; intros HL; [reflexivity|].
  rewrite Nat.iter_succ, IH, p2_S by lia.
  pose proof (p2_mono L 58 ltac:(lia)) as Hb. pose proof (p2_pos L).
  change (p2 58) with (2 ^ 58) in Hb.
  unfold minEntriesStep. rewrite !wrap64_small by lia. f_equal; lia.
Qed.

Lemma minEntriesToReachLevel_small L :
  (L ≤ 59)%nat → minEntriesToReachLevel L = 8 * p2 L - 7.
Proof.
  intros HL. unfold minEntriesToReachLevel.
  by rewrite minEntriesToReachLevel_iter.
Qed.

(** ** Lengths *)

Lemma len_nil : len [] = 0.
Proof. reflexivity. Qed.

Lemma len_app s t : len (s ++ t) = len s + len t.
Proof. unfold len. rewrite length_app. lia. Qed.

Lemma len_nonneg s : 0 ≤ len s.
Proof. unfold len. lia. Qed.

Lemma len_take n s : (n ≤ length s)%nat → len (take n s) = Z.of_nat n.
Proof. intros H. unfold len. rewrite length_take. lia. Qed.

Lemma len_drop n s : len (drop n s) = len s - Z.of_nat (n `min` length s).
Proof. unfold len. rewrite length_drop. lia. Qed.

Lemma len_0_nil s : len s = 0 → s = [].
Proof. unfold len. destruct s; [done|]. cbn. lia. Qed.

(** ** Running bucket programs on the in-memory bucket *)

Lemma run_Get (A : Type) (key : bytes) (k : option bytes → M membucket A) (b : membucket) :
  (let* v := Get key in k v) b = k (b !! key) b.
Proof. reflexivity. Qed.

Lemma run_Put (A : Type) (key value : bytes) (k : unit → M membucket A) (b : membucket) :
  (let* u := Put key value in k u) b = k tt (<[key := value]> b).
Proof. reflexivity. Qed.

Lemma run_Delete (A : Type) (key : bytes) (k : unit → M membucket A) (b : membucket) :
  (let* u := Delete key in k u) b = k tt (delete key b).
Proof. reflexivity. Qed.

Lemma run_ret (B A C : Type) (a : A) (k : A → M B C) (b : B) :
  (let* v := ret a in k v) b = k a b.
Proof. reflexivity. Qed.

Lemma run_bind_Ok (B A C : Type) (c : M B A) (k : A → M B C) (b b' : B) (a : A) :
  c b = Ok (a, b') → (let* v := c in k v) b = k a b'.
Proof. intros H. unfold bind. by rewrite H. Qed.

Lemma run_bind_Err (B A C : Type) (c : M B A) (k : A → M B C) (b : B) (e : error) :
  c b = Err e → (let* v := c in k v) b = Err e.
Proof. intros H. unfold bind. by rewrite H. Qed.

Lemma sliceTo_ok (B : Type) (s : bytes) (hi : Z) :
  0 ≤ hi ≤ len s → @sliceTo B s hi = ret (take (Z.to_nat hi) s).
Proof.
  intros H. unfold sliceTo.
  destruct (Z.leb_spec 0 hi), (Z.leb_spec hi (len s)); simpl; first done; lia.
Qed.

Lemma sliceFrom_ok (B : Type) (s : bytes) (lo : Z) :
  0 ≤ lo ≤ len s → @sliceFrom B s lo = ret (drop (Z.to_nat lo) s).
Proof.
  intros H. unfold sliceFrom.
  destruct (Z.leb_spec 0 lo), (Z.leb_spec lo (len s)); simpl; first done; lia.
Qed.

(** Level keys of one address differ by level, those of two addresses differ. *)
Lemma keyForLevel_inj a a' L L' :
  keyForLevel a L = keyForLevel a' L' → a = a' ∧ L = L'.
Proof.
  unfold keyForLevel. intros H. apply app_inj_tail in H as [-> H].
  split; [done|]. lia.
Qed.

Lemma keyForLevel_ne a L L' : L ≠ L' → keyForLevel a L ≠ keyForLevel a L'.
Proof. intros H E. by apply keyForLevel_inj in E as [_ ?]. Qed.

(** ** Concatenating levels *)

Lemma cat_S f n : cat f (S n) = f n ++ cat f n.
Proof. reflexivity. Qed.

Lemma cat_ext f g n : (∀ i, (i < n)%nat → f i = g i) → cat f n = cat g n.
Proof.
  induction n as [|n IH]; intros H; [done|]. simpl.
  rewrite H, IH; [done| |lia]. intros i Hi. apply H. lia.
Qed.

Lemma cat_add f n m : cat f (m + n) = cat (λ i, f (n + i)%nat) m ++ cat f n.
Proof.
  induction m as [|m IH]; [done|]. simpl. rewrite IH, app_assoc.
  by replace (n + m)%nat with (m + n)%nat by lia.
Qed.

Lemma cat_nil f n : (∀ i, (i < n)%nat → f i = []) → cat f n = [].
Proof.
  induction n as [|n IH]; intros H; [done|]. simpl.
  rewrite H, IH; [done| |lia]. intros i Hi. apply H. lia.
Qed.

Lemma cat_above f n m :
  (n ≤ m)%nat → (∀ i, (n ≤ i < m)%nat → f i = []) → cat f m = cat f n.
Proof.
  intros Hnm H. replace m with ((m - n) + n)%nat by lia.
  rewrite cat_add, cat_nil; [done|]. intros i Hi. apply H. lia.
Qed.

Lemma cat_shift f n : cat f (S n) = cat (λ i, f (S i)) n ++ f 0%nat.
Proof.
  replace (S n) with (n + 1)%nat by lia. rewrite cat_add. simpl.
  by rewrite app_nil_r.
Qed.

Lemma len_cat_ge f n i : (i < n)%nat → len (f i) ≤ len (cat f n).
Proof.
  induction n as [|n IH]; intros Hi; [lia|]. simpl. rewrite len_app.
  pose proof (len_nonneg (f n)). pose proof (len_nonneg (cat f n)).
  destruct (decide (i = n)) as [->|]; [lia|]. specialize (IH ltac:(lia)). lia.
Qed.

Lemma levelData_Some b a L v : b !! keyForLevel a L = Some v → levelData b a L = v.
Proof. unfold levelData. by intros ->. Qed.

Lemma levelData_None b a L : b !! keyForLevel a L = None → levelData b a L = [].
Proof. unfold levelData. by intros ->. Qed.

Lemma layout_contents b a n : layout b a n → contents b a = cat (levelData b a) n.
Proof.
  intros (Hn & Habove & _). unfold contents. apply cat_above; [done|].
  intros i Hi. by apply levelData_None, Habove.
Qed.

Lemma good_level_len L v : good_level L v → 16 ≤ len v.
Proof.
  destruct L as [|L]; simpl.
  - intros (k & Hk & ->). lia.
  - pose proof (p2_pos (S L)). lia.
Qed.

Lemma good_level_nonempty L v : good_level L v → v ≠ [].
Proof. intros H%good_level_len ->. rewrite len_nil in H. lia. Qed.

(** A small store has few levels. *)
Lemma layout_height b a n :
  layout b a n → len (contents b a) < 2 ^ 32 → (n ≤ 27)%nat.
Proof.
  intros Hl Hsmall. destruct (decide (n ≤ 27)%nat) as [|Hbig]; [done|exfalso].
  destruct Hl as (Hn & _ & Hgood).
  destruct (Hgood 27%nat ltac:(lia)) as (v & Hv & Hg).
  pose proof (len_cat_ge (levelData b a) 256 27 ltac:(lia)) as Hle.
  fold (contents b a) in Hle. rewrite (levelData_Some _ _ _ _ Hv) in Hle.
  simpl in Hg. change (p2 27) with (2 ^ 27) in Hg. lia.
Qed.

(** ** dbPutAddrIndexEntry on the in-memory bucket *)

Lemma len_serializeAddrIndexEntry blockID txLoc blockIndex :
  len (serializeAddrIndexEntry blockID txLoc blockIndex) = 16.
Proof. reflexivity. Qed.

Lemma moveLevelsUp_mem (a : bytes) (m : nat) (b : membucket) :
  ∃ b', moveLevelsUp a m b = Ok (tt, b') ∧ moved_up a m b b'.
Proof.
  revert b. induction m as [|m IH]; intros b.
  - exists b. split; [done|]. split; [intros i Hi; lia|done].
  - cbn [moveLevelsUp]. rewrite run_Get, run_Put.
    destruct (IH (<[keyForLevel a (S m) := data (b !! keyForLevel a m)]> b))
      as (b' & Hrun & Hup & Hframe).
    exists b'. split; [done|]. split.
    + intros i Hi. destruct (decide (i = S m)) as [->|Hne].
      * rewrite Hframe.
        -- rewrite lookup_insert_eq. by replace (S m - 1)%nat with m by lia.
        -- intros j Hj. apply keyForLevel_ne. lia.
      * rewrite Hup by lia. f_equal. unfold levelData.
        rewrite lookup_insert_ne; [done|]. apply keyForLevel_ne. lia.
    + intros k Hk. rewrite Hframe.
      * rewrite lookup_insert_ne; [done|]. intros <-. by apply (Hk (S m)); [lia|].
      * intros i Hi. apply Hk. lia.
Qed.

(** The merge loop entered at level [c] stops at the first level [L] above
    [c] that is not full. *)
Lemma mergeLevels_mem (fuel : nat) (a : bytes) (c L : nat) (prev : option bytes) (b : membucket) :
  (c < L ≤ 55)%nat → (L - c ≤ fuel)%nat →
  (∀ m, (c < m < L)%nat → len (levelData b a m) = 128 * p2 m) →
  len (levelData b a L) ≠ 128 * p2 L →
  mergeLevels fuel a c (128 * p2 c) prev b =
    moveLevelsUp a (L - 1)
      (<[keyForLevel a L :=
           levelData b a L ++
           (if decide (S c = L) then data prev else levelData b a (L - 1))]> b).
Proof.
  revert c prev. induction fuel as [|fuel IH]; intros c prev HL Hfuel Hfull Hnot; [lia|].
  cbn [mergeLevels]. rewrite u8_inc_small by lia. rewrite run_Get.
  pose proof (p2_mono c 54 ltac:(lia)) as Hb. pose proof (p2_pos c).
  change (p2 54) with (2 ^ 54) in Hb.
  rewrite wrap64_small by lia.
  replace (128 * p2 c * 2) with (128 * p2 (S c)) by (rewrite p2_S; lia).
  fold (levelData b a (S c)).
  destruct (decide (S c = L)) as [<-|Hne].
  - apply Z.eqb_neq in Hnot. rewrite Hnot. rewrite run_Put.
    rewrite u8_dec_succ by lia. replace (S c - 1)%nat with c by lia.
    do 2 f_equal. destruct (Z.ltb_spec 0 (len (levelData b a (S c)))); [done|].
    rewrite (len_0_nil (levelData b a (S c))); [done|].
    pose proof (len_nonneg (levelData b a (S c))). lia.
  - rewrite (Hfull (S c)) by lia. rewrite Z.eqb_refl.
    rewrite (IH (S c)); [|lia|lia|intros m Hm; apply Hfull; lia|done].
    do 2 f_equal. destruct (decide (S (S c) = L)) as [<-|]; [|done].
    by replace (S (S c) - 1)%nat with (S c) by lia.
Qed.

(** The fast path: the new entry fits in level 0. *)
Lemma dbPutAddrIndexEntry_fits (a : bytes) (blockID : Z) (txLoc : TxLoc) (blockIndex : Z)
    (b : membucket) :
  len (levelData b a 0) + 16 ≤ 128 →
  dbPutAddrIndexEntry a blockID txLoc blockIndex b =
    Ok (tt, <[keyForLevel a 0 :=
               levelData b a 0 ++ serializeAddrIndexEntry blockID txLoc blockIndex]> b).
Proof.
  intros Hfit. unfold dbPutAddrIndexEntry. rewrite run_Get.
  fold (levelData b a 0). rewrite len_serializeAddrIndexEntry.
  pose proof (len_nonneg (levelData b a 0)).
  rewrite wrap64_small by lia.
  change (wrap64 (level0MaxEntries * txEntrySize)) with 128.
  destruct (Z.leb_spec (len (levelData b a 0) + 16) 128); [|lia].
  destruct (Z.ltb_spec 0 (len (levelData b a 0))); [done|].
  rewrite (len_0_nil (levelData b a 0)); [done|lia].
Qed.

(** The cascade: level 0 is full and [L] is the first level that is not. *)
Lemma dbPutAddrIndexEntry_cascade (a : bytes) (blockID : Z) (txLoc : TxLoc) (blockIndex : Z)
    (b : membucket) (L : nat) :
  len (levelData b a 0) = 128 →
  (1 ≤ L ≤ 55)%nat →
  (∀ m, (1 ≤ m < L)%nat → len (levelData b a m) = 128 * p2 m) →
  len (levelData b a L) ≠ 128 * p2 L →
  ∃ b', dbPutAddrIndexEntry a blockID txLoc blockIndex b = Ok (tt, b') ∧
    b' !! keyForLevel a L = Some (levelData b a L ++ levelData b a (L - 1)) ∧
    (∀ m, (1 ≤ m < L)%nat → b' !! keyForLevel a m = Some (levelData b a (m - 1))) ∧
    b' !! keyForLevel a 0 = Some (serializeAddrIndexEntry blockID txLoc blockIndex) ∧
    (∀ k, (∀ m, (m ≤ L)%nat → k ≠ keyForLevel a m) → b' !! k = b !! k).
Proof.
  intros H0 HL Hfull Hnot. unfold dbPutAddrIndexEntry. rewrite run_Get.
  fold (levelData b a 0). rewrite len_serializeAddrIndexEntry, H0.
  rewrite wrap64_small by lia.
  change (wrap64 (level0MaxEntries * txEntrySize)) with 128.
  destruct (Z.leb_spec (128 + 16) 128); [lia|].
  change 128 with (128 * p2 0) at 1.
  set (b1 := <[keyForLevel a L := levelData b a L ++
                (if decide (1%nat = L) then data (b !! keyForLevel a 0)
                 else levelData b a (L - 1))]> b).
  destruct (moveLevelsUp_mem a (L - 1) b1) as (b2 & Hrun & Hup & Hframe).
  erewrite run_bind_Ok; last first.
  { rewrite (mergeLevels_mem loopFuel a 0 L); [exact Hrun|lia|unfold loopFuel; lia| |done].
    intros m Hm. apply Hfull. lia. }
  exists (<[keyForLevel a 0 := serializeAddrIndexEntry blockID txLoc blockIndex]> b2).
  split; [done|].
  assert (Hb1 : ∀ i, i ≠ L → levelData b1 a i = levelData b a i).
  { intros i Hi. unfold levelData, b1. rewrite lookup_insert_ne; [done|].
    apply keyForLevel_ne. lia. }
  split; [|split; [|split]].
  - rewrite lookup_insert_ne by (apply keyForLevel_ne; lia).
    rewrite Hframe by (intros i Hi; apply keyForLevel_ne; lia).
    unfold b1. rewrite lookup_insert_eq. f_equal. f_equal.
    destruct (decide (1%nat = L)) as [<-|]; done.
  - intros m Hm. rewrite lookup_insert_ne by (apply keyForLevel_ne; lia).
    rewrite Hup by lia. f_equal. apply Hb1. lia.
  - by rewrite lookup_insert_eq.
  - intros k Hk. rewrite lookup_insert_ne by (intros <-; by apply (Hk 0%nat); [lia|]).
    rewrite Hframe by (intros i Hi; apply Hk; lia).
    unfold b1. rewrite lookup_insert_ne; [done|]. intros <-. by apply (Hk L).
Qed.

Lemma layout_stored b a n L :
  layout b a n → (L < n)%nat →
  b !! keyForLevel a L = Some (levelData b a L) ∧ good_level L (levelData b a L).
Proof.
  intros (_ & _ & Hgood) HL. destruct (Hgood L HL) as (v & Hv & Hg).
  by rewrite (levelData_Some _ _ _ _ Hv).
Qed.

Lemma layout_absent b a n L :
  layout b a n → (n ≤ L < 256)%nat →
  b !! keyForLevel a L = None ∧ levelData b a L = [].
Proof.
  intros (_ & Habove & _) HL. split; [by apply Habove|].
  by apply levelData_None, Habove.
Qed.

(** Walking up from level 1, some level up to [n] is not full when level [n]
    is not. *)
Lemma first_not_full (f : nat → bytes) (n : nat) :
  (1 ≤ n)%nat → len (f n) ≠ 128 * p2 n →
  ∃ L, (1 ≤ L ≤ n)%nat ∧ (∀ m, (1 ≤ m < L)%nat → len (f m) = 128 * p2 m) ∧
       len (f L) ≠ 128 * p2 L.
Proof.
  intros Hn Hnot.
  assert (Hj : ∀ j, (j ≤ n)%nat →
    (∀ m, (1 ≤ m ≤ j)%nat → len (f m) = 128 * p2 m) ∨
    ∃ L, (1 ≤ L ≤ j)%nat ∧ (∀ m, (1 ≤ m < L)%nat → len (f m) = 128 * p2 m) ∧
         len (f L) ≠ 128 * p2 L).
  { induction j as [|j IH]; intros Hjn.
    - left. intros m Hm. lia.
    - destruct (IH ltac:(lia)) as [Hall|(L & HL & Hfull & HnotL)].
      + destruct (decide (len (f (S j)) = 128 * p2 (S j))) as [Heq|Hne].
        * left. intros m Hm. destruct (decide (m = S j)) as [->|]; [done|].
          apply Hall. lia.
        * right. exists (S j). split; [lia|]. split; [|done].
          intros m Hm. apply Hall. lia.
      + right. exists L. split; [lia|]. by split. }
  destruct (Hj n ltac:(lia)) as [Hall|(L & HL & Hfull & HnotL)].
  - exfalso. apply Hnot, Hall. lia.
  - by exists L.
Qed.

(** An append keeps the layout and extends the logical sequence. *)
Lemma dbPutAddrIndexEntry_layout (a : bytes) (blockID : Z) (txLoc : TxLoc)
    (blockIndex : Z) (b : membucket) (n : nat) :
  layout b a n → len (contents b a) + 16 < 2 ^ 32 →
  ∃ b' n', dbPutAddrIndexEntry a blockID txLoc blockIndex b = Ok (tt, b') ∧
    layout b' a n' ∧
    contents b' a = contents b a ++ serializeAddrIndexEntry blockID txLoc blockIndex ∧
    (∀ k, (∀ L, (L < 256)%nat → k ≠ keyForLevel a L) → b' !! k = b !! k).
Proof.
  intros Hlay Hsmall.
  pose proof (len_nonneg (contents b a)) as Hc0.
  pose proof (layout_height b a n Hlay ltac:(lia)) as Hn.
  set (new := serializeAddrIndexEntry blockID txLoc blockIndex).
  assert (Hnew : len new = 16) by done.
  (* the fast path, for a level 0 with room *)
  assert (Hfast : len (levelData b a 0) + 16 ≤ 128 →
    ∃ b' n', dbPutAddrIndexEntry a blockID txLoc blockIndex b = Ok (tt, b') ∧
      layout b' a n' ∧ contents b' a = contents b a ++ new ∧
      (∀ k, (∀ L, (L < 256)%nat → k ≠ keyForLevel a L) → b' !! k = b !! k)).
  { intros Hfit. eexists _, (Nat.max n 1). split; [by apply dbPutAddrIndexEntry_fits|].
    fold new. set (b' := <[keyForLevel a 0 := levelData b a 0 ++ new]> b).
    assert (Hother : ∀ L, L ≠ 0%nat → b' !! keyForLevel a L = b !! keyForLevel a L).
    { intros L HL. unfold b'. rewrite lookup_insert_ne; [done|]. apply keyForLevel_ne. lia. }
    assert (Hlay' : layout b' a (Nat.max n 1)).
    { split; [lia|]. split.
      - intros L HL. rewrite Hother by lia. apply (layout_absent b a n); [done|lia].
      - intros L HL. destruct L as [|L].
        + eexists. split; [apply lookup_insert_eq|]. simpl.
          destruct (decide (n = 0%nat)) as [->|Hn0].
          * destruct (layout_absent b a 0 0 Hlay ltac:(lia)) as [_ ->].
            exists 1. rewrite len_app, len_nil. lia.
          * destruct (layout_stored b a n 0 Hlay ltac:(lia)) as [_ (k & Hk & Hlen)].
            exists (k + 1). rewrite len_app. lia.
        + rewrite Hother by lia.
          destruct (layout_stored b a n (S L) Hlay ltac:(lia)) as [-> Hg]. eauto. }
    split; [done|]. split.
    - rewrite (layout_contents _ _ _ Hlay'), (layout_contents _ _ _ Hlay).
      replace (cat (levelData b a) n) with (cat (levelData b a) (Nat.max n 1)).
      2:{ apply cat_above; [lia|]. intros i Hi.
          apply (layout_absent b a n); [done|lia]. }
      destruct (Nat.max n 1) as [|m] eqn:Hm; [lia|].
      rewrite !cat_shift. rewrite <- app_assoc. f_equal.
      + apply cat_ext. intros i Hi. unfold levelData. by rewrite Hother by lia.
      + unfold levelData at 1. unfold b'. by rewrite lookup_insert_eq.
    - intros k Hk. unfold b'. rewrite lookup_insert_ne; [done|].
      intros <-. by apply (Hk 0%nat); [lia|]. }
  destruct (decide (len (levelData b a 0) + 16 ≤ 128)) as [Hfit|Hfull0]; [by apply Hfast|].
  (* level 0 is full: the cascade *)
  assert (Hn1 : (1 ≤ n)%nat).
  { destruct n as [|n']; [|lia]. exfalso. apply Hfull0.
    destruct (layout_absent b a 0 0 Hlay ltac:(lia)) as [_ ->]. rewrite len_nil. lia. }
  assert (H0 : len (levelData b a 0) = 128).
  { destruct (layout_stored b a n 0 Hlay ltac:(lia)) as [_ (k & Hk & Hlen)]. lia. }
  destruct (first_not_full (levelData b a) n Hn1) as (L & HL & Hfull & Hnot).
  { destruct (layout_absent b a n n Hlay ltac:(lia)) as [_ ->].
    pose proof (p2_pos n). rewrite len_nil. lia. }
  destruct (dbPutAddrIndexEntry_cascade a blockID txLoc blockIndex b L H0 ltac:(lia) Hfull Hnot)
    as (b' & Hrun & HbL & Hbm & Hb0 & Hframe).
  fold new in Hb0.
  assert (Habv : ∀ i, (L < i)%nat → b' !! keyForLevel a i = b !! keyForLevel a i).
  { intros i Hi. apply Hframe. intros m Hm. apply keyForLevel_ne. lia. }
  assert (HfullBelow : ∀ m, (m < L)%nat → len (levelData b a m) = 128 * p2 m).
  { intros m Hm. destruct m as [|m]; [by rewrite H0|]. apply Hfull. lia. }
  exists b', (Nat.max n (S L)).
  assert (Hlay' : layout b' a (Nat.max n (S L))).
  { split; [lia|]. split.
    - intros i Hi. rewrite Habv by lia. apply (layout_absent b a n); [done|lia].
    - intros i Hi. destruct (decide (i = 0%nat)) as [->|Hi0].
      { eexists. split; [exact Hb0|]. exists 1. rewrite Hnew. lia. }
      destruct (decide (i < L)%nat) as [HiL|HiL].
      { eexists. split; [apply Hbm; lia|]. destruct i as [|i]; [lia|]. simpl.
        left. rewrite Nat.sub_0_r, HfullBelow by lia.
        rewrite p2_S. lia. }
      destruct (decide (i = L)) as [->|HiL'].
      { eexists. split; [exact HbL|]. destruct L as [|L']; [lia|]. simpl.
        rewrite len_app, Nat.sub_0_r.
        rewrite (HfullBelow L') by lia. rewrite p2_S.
        destruct (decide (S L' < n)%nat) as [Hin|Hout].
        - destruct (layout_stored b a n (S L') Hlay Hin) as [_ Hg]. simpl in Hg.
          rewrite p2_S in Hg, Hnot. right. lia.
        - destruct (layout_absent b a n (S L') Hlay ltac:(lia)) as [_ ->].
          rewrite len_nil. left. lia. }
      rewrite Habv by lia.
      destruct (layout_stored b a n i Hlay ltac:(lia)) as [-> Hg]. eauto. }
  split; [done|]. split; [done|]. split.
  - rewrite (layout_contents _ _ _ Hlay'), (layout_contents _ _ _ Hlay).
    replace (cat (levelData b a) n) with (cat (levelData b a) (Nat.max n (S L))).
    2:{ apply cat_above; [lia|]. intros i Hi.
        apply (layout_absent b a n); [done|lia]. }
    replace (Nat.max n (S L)) with ((Nat.max n (S L) - S L) + S L)%nat by lia.
    rewrite !(cat_add _ (S L)). rewrite <- app_assoc. f_equal.
    + apply cat_ext. intros i Hi. unfold levelData. by rewrite Habv by lia.
    + destruct L as [|L']; [lia|].
      rewrite (cat_S (levelData b' a) (S L')), (cat_shift (levelData b' a) L').
      rewrite (cat_S (levelData b a) (S L')), (cat_S (levelData b a) L').
      unfold levelData at 1 3. rewrite HbL, Hb0. simpl.
      rewrite Nat.sub_0_r, <- !app_assoc. do 2 f_equal. f_equal.
      apply cat_ext. intros i Hi. unfold levelData at 1.
      rewrite Hbm by lia. simpl. by rewrite Nat.sub_0_r.
  - intros k Hk. apply Hframe. intros m Hm. apply Hk. lia.
Qed.

(** ** dbRemoveAddrIndexEntries on the in-memory bucket *)

Lemma applyPendingList_mem (a : bytes) (l : list (nat * bytes)) (b : membucket) :
  NoDup l.*1 →
  ∃ b', applyPendingList a l b = Ok (tt, b') ∧
    (∀ L d, (L, d) ∈ l →
       b' !! keyForLevel a L = if len d =? 0 then None else Some d) ∧
    (∀ k, (∀ L d, (L, d) ∈ l → k ≠ keyForLevel a L) → b' !! k = b !! k).
Proof.
  revert b. induction l as [|[L d] l IH]; intros b Hnd.
  - exists b. split; [done|]. split; [|done]. intros L d H. by apply elem_of_nil in H.
  - apply NoDup_cons in Hnd as [HL Hnd]. cbn [applyPendingList].
    set (b1 := if len d =? 0 then delete (keyForLevel a L) b
               else <[keyForLevel a L := d]> b).
    destruct (IH b1 Hnd) as (b' & Hrun & Hin & Hframe).
    exists b'. split.
    { rewrite <- Hrun. unfold b1. destruct (len d =? 0); [apply run_Delete|apply run_Put]. }
    split.
    + intros L' d' [Heq|Hl]%elem_of_cons.
      * injection Heq as -> ->. rewrite Hframe.
        -- unfold b1. destruct (len d =? 0);
             [apply lookup_delete_eq|apply lookup_insert_eq].
        -- intros L' d' Hl <-%keyForLevel_inj%proj2. apply HL.
           apply list_elem_of_fmap. by exists (L, d').
      * by apply Hin.
    + intros k Hk. rewrite Hframe.
      * assert (k ≠ keyForLevel a L) by (apply (Hk L d); left).
        unfold b1. destruct (len d =? 0);
          [by rewrite lookup_delete_ne|by rewrite lookup_insert_ne].
      * intros L' d' Hl. apply (Hk L' d'). by right.
Qed.

Lemma applyPending_mem (a : bytes) (p : gmap nat bytes) (b : membucket) :
  ∃ b', applyPending a p b = Ok (tt, b') ∧
    (∀ L d, p !! L = Some d →
       b' !! keyForLevel a L = if len d =? 0 then None else Some d) ∧
    (∀ k, (∀ L, is_Some (p !! L) → k ≠ keyForLevel a L) → b' !! k = b !! k).
Proof.
  destruct (applyPendingList_mem a (map_to_list p) b) as (b' & Hrun & Hin & Hframe).
  { apply NoDup_fst_map_to_list. }
  exists b'. split; [done|]. split.
  - intros L d HL. apply Hin. by apply elem_of_map_to_list.
  - intros k Hk. apply Hframe. intros L d HL%elem_of_map_to_list. apply Hk. eauto.
Qed.

(** After the pending updates the bucket holds [merged] at every level. *)
Lemma applyPending_levelData (a : bytes) (p : gmap nat bytes) (b b' : membucket) :
  applyPending a p b = Ok (tt, b') →
  (∀ L, levelData b' a L = merged p (levelData b a) L) ∧
  (∀ L, b' !! keyForLevel a L = None ↔
        (merged p (levelData b a) L = [] ∧
         (p !! L = None → b !! keyForLevel a L = None))) ∧
  (∀ k, (∀ L, is_Some (p !! L) → k ≠ keyForLevel a L) → b' !! k = b !! k).
Proof.
  intros Hrun. destruct (applyPending_mem a p b) as (b2 & Hrun2 & Hin & Hframe).
  rewrite Hrun in Hrun2. injection Hrun2 as <-.
  assert (Hnone : ∀ L, p !! L = None → b' !! keyForLevel a L = b !! keyForLevel a L).
  { intros L HL. apply Hframe. intros L' [d Hd] E%keyForLevel_inj%proj2. congruence. }
  split; [|split; [|done]].
  - intros L. unfold merged, levelData. destruct (p !! L) as [d|] eqn:HL.
    + rewrite (Hin _ _ HL). destruct (Z.eqb_spec (len d) 0) as [H0|]; [|done].
      by rewrite (len_0_nil _ H0).
    + by rewrite Hnone.
  - intros L. unfold merged, levelData. destruct (p !! L) as [d|] eqn:HL.
    + rewrite (Hin _ _ HL). destruct (Z.eqb_spec (len d) 0) as [H0|Hne].
      * rewrite (len_0_nil _ H0). split; [done|]. by intros _.
      * split; [done|]. intros [-> _]. by rewrite len_nil in Hne.
    + rewrite Hnone by done. split.
      * intros ->. done.
      * intros [_ H]. by apply H.
Qed.

Lemma good_level_entries L v :
  good_level L v → ∃ m, len v = 16 * m ∧ 1 ≤ m ≤ 8 * p2 L.
Proof.
  destruct L as [|L]; simpl.
  - intros (k & Hk & Hlen). exists k. rewrite p2_0. lia.
  - pose proof (p2_pos (S L)) as Hpos. intros [H|H].
    + exists (4 * p2 (S L)). lia.
    + exists (8 * p2 (S L)). lia.
Qed.

Lemma quot_entries v m : len v = 16 * m → Z.quot (len v) txEntrySize = m.
Proof. intros ->. unfold txEntrySize. rewrite Z.mul_comm. apply Z.quot_mul. lia. Qed.

Lemma p2_le_27 L : (L ≤ 27)%nat → p2 L ≤ 2 ^ 27.
Proof. intros H. apply (p2_mono L 27 H). Qed.

Lemma len_cat_mono (f : nat → bytes) (i j : nat) :
  (i ≤ j)%nat → len (cat f i) ≤ len (cat f j).
Proof.
  intros Hij. replace j with ((j - i) + i)%nat by lia.
  rewrite cat_add, len_app. pose proof (len_nonneg (cat (λ k, f (i + k)%nat) (j - i))). lia.
Qed.

Section RemoveFromLevels.
Context (a : bytes) (b : membucket) (n : nat).
Hypothesis Hlay : layout b a n.
Hypothesis Hn : (n ≤ 27)%nat.
Hypothesis Hsmall : len (cat (levelData b a) n) < 2 ^ 32.

Let f := levelData b a.

(** The forward loop fails when more entries are asked for than stored. *)
Lemma removeFromLevels_short (fuel level : nat) (p : gmap nat bytes)
    (hll : nat) (r : Z) :
  (level ≤ n)%nat → (n - level < fuel)%nat → 0 < r < 2 ^ 63 →
  len (cat f n) - len (cat f level) < 16 * r →
  removeFromLevels fuel a p hll level r b =
    Err (AssertError "dbRemoveAddrIndexEntries not enough entries").
Proof.
  revert level p hll r. induction fuel as [|fuel IH]; intros level p hll r Hlev Hfuel Hr Hshort;
    [lia|].
  cbn [removeFromLevels]. destruct (Z.ltb_spec 0 r); [|lia].
  rewrite run_Get. fold (levelData b a level). fold f.
  destruct (decide (level = n)) as [->|Hne].
  - destruct (layout_absent b a n n Hlay ltac:(lia)) as [_ Hnil]. fold f in Hnil.
    rewrite Hnil. done.
  - destruct (layout_stored b a n level Hlay ltac:(lia)) as [_ Hg]. fold f in Hg.
    destruct (good_level_entries _ _ Hg) as (m & Hm & Hm1).
    destruct (Z.eqb_spec (len (f level)) 0); [lia|]. simpl.
    rewrite (quot_entries _ _ Hm).
    pose proof (cat_S f level) as Hcat. apply (f_equal len) in Hcat.
    rewrite len_app in Hcat.
    pose proof (len_cat_mono f (S level) n ltac:(lia)).
    destruct (Z.leb_spec m r); [|lia].
    rewrite u8_inc_small by lia. rewrite wrap64_small by lia.
    apply IH; lia.
Qed.

(** The forward loop stops in the level [h] that holds the cut. *)
Lemma removeFromLevels_cut (fuel level : nat) (p : gmap nat bytes)
    (hll : nat) (r : Z) :
  (level ≤ n)%nat → (n - level < fuel)%nat → 0 < r →
  16 * r ≤ len (cat f n) - len (cat f level) →
  ∃ (h : nat) (p' : gmap nat bytes),
    removeFromLevels fuel a p hll level r b = Ok ((p', h), b) ∧
    (level ≤ h < n)%nat ∧
    let rb := 16 * r - (len (cat f h) - len (cat f level)) in
    0 < rb ≤ len (f h) ∧
    (∀ i, (level ≤ i < h)%nat → p' !! i = Some []) ∧
    p' !! h = Some (take (Z.to_nat (len (f h) - rb)) (f h)) ∧
    (∀ i, (i < level ∨ h < i)%nat → p' !! i = p !! i).
Proof.
  revert level p hll r. induction fuel as [|fuel IH]; intros level p hll r Hlev Hfuel Hr Hfit;
    [lia|].
  cbn [removeFromLevels]. destruct (Z.ltb_spec 0 r); [|lia].
  rewrite run_Get. fold (levelData b a level). fold f.
  assert (Hlt : (level < n)%nat).
  { destruct (decide (level = n)) as [->|]; [lia|lia]. }
  destruct (layout_stored b a n level Hlay Hlt) as [_ Hg]. fold f in Hg.
  destruct (good_level_entries _ _ Hg) as (m & Hm & Hm1).
  pose proof (p2_le_27 level ltac:(lia)) as Hp.
  destruct (Z.eqb_spec (len (f level)) 0); [lia|]. simpl.
  rewrite (quot_entries _ _ Hm).
  pose proof (cat_S f level) as Hcat. apply (f_equal len) in Hcat.
  rewrite len_app in Hcat.
  pose proof (len_cat_mono f (S level) n ltac:(lia)) as Hmono.
  pose proof (len_nonneg (cat f level)) as Hnn. fold f in Hsmall.
  destruct (Z.leb_spec m r) as [Hmr|Hmr].
  - rewrite u8_inc_small by lia. rewrite wrap64_small by lia.
    destruct (decide (r - m = 0)) as [H0|Hpos].
    + (* the level is removed entirely and nothing remains to remove *)
      exists level, (<[level := []]> (<[level := f level]> p)).
      split.
      { rewrite H0. destruct fuel; reflexivity. }
      split; [lia|]. cbn zeta. replace (len (cat f level) - len (cat f level)) with 0 by lia.
      split; [lia|]. split; [intros i Hi; lia|]. split.
      * rewrite lookup_insert_eq. f_equal.
        replace (len (f level) - (16 * r - 0)) with 0 by lia. done.
      * intros i Hi. rewrite !lookup_insert_ne by lia. done.
    + destruct (IH (S level) (<[level := []]> (<[level := f level]> p)) level (r - m))
        as (h & p' & Hrun & Hh & Hrb & Hclr & Hkept & Hframe); [lia|lia|lia|lia|].
      exists h, p'. split; [exact Hrun|]. split; [lia|]. cbn zeta in *.
      replace (16 * r - (len (cat f h) - len (cat f level)))
        with (16 * (r - m) - (len (cat f h) - len (cat f (S level)))) by lia.
      split; [done|]. split; [|split; [done|]].
      * intros i Hi. destruct (decide (i = level)) as [->|].
        -- rewrite Hframe by lia. by rewrite lookup_insert_eq.
        -- apply Hclr. lia.
      * intros i Hi. rewrite Hframe by lia. rewrite !lookup_insert_ne by lia. done.
  - (* the cut falls inside this level *)
    unfold txEntrySize.
    rewrite (wrap64_small (r * 16)) by lia. rewrite wrap64_small by lia.
    rewrite sliceTo_ok by lia. rewrite run_ret.
    eexists level, _. split; [reflexivity|]. split; [lia|]. cbn zeta.
    replace (len (cat f level) - len (cat f level)) with 0 by lia.
    split; [lia|]. split; [intros i Hi; lia|]. split.
    + rewrite lookup_insert_eq. do 3 f_equal. lia.
    + intros i Hi. rewrite !lookup_insert_ne by lia. done.
Qed.
End RemoveFromLevels.

Lemma quot_levelMax (l : nat) : Z.quot (8 * p2 (S l)) 2 = 8 * p2 l.
Proof.
  rewrite p2_S. replace (8 * (2 * p2 l)) with (8 * p2 l * 2) by lia.
  apply Z.quot_mul. lia.
Qed.

Lemma pendingGet_Some (p : gmap nat bytes) (i : nat) (v : bytes) :
  p !! i = Some v → pendingGet p i = v.
Proof. unfold pendingGet. by intros ->. Qed.

Lemma take_drop_len (v : bytes) (k : Z) :
  0 ≤ k ≤ len v →
  len (take (Z.to_nat k) v) = k ∧ len (drop (Z.to_nat k) v) = len v - k.
Proof.
  intros Hk. unfold len in *. rewrite length_take, length_drop. lia.
Qed.

(** The backward loop squashes [cur] into the levels from [level] down:
    the upper [k] levels that stay populated are half full or full, the
    levels above them are cleared, and between one and eight entries (none
    only if nothing is left at all) remain for level 0. *)
Lemma squashLevels_mem (level : nat) (p : gmap nat bytes) (lowest : nat)
    (cur : bytes) (m : Z) (b : membucket) :
  (level ≤ 27)%nat → len cur = 16 * m → 0 ≤ m ≤ 16 * p2 level - 8 →
  ∃ (p' : gmap nat bytes) (lowest' : nat) (cur0 : bytes) (k : nat) (m0 : Z),
    squashLevels level p lowest cur (8 * p2 level) b = Ok ((p', lowest', cur0), b) ∧
    (k ≤ level)%nat ∧
    (∀ i, (k < i ≤ level)%nat → p' !! i = Some []) ∧
    (∀ i, (1 ≤ i ≤ k)%nat → ∃ v, p' !! i = Some v ∧ good_level i v) ∧
    (∀ i, (i = 0 ∨ level < i)%nat → p' !! i = p !! i) ∧
    lowest' = (if decide (k = level) then lowest else S k) ∧
    cat (λ i, pendingGet p' (S i)) level ++ cur0 = cur ∧
    len cur0 = 16 * m0 ∧ 0 ≤ m0 ≤ 8 ∧ ((1 ≤ k)%nat → 1 ≤ m0) ∧
    (8 * p2 level - 7 ≤ m → k = level ∧ 1 ≤ m0).
Proof.
  revert p lowest cur m.
  induction level as [|l IH]; intros p lowest cur m Hlev Hlen Hm.
  - rewrite p2_0 in Hm. exists p, lowest, cur, 0%nat, m. cbn [squashLevels cat].
    split; [done|]. split; [done|]. split; [intros i Hi; lia|].
    split; [intros i Hi; lia|]. split; [done|]. split; [done|]. split; [done|].
    split; [done|]. split; [lia|]. split; [lia|]. rewrite p2_0. lia.
  - cbn [squashLevels].
    pose proof (p2_le_27 l ltac:(lia)) as Hp. pose proof (p2_pos l) as Hpos.
    change (2 ^ 27) with 134217728 in Hp.
    rewrite p2_S in Hm.
    rewrite (quot_entries _ _ Hlen), quot_levelMax.
    rewrite minEntriesToReachLevel_small by lia.
    rewrite (wrap64_small (8 * p2 l + (8 * p2 l - 7))) by lia.
    destruct (Z.ltb_spec m (8 * p2 l + (8 * p2 l - 7))) as [Hclear|Hkeep].
    + (* too few entries to populate this level: clear it *)
      destruct (IH (<[S l := []]> p) (S l) cur m ltac:(lia) Hlen ltac:(lia))
        as (p' & lowest' & cur0 & k & m0 & Hrun & Hk & Hclr & Hgood & Hframe & Hlow
            & Hcat & Hlen0 & Hm0 & Hk1 & Hreach).
      exists p', lowest', cur0, k, m0. split; [exact Hrun|]. split; [lia|].
      split.
      { intros i Hi. destruct (decide (i = S l)) as [->|].
        - rewrite Hframe by lia. apply lookup_insert_eq.
        - apply Hclr. lia. }
      split; [done|]. split.
      { intros i Hi. rewrite Hframe by lia. rewrite lookup_insert_ne by lia. done. }
      split.
      { rewrite Hlow. destruct (decide (k = l)) as [->|]; destruct (decide _); try lia; done. }
      split.
      { rewrite cat_S. rewrite (pendingGet_Some p' (S l) []); [done|].
        rewrite Hframe by lia. apply lookup_insert_eq. }
      split; [done|]. split; [done|]. split; [done|]. rewrite p2_S. lia.
    + (* enough entries: keep the level full or half full *)
      rewrite (wrap64_small (m - 8 * p2 (S l))) by (rewrite p2_S; lia).
      set (take_full := (8 * p2 l - 7 <=? m - 8 * p2 (S l))).
      set (offset := if take_full then wrap64 (8 * p2 (S l) * txEntrySize)
                     else wrap64 (8 * p2 l * txEntrySize)).
      assert (Hoff : offset = (if take_full then 256 * p2 l else 128 * p2 l)).
      { unfold offset, txEntrySize. rewrite p2_S. destruct take_full;
          rewrite wrap64_small; lia. }
      assert (Hoffle : 0 ≤ offset ≤ len cur ∧
                       8 * p2 l - 7 ≤ m - offset / 16 ≤ 16 * p2 l - 8 ∧
                       offset = 16 * (offset / 16) ∧
                       (offset = 64 * p2 (S l) ∨ offset = 128 * p2 (S l))).
      { rewrite Hoff, p2_S. unfold take_full. rewrite p2_S.
        destruct (Z.leb_spec (8 * p2 l - 7) (m - 8 * (2 * p2 l))).
        - replace (256 * p2 l) with ((16 * p2 l) * 16) by lia. rewrite Z.div_mul by lia. lia.
        - replace (128 * p2 l) with ((8 * p2 l) * 16) by lia. rewrite Z.div_mul by lia. lia. }
      destruct Hoffle as (Hoff1 & Hoff2 & Hoff3 & Hoff4).
      rewrite sliceTo_ok by done. rewrite run_ret.
      rewrite sliceFrom_ok by done. rewrite run_ret.
      destruct (take_drop_len cur offset Hoff1) as [Htake Hdrop].
      destruct (IH (<[S l := take (Z.to_nat offset) cur]> p) lowest
                  (drop (Z.to_nat offset) cur) (m - offset / 16) ltac:(lia)
                  ltac:(lia) ltac:(lia))
        as (p' & lowest' & cur0 & k & m0 & Hrun & Hk & Hclr & Hgood & Hframe & Hlow
            & Hcat & Hlen0 & Hm0 & Hk1 & Hreach).
      destruct (Hreach ltac:(lia)) as [-> Hm01].
      exists p', lowest', cur0, (S l), m0. split; [exact Hrun|]. split; [lia|].
      split; [intros i Hi; lia|]. split.
      { intros i Hi. destruct (decide (i = S l)) as [->|].
        - eexists. split; [rewrite Hframe by lia; apply lookup_insert_eq|].
          simpl. rewrite Htake. done.
        - apply Hgood. lia. }
      split.
      { intros i Hi. rewrite Hframe by lia. rewrite lookup_insert_ne by lia. done. }
      split.
      { rewrite Hlow. destruct (decide (l = l)); [|done]. by destruct (decide (S l = S l)). }
      split.
      { rewrite cat_S. rewrite (pendingGet_Some p' (S l) (take (Z.to_nat offset) cur)).
        - rewrite <- app_assoc, Hcat. apply take_drop.
        - rewrite Hframe by lia. apply lookup_insert_eq. }
      split; [done|]. split; [done|]. split; [done|]. done.
Qed.

(** The halving loop spreads a value that fills [level] over the levels
    from [level] down to [lowest]: every level above [lowest] becomes half
    full and [lowest] becomes full. *)
Lemma halveLevels_mem (level lowest : nat) (p : gmap nat bytes) (v : bytes)
    (b : membucket) :
  (lowest ≤ level ≤ 27)%nat → p !! level = Some v → len v = 128 * p2 level →
  ∃ p' : gmap nat bytes,
    halveLevels level lowest p v (8 * p2 level) b = Ok (p', b) ∧
    (∀ i, (lowest < i ≤ level)%nat → len (pendingGet p' i) = 64 * p2 i) ∧
    len (pendingGet p' lowest) = 128 * p2 lowest ∧
    (∀ i, (lowest ≤ i ≤ level)%nat → is_Some (p' !! i)) ∧
    (∀ i, (i < lowest ∨ level < i)%nat → p' !! i = p !! i) ∧
    cat (λ j, pendingGet p' (lowest + j)) (S level - lowest) = v.
Proof.
  revert p v. induction level as [|l IH]; intros p v Hlev Hp Hlen.
  - assert (lowest = 0%nat) as -> by lia. exists p. cbn [halveLevels cat].
    split; [done|]. split; [intros i Hi; lia|].
    rewrite (pendingGet_Some _ _ _ Hp). split; [done|]. split.
    { intros i Hi. replace i with 0%nat by lia. eauto. }
    split; [done|]. replace (1 - 0)%nat with 1%nat by lia. cbn [cat].
    replace (0 + 0)%nat with 0%nat by lia.
    rewrite (pendingGet_Some _ _ _ Hp). by rewrite app_nil_r.
  - cbn [halveLevels]. destruct (Nat.ltb_spec lowest (S l)) as [Hlt|Hge].
    + pose proof (p2_le_27 l ltac:(lia)) as Hpl. pose proof (p2_pos l) as Hpos.
      change (2 ^ 27) with 134217728 in Hpl.
      rewrite quot_levelMax. unfold txEntrySize.
      rewrite wrap64_small by lia. rewrite p2_S in Hlen.
      rewrite sliceTo_ok by lia. rewrite run_ret.
      rewrite sliceFrom_ok by lia. rewrite run_ret.
      destruct (take_drop_len v (8 * p2 l * 16) ltac:(lia)) as [Htake Hdrop].
      set (kept := take (Z.to_nat (8 * p2 l * 16)) v) in *.
      set (rest := drop (Z.to_nat (8 * p2 l * 16)) v) in *.
      destruct (IH (<[l := rest]> (<[S l := kept]> p)) rest ltac:(lia))
        as (p' & Hrun & Hhalf & Hfull & Hdom & Hframe & Hcat).
      { apply lookup_insert_eq. }
      { lia. }
      assert (HSl : p' !! S l = Some kept).
      { rewrite Hframe by lia. rewrite lookup_insert_ne by lia. apply lookup_insert_eq. }
      exists p'. split; [exact Hrun|]. split.
      { intros i Hi. destruct (decide (i = S l)) as [->|].
        - rewrite (pendingGet_Some _ _ _ HSl), Htake, p2_S. lia.
        - apply Hhalf. lia. }
      split; [done|]. split.
      { intros i Hi. destruct (decide (i = S l)) as [->|]; [eauto|]. apply Hdom. lia. }
      split.
      { intros i Hi. rewrite Hframe by lia. rewrite !lookup_insert_ne by lia. done. }
      replace (S (S l) - lowest)%nat with (S (S l - lowest)) by lia.
      rewrite cat_S, Hcat.
      replace (lowest + (S l - lowest))%nat with (S l) by lia.
      rewrite (pendingGet_Some _ _ _ HSl). apply take_drop.
    + assert (lowest = S l) as -> by lia. exists p.
      split; [done|]. split; [intros i Hi; lia|].
      rewrite (pendingGet_Some _ _ _ Hp). split; [done|]. split.
      { intros i Hi. replace i with (S l) by lia. eauto. }
      split; [done|]. replace (S (S l) - S l)%nat with 1%nat by lia. cbn [cat].
      replace (S l + 0)%nat with (S l) by lia.
      rewrite (pendingGet_Some _ _ _ Hp). by rewrite app_nil_r.
Qed.

Lemma merged_pending (p : gmap nat bytes) (f : nat → bytes) (i : nat) :
  is_Some (p !! i) → merged p f i = pendingGet p i.
Proof. intros [d Hd]. unfold merged, pendingGet. by rewrite Hd. Qed.

Lemma merged_None (p : gmap nat bytes) (f : nat → bytes) (i : nat) :
  p !! i = None → merged p f i = f i.
Proof. intros Hd. unfold merged. by rewrite Hd. Qed.

(** Two level functions that differ only on [lo .. lo + cnt - 1], where
    they concatenate to the same bytes, have the same concatenation. *)
Lemma cat_replace (F F' : nat → bytes) (n lo cnt : nat) :
  (lo + cnt ≤ n)%nat →
  (∀ i, (i < lo ∨ lo + cnt ≤ i)%nat → F i = F' i) →
  cat (λ j, F (lo + j)%nat) cnt = cat (λ j, F' (lo + j)%nat) cnt →
  cat F n = cat F' n.
Proof.
  intros Hn Hout Hin.
  replace n with ((n - (lo + cnt)) + (cnt + lo))%nat by lia.
  rewrite !(cat_add _ (cnt + lo)), !(cat_add _ lo), Hin. f_equal; [|f_equal].
  - apply cat_ext. intros i Hi. apply Hout. lia.
  - apply cat_ext. intros i Hi. apply Hout. lia.
Qed.

(** The backfill loop does nothing when the highest loaded level holds data. *)
Lemma backfillLevels_stop (fuel : nat) (a : bytes) (p : gmap nat bytes)
    (H lowest : nat) (b : membucket) :
  len (pendingGet p H) ≠ 0 → backfillLevels fuel a p H lowest b = Ok (p, b).
Proof.
  intros Hne. apply Z.eqb_neq in Hne.
  destruct fuel; cbn [backfillLevels]; by rewrite Hne.
Qed.

Section Backfill.
Context (a : bytes) (b : membucket) (n : nat).
Hypothesis Hlay : layout b a n.
Hypothesis Hn : (n ≤ 27)%nat.

Let f := levelData b a.

(** The backfill loop, entered with the levels [lowest .. H] empty. *)
Lemma backfillLevels_mem (fuel H lowest : nat) (p : gmap nat bytes) :
  (H < n)%nat → (n - H ≤ fuel)%nat →
  (∀ i, (i ≤ H)%nat → is_Some (p !! i)) →
  (∀ i, (H < i)%nat → p !! i = None) →
  (lowest ≤ H)%nat →
  (∀ i, (lowest ≤ i ≤ H)%nat → pendingGet p i = []) →
  (∀ i, (i < lowest)%nat → good_level i (pendingGet p i)) →
  ∃ (p' : gmap nat bytes) (H' n' : nat),
    backfillLevels fuel a p H lowest b = Ok (p', b) ∧
    (H' < n)%nat ∧
    (∀ i, (H' < i)%nat → p' !! i = None) ∧
    valid_levels (merged p' f) n' ∧
    cat (merged p' f) n = cat (merged p f) n.
Proof.
  revert H lowest p. induction fuel as [|fuel IH];
    intros H lowest p HH Hfuel Hdom Hnone Hlow Hempty Hgood; [lia|].
  cbn [backfillLevels]. rewrite (Hempty H) by lia. rewrite len_nil.
  rewrite Z.eqb_refl.
  rewrite u8_inc_small by lia. rewrite run_Get.
  fold (levelData b a (S H)). fold f.
  destruct (decide (S H = n)) as [Hend|Hmore].
  - (* no level above: the empty levels stay deleted *)
    destruct (layout_absent b a n (S H) Hlay ltac:(lia)) as [_ Hnil]. fold f in Hnil.
    rewrite Hnil, len_nil. rewrite Z.eqb_refl.
    exists p, H, lowest. split; [done|]. split; [done|]. split; [done|].
    split; [|done]. split; [lia|]. split.
    + intros i Hi. rewrite merged_pending by (apply Hdom; lia). by apply Hgood.
    + intros i Hi. destruct (Nat.le_gt_cases i H) as [HiH|HiH].
      * rewrite merged_pending by (apply Hdom; lia). apply Hempty. lia.
      * rewrite merged_None by (apply Hnone; lia).
        apply (layout_absent b a n i Hlay). lia.
  - destruct (layout_stored b a n (S H) Hlay ltac:(lia)) as [_ Hg]. fold f in Hg.
    set (v := f (S H)) in *.
    pose proof (p2_le_27 H ltac:(lia)) as Hp. pose proof (p2_pos H) as Hpos.
    change (2 ^ 27) with 134217728 in Hp.
    assert (Hv0 : (len v =? 0) = false).
    { apply Z.eqb_neq. pose proof (good_level_len _ _ Hg). lia. }
    rewrite Hv0. cbv iota.
    rewrite maxEntriesForLevel_small by lia.
    assert (HpS : p !! S H = None) by (apply Hnone; lia).
    assert (Hfv : merged p f (S H) = v) by (by apply merged_None).
    simpl in Hg. destruct Hg as [Hhalf|Hfull].
    + (* half full: it moves down a level *)
      rewrite (quot_entries v (4 * p2 (S H))) by lia.
      destruct (Z.eqb_spec (4 * p2 (S H)) (8 * p2 (S H))) as [Heq|_];
        [pose proof (p2_pos (S H)); lia|].
      cbn [negb]. rewrite u8_dec_succ by lia. rewrite quot_levelMax.
      set (p1 := <[H := v]> (<[S H := []]> (<[S H := v]> p))).
      destruct (halveLevels_mem H lowest p1 v b ltac:(lia)) as
        (p2' & Hrun & Hhalves & Hfullq & Hdom2 & Hframe2 & Hcat2).
      { apply lookup_insert_eq. }
      { rewrite Hhalf, p2_S. lia. }
      rewrite (run_bind_Ok _ _ _ _ _ _ _ _ Hrun).
      assert (HSH : p2' !! S H = Some []).
      { rewrite Hframe2 by lia. unfold p1. rewrite lookup_insert_ne by lia.
        apply lookup_insert_eq. }
      destruct (IH (S H) (S H) p2') as (p' & H' & n' & Hrun' & HH' & Hnone' & Hvalid & Hcat');
        [lia|lia| | |lia| | |].
      { intros i Hi. destruct (decide (i = S H)) as [->|]; [eauto|].
        destruct (decide (lowest ≤ i)%nat); [apply Hdom2; lia|].
        rewrite Hframe2 by lia. unfold p1. rewrite !lookup_insert_ne by lia.
        apply Hdom. lia. }
      { intros i Hi. rewrite Hframe2 by lia. unfold p1.
        rewrite !lookup_insert_ne by lia. apply Hnone. lia. }
      { intros i Hi. replace i with (S H) by lia. by apply pendingGet_Some. }
      { intros i Hi. destruct (Nat.lt_ge_cases i lowest) as [Hil|Hil].
        - unfold pendingGet. rewrite Hframe2 by lia. unfold p1.
          rewrite !lookup_insert_ne by lia. by apply Hgood.
        - destruct (decide (i = lowest)) as [->|].
          + destruct lowest as [|l]; simpl.
            * exists 8. rewrite Hfullq, p2_0. lia.
            * right. done.
          + destruct i as [|i]; [lia|]. simpl. left. apply Hhalves. lia. }
      exists p', H', n'. split; [exact Hrun'|]. split; [done|]. split; [done|].
      split; [done|]. rewrite Hcat'.
      apply (cat_replace _ _ n lowest (S (S H) - lowest)); [lia| |].
      * intros i Hi. unfold merged. destruct (decide (i < lowest)%nat).
        -- rewrite Hframe2 by lia. unfold p1. by rewrite !lookup_insert_ne by lia.
        -- rewrite Hframe2 by lia. unfold p1. by rewrite !lookup_insert_ne by lia.
      * replace (S (S H) - lowest)%nat with (S (S H - lowest)) by lia.
        rewrite !cat_S. replace (lowest + (S H - lowest))%nat with (S H) by lia.
        rewrite Hfv. rewrite (merged_pending p2' f (S H)) by eauto.
        rewrite (pendingGet_Some _ _ _ HSH). simpl.
        rewrite (cat_nil (λ j, merged p f (lowest + j))).
        2:{ intros i Hi. rewrite merged_pending by (apply Hdom; lia). apply Hempty. lia. }
        rewrite app_nil_r, <- Hcat2. apply cat_ext. intros i Hi.
        apply merged_pending, Hdom2. lia.
    + (* full: it is spread over this level and the empty ones below *)
      rewrite (quot_entries v (8 * p2 (S H))) by lia.
      rewrite Z.eqb_refl. cbn [negb].
      set (p1 := <[S H := v]> p).
      destruct (halveLevels_mem (S H) lowest p1 v b ltac:(lia)) as
        (p2' & Hrun & Hhalves & Hfullq & Hdom2 & Hframe2 & Hcat2).
      { apply lookup_insert_eq. }
      { done. }
      rewrite (run_bind_Ok _ _ _ _ _ _ _ _ Hrun).
      assert (Hstop : backfillLevels fuel a p2' (S H) (S H) b = Ok (p2', b)).
      { apply backfillLevels_stop. rewrite (Hhalves (S H)) by lia.
        pose proof (p2_pos (S H)). lia. }
      exists p2', (S H), n. split; [exact Hstop|]. split; [lia|]. split.
      { intros i Hi. rewrite Hframe2 by lia. unfold p1.
        rewrite lookup_insert_ne by lia. apply Hnone. lia. }
      split.
      * split; [lia|]. split.
        -- intros i Hi. destruct (Nat.lt_ge_cases i lowest) as [Hil|Hil].
           { unfold merged. rewrite Hframe2 by lia. unfold p1.
             rewrite lookup_insert_ne by lia.
             specialize (Hgood i ltac:(lia)). unfold pendingGet in Hgood.
             destruct (Hdom i ltac:(lia)) as [d Hd]. rewrite Hd in Hgood |- *. done. }
           destruct (Nat.le_gt_cases i (S H)) as [HiH|HiH].
           { rewrite merged_pending by (apply Hdom2; lia).
             destruct (decide (i = lowest)) as [->|].
             - destruct lowest as [|l]; simpl.
               + exists 8. rewrite Hfullq, p2_0. lia.
               + right. done.
             - destruct i as [|i]; [lia|]. simpl. left. apply Hhalves. lia. }
           rewrite merged_None.
           ++ apply (layout_stored b a n i Hlay). lia.
           ++ rewrite Hframe2 by lia. unfold p1. rewrite lookup_insert_ne by lia.
              apply Hnone. lia.
        -- intros i Hi. rewrite merged_None.
           ++ apply (layout_absent b a n i Hlay). lia.
           ++ rewrite Hframe2 by lia. unfold p1. rewrite lookup_insert_ne by lia.
              apply Hnone. lia.
      * apply (cat_replace _ _ n lowest (S (S H) - lowest)); [lia| |].
        -- intros i Hi. unfold merged. rewrite Hframe2 by lia. unfold p1.
           by rewrite lookup_insert_ne by lia.
        -- transitivity v.
           { rewrite <- Hcat2. apply cat_ext. intros i Hi.
             apply merged_pending, Hdom2. lia. }
           replace (S (S H) - lowest)%nat with (S (S H - lowest)) by lia.
           rewrite cat_S. replace (lowest + (S H - lowest))%nat with (S H) by lia.
           rewrite Hfv.
           rewrite (cat_nil (λ j, merged p f (lowest + j))); [by rewrite app_nil_r|].
           intros i Hi. rewrite merged_pending by (apply Hdom; lia). apply Hempty. lia.
Qed.
End Backfill.

Lemma layout_cat_whole (b : membucket) (a : bytes) (n i : nat) :
  layout b a n → (i ≤ n)%nat → ∃ t, len (cat (levelData b a) i) = 16 * t.
Proof.
  intros Hlay. induction i as [|i IH]; intros Hi.
  - exists 0. done.
  - destruct IH as [t Ht]; [lia|].
    destruct (layout_stored b a n i Hlay ltac:(lia)) as [_ Hg].
    destruct (good_level_entries _ _ Hg) as (m & Hm & _).
    exists (m + t). rewrite cat_S, len_app. lia.
Qed.

Section Remove.
Context (a : bytes) (b : membucket) (n : nat).
Hypothesis Hlay : layout b a n.
Hypothesis Hn : (n ≤ 27)%nat.

Let f := levelData b a.

(** Cutting [rb] bytes off level [h] and emptying the levels below it
    removes the last [count] entries of the logical sequence. *)
Lemma cut_contents (F : nat → bytes) (h : nat) (count rb : Z) :
  (h < n)%nat → 0 < rb ≤ len (f h) → rb = 16 * count - len (cat f h) →
  (∀ i, (i < h)%nat → F i = []) →
  F h = take (Z.to_nat (len (f h) - rb)) (f h) →
  (∀ i, (h < i)%nat → F i = f i) →
  cat F n = take (Z.to_nat (len (cat f n) - 16 * count)) (cat f n).
Proof.
  intros Hh Hrb Hrbeq Hlow Hcut Habove.
  replace n with ((n - S h) + S h)%nat by lia.
  rewrite !(cat_add _ (S h)), !cat_S.
  rewrite (cat_nil F h Hlow), app_nil_r, Hcut.
  rewrite (cat_ext (λ i, F (S h + i)%nat) (λ i, f (S h + i)%nat))
    by (intros i Hi; apply Habove; lia).
  set (A := cat (λ i, f (S h + i)%nat) (n - S h)).
  rewrite !len_app.
  replace (Z.to_nat (len A + (len (f h) + len (cat f h)) - 16 * count))
    with (length A + Z.to_nat (len (f h) - rb))%nat by (unfold len in *; lia).
  rewrite take_app_add. f_equal. rewrite take_app_le; [done|]. unfold len in *. lia.
Qed.

(** Applying pending updates that describe a valid layout. *)
Lemma applyPending_valid (p : gmap nat bytes) (H' n' : nat) :
  (H' < n)%nat → (∀ i, (H' < i)%nat → p !! i = None) →
  valid_levels (merged p f) n' →
  ∃ b', applyPending a p b = Ok (tt, b') ∧ layout b' a n' ∧
    contents b' a = cat (merged p f) n ∧
    (∀ k, (∀ L, (L < 256)%nat → k ≠ keyForLevel a L) → b' !! k = b !! k).
Proof.
  intros HH' Hnone (Hn' & Hgood & Hempty).
  destruct (applyPending_mem a p b) as (b' & Hrun & _).
  destruct (applyPending_levelData a p b b' Hrun) as (Hdata & Habsent & Hframe).
  exists b'. split; [done|]. split; [|split].
  - split; [done|]. split.
    + intros L HL. apply Habsent. split; [by apply Hempty|].
      intros HpL. destruct (Nat.lt_ge_cases L n) as [HLn|HLn].
      * exfalso. destruct (layout_stored b a n L Hlay HLn) as [_ Hg].
        apply good_level_nonempty in Hg. apply Hg.
        rewrite <- (Hempty L HL). by rewrite merged_None.
      * apply (layout_absent b a n L Hlay). lia.
    + intros L HL. specialize (Hgood L HL). rewrite <- Hdata in Hgood.
      unfold levelData in Hgood. destruct (b' !! keyForLevel a L) as [v|] eqn:Hv.
      * eauto.
      * by apply good_level_nonempty in Hgood.
  - unfold contents. rewrite (cat_ext _ _ 256 (λ i _, Hdata i)).
    apply cat_above; [lia|]. intros i Hi. rewrite merged_None by (apply Hnone; lia).
    apply (layout_absent b a n i Hlay). lia.
  - intros k Hk. apply Hframe. intros L [d Hd]. apply Hk.
    destruct (Nat.lt_ge_cases H' L) as [HL|HL]; [|lia].
    rewrite Hnone in Hd by done. done.
Qed.

Hypothesis Hsmall : len (cat f n) < 2 ^ 32.

(** Removing [count] of the stored entries keeps the layout and cuts the
    logical sequence. *)
Lemma remove_layout_at (count : Z) :
  0 < count → 16 * count ≤ len (cat f n) →
  ∃ b' n', dbRemoveAddrIndexEntries a count b = Ok (tt, b') ∧
    layout b' a n' ∧
    contents b' a = take (Z.to_nat (len (cat f n) - 16 * count)) (cat f n) ∧
    (∀ k, (∀ L, (L < 256)%nat → k ≠ keyForLevel a L) → b' !! k = b !! k).
Proof.
  intros Hcount Hfit. unfold dbRemoveAddrIndexEntries.
  destruct (Z.leb_spec count 0); [lia|].
  destruct (removeFromLevels_cut a b n Hlay Hn Hsmall loopFuel 0 ∅ 0 count)
    as (h & pA & HrunA & Hh & Hrb & Hclr & Hkept & HframeA);
    [lia|unfold loopFuel; lia|lia|cbn [cat]; rewrite len_nil; fold f; lia|].
  fold f in Hrb, Hkept. cbn zeta in Hrb, Hkept. cbn [cat] in Hrb, Hkept.
  rewrite len_nil, Z.sub_0_r in Hrb, Hkept.
  set (rb := 16 * count - len (cat f h)) in *.
  set (kept := take (Z.to_nat (len (f h) - rb)) (f h)) in *.
  rewrite (run_bind_Ok _ _ _ _ _ _ _ _ HrunA).
  assert (HnoneA : ∀ i, (h < i)%nat → pA !! i = None).
  { intros i Hi. rewrite HframeA by lia. apply lookup_empty. }
  destruct (layout_stored b a n h Hlay ltac:(lia)) as [_ Hgh]. fold f in Hgh.
  destruct (good_level_entries _ _ Hgh) as (eh & Heh & Heh1).
  destruct (layout_cat_whole b a n h Hlay ltac:(lia)) as [th Hth]. fold f in Hth.
  assert (Hlenkept : len kept = 16 * (eh - (count - th))).
  { unfold kept. rewrite len_take by (unfold len in *; lia). lia. }
  assert (HcatA : cat (merged pA f) n =
                  take (Z.to_nat (len (cat f n) - 16 * count)) (cat f n)).
  { apply (cut_contents _ h count rb); [lia|done|done| | |].
    - intros i Hi. unfold merged. by rewrite Hclr by lia.
    - unfold merged. by rewrite Hkept.
    - intros i Hi. apply merged_None, HnoneA. lia. }
  pose proof (p2_le_27 h ltac:(lia)) as Hp. pose proof (p2_pos h) as Hpos.
  change (2 ^ 27) with 134217728 in Hp.
  destruct (Z.eqb_spec (len (pendingGet pA 0)) 0) as [Hzero|Hnonzero]; cbn [negb].
  - (* level 0 was emptied: squash and backfill *)
    rewrite (pendingGet_Some pA h kept Hkept).
    rewrite maxEntriesForLevel_small by lia.
    destruct (squashLevels_mem h pA 255 kept (eh - (count - th)) b ltac:(lia) Hlenkept)
      as (pC & lowest' & cur0 & k & m0 & HrunC & Hk & HclrC & HgoodC & HframeC & Hlow
          & HcatC & Hlen0 & Hm0 & Hk1 & _); [lia|].
    rewrite (run_bind_Ok _ _ _ _ _ _ _ _ HrunC).
    set (p'' := <[0%nat := cur0]> pC).
    set (lowestE := if len cur0 =? 0 then 0%nat else lowest').
    assert (Hdom'' : ∀ i, (i ≤ h)%nat → is_Some (p'' !! i)).
    { intros i Hi. unfold p''. destruct (decide (i = 0%nat)) as [->|Hi0].
      - rewrite lookup_insert_eq. eauto.
      - rewrite lookup_insert_ne by lia.
        destruct (Nat.lt_ge_cases k i) as [Hki|Hki].
        + rewrite HclrC by lia. eauto.
        + destruct (HgoodC i ltac:(lia)) as (v & -> & _). eauto. }
    assert (Hnone'' : ∀ i, (h < i)%nat → p'' !! i = None).
    { intros i Hi. unfold p''. rewrite lookup_insert_ne by lia.
      rewrite HframeC by lia. by apply HnoneA. }
    assert (Hcat'' : cat (merged p'' f) n = cat (merged pA f) n).
    { apply (cat_replace _ _ n 0 (S h)); [lia|intros i Hi; unfold merged;
        by rewrite Hnone'', HnoneA by lia|].
      cbn [Nat.add]. rewrite cat_shift.
      rewrite (cat_ext _ (λ i, pendingGet pC (S i))).
      2:{ intros i Hi. rewrite merged_pending by (apply Hdom''; lia).
          unfold pendingGet, p''. by rewrite lookup_insert_ne by lia. }
      rewrite merged_pending by (apply Hdom''; lia).
      rewrite (pendingGet_Some p'' 0 cur0) by apply lookup_insert_eq.
      rewrite HcatC, cat_S. rewrite (cat_nil _ h).
      - rewrite app_nil_r. unfold merged. by rewrite Hkept.
      - intros i Hi. unfold merged. by rewrite Hclr by lia. }
    destruct (decide (k = h ∧ (1 ≤ h)%nat)) as [[-> Hh1]|Hbelow].
    + (* the highest loaded level stays populated: nothing to backfill *)
      destruct (HgoodC h ltac:(lia)) as (vh & Hvh & Hgvh).
      assert (Hstop : backfillLevels loopFuel a p'' h lowestE b = Ok (p'', b)).
      { apply backfillLevels_stop.
        rewrite (pendingGet_Some p'' h vh)
          by (unfold p''; by rewrite lookup_insert_ne by lia).
        pose proof (good_level_len _ _ Hgvh). lia. }
      rewrite (run_bind_Ok _ _ _ _ _ _ _ _ Hstop).
      destruct (applyPending_valid p'' h n) as (b' & Hrun & Hlay' & Hcont & Hframe);
        [lia|done| |].
      { split; [lia|]. split.
        - intros i Hi. destruct (Nat.le_gt_cases i h) as [Hih|Hih].
          + rewrite merged_pending by (apply Hdom''; lia).
            destruct (decide (i = 0%nat)) as [->|Hi0].
            * rewrite (pendingGet_Some p'' 0 cur0) by apply lookup_insert_eq.
              exists m0. split; [|done]. specialize (Hk1 Hh1). lia.
            * destruct (HgoodC i ltac:(lia)) as (v & Hv & Hgv).
              rewrite (pendingGet_Some p'' i v); [done|].
              unfold p''. by rewrite lookup_insert_ne by lia.
          + rewrite merged_None by (apply Hnone''; lia).
            apply (layout_stored b a n i Hlay). lia.
        - intros i Hi. rewrite merged_None by (apply Hnone''; lia).
          apply (layout_absent b a n i Hlay). lia. }
      exists b', n. split; [done|]. split; [done|]. split; [|done].
      by rewrite Hcont, Hcat'', HcatA.
    + (* the highest loaded level is empty: backfill from above *)
      assert (HlowE : (lowestE ≤ h)%nat ∧
                      (∀ i, (lowestE ≤ i ≤ h)%nat → pendingGet p'' i = []) ∧
                      (∀ i, (i < lowestE)%nat → good_level i (pendingGet p'' i))).
      { assert (Hp0 : pendingGet p'' 0 = cur0)
          by (apply pendingGet_Some, lookup_insert_eq).
        assert (HpS : ∀ i, (1 ≤ i)%nat → pendingGet p'' i = pendingGet pC i).
        { intros i Hi. unfold pendingGet, p''. by rewrite lookup_insert_ne by lia. }
        unfold lowestE. destruct (Z.eqb_spec (len cur0) 0) as [Hc0|Hc0].
        - assert (k = 0%nat) as -> by
            (destruct k; [done|]; specialize (Hk1 ltac:(lia)); lia).
          split; [lia|]. split; [|intros i Hi; lia].
          intros i Hi. destruct (decide (i = 0%nat)) as [->|Hi0].
          + rewrite Hp0. by apply len_0_nil.
          + rewrite HpS by lia. apply pendingGet_Some, HclrC. lia.
        - assert (Hh1 : (1 ≤ h)%nat).
          { destruct h as [|h']; [|lia]. exfalso. apply Hc0.
            cbn [cat] in HcatC. simpl in HcatC. rewrite HcatC.
            by rewrite <- (pendingGet_Some pA 0 kept Hkept). }
          assert (Hkh : (k < h)%nat) by lia.
          rewrite Hlow. destruct (decide (k = h)); [lia|].
          split; [lia|]. split.
          + intros i Hi. rewrite HpS by lia. apply pendingGet_Some, HclrC. lia.
          + intros i Hi. destruct (decide (i = 0%nat)) as [->|Hi0].
            * rewrite Hp0. exists m0. split; [|done]. lia.
            * rewrite HpS by lia. destruct (HgoodC i ltac:(lia)) as (v & Hv & Hgv).
              by rewrite (pendingGet_Some pC i v). }
      destruct HlowE as (HlowE & HemptyE & HgoodE).
      destruct (backfillLevels_mem a b n Hlay Hn loopFuel h lowestE p'')
        as (pD & H' & n' & HrunD & HH' & HnoneD & Hvalid & HcatD);
        [lia|unfold loopFuel; lia|done|done|done|done|done|].
      rewrite (run_bind_Ok _ _ _ _ _ _ _ _ HrunD).
      destruct (applyPending_valid pD H' n' HH' HnoneD Hvalid)
        as (b' & Hrun & Hlay' & Hcont & Hframe).
      exists b', n'. split; [done|]. split; [done|]. split; [|done].
      fold f in HcatD. by rewrite Hcont, HcatD, Hcat'', HcatA.
  - (* level 0 still holds entries: only level 0 changes *)
    assert (Hh0 : h = 0%nat).
    { destruct h as [|h']; [done|]. exfalso. apply Hnonzero.
      by rewrite (pendingGet_Some pA 0 []) by (apply Hclr; lia). }
    subst h. rewrite (pendingGet_Some pA 0 kept Hkept) in Hnonzero.
    destruct (applyPending_valid pA 0 n) as (b' & Hrun & Hlay' & Hcont & Hframe);
      [lia|done| |].
    { split; [lia|]. split.
      - intros i Hi. destruct (decide (i = 0%nat)) as [->|Hi0].
        + unfold merged. rewrite Hkept. exists (eh - (count - th)).
          rewrite p2_0 in Heh1. cbn [cat] in Hth. rewrite len_nil in Hth.
          pose proof (len_nonneg kept). lia.
        + rewrite merged_None by (apply HnoneA; lia).
          apply (layout_stored b a n i Hlay). lia.
      - intros i Hi. rewrite merged_None by (apply HnoneA; lia).
        apply (layout_absent b a n i Hlay). lia. }
    exists b', n. split; [done|]. split; [done|]. split; [|done].
    by rewrite Hcont, HcatA.
Qed.
End Remove.

(** Removing no more than is stored keeps the layout, cuts the logical
    sequence and touches no other key. *)
Lemma dbRemoveAddrIndexEntries_layout (a : bytes) (count : Z) (b : membucket) (n : nat) :
  layout b a n → len (contents b a) < 2 ^ 32 →
  0 < count → 16 * count ≤ len (contents b a) →
  ∃ b' n', dbRemoveAddrIndexEntries a count b = Ok (tt, b') ∧
    layout b' a n' ∧
    contents b' a =
      take (Z.to_nat (len (contents b a) - 16 * count)) (contents b a) ∧
    (∀ k, (∀ L, (L < 256)%nat → k ≠ keyForLevel a L) → b' !! k = b !! k).
Proof.
  intros Hlay Hsmall Hcount Hfit.
  pose proof (layout_height b a n Hlay Hsmall) as Hn.
  rewrite (layout_contents b a n Hlay) in *.
  by apply remove_layout_at.
Qed.

(** Removing more than is stored is an assertion error. *)
Lemma dbRemoveAddrIndexEntries_short (a : bytes) (count : Z) (b : membucket) (n : nat) :
  layout b a n → len (contents b a) < 2 ^ 32 →
  len (contents b a) < 16 * count → count < 2 ^ 63 →
  dbRemoveAddrIndexEntries a count b =
    Err (AssertError "dbRemoveAddrIndexEntries not enough entries").
Proof.
  intros Hlay Hsmall Hshort Hint.
  pose proof (layout_height b a n Hlay Hsmall) as Hn.
  rewrite (layout_contents b a n Hlay) in *.
  pose proof (len_nonneg (cat (levelData b a) n)).
  unfold dbRemoveAddrIndexEntries. destruct (Z.leb_spec count 0); [lia|].
  apply run_bind_Err.
  apply (removeFromLevels_short a b n Hlay Hn);
    [lia|unfold loopFuel; lia|lia|cbn [cat]; rewrite len_nil; lia].
Qed.

(** ** A layout is determined by the bytes it holds *)

Lemma good_levels_bounds (F : nat → bytes) (n : nat) :
  (1 ≤ n)%nat → (∀ i, (i < n)%nat → good_level i (F i)) →
  64 * p2 n - 112 ≤ len (cat F n) ≤ 128 * p2 n - 128.
Proof.
  induction n as [|n IH]; intros Hn Hgood; [lia|].
  rewrite cat_S, len_app, p2_S.
  destruct n as [|n].
  - destruct (Hgood 0%nat ltac:(lia)) as (k & Hk & Hlen).
    cbn [cat]. rewrite len_nil, p2_0. lia.
  - specialize (IH ltac:(lia) ltac:(intros i Hi; apply Hgood; lia)).
    pose proof (Hgood (S n) ltac:(lia)) as Hg. simpl in Hg. lia.
Qed.

Lemma good_levels_lengths (n : nat) (F G : nat → bytes) :
  (∀ i, (i < n)%nat → good_level i (F i)) →
  (∀ i, (i < n)%nat → good_level i (G i)) →
  len (cat F n) = len (cat G n) →
  ∀ i, (i < n)%nat → len (F i) = len (G i).
Proof.
  induction n as [|n IH]; intros HF HG Hlen i Hi; [lia|].
  rewrite !cat_S, !len_app in Hlen.
  assert (Htop : len (F n) = len (G n)).
  { destruct n as [|n].
    - cbn [cat] in Hlen. rewrite !len_nil in Hlen. lia.
    - pose proof (good_levels_bounds F (S n) ltac:(lia)
                    ltac:(intros j Hj; apply HF; lia)) as HbF.
      pose proof (good_levels_bounds G (S n) ltac:(lia)
                    ltac:(intros j Hj; apply HG; lia)) as HbG.
      pose proof (HF (S n) ltac:(lia)) as HgF. pose proof (HG (S n) ltac:(lia)) as HgG.
      simpl in HgF, HgG. lia. }
  destruct (decide (i = n)) as [->|Hne]; [done|].
  apply IH; [intros j Hj; apply HF; lia|intros j Hj; apply HG; lia|lia|lia].
Qed.

Lemma good_levels_height (n m : nat) (F G : nat → bytes) :
  (∀ i, (i < n)%nat → good_level i (F i)) →
  (∀ i, (i < m)%nat → good_level i (G i)) →
  len (cat F n) = len (cat G m) → (n ≤ m)%nat.
Proof.
  intros HF HG Hlen. destruct (Nat.le_gt_cases n m) as [|Hgt]; [done|exfalso].
  pose proof (good_levels_bounds F n ltac:(lia) HF) as HbF.
  destruct m as [|m].
  - cbn [cat] in Hlen. rewrite len_nil in Hlen.
    pose proof (p2_mono 1 n ltac:(lia)) as Hp. change (p2 1) with 2 in Hp. lia.
  - pose proof (good_levels_bounds G (S m) ltac:(lia) HG) as HbG.
    pose proof (p2_mono (S (S m)) n ltac:(lia)) as Hp. rewrite p2_S in Hp. lia.
Qed.

Lemma cat_levels_inj (n : nat) (F G : nat → bytes) :
  (∀ i, (i < n)%nat → len (F i) = len (G i)) →
  cat F n = cat G n → ∀ i, (i < n)%nat → F i = G i.
Proof.
  induction n as [|n IH]; intros Hlen Hcat i Hi; [lia|].
  rewrite !cat_S in Hcat. apply app_inj_1 in Hcat as [Htop Hrest].
  2:{ specialize (Hlen n ltac:(lia)). unfold len in Hlen. lia. }
  destruct (decide (i = n)) as [->|Hne]; [done|].
  apply IH; [intros j Hj; apply Hlen; lia|done|lia].
Qed.

(** Two layouts of one address that hold the same logical sequence store
    the same value under every level key. *)
Lemma layout_unique (b b2 : membucket) (a : bytes) (n m : nat) :
  layout b a n → layout b2 a m → contents b a = contents b2 a →
  ∀ L, (L < 256)%nat → b !! keyForLevel a L = b2 !! keyForLevel a L.
Proof.
  intros Hlay Hlay2 Hcont L HL.
  rewrite (layout_contents b a n Hlay), (layout_contents b2 a m Hlay2) in Hcont.
  assert (HF : ∀ i, (i < n)%nat → good_level i (levelData b a i))
    by (intros i Hi; by apply (layout_stored b a n i Hlay)).
  assert (HG : ∀ i, (i < m)%nat → good_level i (levelData b2 a i))
    by (intros i Hi; by apply (layout_stored b2 a m i Hlay2)).
  assert (n = m) as <-.
  { apply Nat.le_antisymm.
    - apply (good_levels_height n m _ _ HF HG). by rewrite Hcont.
    - apply (good_levels_height m n _ _ HG HF). by rewrite Hcont. }
  destruct (Nat.lt_ge_cases L n) as [HLn|HLn].
  - destruct (layout_stored b a n L Hlay HLn) as [-> _].
    destruct (layout_stored b2 a n L Hlay2 HLn) as [-> _]. f_equal.
    apply (cat_levels_inj n); [|done|done].
    apply good_levels_lengths; [done|done|by rewrite Hcont].
  - destruct (layout_absent b a n L Hlay ltac:(lia)) as [-> _].
    by destruct (layout_absent b2 a n L Hlay2 ltac:(lia)) as [-> _].
Qed.

(** ** Keys of other addresses and other keys *)

Lemma layout_frame (b b' : membucket) (a : bytes) (n : nat) :
  (∀ L, (L < 256)%nat → b' !! keyForLevel a L = b !! keyForLevel a L) →
  layout b a n → layout b' a n ∧ contents b' a = contents b a.
Proof.
  intros Hsame (Hn & Habove & Hgood). split.
  - split; [done|]. split.
    + intros L HL. rewrite Hsame by lia. by apply Habove.
    + intros L HL. rewrite Hsame by lia. by apply Hgood.
  - apply cat_ext. intros i Hi. unfold levelData. by rewrite Hsame.
Qed.

Lemma layout_empty (a : bytes) : layout ∅ a 0 ∧ contents ∅ a = [].
Proof.
  split.
  - split; [lia|]. split; [intros L HL; apply lookup_empty|intros L HL; lia].
  - apply cat_nil. intros i Hi. unfold levelData. by rewrite lookup_empty.
Qed.

(** Whether a key is a level key of address [a]. *)
Lemma level_key_cases (a k : bytes) :
  (∃ L, (L < 256)%nat ∧ k = keyForLevel a L) ∨
  (∀ L, (L < 256)%nat → k ≠ keyForLevel a L).
Proof.
  assert (H : ∀ N : nat, (∃ L, (L < N)%nat ∧ k = keyForLevel a L) ∨
                         (∀ L, (L < N)%nat → k ≠ keyForLevel a L)).
  { induction N as [|N [(L & HL & Hk)|Hno]].
    - right. intros L HL. lia.
    - left. exists L. split; [lia|done].
    - destruct (decide (k = keyForLevel a N)) as [Hk|Hk].
      + left. exists N. split; [lia|done].
      + right. intros L HL. destruct (decide (L = N)) as [->|]; [done|].
        apply Hno. lia. }
  apply H.
Qed.

Lemma layout_whole (b : membucket) (a : bytes) (n : nat) :
  layout b a n → len (contents b a) = 16 * totalEntries b a.
Proof.
  intros Hlay. unfold totalEntries.
  destruct (layout_cat_whole b a n n Hlay ltac:(lia)) as [t Ht].
  rewrite (layout_contents b a n Hlay), Ht. unfold txEntrySize.
  rewrite (Z.mul_comm 16 t), Z.quot_mul; lia.
Qed.

(** ** dbFetchAddrIndexEntries on the in-memory bucket *)

Lemma loadEntries_decodeAt (B : Type) (IB : internalBucket B) (todo : nat)
    (a S : bytes) (N skip : Z) (reverse : bool) (fbh : fetchBlockHashFunc)
    (i : Z) (b : B) :
  len S = 16 * N → 16 * N < 2 ^ 32 → 0 ≤ skip → 0 ≤ i →
  skip + i + Z.of_nat todo ≤ N →
  loadEntries todo a S N skip reverse fbh i b =
    match decodeAt S fbh (offsetsFrom todo i (fetchOffset N skip reverse)) with
    | inr entries => Ok (entries, b)
    | inl err => Err (fetchError err)
    end.
Proof.
  revert i. induction todo as [|todo IH]; intros i HS HN Hskip Hi Hfit; [done|].
  cbn [loadEntries offsetsFrom decodeAt].
  set (offset := if reverse
                 then wrap32 (wrap32 (wrap32 (wrap32 (N - skip) - i) - 1) * txEntrySize)
                 else wrap32 (wrap32 (skip + i) * txEntrySize)).
  assert (Hoff : offset = 16 * fetchOffset N skip reverse i ∧
                 0 ≤ 16 * fetchOffset N skip reverse i ≤ len S).
  { unfold offset, fetchOffset, txEntrySize. destruct reverse.
    - rewrite (wrap32_small (N - skip)) by lia.
      rewrite (wrap32_small (N - skip - i)) by lia.
      rewrite (wrap32_small (N - skip - i - 1)) by lia.
      rewrite wrap32_small by lia. lia.
    - rewrite (wrap32_small (skip + i)) by lia. rewrite wrap32_small by lia. lia. }
  destruct Hoff as [-> Hrange].
  rewrite sliceFrom_ok by done. rewrite run_ret.
  destruct (deserializeAddrIndexEntry _ fbh) as [err|entry].
  - unfold fetchError. by destruct (isDeserializeErr err).
  - rewrite wrap32_small by lia. unfold bind. rewrite IH by lia.
    by destruct (decodeAt S fbh _).
Qed.

Section FetchLevels.
Context (a : bytes) (b : membucket) (n : nat).
Hypothesis Hlay : layout b a n.

Let f := levelData b a.

(** The loading loop stops with the levels below some [j]: all of them
    going forward, and going backward as soon as enough bytes are loaded. *)
Lemma fetchLevels_mem (fuel level : nat) (skip want : Z) (reverse : bool) :
  (level ≤ n)%nat → (n - level < fuel)%nat → (n < 255)%nat →
  ∃ j, (level ≤ j ≤ n)%nat ∧
    fetchLevels fuel a skip want reverse level (cat f level) b = Ok (cat f j, b) ∧
    ((j < n)%nat →
     reverse = true ∧
     wrap64 (wrap32 (skip + want) * txEntrySize) ≤ len (cat f j)) ∧
    (reverse = true → (level < j)%nat →
     len (cat f (j - 1)) < wrap64 (wrap32 (skip + want) * txEntrySize)).
Proof.
  revert level. induction fuel as [|fuel IH]; intros level Hlev Hfuel Hn; [lia|].
  cbn [fetchLevels].
  destruct (negb reverse || (len (cat f level) <?
             wrap64 (wrap32 (skip + want) * txEntrySize))) eqn:Hcond.
  - rewrite run_Get. destruct (decide (level = n)) as [->|Hne].
    + destruct (layout_absent b a n n Hlay ltac:(lia)) as [-> _].
      exists n. split; [lia|]. split; [done|]. split; [lia|lia].
    + destruct (layout_stored b a n level Hlay ltac:(lia)) as [-> _].
      rewrite u8_inc_small by lia. fold f. rewrite <- (cat_S f level).
      destruct (IH (S level)) as (j & Hj & Hrun & Hearly & Hlast); [lia|lia|lia|].
      exists j. split; [lia|]. split; [done|]. split; [done|].
      intros Hrev _. destruct (decide (S level = j)) as [<-|Hlt].
      * replace (S level - 1)%nat with level by lia. rewrite Hrev in Hcond.
        cbn [negb orb] in Hcond. by apply Z.ltb_lt.
      * apply Hlast; [done|lia].
  - apply orb_false_elim in Hcond as [Hrev Hcond]. apply Z.ltb_ge in Hcond.
    exists level. split; [lia|]. split; [done|]. split.
    + intros _. split; [by destruct reverse|done].
    + intros _ Hlt. lia.
Qed.
End FetchLevels.

(** Decoding in a suffix of the logical sequence. *)
Lemma decodeAt_suffix (P S : bytes) (d : Z) (fbh : fetchBlockHashFunc)
    (g g' : Z → Z) (todo : nat) (i : Z) :
  len P = 16 * d →
  (∀ j, i ≤ j < i + Z.of_nat todo → 0 ≤ g j ∧ g' j = g j + d) →
  decodeAt (P ++ S) fbh (offsetsFrom todo i g') = decodeAt S fbh (offsetsFrom todo i g).
Proof.
  intros HP. revert i. induction todo as [|todo IH]; intros i Hg; [done|].
  cbn [offsetsFrom decodeAt]. destruct (Hg i ltac:(lia)) as [Hg0 ->].
  replace (Z.to_nat (16 * (g i + d))) with (length P + Z.to_nat (16 * g i))%nat
    by (unfold len in HP; lia).
  rewrite drop_app_add, IH; [done|]. intros j Hj. apply Hg. lia.
Qed.

(** What a fetch returns from a stored state that satisfies the level
    invariants, when [numToSkip + numRequested] fits 32 bits. *)
Lemma dbFetchAddrIndexEntries_layout (a : bytes) (skip want : Z) (reverse : bool)
    (fbh : fetchBlockHashFunc) (b : membucket) (n : nat) :
  layout b a n → len (contents b a) < 2 ^ 32 →
  0 ≤ skip → 0 ≤ want → skip + want < 2 ^ 32 →
  dbFetchAddrIndexEntries a skip want reverse fbh b =
    if totalEntries b a <=? skip then Ok (([], totalEntries b a), b)
    else if want =? 0 then Ok (([], skip), b)
    else
      match decodeAt (contents b a) fbh
              (offsetsFrom (Z.to_nat (Z.min want (totalEntries b a - skip))) 0
                 (fetchOffset (totalEntries b a) skip reverse)) with
      | inr entries => Ok ((entries, skip), b)
      | inl err => Err (fetchError err)
      end.
Proof.
  intros Hlay Hsmall Hskip Hwant Hsum.
  pose proof (layout_height b a n Hlay Hsmall) as Hn.
  pose proof (layout_whole b a n Hlay) as HN.
  set (N := totalEntries b a) in *.
  rewrite (layout_contents b a n Hlay) in *.
  set (f := levelData b a) in *.
  destruct (fetchLevels_mem a b n Hlay loopFuel 0 skip want reverse)
    as (j & Hj & Hrun & Hearly & _); [lia|unfold loopFuel; lia|lia|].
  fold f in Hrun, Hearly. cbn [cat] in Hrun.
  unfold dbFetchAddrIndexEntries. rewrite (run_bind_Ok _ _ _ _ _ _ _ _ Hrun).
  destruct (layout_cat_whole b a n j Hlay ltac:(lia)) as [N' HN']. fold f in HN'.
  pose proof (len_nonneg (cat f j)) as Hnn.
  pose proof (len_cat_mono f j n ltac:(lia)) as Hmono.
  rewrite (quot_entries _ _ HN'). rewrite (wrap32_small N') by lia.
  assert (Hload : ∀ todo : nat, skip + Z.of_nat todo ≤ N' →
    (let* results := loadEntries todo a (cat f j) N' skip reverse fbh 0 in
     ret (results, skip)) b =
    match decodeAt (cat f j) fbh (offsetsFrom todo 0 (fetchOffset N' skip reverse)) with
    | inr entries => Ok ((entries, skip), b)
    | inl err => Err (fetchError err)
    end).
  { intros todo Htodo. unfold bind.
    rewrite (loadEntries_decodeAt _ _ todo a (cat f j) N' skip reverse fbh 0 b)
      by lia.
    by destruct (decodeAt _ _ _). }
  destruct (decide (j = n)) as [->|Hjn].
  - (* every level was loaded *)
    assert (N' = N) as -> by lia.
    destruct (Z.leb_spec N skip); [done|].
    destruct (Z.eqb_spec want 0); [done|].
    rewrite (wrap32_small (N - skip)) by lia.
    replace (if want <? N - skip then want else N - skip) with (Z.min want (N - skip))
      by (destruct (Z.ltb_spec want (N - skip)); lia).
    apply Hload. lia.
  - (* going backward, the loop stopped with enough entries *)
    destruct (Hearly ltac:(lia)) as [-> Hle].
    unfold txEntrySize in Hle. rewrite (wrap32_small (skip + want)) in Hle by lia.
    rewrite wrap64_small in Hle by lia.
    assert (Hsplit : cat f n = cat (λ i, f (j + i)%nat) (n - j) ++ cat f j).
    { replace n with ((n - j) + j)%nat at 1 by lia. apply cat_add. }
    set (P := cat (λ i, f (j + i)%nat) (n - j)) in *.
    assert (HP : 16 ≤ len P).
    { pose proof (len_cat_ge (λ i, f (j + i)%nat) (n - j) 0 ltac:(lia)) as Hge.
      fold P in Hge. cbn beta in Hge. rewrite Nat.add_0_r in Hge.
      destruct (layout_stored b a n j Hlay ltac:(lia)) as [_ Hg].
      pose proof (good_level_len _ _ Hg). fold f in H. lia. }
    assert (HlenC : len (cat f n) = len P + len (cat f j))
      by (by rewrite Hsplit, len_app).
    destruct (Z.leb_spec N skip); [lia|].
    destruct (Z.leb_spec N' skip) as [HN's|HN's].
    + assert (want = 0) as -> by lia. assert (N' = skip) as -> by lia. done.
    + destruct (Z.eqb_spec want 0); [done|].
      rewrite (wrap32_small (N' - skip)) by lia.
      replace (if want <? N' - skip then want else N' - skip) with want
        by (destruct (Z.ltb_spec want (N' - skip)); lia).
      replace (Z.min want (N - skip)) with want by lia.
      rewrite Hload by lia. rewrite Hsplit.
      rewrite (decodeAt_suffix P (cat f j) (N - N') fbh
                 (fetchOffset N' skip true) (fetchOffset N skip true)); [done|lia|].
      intros i Hi. unfold fetchOffset. lia.
Qed.

(** ** Sequences of appends *)

Lemma len_serializeRecord (e : IndexRecord) : len (serializeRecord e) = 16.
Proof. reflexivity. Qed.

Lemma len_concat_records (es : list IndexRecord) :
  len (concat (map serializeRecord es)) = 16 * Z.of_nat (length es).
Proof.
  induction es as [|e es IH]; [done|].
  cbn [map concat length]. rewrite len_app, IH, len_serializeRecord. lia.
Qed.

Lemma appendEntries_layout (a : bytes) (es : list IndexRecord) (b : membucket) (n : nat) :
  layout b a n → len (contents b a) + 16 * Z.of_nat (length es) < 2 ^ 32 →
  ∃ b' n', appendEntries a es b = Ok (tt, b') ∧ layout b' a n' ∧
    contents b' a = contents b a ++ concat (map serializeRecord es) ∧
    (∀ k, (∀ L, (L < 256)%nat → k ≠ keyForLevel a L) → b' !! k = b !! k).
Proof.
  revert b n. induction es as [|e es IH]; intros b n Hlay Hsmall.
  - exists b, n. cbn [appendEntries map concat]. by rewrite app_nil_r.
  - cbn [length] in Hsmall. cbn [appendEntries].
    destruct (dbPutAddrIndexEntry_layout a (recBlockID e) (recTxLoc e) (recBlockIndex e)
                b n Hlay ltac:(lia)) as (b1 & n1 & Hrun1 & Hlay1 & Hcont1 & Hframe1).
    rewrite (run_bind_Ok _ _ _ _ _ _ _ _ Hrun1).
    destruct (IH b1 n1 Hlay1) as (b' & n' & Hrun & Hlay' & Hcont & Hframe).
    { rewrite Hcont1, len_app, len_serializeAddrIndexEntry. lia. }
    exists b', n'. split; [done|]. split; [done|]. split.
    + rewrite Hcont, Hcont1. cbn [map concat]. by rewrite <- app_assoc.
    + intros k Hk. rewrite Hframe, Hframe1; done.
Qed.

(** ** From a layout to the invariants on entry counts *)

Lemma levelMax_half (L : nat) : levelMax (S L) / 2 = 4 * p2 (S L).
Proof.
  unfold levelMax. replace (8 * p2 (S L)) with (4 * p2 (S L) * 2) by lia.
  apply Z.div_mul. lia.
Qed.

Lemma layout_E (b : membucket) (a : bytes) (n L : nat) :
  layout b a n → (L < 256)%nat →
  if decide (L < n)%nat then 16 * E b a L = len (levelData b a L) ∧ 1 ≤ E b a L
  else E b a L = 0.
Proof.
  intros Hlay HL. unfold E. destruct (decide (L < n)%nat) as [Hin|Hout].
  - destruct (layout_stored b a n L Hlay Hin) as [_ Hg].
    destruct (good_level_entries _ _ Hg) as (m & Hm & Hm1).
    rewrite (quot_entries _ _ Hm). lia.
  - destruct (layout_absent b a n L Hlay ltac:(lia)) as [_ ->]. done.
Qed.

Lemma layout_invariants (b : membucket) (a : bytes) (n : nat) :
  layout b a n → level_invariants b a.
Proof.
  intros Hlay. split; [|split].
  - intros L HL. pose proof (layout_E b a n L Hlay ltac:(lia)) as HE.
    destruct (decide (L < n)%nat) as [Hin|Hout]; [|by left]. right.
    destruct HE as [HE _]. destruct (layout_stored b a n L Hlay Hin) as [_ Hg].
    destruct L as [|L]; [lia|]. rewrite levelMax_half. unfold levelMax.
    simpl in Hg. lia.
  - intros L HL Hpos K HK.
    pose proof (layout_E b a n L Hlay ltac:(lia)) as HE.
    destruct (decide (L < n)%nat) as [Hin|Hout]; [|lia].
    pose proof (layout_E b a n K Hlay ltac:(lia)) as HEK.
    destruct (decide (K < n)%nat); [lia|lia].
  - pose proof (layout_E b a n 0 Hlay ltac:(lia)) as HE.
    destruct (decide (0 < n)%nat) as [Hin|Hout]; [|lia].
    destruct (layout_stored b a n 0 Hlay Hin) as [_ (k & Hk & Hlen)]. lia.
Qed.

(** The populated levels form a prefix. *)
Lemma populated_prefix (P : nat → Prop) (N : nat) :
  (∀ L, Decision (P L)) →
  ∃ n, (n ≤ N)%nat ∧ (∀ L, (L < n)%nat → P L) ∧ ((n < N)%nat → ¬ P n).
Proof.
  intros Hdec. induction N as [|N (n & Hn & Hbelow & Hat)].
  - exists 0%nat. split; [lia|]. split; intros; lia.
  - destruct (decide (n = N)) as [->|Hne].
    + destruct (decide (P N)) as [HP|HP].
      * exists (S N). split; [lia|]. split; [|lia].
        intros L HL. destruct (decide (L = N)) as [->|]; [done|]. apply Hbelow. lia.
      * exists N. split; [lia|]. by split.
    + exists n. split; [lia|]. split; [done|]. intros _. apply Hat. lia.
Qed.

(** A stored state has a layout exactly when it satisfies the level
    invariants and stores whole, non-empty values. *)
Lemma stored_ok_iff (b : membucket) (a : bytes) :
  stored_ok b a ↔ level_invariants b a ∧ whole_entries b a.
Proof.
  split.
  - intros [n Hlay]. split; [by apply (layout_invariants b a n)|].
    intros L v HL Hv. destruct (Nat.lt_ge_cases L n) as [HLn|HLn].
    + destruct (layout_stored b a n L Hlay HLn) as [Hv' Hg]. rewrite Hv in Hv'.
      injection Hv' as ->. split; [by apply (good_level_nonempty L)|].
      destruct (good_level_entries _ _ Hg) as (m & Hm & _). by exists m.
    + destruct (layout_absent b a n L Hlay ltac:(lia)) as [Hnone _]. congruence.
  - intros [(Hsizes & Hgaps & H0) Hwhole].
    destruct (populated_prefix (λ L, 0 < E b a L) 256 ltac:(intros L; apply _))
      as (n & Hn & Hbelow & Hat).
    assert (HE : ∀ L v, (L < 256)%nat → b !! keyForLevel a L = Some v →
                 len v = 16 * E b a L ∧ 0 < E b a L).
    { intros L v HL Hv. destruct (Hwhole L v HL Hv) as [Hne [k Hk]].
      unfold E. rewrite (levelData_Some _ _ _ _ Hv), (quot_entries _ _ Hk).
      split; [done|]. pose proof (len_nonneg v).
      destruct (decide (k = 0)) as [->|]; [|lia]. by apply len_0_nil in Hk. }
    exists n. split; [done|]. split.
    + intros L HL. destruct (b !! keyForLevel a L) as [v|] eqn:Hv; [exfalso|done].
      destruct (HE L v ltac:(lia) Hv) as [_ Hpos].
      destruct (decide (L = n)) as [->|Hne]; [by apply Hat; [lia|]|].
      apply Hat; [lia|]. apply (Hgaps L); [lia|done|lia].
    + intros L HL. specialize (Hbelow L HL).
      destruct (b !! keyForLevel a L) as [v|] eqn:Hv.
      * exists v. split; [done|]. destruct (HE L v ltac:(lia) Hv) as [Hlen _].
        destruct L as [|L]; simpl.
        -- exists (E b a 0). split; [lia|done].
        -- destruct (Hsizes (S L) ltac:(lia)) as [Hz|[Hh|Hf]]; [lia| |].
           ++ left. rewrite Hlen, Hh, levelMax_half. lia.
           ++ right. rewrite Hlen, Hf. unfold levelMax. lia.
      * exfalso. unfold E in Hbelow. rewrite (levelData_None _ _ _ Hv) in Hbelow.
        done.
Qed.

(** ** Operations on several addresses *)

Lemma other_address_frame (a a0 : bytes) (b b' : membucket) :
  a ≠ a0 →
  (∀ k, (∀ L, (L < 256)%nat → k ≠ keyForLevel a0 L) → b' !! k = b !! k) →
  ∀ L, (L < 256)%nat → b' !! keyForLevel a L = b !! keyForLevel a L.
Proof.
  intros Hne Hframe L HL. apply Hframe. intros L' HL' E.
  by apply keyForLevel_inj in E as [? _].
Qed.

Lemma runOp_layouts (o : indexOp) (b : membucket) (j : Z) :
  all_layouts b j → 16 * (j + 1) < 2 ^ 32 → counts_ok b [o] →
  ∃ b', runOp o b = Ok (tt, b') ∧ all_layouts b' (j + 1).
Proof.
  intros Hall Hsmall [Hcount _]. destruct o as [a0 e|a0 count]; cbn [runOp].
  - destruct (Hall a0) as (n0 & Hlay0 & Hlen0).
    destruct (dbPutAddrIndexEntry_layout a0 (recBlockID e) (recTxLoc e) (recBlockIndex e)
                b n0 Hlay0 ltac:(lia)) as (b' & n' & Hrun & Hlay' & Hcont & Hframe).
    exists b'. split; [done|]. intros a. destruct (decide (a = a0)) as [->|Hne].
    + exists n'. split; [done|]. rewrite Hcont, len_app, len_serializeAddrIndexEntry. lia.
    + destruct (Hall a) as (n & Hlay & Hlen).
      destruct (layout_frame b b' a n (other_address_frame a a0 b b' Hne Hframe) Hlay)
        as [Hl Hc].
      exists n. split; [done|]. rewrite Hc. lia.
  - destruct (Z.leb_spec count 0) as [Hle|Hpos].
    + exists b. split.
      * unfold dbRemoveAddrIndexEntries. destruct (Z.leb_spec count 0); [done|lia].
      * intros a. destruct (Hall a) as (n & Hlay & Hlen). exists n. split; [done|lia].
    + destruct (Hall a0) as (n0 & Hlay0 & Hlen0).
      pose proof (layout_whole b a0 n0 Hlay0) as Hwhole.
      destruct (dbRemoveAddrIndexEntries_layout a0 count b n0 Hlay0 ltac:(lia) Hpos
                  ltac:(lia)) as (b' & n' & Hrun & Hlay' & Hcont & Hframe).
      exists b'. split; [done|]. intros a. destruct (decide (a = a0)) as [->|Hne].
      * exists n'. split; [done|]. rewrite Hcont.
        pose proof (len_nonneg (contents b a0)).
        rewrite len_take by (unfold len in *; lia). lia.
      * destruct (Hall a) as (n & Hlay & Hlen).
        destruct (layout_frame b b' a n (other_address_frame a a0 b b' Hne Hframe) Hlay)
          as [Hl Hc].
        exists n. split; [done|]. rewrite Hc. lia.
Qed.

Lemma runOps_layouts (ops : list indexOp) (b : membucket) (j : Z) :
  all_layouts b j → 16 * (j + Z.of_nat (length ops)) < 2 ^ 32 → counts_ok b ops →
  ∃ b', runOps ops b = Ok (tt, b') ∧ all_layouts b' (j + Z.of_nat (length ops)).
Proof.
  revert b j. induction ops as [|o ops IH]; intros b j Hall Hsmall Hcounts.
  - exists b. split; [done|]. cbn [length]. by rewrite Z.add_0_r.
  - cbn [length] in *. destruct Hcounts as [Hcount Hrest].
    destruct (runOp_layouts o b j Hall ltac:(lia)) as (b1 & Hrun1 & Hall1).
    { split; [done|]. by intros b' _. }
    cbn [runOps]. rewrite (run_bind_Ok _ _ _ _ _ _ _ _ Hrun1).
    destruct (IH b1 (j + 1) Hall1 ltac:(lia) (Hrest b1 Hrun1)) as (b' & Hrun & Hall').
    exists b'. split; [done|].
    by replace (j + Z.of_nat (S (length ops))) with (j + 1 + Z.of_nat (length ops)) by lia.
Qed.

Lemma all_layouts_empty : all_layouts ∅ 0.
Proof.
  intros a. exists 0%nat. destruct (layout_empty a) as [Hl ->]. split; [done|].
  rewrite len_nil. lia.
Qed.

(** Every state the operations reach has a layout for every address. *)
Lemma stored_ok_after_ops (ops : list indexOp) :
  16 * Z.of_nat (length ops) < 2 ^ 32 → counts_ok ∅ ops →
  ∃ b', runOps ops ∅ = Ok (tt, b') ∧ ∀ a, stored_ok b' a.
Proof.
  intros Hsmall Hcounts.
  destruct (runOps_layouts ops ∅ 0 all_layouts_empty ltac:(lia) Hcounts)
    as (b' & Hrun & Hall).
  exists b'. split; [done|]. intros a. destruct (Hall a) as (n & Hlay & _).
  by exists n.
Qed.

(** C1 (amended). Starting from the empty bucket, after every sequence of
    appends and removes on any addresses in which each remove asks for no
    more entries than its address then holds (and whose length fits the
    32-bit entry counts of the code), the sequence runs without error and
    every address satisfies the level invariants: a level above 0 holds 0,
    half its maximum or its maximum; below a populated level every level is
    populated; level 0 holds at most eight entries. *)
Theorem level_invariants_after_ops (ops : list indexOp) :
  16 * Z.of_nat (length ops) < 2 ^ 32 → counts_ok ∅ ops →
  ∃ b', runOps ops ∅ = Ok (tt, b') ∧ ∀ a, level_invariants b' a.
Proof.
  intros Hsmall Hcounts.
  destruct (runOps_layouts ops ∅ 0 all_layouts_empty ltac:(lia) Hcounts)
    as (b' & Hrun & Hall).
  exists b'. split; [done|]. intros a. destruct (Hall a) as (n & Hlay & _).
  by apply (layout_invariants b' a n).
Qed.

Lemma counts_okb_ok (ops : list indexOp) (b : membucket) :
  counts_okb b ops = true → counts_ok b ops.
Proof.
  revert b. induction ops as [|o ops IH]; intros b H; [done|].
  cbn [counts_okb counts_ok] in *. apply andb_prop in H as [Hcount Hrest]. split.
  - destruct o as [a e|a count]; [done|]. by apply Z.leb_le.
  - intros b' Hrun. rewrite Hrun in Hrest. by apply IH.
Qed.

Lemma level_invariants_after_ops_witness :
  ∃ b', runOps [OpAppend sampleAddr (sampleRecord 1); OpAppend sampleAddr (sampleRecord 2);
                OpRemove sampleAddr 1] ∅ = Ok (tt, b') ∧
        ∀ a, level_invariants b' a.
Proof.
  apply level_invariants_after_ops.
  - vm_compute. reflexivity.
  - apply counts_okb_ok. vm_compute. reflexivity.
Defined.

(** C1, as stated, fails: after nine appends to one address level 1 is
    populated while level 0 holds one entry, not its maximum of eight. *)
Lemma nine_appends_level0_not_full :
  16 * Z.of_nat (length (map (OpAppend sampleAddr) (sampleRecords 9 1))) < 2 ^ 32 ∧
  counts_ok ∅ (map (OpAppend sampleAddr) (sampleRecords 9 1)) ∧
  ∃ b', runOps (map (OpAppend sampleAddr) (sampleRecords 9 1)) ∅ = Ok (tt, b') ∧
        E b' sampleAddr 1 = 8 ∧ E b' sampleAddr 0 = 1 ∧
        ¬ level_invariants_full_below b' sampleAddr.
Proof.
  split; [vm_compute; reflexivity|]. split.
  { apply counts_okb_ok. vm_compute. reflexivity. }
  assert (Hrun : match runOps (map (OpAppend sampleAddr) (sampleRecords 9 1)) ∅ with
                 | Ok (_, b') => Some (E b' sampleAddr 1, E b' sampleAddr 0)
                 | _ => None
                 end = Some (8, 1)) by (vm_compute; reflexivity).
  destruct (runOps (map (OpAppend sampleAddr) (sampleRecords 9 1)) ∅)
    as [[[] b']| | |]; try discriminate.
  injection Hrun as H1 H0. exists b'. split; [done|]. split; [done|]. split; [done|].
  intros (_ & Hfull & _).
  specialize (Hfull 1%nat ltac:(lia) ltac:(lia) 0%nat ltac:(lia)).
  rewrite H0 in Hfull. vm_compute in Hfull. discriminate.
Qed.

(** A bucket that stores one to eight entries at level 0 of an address and
    nothing else satisfies the invariants. *)
Lemma sample_level0_ok (a v : bytes) :
  (∃ k, 1 ≤ k ≤ 8 ∧ len v = 16 * k) →
  level_invariants (<[keyForLevel a 0 := v]> ∅) a ∧
  whole_entries (<[keyForLevel a 0 := v]> ∅) a.
Proof.
  intros Hv. apply stored_ok_iff. exists 1%nat. split; [lia|]. split.
  - intros L HL. rewrite lookup_insert_ne by (apply keyForLevel_ne; lia).
    apply lookup_empty.
  - intros L HL. replace L with 0%nat by lia. exists v.
    split; [apply lookup_insert_eq|done].
Qed.

(** C3. For an address whose stored state satisfies the level invariants
    (and stores whole, non-empty level values), appending any entries and
    then removing as many restores the very same bucket: every key holds
    the value it held before. *)
Theorem remove_undoes_appends (a : bytes) (es : list IndexRecord) (b : membucket) :
  level_invariants b a → whole_entries b a →
  len (contents b a) + 16 * Z.of_nat (length es) < 2 ^ 32 →
  ∃ b1, appendEntries a es b = Ok (tt, b1) ∧
        dbRemoveAddrIndexEntries a (Z.of_nat (length es)) b1 = Ok (tt, b).
Proof.
  intros Hinv Hwhole Hsmall.
  destruct (proj2 (stored_ok_iff b a) (conj Hinv Hwhole)) as [n Hlay].
  destruct (appendEntries_layout a es b n Hlay Hsmall)
    as (b1 & n1 & Hrun1 & Hlay1 & Hcont1 & Hframe1).
  exists b1. split; [done|].
  destruct es as [|e es].
  { cbn [appendEntries] in Hrun1. injection Hrun1 as <-. done. }
  set (k := Z.of_nat (length (e :: es))) in *.
  assert (Hk : 0 < k) by (unfold k; cbn [length]; lia).
  pose proof (len_concat_records (e :: es)) as Hlen. fold k in Hlen.
  pose proof (len_nonneg (contents b a)) as Hnn.
  destruct (dbRemoveAddrIndexEntries_layout a k b1 n1 Hlay1)
    as (b2 & n2 & Hrun2 & Hlay2 & Hcont2 & Hframe2); [|done| |].
  { rewrite Hcont1, len_app. lia. }
  { rewrite Hcont1, len_app. lia. }
  rewrite Hrun2. do 2 f_equal. apply map_eq. intros key.
  destruct (level_key_cases a key) as [(L & HL & ->)|Hother].
  - apply (layout_unique b2 b a n2 n Hlay2 Hlay); [|done].
    rewrite Hcont2, Hcont1, len_app.
    replace (Z.to_nat (len (contents b a) + len (concat (map serializeRecord (e :: es)))
                       - 16 * k)) with (length (contents b a))
      by (unfold len in *; lia).
    apply take_app_length.
  - rewrite Hframe2, Hframe1; done.
Qed.

Lemma remove_undoes_appends_witness :
  ∃ b1, appendEntries sampleAddr (sampleRecords 3 9) (<[keyForLevel sampleAddr 0 :=
            concat (map serializeRecord (sampleRecords 8 1))]> ∅) = Ok (tt, b1) ∧
        dbRemoveAddrIndexEntries sampleAddr (Z.of_nat (length (sampleRecords 3 9))) b1 =
          Ok (tt, <[keyForLevel sampleAddr 0 :=
                      concat (map serializeRecord (sampleRecords 8 1))]> ∅).
Proof.
  apply remove_undoes_appends.
  - apply sample_level0_ok. exists 8. split; [lia|]. reflexivity.
  - apply sample_level0_ok. exists 8. split; [lia|]. reflexivity.
  - vm_compute. reflexivity.
Defined.

(** C6. For an address whose stored state satisfies the level invariants
    (and stores whole, non-empty level values) and a positive count, [dbRemoveAddrIndexEntries] fails with the
    assertion error exactly when the count exceeds the number of entries
    stored for the address, and succeeds otherwise. *)
Theorem remove_asserts_iff_short (a : bytes) (count : Z) (b : membucket) :
  level_invariants b a → whole_entries b a →
  len (contents b a) < 2 ^ 32 → 0 < count < 2 ^ 63 →
  (dbRemoveAddrIndexEntries a count b =
     Err (AssertError "dbRemoveAddrIndexEntries not enough entries")
   ↔ totalEntries b a < count) ∧
  (count ≤ totalEntries b a → ∃ b', dbRemoveAddrIndexEntries a count b = Ok (tt, b')).
Proof.
  intros Hinv Hwf Hsmall Hcount.
  destruct (proj2 (stored_ok_iff b a) (conj Hinv Hwf)) as [n Hlay].
  pose proof (layout_whole b a n Hlay) as Hwhole.
  assert (Hok : count ≤ totalEntries b a →
                ∃ b', dbRemoveAddrIndexEntries a count b = Ok (tt, b')).
  { intros Hle.
    destruct (dbRemoveAddrIndexEntries_layout a count b n Hlay Hsmall)
      as (b' & n' & Hrun & _); [lia|lia|]. by exists b'. }
  split; [|done]. split.
  - intros Herr. destruct (Z.lt_ge_cases (totalEntries b a) count) as [|Hle]; [done|].
    destruct (Hok Hle) as [b' Hrun]. congruence.
  - intros Hshort. apply (dbRemoveAddrIndexEntries_short a count b n); [done|done|lia|lia].
Qed.

Lemma remove_asserts_iff_short_witness :
  (dbRemoveAddrIndexEntries sampleAddr 2 (<[keyForLevel sampleAddr 0 :=
       serializeRecord (sampleRecord 1)]> ∅) =
     Err (AssertError "dbRemoveAddrIndexEntries not enough entries")
   ↔ totalEntries (<[keyForLevel sampleAddr 0 := serializeRecord (sampleRecord 1)]> ∅)
       sampleAddr < 2) ∧
  (2 ≤ totalEntries (<[keyForLevel sampleAddr 0 := serializeRecord (sampleRecord 1)]> ∅)
         sampleAddr →
   ∃ b', dbRemoveAddrIndexEntries sampleAddr 2 (<[keyForLevel sampleAddr 0 :=
           serializeRecord (sampleRecord 1)]> ∅) = Ok (tt, b')).
Proof.
  apply remove_asserts_iff_short.
  - apply sample_level0_ok. exists 1. split; [lia|]. reflexivity.
  - apply sample_level0_ok. exists 1. split; [lia|]. reflexivity.
  - vm_compute. reflexivity.
  - lia.
Defined.

Lemma levelData_insert (b : membucket) (a : bytes) (L : nat) (v : bytes) :
  levelData (<[keyForLevel a L := v]> b) a L = v.
Proof. unfold levelData. by rewrite lookup_insert_eq. Qed.

Lemma levelData_insert_ne (b : membucket) (a : bytes) (L L' : nat) (v : bytes) :
  L ≠ L' → levelData (<[keyForLevel a L := v]> b) a L' = levelData b a L'.
Proof.
  intros H. unfold levelData. by rewrite lookup_insert_ne by by apply keyForLevel_ne.
Qed.

(** An append to a bucket whose level 0 holds [v], with room for one more. *)
Lemma appendEntries_fits (a : bytes) (e : IndexRecord) (es : list IndexRecord)
    (v : bytes) (b : membucket) :
  len v + 16 ≤ 128 →
  appendEntries a (e :: es) (<[keyForLevel a 0 := v]> b) =
    appendEntries a es (<[keyForLevel a 0 := v ++ serializeRecord e]> b).
Proof.
  intros Hfit. cbn [appendEntries]. erewrite run_bind_Ok; last first.
  { apply dbPutAddrIndexEntry_fits. by rewrite levelData_insert. }
  by rewrite levelData_insert, insert_insert_eq.
Qed.

Lemma appendEntries_first (a : bytes) (e : IndexRecord) (es : list IndexRecord)
    (b : membucket) :
  levelData b a 0 = [] →
  appendEntries a (e :: es) b =
    appendEntries a es (<[keyForLevel a 0 := serializeRecord e]> b).
Proof.
  intros H0. cbn [appendEntries]. erewrite run_bind_Ok; last first.
  { apply dbPutAddrIndexEntry_fits. by rewrite H0. }
  by rewrite H0.
Qed.

(** C4. When level 0 is full, an append writes [cur ++ prev] into the first
    level [L] that is not full, copies the bytes level [m - 1] held before
    the append into level [m] for every [m] from [L - 1] down to 1, and
    leaves the single new entry in level 0; no other key changes.  In
    particular, nine appends to an address without keys leave the ninth
    entry in level 0 and the first eight in level 1. *)
Theorem append_cascade :
  (∀ (a : bytes) (e : IndexRecord) (b : membucket) (L : nat),
     len (levelData b a 0) = 16 * levelMax 0 →
     (1 ≤ L ≤ 55)%nat →
     (∀ m, (1 ≤ m < L)%nat → len (levelData b a m) = 16 * levelMax m) →
     len (levelData b a L) ≠ 16 * levelMax L →
     ∃ b', dbPutAddrIndexEntry a (recBlockID e) (recTxLoc e) (recBlockIndex e) b
             = Ok (tt, b') ∧
       b' !! keyForLevel a L = Some (levelData b a L ++ levelData b a (L - 1)) ∧
       (∀ m, (1 ≤ m < L)%nat → b' !! keyForLevel a m = Some (levelData b a (m - 1))) ∧
       b' !! keyForLevel a 0 = Some (serializeRecord e) ∧
       (∀ k, (∀ m, (m ≤ L)%nat → k ≠ keyForLevel a m) → b' !! k = b !! k)) ∧
  (∀ (a : bytes) (b : membucket) (e1 e2 e3 e4 e5 e6 e7 e8 e9 : IndexRecord),
     (∀ L, (L < 256)%nat → b !! keyForLevel a L = None) →
     ∃ b', appendEntries a [e1; e2; e3; e4; e5; e6; e7; e8; e9] b = Ok (tt, b') ∧
       b' !! keyForLevel a 0 = Some (serializeRecord e9) ∧
       b' !! keyForLevel a 1 =
         Some (concat (map serializeRecord [e1; e2; e3; e4; e5; e6; e7; e8]))).
Proof.
  split.
  - intros a e b L H0 HL Hfull Hnot. unfold levelMax in *. rewrite p2_0 in H0.
    apply dbPutAddrIndexEntry_cascade; [lia|done| |lia].
    intros m Hm. rewrite Hfull by done. lia.
  - intros a b e1 e2 e3 e4 e5 e6 e7 e8 e9 Hnone.
    assert (H0 : levelData b a 0 = []) by (apply levelData_None, Hnone; lia).
    assert (H1 : levelData b a 1 = []) by (apply levelData_None, Hnone; lia).
    set (v8 := concat (map serializeRecord [e1; e2; e3; e4; e5; e6; e7; e8])).
    assert (Hrun8 : appendEntries a [e1; e2; e3; e4; e5; e6; e7; e8; e9] b =
                    appendEntries a [e9] (<[keyForLevel a 0 := v8]> b)).
    { rewrite appendEntries_first by done.
      rewrite !appendEntries_fits by done.
      unfold v8. cbn [map concat]. by rewrite app_nil_r, <- !app_assoc. }
    destruct (dbPutAddrIndexEntry_cascade a (recBlockID e9) (recTxLoc e9) (recBlockIndex e9)
                (<[keyForLevel a 0 := v8]> b) 1)
      as (b' & Hrun & HbL & _ & Hb0 & _).
    { by rewrite levelData_insert. }
    { lia. }
    { intros m Hm. lia. }
    { rewrite levelData_insert_ne, H1 by lia. done. }
    exists b'. split.
    + rewrite Hrun8. cbn [appendEntries]. by rewrite (run_bind_Ok _ _ _ _ _ _ _ _ Hrun).
    + split; [done|]. rewrite HbL.
      by rewrite levelData_insert_ne, H1, levelData_insert by lia.
Qed.

Lemma append_cascade_witness :
  ∃ b', dbPutAddrIndexEntry sampleAddr (recBlockID (sampleRecord 9))
          (recTxLoc (sampleRecord 9)) (recBlockIndex (sampleRecord 9))
          (<[keyForLevel sampleAddr 0 :=
               concat (map serializeRecord (sampleRecords 8 1))]> ∅) = Ok (tt, b') ∧
    b' !! keyForLevel sampleAddr 1 =
      Some (concat (map serializeRecord (sampleRecords 8 1))) ∧
    b' !! keyForLevel sampleAddr 0 = Some (serializeRecord (sampleRecord 9)).
Proof.
  destruct (proj1 append_cascade sampleAddr (sampleRecord 9)
              (<[keyForLevel sampleAddr 0 :=
                   concat (map serializeRecord (sampleRecords 8 1))]> ∅) 1%nat)
    as (b' & Hrun & H1 & _ & H0 & _).
  - rewrite levelData_insert. vm_compute. reflexivity.
  - lia.
  - intros m Hm. lia.
  - rewrite levelData_insert_ne by lia. vm_compute. discriminate.
  - exists b'. split; [exact Hrun|]. split; [|exact H0].
    rewrite H1. by rewrite levelData_insert_ne, levelData_insert by lia.
Defined.

(** For any implementation of the bucket, a count that is not positive
    returns at once with the bucket it was given. *)
Lemma dbRemoveAddrIndexEntries_nonpositive (B : Type) (IB : internalBucket B)
    (a : bytes) (count : Z) (b : B) :
  count ≤ 0 → dbRemoveAddrIndexEntries a count b = Ok (tt, b).
Proof.
  intros Hle. unfold dbRemoveAddrIndexEntries.
  destruct (Z.leb_spec count 0); [done|lia].
Qed.

(** C9. With a count that is zero or negative, [dbRemoveAddrIndexEntries]
    succeeds without any access to the bucket: on a bucket that records
    every Get, Put and Delete, the record and the stored values are those
    it started with, and no error is returned. *)
Theorem remove_nonpositive_no_access (a : bytes) (count : Z) (b : tracedBucket) :
  count ≤ 0 →
  ∃ b', dbRemoveAddrIndexEntries a count b = Ok (tt, b') ∧
    accesses b' = accesses b ∧
    ∀ key, tracedStore b' !! key = tracedStore b !! key.
Proof.
  intros Hle. exists b. split; [|done].
  by apply dbRemoveAddrIndexEntries_nonpositive.
Qed.

Lemma remove_nonpositive_no_access_witness :
  ∃ b', dbRemoveAddrIndexEntries sampleAddr (-3)
          {| tracedStore := {[keyForLevel sampleAddr 0 := serializeRecord (sampleRecord 1)]};
             accesses := [] |} = Ok (tt, b') ∧
    accesses b' = [] ∧
    ∀ key, tracedStore b' !! key =
           ({[keyForLevel sampleAddr 0 := serializeRecord (sampleRecord 1)]}
              : gmap bytes bytes) !! key.
Proof.
  exact (remove_nonpositive_no_access sampleAddr (-3)
           {| tracedStore := {[keyForLevel sampleAddr 0 := serializeRecord (sampleRecord 1)]};
              accesses := [] |} ltac:(lia)).
Defined.

(** A positive count does access the bucket: the record is not vacuous. *)
Example remove_positive_accesses :
  match dbRemoveAddrIndexEntries sampleAddr 1
          {| tracedStore := {[keyForLevel sampleAddr 0 := serializeRecord (sampleRecord 1)]};
             accesses := [] |} with
  | Ok (_, b') => accesses b'
  | _ => []
  end = [AccDelete (keyForLevel sampleAddr 0); AccGet (keyForLevel sampleAddr 1);
         AccGet (keyForLevel sampleAddr 0)].
Proof. vm_compute. reflexivity. Qed.

(** ** The entry codec *)

Lemma testbit_byte (v k n : Z) :
  0 ≤ k → 0 ≤ n →
  Z.testbit (Z.shiftl (Z.land (Z.shiftr v k) 255) k) n =
    (k <=? n) && (n <? k + 8) && Z.testbit v n.
Proof.
  intros Hk Hn. rewrite Z.shiftl_spec by done.
  destruct (Z.leb_spec k n) as [Hle|Hlt].
  - rewrite Z.land_spec, Z.shiftr_spec by lia.
    change 255 with (Z.ones 8). rewrite Z.testbit_ones_nonneg by lia.
    replace (n - k + k) with n by lia.
    destruct (Z.ltb_spec (n - k) 8), (Z.ltb_spec n (k + 8)); try lia;
      simpl; by rewrite ?andb_true_r, ?andb_false_r.
  - by rewrite Z.testbit_neg_r by lia.
Qed.

Lemma Uint32_PutUint32 (v : Z) : 0 ≤ v < 2 ^ 32 → Uint32 (PutUint32 v) = v.
Proof.
  intros Hv. unfold PutUint32, Uint32.
  apply Z.bits_inj'. intros n Hn.
  rewrite !Z.lor_spec.
  rewrite (testbit_byte v 24), (testbit_byte v 16), (testbit_byte v 8) by lia.
  rewrite Z.land_spec. change 255 with (Z.ones 8).
  rewrite Z.testbit_ones_nonneg by lia.
  destruct (Z.ltb_spec n 32) as [Hlt|Hge].
  - destruct (Z.leb_spec 24 n), (Z.leb_spec 16 n), (Z.leb_spec 8 n),
      (Z.ltb_spec n (24 + 8)), (Z.ltb_spec n (16 + 8)), (Z.ltb_spec n (8 + 8)),
      (Z.ltb_spec n 8); try lia; simpl;
      by rewrite ?andb_true_r, ?andb_false_r, ?orb_false_r, ?orb_false_l.
  - assert (Z.testbit v n = false) as ->.
    { destruct (decide (v = 0)) as [->|Hv0]; [apply Z.bits_0|].
      apply Z.bits_above_log2; [lia|].
      assert (Z.log2 v < 32) by (apply Z.log2_lt_pow2; lia). lia. }
    by rewrite !andb_false_r.
Qed.

Lemma wrap32_range (z : Z) : 0 ≤ wrap32 z < 2 ^ 32.
Proof. unfold wrap32. apply Z.mod_pos_bound. lia. Qed.

(** Decoding the bytes of a record, whatever follows them. *)
Lemma deserialize_serializeRecord (e : IndexRecord) (rest : bytes)
    (fbh : fetchBlockHashFunc) :
  deserializeAddrIndexEntry (serializeRecord e ++ rest) fbh =
    match fbh (PutUint32 (wrap32 (recBlockID e))) with
    | inl err => inl err
    | inr hash => inr (entryOf hash e)
    end.
Proof.
  unfold deserializeAddrIndexEntry.
  assert (Hlen : (len (serializeRecord e ++ rest) <? txEntrySize) = false).
  { apply Z.ltb_ge. rewrite len_app, len_serializeRecord.
    pose proof (len_nonneg rest). unfold txEntrySize. lia. }
  rewrite Hlen.
  change (slice (serializeRecord e ++ rest) 0 4) with (PutUint32 (wrap32 (recBlockID e))).
  change (slice (serializeRecord e ++ rest) 4 8)
    with (PutUint32 (wrap32 (TxStart (recTxLoc e)))).
  change (slice (serializeRecord e ++ rest) 8 12)
    with (PutUint32 (wrap32 (TxLen (recTxLoc e)))).
  change (slice (serializeRecord e ++ rest) 12 16)
    with (PutUint32 (wrap32 (recBlockIndex e))).
  rewrite !Uint32_PutUint32 by apply wrap32_range. done.
Qed.

(** Decoding at the offsets [i, i+1, ...] of a sequence of records. *)
Lemma decodeAt_records_forward (pre es : list IndexRecord) (rest : bytes)
    (fbh : fetchBlockHashFunc) (hashOf : IndexRecord → bytes) :
  (∀ e, e ∈ es → fbh (PutUint32 (wrap32 (recBlockID e))) = inr (hashOf e)) →
  decodeAt (concat (map serializeRecord (pre ++ es)) ++ rest) fbh
    (offsetsFrom (length es) (Z.of_nat (length pre)) (λ j, j)) =
  inr (map (λ e, entryOf (hashOf e) e) es).
Proof.
  revert pre. induction es as [|e es IH]; intros pre Hfbh; [done|].
  cbn [length offsetsFrom decodeAt map].
  assert (Hdrop : drop (Z.to_nat (16 * Z.of_nat (length pre)))
                    (concat (map serializeRecord (pre ++ e :: es)) ++ rest) =
                  serializeRecord e ++ (concat (map serializeRecord es) ++ rest)).
  { rewrite map_app, concat_app. cbn [map concat]. rewrite <- !app_assoc.
    rewrite drop_app_length'; [done|].
    pose proof (len_concat_records pre) as Hl. unfold len in Hl. lia. }
  rewrite Hdrop, deserialize_serializeRecord, Hfbh by left.
  replace (Z.of_nat (length pre) + 1) with (Z.of_nat (length (pre ++ [e])))
    by (rewrite length_app; simpl; lia).
  replace (pre ++ e :: es) with ((pre ++ [e]) ++ es) by (by rewrite <- app_assoc).
  rewrite IH; [done|]. intros e' He'. apply Hfbh. by right.
Qed.

Lemma offsetsFrom_ext (todo : nat) (i : Z) (g g' : Z → Z) :
  (∀ j, g j = g' j) → offsetsFrom todo i g = offsetsFrom todo i g'.
Proof.
  intros Hg. revert i. induction todo as [|todo IH]; intros i; [done|].
  cbn [offsetsFrom]. by rewrite Hg, IH.
Qed.

(** Decoding a sequence of records from its last entry backward. *)
Lemma decodeAt_records_reverse (es post : list IndexRecord)
    (fbh : fetchBlockHashFunc) (hashOf : IndexRecord → bytes) (i : Z) :
  (∀ e, e ∈ es → fbh (PutUint32 (wrap32 (recBlockID e))) = inr (hashOf e)) →
  decodeAt (concat (map serializeRecord (es ++ post))) fbh
    (offsetsFrom (length es) i (λ j, Z.of_nat (length es) + i - j - 1)) =
  inr (reverse (map (λ e, entryOf (hashOf e) e) es)).
Proof.
  revert post i. induction es as [|e es IH] using rev_ind; intros post i Hfbh; [done|].
  rewrite length_app. cbn [length]. replace (length es + 1)%nat with (S (length es)) by lia.
  cbn [offsetsFrom decodeAt].
  replace (Z.of_nat (S (length es)) + i - i - 1) with (Z.of_nat (length es)) by lia.
  assert (Hdrop : drop (Z.to_nat (16 * Z.of_nat (length es)))
                    (concat (map serializeRecord ((es ++ [e]) ++ post))) =
                  serializeRecord e ++ concat (map serializeRecord post)).
  { rewrite <- app_assoc, map_app, concat_app. cbn [app map concat].
    rewrite drop_app_length'; [done|].
    pose proof (len_concat_records es) as Hl. unfold len in Hl. lia. }
  rewrite Hdrop, deserialize_serializeRecord.
  rewrite Hfbh by (apply elem_of_app; right; left).
  rewrite (offsetsFrom_ext _ _ _ (λ j, Z.of_nat (length es) + (i + 1) - j - 1))
    by (intros j; lia).
  rewrite <- app_assoc. cbn [app].
  rewrite IH by (intros e' He'; apply Hfbh, elem_of_app; by left).
  by rewrite map_app, reverse_app.
Qed.

Lemma layout_no_keys (b : membucket) (a : bytes) :
  (∀ L, (L < 256)%nat → b !! keyForLevel a L = None) →
  layout b a 0 ∧ contents b a = [].
Proof.
  intros Hnone. split.
  - split; [lia|]. split; [intros L HL; apply Hnone; lia|intros L HL; lia].
  - apply cat_nil. intros i Hi. by apply levelData_None, Hnone.
Qed.

(** C2. Starting from a bucket without keys for the address, appending
    [N >= 1] entries and fetching with [skip = 0], [want = N] returns the
    [N] entries in insertion order going forward and in the opposite order
    going backward, with nothing skipped. *)
Theorem fetch_after_appends (a : bytes) (b : membucket) (es : list IndexRecord)
    (fbh : fetchBlockHashFunc) (hashOf : IndexRecord → bytes) :
  (∀ L, (L < 256)%nat → b !! keyForLevel a L = None) →
  (1 ≤ length es)%nat → 16 * Z.of_nat (length es) < 2 ^ 32 →
  (∀ e, e ∈ es → fbh (PutUint32 (wrap32 (recBlockID e))) = inr (hashOf e)) →
  ∃ b', appendEntries a es b = Ok (tt, b') ∧
    dbFetchAddrIndexEntries a 0 (Z.of_nat (length es)) false fbh b' =
      Ok ((map (λ e, entryOf (hashOf e) e) es, 0), b') ∧
    dbFetchAddrIndexEntries a 0 (Z.of_nat (length es)) true fbh b' =
      Ok ((reverse (map (λ e, entryOf (hashOf e) e) es), 0), b').
Proof.
  intros Hnone HN Hsmall Hfbh.
  destruct (layout_no_keys b a Hnone) as [Hlay0 Hcont0].
  destruct (appendEntries_layout a es b 0 Hlay0) as (b' & n' & Hrun & Hlay & Hcont & _).
  { rewrite Hcont0, len_nil. lia. }
  rewrite Hcont0 in Hcont. cbn [app] in Hcont.
  exists b'. split; [done|].
  assert (Hlen : len (contents b' a) = 16 * Z.of_nat (length es))
    by (rewrite Hcont; apply len_concat_records).
  assert (HN' : totalEntries b' a = Z.of_nat (length es)).
  { pose proof (layout_whole b' a n' Hlay). lia. }
  assert (Hfetch : ∀ reverse,
    dbFetchAddrIndexEntries a 0 (Z.of_nat (length es)) reverse fbh b' =
    match decodeAt (contents b' a) fbh
            (offsetsFrom (length es) 0
               (fetchOffset (Z.of_nat (length es)) 0 reverse)) with
    | inr entries => Ok ((entries, 0), b')
    | inl err => Err (fetchError err)
    end).
  { intros reverse.
    rewrite (dbFetchAddrIndexEntries_layout a 0 _ reverse fbh b' n' Hlay) by lia.
    rewrite HN'. destruct (Z.leb_spec (Z.of_nat (length es)) 0); [lia|].
    destruct (Z.eqb_spec (Z.of_nat (length es)) 0); [lia|].
    replace (Z.to_nat (Z.min (Z.of_nat (length es)) (Z.of_nat (length es) - 0)))
      with (length es) by lia.
    done. }
  rewrite !Hfetch, Hcont. split.
  - rewrite (offsetsFrom_ext _ _ _ (λ j, j)) by (intros j; unfold fetchOffset; lia).
    pose proof (decodeAt_records_forward [] es [] fbh hashOf Hfbh) as Hdec.
    cbn [app length] in Hdec. change (Z.of_nat 0) with 0 in Hdec.
    rewrite app_nil_r in Hdec. by rewrite Hdec.
  - rewrite (offsetsFrom_ext _ _ _ (λ j, Z.of_nat (length es) + 0 - j - 1))
      by (intros j; unfold fetchOffset; lia).
    pose proof (decodeAt_records_reverse es [] fbh hashOf 0 Hfbh) as Hdec.
    rewrite app_nil_r in Hdec. by rewrite Hdec.
Qed.

Lemma fetch_after_appends_witness :
  ∃ b', appendEntries sampleAddr (sampleRecords 9 1) ∅ = Ok (tt, b') ∧
    dbFetchAddrIndexEntries sampleAddr 0 (Z.of_nat (length (sampleRecords 9 1))) false
      (λ id, inr id) b' =
      Ok ((map (λ e, entryOf (PutUint32 (wrap32 (recBlockID e))) e) (sampleRecords 9 1), 0),
          b') ∧
    dbFetchAddrIndexEntries sampleAddr 0 (Z.of_nat (length (sampleRecords 9 1))) true
      (λ id, inr id) b' =
      Ok ((reverse (map (λ e, entryOf (PutUint32 (wrap32 (recBlockID e))) e)
                      (sampleRecords 9 1)), 0), b').
Proof.
  apply (fetch_after_appends sampleAddr ∅ (sampleRecords 9 1) (λ id, inr id)
           (λ e, PutUint32 (wrap32 (recBlockID e)))).
  - intros L HL. apply lookup_empty.
  - simpl. lia.
  - vm_compute. reflexivity.
  - intros e He. reflexivity.
Defined.

(** C5 fails on the code when [numToSkip + numRequested] overflows 32 bits:
    with nine entries stored, a backward fetch with [skip = 2^32 - 1] and
    [want = 1] loads no level and reports 0 entries skipped, where the
    comment of the function promises the 9 that exist, and where the
    forward fetch reports them. *)
Theorem fetch_reverse_skip_overflow :
  ∃ b b', appendEntries sampleAddr (sampleRecords 9 1) ∅ = Ok (tt, b) ∧
    totalEntries b sampleAddr = 9 ∧
    dbFetchAddrIndexEntries sampleAddr 4294967295 1 true (λ id, inr id) b
      = Ok (([], 0), b') ∧
    dbFetchAddrIndexEntries sampleAddr 4294967295 1 false (λ id, inr id) b
      = Ok (([], 9), b').
Proof.
  assert (Hrun : match appendEntries sampleAddr (sampleRecords 9 1) ∅ with
                 | Ok (_, b) =>
                     match dbFetchAddrIndexEntries sampleAddr 4294967295 1 true
                             (λ id, inr id) b,
                           dbFetchAddrIndexEntries sampleAddr 4294967295 1 false
                             (λ id, inr id) b with
                     | Ok ((l, k), b1), Ok ((l2, k2), b2) =>
                         Some (totalEntries b sampleAddr, l, k, l2, k2,
                               bool_decide (b1 = b2))
                     | _, _ => None
                     end
                 | _ => None
                 end = Some (9, [], 0, [], 9, true)) by (vm_compute; reflexivity).
  destruct (appendEntries sampleAddr (sampleRecords 9 1) ∅) as [[[] b]| | |];
    try discriminate.
  destruct (dbFetchAddrIndexEntries sampleAddr 4294967295 1 true _ b)
    as [[[l k] b1]| | |] eqn:Hrev; try discriminate.
  destruct (dbFetchAddrIndexEntries sampleAddr 4294967295 1 false _ b)
    as [[[l2 k2] b2]| | |] eqn:Hfwd; try discriminate.
  injection Hrun as HN Hl Hk Hl2 Hk2 Hb. apply bool_decide_eq_true in Hb.
  subst. by exists b, b2.
Qed.

(** The windows of scenario S5 over one hundred entries. *)
Example fetch_windows_of_100 :
  match appendEntries sampleAddr (sampleRecords 100 1) ∅ with
  | Ok (_, b) =>
      match dbFetchAddrIndexEntries sampleAddr 10 20 false (λ id, inr id) b,
            dbFetchAddrIndexEntries sampleAddr 10 20 true (λ id, inr id) b,
            dbFetchAddrIndexEntries sampleAddr 1000 5 false (λ id, inr id) b,
            dbFetchAddrIndexEntries sampleAddr 1000 5 true (λ id, inr id) b with
      | Ok ((l1, k1), _), Ok ((l2, k2), _), Ok ((l3, k3), _), Ok ((l4, k4), _) =>
          Some (map BlockIndex l1, k1, map BlockIndex l2, k2, (l3, k3), (l4, k4))
      | _, _, _, _ => None
      end
  | _ => None
  end = Some (seqZ 11 20, 10, reverse (seqZ 71 20), 10, ([], 100), ([], 100)).
Proof. vm_compute. reflexivity. Qed.

Lemma isDeserializeErr_fetchError (err : error) :
  isDeserializeErr (fetchError err) = false.
Proof. unfold fetchError. by destruct err. Qed.







(** ** The block indexer records no transaction twice *)

Lemma indexed_upto_mono (t t' : Z) (l : list Z) :
  t ≤ t' → indexed_upto t l → indexed_upto t' l.
Proof.
  intros Ht (Hnd & Hle & Hlast). split; [done|]. split; [|done].
  intros y Hy. specialize (Hle y Hy). lia.
Qed.

Lemma indexed_upto_snoc (t : Z) (l : list Z) :
  indexed_upto t l → last l ≠ Some t → indexed_upto t (l ++ [t]).
Proof.
  intros (Hnd & Hle & Hlast) Hne.
  assert (Hlt : ∀ y, y ∈ l → y < t).
  { intros y Hy. destruct (last l) as [x|] eqn:Hx.
    - pose proof (Hlast x y eq_refl Hy). assert (x ∈ l) as Hxl.
      { apply last_Some in Hx as [l' ->]. apply elem_of_app. right. left. }
      pose proof (Hle x Hxl). assert (x ≠ t) by congruence. lia.
    - apply last_None in Hx. subst l. by apply elem_of_nil in Hy. }
  split; [|split].
  - apply NoDup_app. split; [done|]. split; [|apply NoDup_singleton].
    intros y Hy ->%list_elem_of_singleton. specialize (Hlt t Hy). lia.
  - intros y [Hy| ->%list_elem_of_singleton]%elem_of_app; [|lia].
    specialize (Hlt y Hy). lia.
  - intros x y Hx [Hy| ->%list_elem_of_singleton]%elem_of_app.
    + rewrite last_snoc in Hx. injection Hx as <-. specialize (Hlt y Hy). lia.
    + rewrite last_snoc in Hx. injection Hx as <-. lia.
Qed.

Lemma all_indexed_upto_mono (t t' : Z) (data : writeIndexData) :
  t ≤ t' → all_indexed_upto t data → all_indexed_upto t' data.
Proof. intros Ht H k l Hl. apply (indexed_upto_mono t); [done|]. by apply (H k). Qed.

Section IndexerProps.
Variable ExtractPkScriptAddrs : Z → bytes → bool → ScriptClass * list Address * bool.
Variable AddrFromSStxPkScrCommitment : bytes → option Address.
Variable IsSSGen : MsgTx → bool → bool.
Variable IsTreasuryBase : MsgTx → bool.
Variable IsTSpend : MsgTx → bool.
Variable IsSStx : MsgTx → bool.

Lemma indexAddr_upto (t : Z) (data : writeIndexData) (addr : Address) :
  all_indexed_upto t data → all_indexed_upto t (indexAddr t data addr).
Proof.
  intros Hall. unfold indexAddr. destruct (addrToKey addr) as [addrKey|]; [|done].
  destruct (_ && _) eqn:Hdup; [done|].
  intros k l. destruct (decide (k = addrKey)) as [->|Hne].
  - rewrite lookup_insert_eq. intros [= <-].
    assert (Hold : indexed_upto t (default [] (data !! addrKey))).
    { destruct (data !! addrKey) as [l0|] eqn:Hl0; [by apply (Hall addrKey)|].
      split; [apply NoDup_nil_2|]. split; intros ?; by rewrite ?elem_of_nil. }
    apply indexed_upto_snoc; [done|]. intros Hlast.
    apply andb_false_iff in Hdup as [Hlen|Hbd].
    + apply Z.ltb_ge in Hlen. pose proof (len_nonneg (default [] (data !! addrKey))).
      rewrite (len_0_nil (default [] (data !! addrKey))) in Hlast by lia. done.
    + by apply bool_decide_eq_false in Hbd.
  - rewrite lookup_insert_ne by done. apply Hall.
Qed.

Lemma indexPkScript_upto (t : Z) (data : writeIndexData) (scriptVersion : Z)
    (pkScript : bytes) (isSStx isTreasuryEnabled : bool) :
  all_indexed_upto t data →
  all_indexed_upto t
    (indexPkScript ExtractPkScriptAddrs AddrFromSStxPkScrCommitment data scriptVersion
       pkScript t isSStx isTreasuryEnabled).
Proof.
  intros Hall. unfold indexPkScript.
  destruct (ExtractPkScriptAddrs _ _ _) as [[class addrs] err].
  destruct err; [done|].
  assert (Hfold : ∀ addrs data, all_indexed_upto t data →
                  all_indexed_upto t (foldl (indexAddr t) data addrs)).
  { clear. intros addrs. induction addrs as [|addr addrs IH]; intros data Hall; [done|].
    cbn [foldl]. by apply IH, indexAddr_upto. }
  destruct (_ && _).
  - destruct (AddrFromSStxPkScrCommitment pkScript); [|done].
    destruct (_ =? _)%nat; [done|]. by apply Hfold.
  - destruct (_ =? _)%nat; [done|]. by apply Hfold.
Qed.

Lemma indexInputs_upto (prevScripts : PrevScripter) (isTreasuryEnabled : bool)
    (t : Z) (data : writeIndexData) (txIns : list TxIn) :
  all_indexed_upto t data →
  all_indexed_upto t
    (indexInputs ExtractPkScriptAddrs AddrFromSStxPkScrCommitment prevScripts
       isTreasuryEnabled t data txIns).
Proof.
  unfold indexInputs. revert data.
  induction txIns as [|txIn txIns IH]; intros data Hall; [done|].
  cbn [foldl]. apply IH. destruct (prevScripts _) as [[version pkScript]|]; [|done].
  by apply indexPkScript_upto.
Qed.

Lemma indexOutputs_upto (isSStx isTreasuryEnabled : bool)
    (t : Z) (data : writeIndexData) (txOuts : list TxOut) :
  all_indexed_upto t data →
  all_indexed_upto t
    (indexOutputs ExtractPkScriptAddrs AddrFromSStxPkScrCommitment isSStx
       isTreasuryEnabled t data txOuts).
Proof.
  unfold indexOutputs. revert data.
  induction txOuts as [|txOut txOuts IH]; intros data Hall; [done|].
  cbn [foldl]. by apply IH, indexPkScript_upto.
Qed.

Lemma indexRegular_upto (prevScripts : PrevScripter) (isTreasuryEnabled : bool)
    (txs : list Tx) (t : Z) (data : writeIndexData) :
  all_indexed_upto t data →
  all_indexed_upto (t + Z.of_nat (length txs))
    (indexRegular ExtractPkScriptAddrs AddrFromSStxPkScrCommitment prevScripts
       isTreasuryEnabled t data txs).
Proof.
  revert t data. induction txs as [|tx txs IH]; intros t data Hall.
  - cbn [indexRegular length]. by rewrite Z.add_0_r.
  - cbn [indexRegular length].
    replace (t + Z.of_nat (S (length txs))) with (t + 1 + Z.of_nat (length txs)) by lia.
    apply IH. apply (all_indexed_upto_mono t); [lia|].
    apply indexOutputs_upto. destruct (negb _); [|done]. by apply indexInputs_upto.
Qed.

Lemma indexStakeInputs_upto (prevScripts : PrevScripter) (isTreasuryEnabled : bool)
    (isSSGen isTreasuryBase isTSpend : bool) (t : Z) (txIns : list TxIn)
    (i : Z) (data : writeIndexData) :
  all_indexed_upto t data →
  all_indexed_upto t
    (indexStakeInputs ExtractPkScriptAddrs AddrFromSStxPkScrCommitment prevScripts
       isTreasuryEnabled isSSGen isTreasuryBase isTSpend t i data txIns).
Proof.
  revert i data. induction txIns as [|txIn txIns IH]; intros i data Hall; [done|].
  cbn [indexStakeInputs]. apply IH.
  destruct (_ && _); [done|]. destruct (_ || _); [done|].
  destruct (prevScripts _) as [[version pkScript]|]; [|done].
  by apply indexPkScript_upto.
Qed.

Lemma indexStake_upto (prevScripts : PrevScripter) (isTreasuryEnabled : bool)
    (numRegular : Z) (txs : list Tx) (t : Z) (data : writeIndexData) :
  all_indexed_upto (t + numRegular) data →
  all_indexed_upto (t + Z.of_nat (length txs) + numRegular)
    (indexStake ExtractPkScriptAddrs AddrFromSStxPkScrCommitment IsSSGen IsTreasuryBase
       IsTSpend IsSStx prevScripts isTreasuryEnabled numRegular t data txs).
Proof.
  revert t data. induction txs as [|tx txs IH]; intros t data Hall.
  - cbn [indexStake length]. by rewrite Z.add_0_r.
  - cbn [indexStake length].
    replace (t + Z.of_nat (S (length txs)) + numRegular)
      with (t + 1 + Z.of_nat (length txs) + numRegular) by lia.
    apply IH. apply (all_indexed_upto_mono (t + numRegular)); [lia|].
    by apply indexOutputs_upto, indexStakeInputs_upto.
Qed.

(** C8. The map [indexBlock] builds for a block, starting from the empty
    map [connectBlock] and [disconnectBlock] pass, lists no transaction
    index twice under any address key. *)
Theorem indexBlock_no_duplicates (block : Block) (prevScripts : PrevScripter)
    (isTreasuryEnabled : bool) (addrKey : bytes) (txIdxs : list Z) :
  indexBlock ExtractPkScriptAddrs AddrFromSStxPkScrCommitment IsSSGen IsTreasuryBase
    IsTSpend IsSStx ∅ block prevScripts isTreasuryEnabled !! addrKey = Some txIdxs →
  NoDup txIdxs.
Proof.
  intros Hl. unfold indexBlock in Hl.
  eapply (indexStake_upto prevScripts isTreasuryEnabled
            (Z.of_nat (length (Transactions block))) (STransactions block) 0); [|exact Hl].
  apply (indexRegular_upto prevScripts isTreasuryEnabled (Transactions block) 0 ∅).
  intros k l Hk. by rewrite lookup_empty in Hk.
Qed.
End IndexerProps.

Lemma indexBlock_no_duplicates_witness :
  indexBlock sampleExtract (λ _, None) (λ _ _, false) (λ _, false) (λ _, false)
    (λ _, false) ∅ sampleBlock (λ _, None) false
    !! (addrKeyTypeScriptHash :: sampleScript) = Some [0; 1] ∧
  NoDup [0; 1].
Proof.
  split; [vm_compute; reflexivity|].
  apply (indexBlock_no_duplicates sampleExtract (λ _, None) (λ _ _, false) (λ _, false)
           (λ _, false) (λ _, false) sampleBlock (λ _, None) false
           (addrKeyTypeScriptHash :: sampleScript) [0; 1]).
  vm_compute. reflexivity.
Defined.

(** ** The unconfirmed index keeps its two maps consistent *)

Lemma removeTxFromAddr_spec (hash x : bytes) (r : gmap bytes (gmap bytes Tx)) :
  inner_nonempty r →
  inner_nonempty (removeTxFromAddr hash x r) ∧
  ∀ a h, in_txns (removeTxFromAddr hash x r) a h ↔ in_txns r a h ∧ ¬ (h = hash ∧ a = x).
Proof.
  intros Hne. unfold removeTxFromAddr.
  destruct (r !! x) as [inner|] eqn:Hx.
  - rewrite lookup_insert_eq. unfold default. cbn [from_option]. unfold id.
    case_bool_decide as Hsize.
    + apply map_size_empty_iff in Hsize. split.
      * intros a i. rewrite lookup_delete. case_decide as Hxa; [done|].
        rewrite lookup_insert_ne by done. apply Hne.
      * intros a h. unfold in_txns. rewrite lookup_delete.
        destruct (decide (x = a)) as [<-|Hxa].
        -- split; [by intros (i & ? & _)|]. intros [(i & Hi & Hh) Hnot].
           rewrite Hx in Hi. injection Hi as <-. exfalso.
           destruct (decide (h = hash)) as [->|Hhh]; [by apply Hnot|].
           pose proof (lookup_delete_ne inner hash h ltac:(done)) as Hd.
           rewrite Hsize, lookup_empty in Hd. rewrite <- Hd in Hh. by destruct Hh.
        -- rewrite lookup_insert_ne by done. split; [|by intros [? _]].
           intros Hin. split; [done|]. intros [_ ->]. done.
    + apply map_size_non_empty_iff in Hsize. split.
      * intros a i. rewrite lookup_insert. case_decide as Hxa; [by intros [= <-]|apply Hne].
      * intros a h. unfold in_txns. rewrite lookup_insert.
        destruct (decide (x = a)) as [<-|Hxa].
        -- rewrite Hx. split.
           ++ intros (i & [= <-] & Hh). rewrite lookup_delete in Hh.
              case_decide as Hhh; [by destruct Hh|]. split; [eauto|].
              intros [-> _]. done.
           ++ intros [(i & [= <-] & Hh) Hnot]. eexists. split; [done|].
              rewrite lookup_delete_ne; [done|]. intros <-. by apply Hnot.
        -- split; [|by intros [? _]]. intros Hin. split; [done|]. intros [_ ->]. done.
  - rewrite Hx. unfold default. cbn [from_option]. rewrite map_size_empty.
    case_bool_decide; [|done]. rewrite delete_id by done. split; [done|].
    intros a h. split; [|by intros [? _]]. intros Hin. split; [done|].
    intros [_ ->]. destruct Hin as (i & Hi & _). congruence.
Qed.

Lemma remove_fold_spec (hash : bytes) (txns : gmap bytes (gmap bytes Tx))
    (X : gset bytes) :
  inner_nonempty txns →
  inner_nonempty (set_fold (removeTxFromAddr hash) txns X) ∧
  ∀ a h, in_txns (set_fold (removeTxFromAddr hash) txns X) a h ↔
         in_txns txns a h ∧ ¬ (h = hash ∧ a ∈ X).
Proof.
  intros Hne.
  apply (set_fold_ind_L
           (λ r X, inner_nonempty r ∧
                   ∀ a h, in_txns r a h ↔ in_txns txns a h ∧ ¬ (h = hash ∧ a ∈ X))).
  - split; [done|]. intros a h. split; [|by intros [? _]].
    intros H. split; [done|]. intros [_ Hin]. by apply not_elem_of_empty in Hin.
  - intros x Y r Hx [Hner Hr].
    destruct (removeTxFromAddr_spec hash x r Hner) as [Hne' Hspec].
    split; [done|]. intros a h. rewrite Hspec, Hr. split.
    + intros [[Hin Hnot] Hnot']. split; [done|].
      intros [-> [->%elem_of_singleton|HY]%elem_of_union]; [by apply Hnot'|by apply Hnot].
    + intros [Hin Hnot]. split; [split; [done|]|].
      * intros [-> HY]. apply Hnot. split; [done|]. apply elem_of_union. by right.
      * intros [-> ->]. apply Hnot. split; [done|]. apply elem_of_union. left.
        by apply elem_of_singleton.
Qed.

Lemma tx_of_addr_in_txns (idx : Unconfirmed) (a h : bytes) :
  tx_of_addr idx a h ↔ in_txns (txnsByAddr idx) a h.
Proof. done. Qed.

Section MirrorProps.
Variable ExtractPkScriptAddrs : Z → bytes → bool → ScriptClass * list Address * bool.
Variable AddrFromSStxPkScrCommitment : bytes → option Address.
Variable IsSSGen : MsgTx → bool → bool.
Variable IsSStx : MsgTx → bool.

Lemma RemoveUnconfirmedTx_consistent (idx : Unconfirmed) (hash : bytes) :
  mirror_consistent idx → mirror_consistent (RemoveUnconfirmedTx idx hash).
Proof.
  intros [Hcons Hne].
  destruct (remove_fold_spec hash (txnsByAddr idx) (default ∅ (addrsByTx idx !! hash)) Hne)
    as [Hne' Hspec].
  split; [|exact Hne'].
  intros a h. rewrite tx_of_addr_in_txns. cbn [RemoveUnconfirmedTx txnsByAddr].
  rewrite Hspec, <- tx_of_addr_in_txns, Hcons.
  unfold addr_of_tx. cbn [RemoveUnconfirmedTx addrsByTx]. rewrite lookup_delete.
  destruct (decide (hash = h)) as [<-|Hhh].
  - split; [|by intros (s & ? & _)]. intros [(s & Hs & Has) Hnot]. exfalso.
    apply Hnot. split; [done|]. by rewrite Hs.
  - split; [by intros [? _]|]. intros H. split; [done|]. intros [-> _]. done.
Qed.

Lemma indexUnconfirmedAddr_consistent (tx : Tx) (idx : Unconfirmed) (addr : Address) :
  mirror_consistent idx → mirror_consistent (indexUnconfirmedAddr tx idx addr).
Proof.
  intros [Hcons Hne]. unfold indexUnconfirmedAddr.
  destruct (addrToKey addr) as [k|]; [|done].
  set (h := TxHash tx).
  set (inner := default ∅ (txnsByAddr idx !! k)).
  set (s := default ∅ (addrsByTx idx !! h)).
  assert (Hinner : ∀ h', is_Some (inner !! h') ↔ tx_of_addr idx k h').
  { intros h'. unfold inner, tx_of_addr. destruct (txnsByAddr idx !! k) as [i|]; simpl.
    - split; [eauto|]. by intros (i' & [= <-] & ?).
    - rewrite lookup_empty. split; [by intros []|]. by intros (i' & ? & _). }
  assert (Hs : ∀ a, a ∈ s ↔ addr_of_tx idx h a).
  { intros a. unfold s, addr_of_tx. destruct (addrsByTx idx !! h) as [s'|]; simpl.
    - split; [eauto|]. by intros (s'' & [= <-] & ?).
    - split; [by intros ?%not_elem_of_empty|]. by intros (s'' & ? & _). }
  split.
  - intros a h'. unfold tx_of_addr, addr_of_tx. cbn [txnsByAddr addrsByTx].
    rewrite !lookup_insert.
    destruct (decide (k = a)) as [<-|Hka], (decide (h = h')) as [<-|Hhh].
    + split; intros _.
      * eexists. split; [done|]. apply elem_of_union. left. by apply elem_of_singleton.
      * eexists. split; [done|]. rewrite lookup_insert_eq. eauto.
    + split.
      * intros (i & [= <-] & Hh'). rewrite lookup_insert_ne in Hh' by done.
        by apply Hcons, Hinner.
      * intros Hat. eexists. split; [done|]. rewrite lookup_insert_ne by done.
        by apply Hinner, Hcons.
    + split.
      * intros Htx%Hcons. eexists. split; [done|]. apply elem_of_union. right.
        by apply Hs.
      * intros (s' & [= <-] & [Ha%elem_of_singleton|Ha]%elem_of_union); [done|].
        by apply Hcons, Hs.
    + apply Hcons.
  - intros a i. cbn [txnsByAddr]. rewrite lookup_insert.
    case_decide; [|apply Hne]. intros [= <-]. apply insert_non_empty.
Qed.

Lemma indexUnconfirmedAddresses_consistent (idx : Unconfirmed) (scriptVersion : Z)
    (pkScript : bytes) (tx : Tx) (isSStx isTreasuryEnabled : bool) :
  mirror_consistent idx →
  mirror_consistent
    (indexUnconfirmedAddresses ExtractPkScriptAddrs AddrFromSStxPkScrCommitment idx
       scriptVersion pkScript tx isSStx isTreasuryEnabled).
Proof.
  intros Hc. unfold indexUnconfirmedAddresses.
  destruct (ExtractPkScriptAddrs _ _ _) as [[class addrs] err].
  assert (Hfold : ∀ addrs idx, mirror_consistent idx →
                  mirror_consistent (foldl (indexUnconfirmedAddr tx) idx addrs)).
  { clear. intros addrs. induction addrs as [|addr addrs IH]; intros idx Hc; [done|].
    cbn [foldl]. by apply IH, indexUnconfirmedAddr_consistent. }
  destruct (_ && _).
  - destruct (AddrFromSStxPkScrCommitment pkScript); [|done]. by apply Hfold.
  - by apply Hfold.
Qed.

Lemma AddUnconfirmedTx_consistent (idx : Unconfirmed) (tx : Tx)
    (prevScripts : PrevScripter) (isTreasuryEnabled : bool) :
  mirror_consistent idx →
  mirror_consistent
    (AddUnconfirmedTx ExtractPkScriptAddrs AddrFromSStxPkScrCommitment IsSSGen IsSStx
       idx tx prevScripts isTreasuryEnabled).
Proof.
  intros Hc. unfold AddUnconfirmedTx.
  assert (Hins : ∀ txIns i idx, mirror_consistent idx →
    mirror_consistent
      (addUnconfirmedInputs ExtractPkScriptAddrs AddrFromSStxPkScrCommitment prevScripts
         isTreasuryEnabled tx (IsSSGen (TxMsg tx) isTreasuryEnabled) i idx txIns)).
  { clear Hc idx. intros txIns. induction txIns as [|txIn txIns IH]; intros i idx Hc;
      [done|].
    cbn [addUnconfirmedInputs]. apply IH. destruct (_ && _); [done|].
    destruct (prevScripts _) as [[version pkScript]|]; [|done].
    by apply indexUnconfirmedAddresses_consistent. }
  specialize (Hins (MsgTxIn (TxMsg tx)) 0 idx Hc). revert Hins.
  generalize (addUnconfirmedInputs ExtractPkScriptAddrs AddrFromSStxPkScrCommitment
                prevScripts isTreasuryEnabled tx (IsSSGen (TxMsg tx) isTreasuryEnabled)
                0 idx (MsgTxIn (TxMsg tx))).
  induction (MsgTxOut (TxMsg tx)) as [|txOut txOuts IH]; intros idx' Hc'; [done|].
  cbn [foldl]. by apply IH, indexUnconfirmedAddresses_consistent.
Qed.

(** C10. After any sequence of [AddUnconfirmedTx] and
    [RemoveUnconfirmedTx] on the maps [NewAddrIndex] makes, a transaction
    hash is a key of [txnsByAddr[addrKey]] exactly when [addrKey] is a
    member of [addrsByTx[hash]], and no inner map of [txnsByAddr] is
    empty. *)
Theorem mirror_consistent_after_ops (ops : list unconfirmedOp) :
  mirror_consistent
    (foldl (runUnconfirmedOp ExtractPkScriptAddrs AddrFromSStxPkScrCommitment
              IsSSGen IsSStx) newUnconfirmed ops).
Proof.
  assert (Hnew : mirror_consistent newUnconfirmed).
  { split.
    - intros a h. unfold tx_of_addr, addr_of_tx, newUnconfirmed.
      cbn [txnsByAddr addrsByTx]. rewrite !lookup_empty. split.
      + by intros (i & Hi & _).
      + by intros (s & Hs & _).
    - intros a i. unfold newUnconfirmed. cbn [txnsByAddr]. by rewrite lookup_empty. }
  revert Hnew. generalize newUnconfirmed.
  induction ops as [|o ops IH]; intros idx Hc; [done|].
  cbn [foldl]. apply IH. destruct o as [tx prevScripts tre|hash]; cbn [runUnconfirmedOp].
  - by apply AddUnconfirmedTx_consistent.
  - by apply RemoveUnconfirmedTx_consistent.
Qed.
End MirrorProps.

(** * Further properties of the level store *)

(** ** The entry and key codecs *)

(** X1. [serializeAddrIndexEntry] writes exactly [txEntrySize] bytes, and
    [deserializeAddrIndexEntry] reads them back, whatever bytes follow: the
    block identifier is handed to [fetchBlockHash] as the four bytes that
    decode to it, an error of [fetchBlockHash] is returned as it is, and
    otherwise the entry carries the hash found and the three other fields
    truncated to 32 bits. *)
Theorem entry_codec_round_trip (blockID : Z) (txLoc : TxLoc) (blockIndex : Z)
    (rest : bytes) (fetchBlockHash : fetchBlockHashFunc) :
  len (serializeAddrIndexEntry blockID txLoc blockIndex) = txEntrySize ∧
  Uint32 (PutUint32 (wrap32 blockID)) = wrap32 blockID ∧
  deserializeAddrIndexEntry
    (serializeAddrIndexEntry blockID txLoc blockIndex ++ rest) fetchBlockHash =
    match fetchBlockHash (PutUint32 (wrap32 blockID)) with
    | inl err => inl err
    | inr hash =>
        inr {| Region := {| Hash := hash;
                            Offset := wrap32 (TxStart txLoc);
                            Len := wrap32 (TxLen txLoc) |};
               BlockIndex := wrap32 blockIndex |}
    end.
Proof.
  split; [apply len_serializeAddrIndexEntry|]. split.
  - apply Uint32_PutUint32. unfold wrap32. apply Z.mod_pos_bound. lia.
  - exact (deserialize_serializeRecord
             {| recBlockID := blockID; recTxLoc := txLoc; recBlockIndex := blockIndex |}
             rest fetchBlockHash).
Qed.

(** X2. For a 21-byte address key and a [uint8] level, [keyForLevel] gives a
    key of [levelKeySize] bytes whose byte at [levelOffset] is the level,
    and two keys are equal only for the same address key and the same
    level. *)
Theorem level_keys_never_collide (a a' : bytes) (L L' : nat) :
  (L < 256)%nat → (L' < 256)%nat → len a = addrKeySize →
  len (keyForLevel a L) = levelKeySize ∧
  nth (Z.to_nat levelOffset) (keyForLevel a L) 0 = Z.of_nat L ∧
  (keyForLevel a L = keyForLevel a' L' → a = a' ∧ L = L').
Proof.
  intros HL HL' Ha. split; [|split].
  - unfold keyForLevel. rewrite len_app, Ha. reflexivity.
  - unfold keyForLevel. rewrite app_nth2.
    + unfold len, addrKeySize in Ha. unfold levelOffset, levelKeySize, addrKeySize.
      replace (Z.to_nat (1 + 20 + 1 - 1) - length a)%nat with 0%nat by lia. reflexivity.
    + unfold len, addrKeySize in Ha. unfold levelOffset, levelKeySize, addrKeySize. lia.
  - apply keyForLevel_inj.
Qed.

Lemma level_keys_never_collide_witness :
  len (keyForLevel sampleAddr 3) = levelKeySize ∧
  nth (Z.to_nat levelOffset) (keyForLevel sampleAddr 3) 0 = 3 ∧
  (keyForLevel sampleAddr 3 = keyForLevel sampleAddr 3 → sampleAddr = sampleAddr ∧ 3%nat = 3%nat).
Proof.
  apply (level_keys_never_collide sampleAddr sampleAddr 3 3); [lia|lia|reflexivity].
Defined.

(** ** The sizes of the levels *)

Lemma wrap64_mul2 (x : Z) : wrap64 (wrap64 x * 2) = wrap64 (x * 2).
Proof.
  unfold wrap64. f_equal.
  replace (((x + 2 ^ 63) mod 2 ^ 64 - 2 ^ 63) * 2 + 2 ^ 63)
    with (((x + 2 ^ 63) mod 2 ^ 64) * 2 + (- 2 ^ 63)) by lia.
  replace (x * 2 + 2 ^ 63) with ((x + 2 ^ 63) * 2 + (- 2 ^ 63)) by lia.
  rewrite (Z.add_mod (_ * 2)) by lia. rewrite (Z.add_mod ((x + 2 ^ 63) * 2)) by lia.
  f_equal. f_equal. rewrite Z.mul_mod by lia. rewrite Z.mod_mod by lia.
  rewrite <- Z.mul_mod by lia. reflexivity.
Qed.

Lemma maxEntriesForLevel_wrap (L : nat) : maxEntriesForLevel L = wrap64 (8 * p2 L).
Proof.
  induction L as [|L IH].
  - reflexivity.
  - rewrite maxEntriesForLevel_S, IH, wrap64_mul2, p2_S. f_equal. lia.
Qed.

(** X3. Up to level 59, [maxEntriesForLevel] is [8 * 2^L],
    [minEntriesToReachLevel] is [8 * 2^L - 7], and reaching the next level
    takes as many more entries as the level holds. *)
Theorem level_sizes_closed_form (L : nat) :
  (L ≤ 59)%nat →
  maxEntriesForLevel L = 8 * 2 ^ Z.of_nat L ∧
  minEntriesToReachLevel L = 8 * 2 ^ Z.of_nat L - 7 ∧
  minEntriesToReachLevel (S L) = minEntriesToReachLevel L + maxEntriesForLevel L.
Proof.
  intros HL. rewrite maxEntriesForLevel_small, minEntriesToReachLevel_small by done.
  split; [done|]. split; [done|].
  destruct (decide (L = 59%nat)) as [->|Hne].
  - vm_compute. reflexivity.
  - rewrite minEntriesToReachLevel_small by lia. rewrite p2_S. unfold p2. lia.
Qed.

Lemma level_sizes_closed_form_witness :
  maxEntriesForLevel 3 = 8 * 2 ^ Z.of_nat 3 ∧
  minEntriesToReachLevel 3 = 8 * 2 ^ Z.of_nat 3 - 7 ∧
  minEntriesToReachLevel 4 = minEntriesToReachLevel 3 + maxEntriesForLevel 3.
Proof. apply (level_sizes_closed_form 3). lia. Defined.

(** X4. With 64-bit [int]s the doubling of [maxEntriesForLevel] wraps: from
    level 61 on it returns 0. *)
Theorem maxEntriesForLevel_overflow (L : nat) :
  (61 ≤ L)%nat → maxEntriesForLevel L = 0.
Proof.
  intros HL. rewrite maxEntriesForLevel_wrap. unfold p2, wrap64.
  replace (Z.of_nat L) with (61 + Z.of_nat (L - 61)) by lia.
  rewrite Z.pow_add_r by lia.
  replace (8 * (2 ^ 61 * 2 ^ Z.of_nat (L - 61)) + 2 ^ 63)
    with (2 ^ 63 + 2 ^ Z.of_nat (L - 61) * 2 ^ 64) by lia.
  rewrite Z.mod_add by lia. reflexivity.
Qed.

Lemma maxEntriesForLevel_overflow_witness : maxEntriesForLevel 61 = 0.
Proof. apply (maxEntriesForLevel_overflow 61). lia. Defined.

(** ** One append, one remove *)

Lemma stored_ok_layout (b : membucket) (a : bytes) :
  level_invariants b a → whole_entries b a → ∃ n, layout b a n.
Proof. intros Hinv Hwhole. by apply stored_ok_iff. Qed.

Lemma layout_stored_ok (b : membucket) (a : bytes) (n : nat) :
  layout b a n → level_invariants b a ∧ whole_entries b a.
Proof. intros Hlay. apply stored_ok_iff. by exists n. Qed.

Lemma totalEntries_app16 (b b' : membucket) (a s : bytes) (n : nat) :
  layout b a n → len s = 16 → contents b' a = contents b a ++ s →
  totalEntries b' a = totalEntries b a + 1.
Proof.
  intros Hlay Hs Hc. pose proof (layout_whole b a n Hlay) as Hw.
  unfold totalEntries at 1. rewrite Hc, len_app, Hs, Hw. unfold txEntrySize.
  replace (16 * totalEntries b a + 16) with ((totalEntries b a + 1) * 16) by lia.
  apply Z.quot_mul. lia.
Qed.

(** X5. On an address whose stored levels satisfy the level invariants (and
    hold whole, non-empty values) and fewer than [2^32 - 16] bytes,
    [dbPutAddrIndexEntry] succeeds; it appends the serialized entry to the
    sequence of the address, read highest level first, so that the address
    holds one entry more; the invariants hold again, and no key other than
    the level keys of the address changes. *)
Theorem put_appends_one_entry (a : bytes) (blockID : Z) (txLoc : TxLoc)
    (blockIndex : Z) (b : membucket) :
  level_invariants b a → whole_entries b a →
  len (contents b a) + 16 < 2 ^ 32 →
  ∃ b', dbPutAddrIndexEntry a blockID txLoc blockIndex b = Ok (tt, b') ∧
    contents b' a = contents b a ++ serializeAddrIndexEntry blockID txLoc blockIndex ∧
    totalEntries b' a = totalEntries b a + 1 ∧
    level_invariants b' a ∧ whole_entries b' a ∧
    (∀ k, (∀ L, (L < 256)%nat → k ≠ keyForLevel a L) → b' !! k = b !! k).
Proof.
  intros Hinv Hwhole Hsmall.
  destruct (stored_ok_layout b a Hinv Hwhole) as [n Hlay].
  destruct (dbPutAddrIndexEntry_layout a blockID txLoc blockIndex b n Hlay Hsmall)
    as (b' & n' & Hrun & Hlay' & Hcont & Hframe).
  exists b'. split; [done|]. split; [done|]. split.
  - apply (totalEntries_app16 b b' a (serializeAddrIndexEntry blockID txLoc blockIndex)
             n Hlay); [|done].
    apply len_serializeAddrIndexEntry.
  - destruct (layout_stored_ok b' a n' Hlay'). done.
Qed.

Lemma put_appends_one_entry_witness :
  ∃ b', dbPutAddrIndexEntry sampleAddr 1 {| TxStart := 1; TxLen := 1 |} 1
          (∅ : membucket) = Ok (tt, b') ∧
    contents b' sampleAddr =
      contents ∅ sampleAddr ++ serializeAddrIndexEntry 1 {| TxStart := 1; TxLen := 1 |} 1 ∧
    totalEntries b' sampleAddr = totalEntries ∅ sampleAddr + 1 ∧
    level_invariants b' sampleAddr ∧ whole_entries b' sampleAddr ∧
    (∀ k, (∀ L, (L < 256)%nat → k ≠ keyForLevel sampleAddr L) →
          b' !! k = (∅ : membucket) !! k).
Proof.
  destruct (layout_empty sampleAddr) as [Hlay Hc].
  destruct (layout_stored_ok ∅ sampleAddr 0 Hlay) as [Hinv Hwhole].
  apply (put_appends_one_entry sampleAddr 1 {| TxStart := 1; TxLen := 1 |} 1 ∅ Hinv Hwhole).
  rewrite Hc. rewrite len_nil. lia.
Defined.

(** X6. On such an address, [dbRemoveAddrIndexEntries] with a count between
    1 and the number of entries stored succeeds; what is left is the
    sequence without its last [count] entries; the invariants hold again,
    and no key other than the level keys of the address changes. *)
Theorem remove_drops_newest_entries (a : bytes) (count : Z) (b : membucket) :
  level_invariants b a → whole_entries b a →
  len (contents b a) < 2 ^ 32 →
  0 < count ≤ totalEntries b a →
  ∃ b', dbRemoveAddrIndexEntries a count b = Ok (tt, b') ∧
    contents b' a =
      take (Z.to_nat (16 * (totalEntries b a - count))) (contents b a) ∧
    totalEntries b' a = totalEntries b a - count ∧
    level_invariants b' a ∧ whole_entries b' a ∧
    (∀ k, (∀ L, (L < 256)%nat → k ≠ keyForLevel a L) → b' !! k = b !! k).
Proof.
  intros Hinv Hwhole Hsmall [Hpos Hle].
  destruct (stored_ok_layout b a Hinv Hwhole) as [n Hlay].
  pose proof (layout_whole b a n Hlay) as Hw.
  destruct (dbRemoveAddrIndexEntries_layout a count b n Hlay Hsmall Hpos ltac:(lia))
    as (b' & n' & Hrun & Hlay' & Hcont & Hframe).
  replace (len (contents b a) - 16 * count) with (16 * (totalEntries b a - count))
    in Hcont by lia.
  exists b'. split; [done|]. split; [done|]. split.
  - pose proof (layout_whole b' a n' Hlay') as Hw'. rewrite Hcont in Hw' at 1.
    rewrite len_take in Hw' by (unfold len in *; lia). lia.
  - destruct (layout_stored_ok b' a n' Hlay'). done.
Qed.

Lemma remove_drops_newest_entries_witness :
  let b : membucket :=
    <[keyForLevel sampleAddr 0 := concat (map serializeRecord (sampleRecords 3 1))]> ∅ in
  ∃ b', dbRemoveAddrIndexEntries sampleAddr 2 b = Ok (tt, b') ∧
    contents b' sampleAddr =
      take (Z.to_nat (16 * (totalEntries b sampleAddr - 2))) (contents b sampleAddr) ∧
    totalEntries b' sampleAddr = totalEntries b sampleAddr - 2 ∧
    level_invariants b' sampleAddr ∧ whole_entries b' sampleAddr ∧
    (∀ k, (∀ L, (L < 256)%nat → k ≠ keyForLevel sampleAddr L) → b' !! k = b !! k).
Proof.
  intros b. apply (remove_drops_newest_entries sampleAddr 2 b).
  - apply sample_level0_ok. exists 3. split; [lia|]. reflexivity.
  - apply sample_level0_ok. exists 3. split; [lia|]. reflexivity.
  - vm_compute. reflexivity.
  - vm_compute. split; [reflexivity|]. intros H. discriminate H.
Defined.

(** X7. Removing as many entries as an address holds deletes every level
    key of the address: no empty value is left behind. *)
Theorem remove_all_deletes_every_level (a : bytes) (b : membucket) :
  level_invariants b a → whole_entries b a →
  len (contents b a) < 2 ^ 32 → 0 < totalEntries b a →
  ∃ b', dbRemoveAddrIndexEntries a (totalEntries b a) b = Ok (tt, b') ∧
    (∀ L, (L < 256)%nat → b' !! keyForLevel a L = None) ∧
    (∀ k, (∀ L, (L < 256)%nat → k ≠ keyForLevel a L) → b' !! k = b !! k).
Proof.
  intros Hinv Hwhole Hsmall Hpos.
  destruct (stored_ok_layout b a Hinv Hwhole) as [n Hlay].
  pose proof (layout_whole b a n Hlay) as Hw.
  destruct (dbRemoveAddrIndexEntries_layout a (totalEntries b a) b n Hlay Hsmall Hpos
              ltac:(lia)) as (b' & n' & Hrun & Hlay' & Hcont & Hframe).
  exists b'. split; [done|]. split; [|done].
  assert (Hnil : contents b' a = []).
  { rewrite Hcont. replace (len (contents b a) - 16 * totalEntries b a) with 0 by lia.
    reflexivity. }
  destruct (layout_empty a) as [Hlay0 Hc0].
  intros L HL.
  rewrite (layout_unique b' ∅ a n' 0 Hlay' Hlay0 ltac:(congruence) L HL).
  apply lookup_empty.
Qed.

Lemma remove_all_deletes_every_level_witness :
  let b : membucket :=
    <[keyForLevel sampleAddr 0 := concat (map serializeRecord (sampleRecords 3 1))]> ∅ in
  ∃ b', dbRemoveAddrIndexEntries sampleAddr (totalEntries b sampleAddr) b = Ok (tt, b') ∧
    (∀ L, (L < 256)%nat → b' !! keyForLevel sampleAddr L = None) ∧
    (∀ k, (∀ L, (L < 256)%nat → k ≠ keyForLevel sampleAddr L) → b' !! k = b !! k).
Proof.
  intros b. apply (remove_all_deletes_every_level sampleAddr b).
  - apply sample_level0_ok. exists 3. split; [lia|]. reflexivity.
  - apply sample_level0_ok. exists 3. split; [lia|]. reflexivity.
  - vm_compute. reflexivity.
  - vm_compute. reflexivity.
Defined.

(** ** An address without a level 0 *)

Lemma fetchLevels_missing (fuel : nat) (a : bytes) (skip want : Z) (reverse : bool)
    (b : membucket) :
  b !! keyForLevel a 0 = None →
  fetchLevels (S fuel) a skip want reverse 0 [] b = Ok ([], b).
Proof.
  intros Hnone. cbn [fetchLevels]. destruct (negb reverse || _); [|done].
  rewrite run_Get. by rewrite Hnone.
Qed.

Lemma removeFromLevels_missing (fuel : nat) (a : bytes) (count : Z) (b : membucket) :
  b !! keyForLevel a 0 = None → 0 < count →
  removeFromLevels (S fuel) a ∅ 0 0 count b =
    Err (AssertError "dbRemoveAddrIndexEntries not enough entries").
Proof.
  intros Hnone Hcount. cbn [removeFromLevels].
  destruct (Z.ltb_spec 0 count); [|lia].
  rewrite run_Get. rewrite Hnone. reflexivity.
Qed.

(** X8. When the level-0 key of an address is absent, whatever else the
    bucket holds, a fetch returns no entry and reports 0 skipped, and a
    remove of a positive count fails with the assertion error. *)
Theorem missing_level0_edge (a : bytes) (b : membucket) (skip want count : Z)
    (reverse : bool) (fetchBlockHash : fetchBlockHashFunc) :
  b !! keyForLevel a 0 = None → 0 ≤ skip → 0 < count →
  dbFetchAddrIndexEntries a skip want reverse fetchBlockHash b = Ok (([], 0), b) ∧
  dbRemoveAddrIndexEntries a count b =
    Err (AssertError "dbRemoveAddrIndexEntries not enough entries").
Proof.
  intros Hnone Hskip Hcount. split.
  - unfold dbFetchAddrIndexEntries. change loopFuel with (S 599).
    unfold bind at 1. rewrite (fetchLevels_missing 599 a skip want reverse b Hnone).
    rewrite len_nil. change (wrap32 (0 ÷ txEntrySize)) with 0.
    destruct (Z.leb_spec 0 skip); [done|lia].
  - unfold dbRemoveAddrIndexEntries. destruct (Z.leb_spec count 0); [lia|].
    change loopFuel with (S 599). unfold bind at 1.
    by rewrite (removeFromLevels_missing 599 a count b Hnone Hcount).
Qed.

Lemma missing_level0_edge_witness :
  dbFetchAddrIndexEntries sampleAddr 5 7 true (λ id, inr id) (∅ : membucket)
    = Ok (([], 0), ∅) ∧
  dbRemoveAddrIndexEntries sampleAddr 1 (∅ : membucket) =
    Err (AssertError "dbRemoveAddrIndexEntries not enough entries").
Proof.
  apply (missing_level0_edge sampleAddr ∅ 5 7 1 true (λ id, inr id));
    [apply lookup_empty|lia|lia].
Defined.

(** ** The stored levels depend on the entries only *)

Lemma frame_only_level_keys (a0 : bytes) (b b' : membucket) :
  (∀ k, (∀ L, (L < 256)%nat → k ≠ keyForLevel a0 L) → b' !! k = b !! k) →
  only_level_keys b → only_level_keys b'.
Proof.
  intros Hframe Hkeys k Hk.
  destruct (level_key_cases a0 k) as [(L & HL & ->)|Hother].
  - by exists a0, L.
  - rewrite (Hframe k Hother) in Hk. by apply Hkeys.
Qed.

Lemma runOp_level_keys (o : indexOp) (b : membucket) (j : Z) :
  all_layouts b j → 16 * (j + 1) < 2 ^ 32 → counts_ok b [o] → only_level_keys b →
  ∃ b', runOp o b = Ok (tt, b') ∧ all_layouts b' (j + 1) ∧ only_level_keys b'.
Proof.
  intros Hall Hsmall Hcounts Hkeys.
  destruct (runOp_layouts o b j Hall Hsmall Hcounts) as (b' & Hrun & Hall').
  exists b'. split; [done|]. split; [done|].
  destruct Hcounts as [Hcount _]. destruct o as [a0 e|a0 count]; cbn [runOp] in Hrun.
  - destruct (Hall a0) as (n0 & Hlay0 & Hlen0).
    destruct (dbPutAddrIndexEntry_layout a0 (recBlockID e) (recTxLoc e) (recBlockIndex e)
                b n0 Hlay0 ltac:(lia)) as (b2 & n' & Hrun2 & _ & _ & Hframe).
    rewrite Hrun in Hrun2. injection Hrun2 as <-.
    by apply (frame_only_level_keys a0 b b').
  - destruct (Z.leb_spec count 0) as [Hle|Hpos].
    + unfold dbRemoveAddrIndexEntries in Hrun.
      destruct (Z.leb_spec count 0); [|lia]. injection Hrun as <-. done.
    + destruct (Hall a0) as (n0 & Hlay0 & Hlen0).
      pose proof (layout_whole b a0 n0 Hlay0) as Hwhole.
      destruct (dbRemoveAddrIndexEntries_layout a0 count b n0 Hlay0 ltac:(lia) Hpos
                  ltac:(lia)) as (b2 & n' & Hrun2 & _ & _ & Hframe).
      rewrite Hrun in Hrun2. injection Hrun2 as <-.
      by apply (frame_only_level_keys a0 b b').
Qed.

Lemma runOps_level_keys (ops : list indexOp) (b : membucket) (j : Z) :
  all_layouts b j → 16 * (j + Z.of_nat (length ops)) < 2 ^ 32 → counts_ok b ops →
  only_level_keys b →
  ∃ b', runOps ops b = Ok (tt, b') ∧ all_layouts b' (j + Z.of_nat (length ops)) ∧
        only_level_keys b'.
Proof.
  revert b j. induction ops as [|o ops IH]; intros b j Hall Hsmall Hcounts Hkeys.
  - exists b. split; [done|]. cbn [length]. by rewrite Z.add_0_r.
  - cbn [length] in *. destruct Hcounts as [Hcount Hrest].
    destruct (runOp_level_keys o b j Hall ltac:(lia)) as (b1 & Hrun1 & Hall1 & Hkeys1);
      [|done|].
    { split; [done|]. by intros b' _. }
    cbn [runOps]. rewrite (run_bind_Ok _ _ _ _ _ _ _ _ Hrun1).
    destruct (IH b1 (j + 1) Hall1 ltac:(lia) (Hrest b1 Hrun1) Hkeys1)
      as (b' & Hrun & Hall' & Hkeys').
    exists b'. split; [done|]. split; [|done].
    by replace (j + Z.of_nat (S (length ops))) with (j + 1 + Z.of_nat (length ops)) by lia.
Qed.

Lemma layouts_keys_eq (b1 b2 : membucket) (j1 j2 : Z) :
  all_layouts b1 j1 → all_layouts b2 j2 → only_level_keys b1 → only_level_keys b2 →
  (∀ a, contents b1 a = contents b2 a) → b1 = b2.
Proof.
  intros Hall1 Hall2 Hkeys1 Hkeys2 Hcont. apply map_eq. intros k.
  assert (Hlevel : ∀ a L, (L < 256)%nat →
                   b1 !! keyForLevel a L = b2 !! keyForLevel a L).
  { intros a L HL. destruct (Hall1 a) as (n1 & Hlay1 & _).
    destruct (Hall2 a) as (n2 & Hlay2 & _).
    by apply (layout_unique b1 b2 a n1 n2). }
  destruct (b1 !! k) as [v1|] eqn:H1.
  - destruct (Hkeys1 k ltac:(by rewrite H1)) as (a & L & HL & ->).
    by rewrite <- (Hlevel a L HL).
  - destruct (b2 !! k) as [v2|] eqn:H2; [|done].
    destruct (Hkeys2 k ltac:(by rewrite H2)) as (a & L & HL & ->).
    by rewrite <- H2, <- (Hlevel a L HL).
Qed.

(** X9. The bucket depends on the entries it holds, not on how they got
    there: two runs of appends and removes from the empty bucket (each
    remove within the entries then stored) that leave every address with the
    same sequence of entries leave the very same bucket. *)
Theorem store_is_history_independent (ops1 ops2 : list indexOp) :
  16 * Z.of_nat (length ops1) < 2 ^ 32 → 16 * Z.of_nat (length ops2) < 2 ^ 32 →
  counts_ok ∅ ops1 → counts_ok ∅ ops2 →
  ∃ b1 b2, runOps ops1 ∅ = Ok (tt, b1) ∧ runOps ops2 ∅ = Ok (tt, b2) ∧
    ((∀ a, contents b1 a = contents b2 a) → b1 = b2).
Proof.
  intros Hs1 Hs2 Hc1 Hc2.
  assert (Hempty : only_level_keys ∅).
  { intros k Hk. rewrite lookup_empty in Hk. by destruct Hk. }
  destruct (runOps_level_keys ops1 ∅ 0 all_layouts_empty ltac:(lia) Hc1 Hempty)
    as (b1 & Hrun1 & Hall1 & Hkeys1).
  destruct (runOps_level_keys ops2 ∅ 0 all_layouts_empty ltac:(lia) Hc2 Hempty)
    as (b2 & Hrun2 & Hall2 & Hkeys2).
  exists b1, b2. split; [done|]. split; [done|].
  by apply (layouts_keys_eq b1 b2 _ _ Hall1 Hall2).
Qed.

Lemma store_is_history_independent_witness :
  ∃ b1 b2,
    runOps (map (OpAppend sampleAddr) (sampleRecords 9 1)) ∅ = Ok (tt, b1) ∧
    runOps (map (OpAppend sampleAddr) (sampleRecords 10 1) ++ [OpRemove sampleAddr 1]) ∅
      = Ok (tt, b2) ∧
    ((∀ a, contents b1 a = contents b2 a) → b1 = b2).
Proof.
  apply store_is_history_independent.
  - vm_compute. reflexivity.
  - vm_compute. reflexivity.
  - apply counts_okb_ok. vm_compute. reflexivity.
  - apply counts_okb_ok. vm_compute. reflexivity.
Defined.

(** ** The window a fetch returns *)

Lemma drop_records (es : list IndexRecord) (n : nat) (e : IndexRecord) :
  es !! n = Some e →
  ∃ rest, drop (Z.to_nat (16 * Z.of_nat n)) (concat (map serializeRecord es)) =
          serializeRecord e ++ rest.
Proof.
  intros Hn. exists (concat (map serializeRecord (drop (S n) es))).
  rewrite <- (take_drop_middle es n e Hn) at 1.
  rewrite map_app, concat_app. cbn [map concat].
  rewrite drop_app_length'; [done|].
  pose proof (len_concat_records (take n es)) as Hl. unfold len in Hl.
  rewrite length_take in Hl. apply lookup_lt_Some in Hn. lia.
Qed.

Lemma decodeAt_window (es l' : list IndexRecord) (fbh : fetchBlockHashFunc)
    (hashOf : IndexRecord → bytes) (g : Z → Z) (todo start : nat) (i : Z) :
  (∀ e, e ∈ es → fbh (PutUint32 (wrap32 (recBlockID e))) = inr (hashOf e)) →
  (∀ j : nat, (j < todo)%nat →
     0 ≤ g (i + Z.of_nat j) ∧
     ∃ e, l' !! (start + j)%nat = Some e ∧ es !! Z.to_nat (g (i + Z.of_nat j)) = Some e) →
  decodeAt (concat (map serializeRecord es)) fbh (offsetsFrom todo i g) =
    inr (map (λ e, entryOf (hashOf e) e) (take todo (drop start l'))).
Proof.
  intros Hfbh. revert start i. induction todo as [|todo IH]; intros start i Hwin.
  - done.
  - cbn [offsetsFrom decodeAt].
    destruct (Hwin 0%nat ltac:(lia)) as (Hg0 & e & Hl' & Hes).
    rewrite Z.add_0_r in Hg0, Hes. rewrite Nat.add_0_r in Hl'.
    destruct (drop_records es _ e Hes) as [rest Hdrop].
    rewrite Z2Nat.id in Hdrop by done. rewrite Hdrop.
    rewrite deserialize_serializeRecord.
    rewrite Hfbh by (by apply list_elem_of_lookup_2 in Hes).
    rewrite (IH (S start) (i + 1)).
    + rewrite (drop_S l' e start Hl'). done.
    + intros j Hj. destruct (Hwin (S j) ltac:(lia)) as (Hg & e' & Hl2 & Hes2).
      replace (i + 1 + Z.of_nat j) with (i + Z.of_nat (S j)) by lia.
      replace (S start + j)%nat with (start + S j)%nat by lia. eauto.
Qed.

(** X10. On an address in a valid state that holds the entries [es], when
    [numToSkip + numRequested] fits 32 bits and [fetchBlockHash] resolves
    the block of every entry, [dbFetchAddrIndexEntries] returns the window
    of at most [numRequested] entries after the first [numToSkip] ones,
    counted from the oldest entry, or from the newest one when [reverse] is
    set, and reports [numToSkip], or the number of entries when there are
    no more than that. *)
Theorem fetch_window_of_records (a : bytes) (b : membucket) (es : list IndexRecord)
    (skip want : Z) (reverse : bool) (fetchBlockHash : fetchBlockHashFunc)
    (hashOf : IndexRecord → bytes) :
  level_invariants b a → whole_entries b a →
  contents b a = concat (map serializeRecord es) →
  16 * Z.of_nat (length es) < 2 ^ 32 →
  0 ≤ skip → 0 ≤ want → skip + want < 2 ^ 32 →
  (∀ e, e ∈ es → fetchBlockHash (PutUint32 (wrap32 (recBlockID e))) = inr (hashOf e)) →
  dbFetchAddrIndexEntries a skip want reverse fetchBlockHash b =
    Ok ((map (λ e, entryOf (hashOf e) e)
           (take (Z.to_nat want)
              (drop (Z.to_nat skip) (if reverse then list.reverse es else es))),
         Z.min skip (Z.of_nat (length es))), b).
Proof.
  intros Hinv Hwhole Hcont Hsmall Hskip Hwant Hsum Hfbh.
  destruct (stored_ok_layout b a Hinv Hwhole) as [n Hlay].
  pose proof (len_concat_records es) as Hlen. rewrite <- Hcont in Hlen.
  assert (HN : totalEntries b a = Z.of_nat (length es)).
  { pose proof (layout_whole b a n Hlay). lia. }
  rewrite (dbFetchAddrIndexEntries_layout a skip want reverse fetchBlockHash b n Hlay
             ltac:(lia) Hskip Hwant Hsum).
  rewrite HN, Hcont.
  set (l' := if reverse then list.reverse es else es).
  assert (Hl'len : length l' = length es).
  { unfold l'. destruct reverse; [apply length_reverse|done]. }
  destruct (Z.leb_spec (Z.of_nat (length es)) skip) as [Hge|Hlt].
  - rewrite drop_ge by (rewrite Hl'len; lia). rewrite take_nil. cbn [map].
    by rewrite Z.min_r by lia.
  - rewrite (Z.min_l skip) by lia. destruct (Z.eqb_spec want 0) as [->|Hne]; [done|].
    set (todo := Z.to_nat (Z.min want (Z.of_nat (length es) - skip))).
    rewrite (decodeAt_window es l' fetchBlockHash hashOf _ todo (Z.to_nat skip) 0 Hfbh).
    + assert (Htake : take todo (drop (Z.to_nat skip) l') =
                      take (Z.to_nat want) (drop (Z.to_nat skip) l')).
      { destruct (Z.le_gt_cases want (Z.of_nat (length es) - skip)) as [Hle|Hgt].
        - unfold todo. by rewrite Z.min_l by lia.
        - unfold todo. rewrite Z.min_r by lia.
          rewrite !take_ge; [done| |]; rewrite length_drop, Hl'len; lia. }
      by rewrite Htake.
    + intros j Hj. unfold todo in Hj. unfold fetchOffset, l'. rewrite Z.add_0_l.
      destruct reverse.
      * split; [lia|].
        assert (Hidx : (Z.to_nat skip + j < length es)%nat) by lia.
        destruct (lookup_lt_is_Some_2 (list.reverse es) (Z.to_nat skip + j)) as [e He].
        { rewrite length_reverse. lia. }
        exists e. split; [done|].
        rewrite reverse_lookup in He by lia.
        rewrite <- He. f_equal. lia.
      * split; [lia|].
        destruct (lookup_lt_is_Some_2 es (Z.to_nat skip + j)) as [e He]; [lia|].
        exists e. split; [done|]. rewrite <- He. f_equal. lia.
Qed.

Lemma fetch_window_of_records_witness :
  let b : membucket :=
    <[keyForLevel sampleAddr 0 := concat (map serializeRecord (sampleRecords 3 1))]> ∅ in
  dbFetchAddrIndexEntries sampleAddr 1 1 true (λ id, inr id) b =
    Ok ((map (λ e, entryOf (PutUint32 (wrap32 (recBlockID e))) e)
           (take (Z.to_nat 1)
              (drop (Z.to_nat 1) (list.reverse (sampleRecords 3 1)))),
         Z.min 1 (Z.of_nat (length (sampleRecords 3 1)))), b).
Proof.
  intros b.
  apply (fetch_window_of_records sampleAddr b (sampleRecords 3 1) 1 1 true (λ id, inr id)
           (λ e, PutUint32 (wrap32 (recBlockID e)))).
  - apply sample_level0_ok. exists 3. split; [lia|]. reflexivity.
  - apply sample_level0_ok. exists 3. split; [lia|]. reflexivity.
  - vm_compute. reflexivity.
  - vm_compute. reflexivity.
  - lia.
  - lia.
  - lia.
  - intros e He. reflexivity.
Defined.

(** ** A failing block hash lookup *)

(** X11. When the window of a fetch is not empty and [fetchBlockHash] fails,
    the fetch returns no entry but the error of [fetchBlockHash], turned
    into a corruption error if it is a deserialize error. *)
Theorem fetch_hash_lookup_failure (a : bytes) (b : membucket) (skip want : Z)
    (reverse : bool) (fetchBlockHash : fetchBlockHashFunc) (err : error) :
  level_invariants b a → whole_entries b a → len (contents b a) < 2 ^ 32 →
  0 ≤ skip < totalEntries b a → 0 < want → skip + want < 2 ^ 32 →
  (∀ id, fetchBlockHash id = inl err) →
  dbFetchAddrIndexEntries a skip want reverse fetchBlockHash b = Err (fetchError err).
Proof.
  intros Hinv Hwhole Hsmall Hskip Hwant Hsum Hfail.
  destruct (stored_ok_layout b a Hinv Hwhole) as [n Hlay].
  pose proof (layout_whole b a n Hlay) as Hw.
  rewrite (dbFetchAddrIndexEntries_layout a skip want reverse fetchBlockHash b n Hlay
             Hsmall) by lia.
  destruct (Z.leb_spec (totalEntries b a) skip); [lia|].
  destruct (Z.eqb_spec want 0); [lia|].
  destruct (Z.to_nat (Z.min want (totalEntries b a - skip))) as [|todo] eqn:Htodo; [lia|].
  cbn [offsetsFrom decodeAt].
  set (o := fetchOffset (totalEntries b a) skip reverse 0).
  assert (Ho : 0 ≤ o < totalEntries b a).
  { unfold o, fetchOffset. destruct reverse; lia. }
  unfold deserializeAddrIndexEntry.
  destruct (Z.ltb_spec (len (drop (Z.to_nat (16 * o)) (contents b a))) txEntrySize)
    as [Hshort|_].
  - rewrite len_drop in Hshort. unfold txEntrySize, len in *. lia.
  - by rewrite Hfail.
Qed.

Lemma fetch_hash_lookup_failure_witness :
  dbFetchAddrIndexEntries sampleAddr 0 1 false (λ _, inl (OtherError "no such block"))
    (<[keyForLevel sampleAddr 0 := serializeRecord (sampleRecord 1)]> ∅ : membucket) =
    Err (fetchError (OtherError "no such block")).
Proof.
  apply (fetch_hash_lookup_failure sampleAddr
           (<[keyForLevel sampleAddr 0 := serializeRecord (sampleRecord 1)]> ∅) 0 1 false
           (λ _, inl (OtherError "no such block")) (OtherError "no such block")).
  - apply sample_level0_ok. exists 1. split; [lia|]. reflexivity.
  - apply sample_level0_ok. exists 1. split; [lia|]. reflexivity.
  - vm_compute. reflexivity.
  - vm_compute. split; [intros H; discriminate H|reflexivity].
  - lia.
  - lia.
  - reflexivity.
Defined.

Section AccessesOnly.
Variable P : access → Prop.

Lemma recorded_refl (b : tracedBucket) : recorded P b b.
Proof. exists []. by split; [|split]. Qed.

Lemma recorded_trans (b1 b2 b3 : tracedBucket) :
  recorded P b1 b2 → recorded P b2 b3 → recorded P b1 b3.
Proof.
  intros (l1 & Ha1 & Hs1 & Hp1) (l2 & Ha2 & Hs2 & Hp2). exists (l2 ++ l1).
  split; [by rewrite Ha2, Ha1, app_assoc|]. split.
  - by rewrite Hs2, Hs1, foldr_app.
  - by apply Forall_app.
Qed.

Lemma only_ret (A : Type) (x : A) : accesses_only P (ret x).
Proof. intros b r b' [= <- <-]. apply recorded_refl. Qed.

Lemma only_fail (A : Type) (e : error) : accesses_only P (fail e : M tracedBucket A).
Proof. intros b r b' H. discriminate H. Qed.

Lemma only_panic (A : Type) : accesses_only P (panic : M tracedBucket A).
Proof. intros b r b' H. discriminate H. Qed.

Lemma only_outOfFuel (A : Type) : accesses_only P (outOfFuel : M tracedBucket A).
Proof. intros b r b' H. discriminate H. Qed.

Lemma only_bind (A C : Type) (c : M tracedBucket A) (k : A → M tracedBucket C) :
  accesses_only P c → (∀ x, accesses_only P (k x)) → accesses_only P (bind c k).
Proof.
  intros Hc Hk b r b' Hrun. unfold bind in Hrun.
  destruct (c b) as [[x b1]| | |] eqn:Hcb; try discriminate.
  apply (recorded_trans b b1 b'); [by apply (Hc b x)|by apply (Hk x b1 r)].
Qed.

Lemma only_Get (key : bytes) : P (AccGet key) → accesses_only P (Get key).
Proof.
  intros HP b r b' H. cbn in H. inversion H; subst; clear H.
  exists [AccGet key]. split; [done|]. split; [done|].
  by apply Forall_singleton.
Qed.

Lemma only_Put (key value : bytes) :
  P (AccPut key value) → accesses_only P (Put key value).
Proof.
  intros HP b r b' H. cbn in H. inversion H; subst; clear H.
  exists [AccPut key value]. split; [done|]. split; [done|].
  by apply Forall_singleton.
Qed.

Lemma only_Delete (key : bytes) : P (AccDelete key) → accesses_only P (Delete key).
Proof.
  intros HP b r b' H. cbn in H. inversion H; subst; clear H.
  exists [AccDelete key]. split; [done|]. split; [done|].
  by apply Forall_singleton.
Qed.

Lemma only_sliceTo (s : bytes) (hi : Z) :
  accesses_only P (sliceTo s hi : M tracedBucket bytes).
Proof. unfold sliceTo. destruct (_ && _); [apply only_ret|apply only_panic]. Qed.

Lemma only_sliceFrom (s : bytes) (lo : Z) :
  accesses_only P (sliceFrom s lo : M tracedBucket bytes).
Proof. unfold sliceFrom. destruct (_ && _); [apply only_ret|apply only_panic]. Qed.
End AccessesOnly.

Lemma bind_Ok {B A C : Type} (c : M B A) (k : A → M B C) (b b' : B) (r : C) :
  bind c k b = Ok (r, b') → ∃ x b1, c b = Ok (x, b1) ∧ k x b1 = Ok (r, b').
Proof.
  unfold bind. destruct (c b) as [[x b1]| | |]; try discriminate. eauto.
Qed.

Section LevelAccesses.
Variable a : bytes.

(** A read or a write of a level key of the address. *)
Let ownPut (x : access) : Prop :=
  (∃ L : nat, accessKey x = keyForLevel a L) ∧ ∀ key, x ≠ AccDelete key.
(** A read of a level key of the address. *)
Let ownGet (x : access) : Prop := ∃ L : nat, x = AccGet (keyForLevel a L).

Lemma moveLevelsUp_only (mergeLevel : nat) :
  accesses_only ownPut (moveLevelsUp a mergeLevel).
Proof.
  induction mergeLevel as [|prevLevel IH]; cbn [moveLevelsUp]; [apply only_ret|].
  apply only_bind; [apply only_Get; unfold ownPut; cbn [accessKey]; eauto|]. intros prevData.
  apply only_bind; [apply only_Put; unfold ownPut; cbn [accessKey]; eauto|]. intros _.
  apply IH.
Qed.

Lemma mergeLevels_only (fuel curLevel : nat) (maxLevelBytes : Z)
    (prevLevelData : option bytes) :
  accesses_only ownPut (mergeLevels fuel a curLevel maxLevelBytes prevLevelData).
Proof.
  revert curLevel maxLevelBytes prevLevelData.
  induction fuel as [|fuel IH]; intros curLevel maxLevelBytes prevLevelData;
    cbn [mergeLevels]; [apply only_outOfFuel|].
  apply only_bind; [apply only_Get; unfold ownPut; cbn [accessKey]; eauto|]. intros curLevelData.
  destruct (_ =? _); [apply IH|].
  apply only_bind; [apply only_Put; unfold ownPut; cbn [accessKey]; eauto|]. intros _.
  apply moveLevelsUp_only.
Qed.

Lemma dbPutAddrIndexEntry_only (blockID : Z) (txLoc : TxLoc) (blockIndex : Z) :
  accesses_only ownPut (dbPutAddrIndexEntry a blockID txLoc blockIndex).
Proof.
  unfold dbPutAddrIndexEntry.
  apply only_bind; [apply only_Get; unfold ownPut; cbn [accessKey]; eauto|]. intros level0Data.
  destruct (_ <=? _).
  - apply only_Put. unfold ownPut. cbn [accessKey]. eauto.
  - apply only_bind; [apply mergeLevels_only|]. intros _.
    apply only_Put. unfold ownPut. cbn [accessKey]. eauto.
Qed.

Lemma fetchLevels_only (fuel : nat) (skip want : Z) (reverse : bool) (level : nat)
    (serialized : bytes) :
  accesses_only ownGet (fetchLevels fuel a skip want reverse level serialized).
Proof.
  revert level serialized.
  induction fuel as [|fuel IH]; intros level serialized; cbn [fetchLevels].
  - destruct (_ || _); [apply only_outOfFuel|apply only_ret].
  - destruct (_ || _); [|apply only_ret].
    apply only_bind; [apply only_Get; unfold ownGet; eauto|]. intros levelData.
    destruct levelData; [apply IH|apply only_ret].
Qed.

Lemma loadEntries_only (todo : nat) (serialized : bytes) (numEntries numToSkip : Z)
    (reverse : bool) (fetchBlockHash : fetchBlockHashFunc) (i : Z) :
  accesses_only ownGet
    (loadEntries todo a serialized numEntries numToSkip reverse fetchBlockHash i).
Proof.
  revert i. induction todo as [|todo IH]; intros i; cbn [loadEntries]; [apply only_ret|].
  apply only_bind; [apply only_sliceFrom|]. intros tail.
  destruct (deserializeAddrIndexEntry _ _).
  - destruct (isDeserializeErr _); apply only_fail.
  - apply only_bind; [apply IH|]. intros rest. apply only_ret.
Qed.

Lemma dbFetchAddrIndexEntries_only (skip want : Z) (reverse : bool)
    (fetchBlockHash : fetchBlockHashFunc) :
  accesses_only ownGet (dbFetchAddrIndexEntries a skip want reverse fetchBlockHash).
Proof.
  unfold dbFetchAddrIndexEntries.
  apply only_bind; [apply fetchLevels_only|]. intros serialized.
  destruct (_ <=? _); [apply only_ret|]. destruct (_ =? _); [apply only_ret|].
  apply only_bind; [apply loadEntries_only|]. intros results. apply only_ret.
Qed.

Lemma removeFromLevels_reads (fuel : nat) (pendingUpdates : gmap nat bytes)
    (highestLoadedLevel level : nat) (numRemaining : Z) :
  accesses_only ownGet
    (removeFromLevels fuel a pendingUpdates highestLoadedLevel level numRemaining).
Proof.
  revert pendingUpdates highestLoadedLevel level numRemaining.
  induction fuel as [|fuel IH];
    intros pendingUpdates highestLoadedLevel level numRemaining; cbn [removeFromLevels].
  - destruct (_ <? _); [apply only_outOfFuel|apply only_ret].
  - destruct (0 <? numRemaining); [|apply only_ret].
    apply only_bind; [apply only_Get; unfold ownGet; eauto|].
    intros curLevelData. destruct (_ && _); [apply only_fail|].
    destruct (_ <=? _); [apply IH|].
    apply only_bind; [apply only_sliceTo|]. intros kept. apply only_ret.
Qed.

Lemma squashLevels_reads (level : nat) (pendingUpdates : gmap nat bytes)
    (lowestEmptyLevel : nat) (curLevelData : bytes) (curLevelMaxEntries : Z) :
  accesses_only ownGet
    (squashLevels level pendingUpdates lowestEmptyLevel curLevelData curLevelMaxEntries
       : M tracedBucket _).
Proof.
  revert pendingUpdates lowestEmptyLevel curLevelData curLevelMaxEntries.
  induction level as [|prevLevel IH];
    intros pendingUpdates lowestEmptyLevel curLevelData curLevelMaxEntries;
    cbn [squashLevels]; [apply only_ret|].
  destruct (_ <? _); [apply IH|].
  apply only_bind; [apply only_sliceTo|]. intros kept.
  apply only_bind; [apply only_sliceFrom|]. intros rest. apply IH.
Qed.

Lemma halveLevels_reads (level lowestEmptyLevel : nat) (pendingUpdates : gmap nat bytes)
    (levelData : bytes) (curLevelMaxEntries : Z) :
  accesses_only ownGet
    (halveLevels level lowestEmptyLevel pendingUpdates levelData curLevelMaxEntries
       : M tracedBucket _).
Proof.
  revert pendingUpdates levelData curLevelMaxEntries.
  induction level as [|prevLevel IH];
    intros pendingUpdates levelData curLevelMaxEntries;
    cbn [halveLevels]; [apply only_ret|].
  destruct (_ <? _)%nat; [|apply only_ret].
  apply only_bind; [apply only_sliceTo|]. intros kept.
  apply only_bind; [apply only_sliceFrom|]. intros rest. apply IH.
Qed.

Lemma backfillLevels_reads (fuel : nat) (pendingUpdates : gmap nat bytes)
    (highestLoadedLevel lowestEmptyLevel : nat) :
  accesses_only ownGet
    (backfillLevels fuel a pendingUpdates highestLoadedLevel lowestEmptyLevel).
Proof.
  revert pendingUpdates highestLoadedLevel lowestEmptyLevel.
  induction fuel as [|fuel IH]; intros pendingUpdates highestLoadedLevel lowestEmptyLevel;
    cbn [backfillLevels].
  - destruct (_ =? _); [apply only_outOfFuel|apply only_ret].
  - destruct (_ =? _); [|apply only_ret].
    apply only_bind; [apply only_Get; unfold ownGet; eauto|].
    intros levelData. destruct (_ =? _); [apply only_ret|].
    destruct (negb _).
    + apply only_bind; [apply halveLevels_reads|]. intros p. apply IH.
    + apply only_bind; [apply halveLevels_reads|]. intros p. apply IH.
Qed.

Lemma applyPendingList_trace (updates : list (nat * bytes)) (b : tracedBucket) :
  ∃ b', applyPendingList a updates b = Ok (tt, b') ∧
    accesses b' = reverse (pendingWrite a <$> updates) ++ accesses b ∧
    tracedStore b' =
      foldr applyAccess (tracedStore b) (reverse (pendingWrite a <$> updates)).
Proof.
  revert b. induction updates as [|[level levelData] updates IH]; intros b.
  - exists b. by cbn.
  - cbn [applyPendingList]. rewrite fmap_cons, reverse_cons. unfold bind at 1.
    assert (Hw : ∃ b1,
      (if len levelData =? 0 then Delete (keyForLevel a level)
       else Put (keyForLevel a level) levelData) b = Ok (tt, b1) ∧
      accesses b1 = pendingWrite a (level, levelData) :: accesses b ∧
      tracedStore b1 = applyAccess (pendingWrite a (level, levelData)) (tracedStore b)).
    { unfold pendingWrite. cbn [fst snd]. destruct (len levelData =? 0).
      - eexists. split; [reflexivity|]. by split.
      - eexists. split; [reflexivity|]. by split. }
    destruct Hw as (b1 & -> & Hacc1 & Hst1).
    destruct (IH b1) as (b' & Hrun & Hacc & Hst). exists b'.
    split; [exact Hrun|]. split.
    + by rewrite Hacc, Hacc1, <- app_assoc.
    + by rewrite Hst, Hst1, foldr_app.
Qed.

(** A run of [dbRemoveAddrIndexEntries] that returns first only reads, up
    to some bucket [b1], and then applies the pending updates. *)
Lemma dbRemoveAddrIndexEntries_phases (count : Z) (b b' : tracedBucket) :
  dbRemoveAddrIndexEntries a count b = Ok (tt, b') →
  ∃ b1 updates, recorded ownGet b b1 ∧ NoDup updates.*1 ∧
    applyPendingList a updates b1 = Ok (tt, b').
Proof.
  unfold dbRemoveAddrIndexEntries. destruct (_ <=? _).
  - intros [= <-]. exists b, []. split; [apply recorded_refl|]. split; [constructor|done].
  - intros H. apply bind_Ok in H as ([pendingUpdates highestLoadedLevel] & b1 & H1 & H).
    apply removeFromLevels_reads in H1.
    destruct (negb _).
    + exists b1, (map_to_list pendingUpdates).
      split; [done|]. split; [apply NoDup_fst_map_to_list|done].
    + apply bind_Ok in H as ([[p l] d] & b2 & H2 & H).
      apply squashLevels_reads in H2.
      apply bind_Ok in H as (p' & b3 & H3 & H).
      apply backfillLevels_reads in H3.
      exists b3, (map_to_list p'). split; [|split; [apply NoDup_fst_map_to_list|done]].
      eapply recorded_trans; [exact H1|]. eapply recorded_trans; [exact H2|exact H3].
Qed.
End LevelAccesses.

Lemma keyForLevel_level_inj (a : bytes) (L L' : nat) :
  keyForLevel a L = keyForLevel a L' → L = L'.
Proof.
  unfold keyForLevel. intros H. apply app_inv_head in H. injection H. lia.
Qed.

Lemma no_read_after_write_nil : no_read_after_write [].
Proof. intros l1 l2 key x H. by destruct l2. Qed.

Lemma no_read_after_write_reads (l1 l2 : list access) :
  no_read_after_write l2 → Forall (λ x, ∃ key, x = AccGet key) l1 →
  no_read_after_write (l2 ++ l1).
Proof.
  intros H2 H1 m1 m2 key x Heq Hx Hkey.
  apply app_eq_inv in Heq as [(k & Hl2 & Hm)|(k & Hm2 & Hl1)].
  - destruct k as [|y k].
    + cbn in Hm. subst l1. rewrite Forall_forall in H1. apply H1. by right.
    + cbn in Hm. injection Hm as <- ->.
      apply elem_of_app in Hx as [Hx|Hx].
      * apply (H2 k m2 key x); [by rewrite Hl2| done | done].
      * rewrite Forall_forall in H1. by apply H1.
  - rewrite Forall_forall in H1. apply H1. rewrite Hl1.
    apply elem_of_app. right. by right.
Qed.

Lemma no_read_after_write_app (a : bytes) (n : nat) (l1 l2 : list access) :
  no_read_after_write l1 → no_read_after_write l2 →
  writes_from a n l1 → gets_below a n l2 →
  no_read_after_write (l2 ++ l1).
Proof.
  intros H1 H2 Hw Hg m1 m2 key x Heq Hx Hkey.
  apply app_eq_inv in Heq as [(k & Hl2 & Hm)|(k & Hm2 & Hl1)].
  - destruct k as [|y k].
    + cbn in Hm. rewrite app_nil_r in Hl2. subst l2.
      apply (H1 m1 [] key x); [by rewrite Hm|done|done].
    + cbn in Hm. injection Hm as <- ->.
      apply elem_of_app in Hx as [Hx|Hx].
      * apply (H2 k m2 key x); [by rewrite Hl2|done|done].
      * destruct x as [key'|key' value|key']; [by eauto| |].
        -- destruct (Hg key) as (L & HL & HkL).
           { rewrite Hl2. apply elem_of_app. right. by left. }
           destruct (Hw _ Hx) as (L' & HL' & HkL'); [done|].
           cbn [accessKey] in *. subst key'. rewrite HkL in HkL'.
           apply keyForLevel_level_inj in HkL'. lia.
        -- destruct (Hg key) as (L & HL & HkL).
           { rewrite Hl2. apply elem_of_app. right. by left. }
           destruct (Hw _ Hx) as (L' & HL' & HkL'); [done|].
           cbn [accessKey] in *. subst key'. rewrite HkL in HkL'.
           apply keyForLevel_level_inj in HkL'. lia.
  - apply (H1 m1 k key x); [done|done|done].
Qed.

Lemma no_read_after_write_put_get (key value key' : bytes) :
  no_read_after_write [AccPut key value; AccGet key'].
Proof.
  intros l1 l2 k x Heq Hx Hkey.
  destruct l2 as [|y l2]; [discriminate|]. injection Heq as _ Heq.
  destruct l2 as [|y' l2].
  - injection Heq as _ <-. by apply elem_of_nil in Hx.
  - injection Heq as _ Heq. by destruct l2.
Qed.

Lemma no_read_after_write_put (key value : bytes) :
  no_read_after_write [AccPut key value].
Proof.
  intros l1 l2 k x Heq Hx Hkey.
  destruct l2 as [|y l2]; [discriminate|]. injection Heq as _ Heq. by destruct l2.
Qed.

Lemma gets_below_mono (a : bytes) (n n' : nat) (l : list access) :
  (n ≤ n')%nat → gets_below a n l → gets_below a n' l.
Proof. intros Hn H key Hin. destruct (H key Hin) as (L & HL & ->). exists L. split; [lia|done]. Qed.

Lemma writes_from_mono (a : bytes) (n n' : nat) (l : list access) :
  (n' ≤ n)%nat → writes_from a n l → writes_from a n' l.
Proof.
  intros Hn H x Hin Hx. destruct (H x Hin Hx) as (L & HL & HkL). exists L. split; [lia|done].
Qed.

Section PutTrace.
Variable a : bytes.

Lemma moveLevelsUp_trace (m : nat) (b : tracedBucket) :
  ∃ b' l, moveLevelsUp a m b = Ok (tt, b') ∧ accesses b' = l ++ accesses b ∧
    no_read_after_write l ∧ gets_below a m l ∧ writes_from a 1 l ∧
    length l = (2 * m)%nat.
Proof.
  revert b. induction m as [|m IH]; intros b.
  - exists b, []. cbn. split; [done|]. split; [done|].
    split; [apply no_read_after_write_nil|]. split; [|split; [|done]].
    + intros key Hin. by apply elem_of_nil in Hin.
    + intros x Hin. by apply elem_of_nil in Hin.
  - cbn [moveLevelsUp]. unfold bind at 1. cbn [Get bucketGet tracedInternalBucket].
    unfold bind at 1. cbn [Put bucketPut tracedInternalBucket].
    set (b1 := {| tracedStore := _; accesses := _ |}).
    destruct (IH b1) as (b' & l & Hrun & Hacc & Hnraw & Hg & Hw & Hlen).
    exists b', (l ++ [AccPut (keyForLevel a (S m)) (data (tracedStore b !! keyForLevel a m));
                      AccGet (keyForLevel a m)]).
    split; [exact Hrun|]. split; [by rewrite Hacc, <- app_assoc|].
    split; [|split; [|split]].
    + apply (no_read_after_write_app a (S m)); [| done | |].
      * apply no_read_after_write_put_get.
      * intros x Hx Hng. apply elem_of_cons in Hx as [->|Hx].
        -- exists (S m). by split.
        -- apply list_elem_of_singleton in Hx. subst x. by destruct (Hng (keyForLevel a m)).
      * apply (gets_below_mono a m); [lia|done].
    + intros key Hin. apply elem_of_app in Hin as [Hin|Hin].
      * destruct (Hg key Hin) as (L & HL & ->). exists L. split; [lia|done].
      * apply elem_of_cons in Hin as [Hin|Hin]; [discriminate|].
        apply list_elem_of_singleton in Hin. injection Hin as ->. exists m. split; [lia|done].
    + intros x Hin Hng. apply elem_of_app in Hin as [Hin|Hin]; [by apply Hw|].
      apply elem_of_cons in Hin as [->|Hin].
      * exists (S m). split; [lia|done].
      * apply list_elem_of_singleton in Hin. subst x. by destruct (Hng (keyForLevel a m)).
    + rewrite length_app, Hlen. cbn. lia.
Qed.

Lemma mergeLevels_trace (n : nat) :
  ∀ (c fuel : nat) (prev : option bytes) (b : tracedBucket),
  (c + n = 56)%nat → (1 ≤ n)%nat → (n ≤ fuel)%nat →
  ∃ b' l, mergeLevels fuel a c (128 * 2 ^ Z.of_nat c) prev b = Ok (tt, b') ∧
    accesses b' = l ++ accesses b ∧
    no_read_after_write l ∧ writes_from a 1 l ∧ (length l + c ≤ 167)%nat.
Proof.
  induction n as [|n IH]; intros c fuel prev b Hc Hn Hfuel; [lia|].
  destruct fuel as [|fuel]; [lia|]. cbn [mergeLevels].
  assert (Hinc : u8_inc c = S c).
  { unfold u8_inc. rewrite Nat.mod_small by lia. lia. }
  rewrite Hinc. unfold bind at 1. cbn [Get bucketGet tracedInternalBucket].
  set (v := tracedStore b !! keyForLevel a (S c)).
  set (b1 := {| tracedStore := tracedStore b; accesses := _ |}).
  assert (Hlen : 0 ≤ len (data v)) by (unfold len; lia).
  assert (Hpow : 128 * 2 ^ Z.of_nat c * 2 = 128 * 2 ^ Z.of_nat (S c)).
  { rewrite Nat2Z.inj_succ, Z.pow_succ_r by lia. lia. }
  rewrite Hpow.
  destruct (len (data v) =? wrap64 (128 * 2 ^ Z.of_nat (S c))) eqn:Hfull.
  - apply Z.eqb_eq in Hfull.
    destruct (decide (n = 0%nat)) as [->|Hn0].
    + exfalso. replace (S c) with 56%nat in Hfull by lia.
      change (wrap64 (128 * 2 ^ Z.of_nat 56)) with (- 2 ^ 63) in Hfull. lia.
    + assert (Hsmall : wrap64 (128 * 2 ^ Z.of_nat (S c)) = 128 * 2 ^ Z.of_nat (S c)).
      { apply wrap64_small.
        assert (0 < 2 ^ Z.of_nat (S c)) by (apply Z.pow_pos_nonneg; lia).
        assert (2 ^ Z.of_nat (S c) ≤ 2 ^ 55) by (apply Z.pow_le_mono_r; lia).
        lia. }
      rewrite Hsmall.
      destruct (IH (S c) fuel v b1) as (b' & l & Hrun & Hacc & Hnraw & Hw & Hl);
        [lia|lia|lia|].
      exists b', (l ++ [AccGet (keyForLevel a (S c))]).
      split; [exact Hrun|]. split; [by rewrite Hacc, <- app_assoc|].
      split; [|split].
      * apply no_read_after_write_reads; [done|]. apply Forall_singleton. eauto.
      * intros x Hin Hng. apply elem_of_app in Hin as [Hin|Hin]; [by apply Hw|].
        apply list_elem_of_singleton in Hin. subst x.
        by destruct (Hng (keyForLevel a (S c))).
      * rewrite length_app. cbn. lia.
  - unfold bind at 1. cbn [Put bucketPut tracedInternalBucket].
    set (merged := if 0 <? len (data v) then _ else _).
    set (b2 := {| tracedStore := _; accesses := _ |}).
    assert (Hdec : u8_dec (S c) = c).
    { unfold u8_dec. replace (S c + 255)%nat with (c + 1 * 256)%nat by lia.
      rewrite Nat.Div0.mod_add. apply Nat.mod_small. lia. }
    rewrite Hdec.
    destruct (moveLevelsUp_trace c b2) as (b' & l & Hrun & Hacc & Hnraw & Hg & Hw & Hl).
    exists b', (l ++ [AccPut (keyForLevel a (S c)) merged; AccGet (keyForLevel a (S c))]).
    split; [exact Hrun|]. split; [by rewrite Hacc, <- app_assoc|].
    split; [|split].
    + apply (no_read_after_write_app a (S c)); [| done | |].
      * apply no_read_after_write_put_get.
      * intros x Hx Hng. apply elem_of_cons in Hx as [->|Hx].
        -- exists (S c). by split.
        -- apply list_elem_of_singleton in Hx. subst x.
           by destruct (Hng (keyForLevel a (S c))).
      * apply (gets_below_mono a c); [lia|done].
    + intros x Hin Hng. apply elem_of_app in Hin as [Hin|Hin]; [by apply Hw|].
      apply elem_of_cons in Hin as [->|Hin].
      * exists (S c). split; [lia|done].
      * apply list_elem_of_singleton in Hin. subst x.
        by destruct (Hng (keyForLevel a (S c))).
    + rewrite length_app, Hl. cbn. lia.
Qed.

Lemma dbPutAddrIndexEntry_trace (blockID : Z) (txLoc : TxLoc) (blockIndex : Z)
    (b : tracedBucket) :
  ∃ b' l, dbPutAddrIndexEntry a blockID txLoc blockIndex b = Ok (tt, b') ∧
    accesses b' = l ++ accesses b ∧
    no_read_after_write l ∧ (length l ≤ 169)%nat.
Proof.
  unfold dbPutAddrIndexEntry. unfold bind at 1. cbn [Get bucketGet tracedInternalBucket].
  set (v := tracedStore b !! keyForLevel a 0).
  set (b1 := {| tracedStore := tracedStore b; accesses := _ |}).
  destruct (_ <=? _).
  - cbn [Put bucketPut tracedInternalBucket].
    set (merged := if 0 <? len (data v) then _ else _).
    eexists. exists [AccPut (keyForLevel a 0) merged; AccGet (keyForLevel a 0)].
    split; [reflexivity|]. split; [done|]. split; [|cbn; lia].
    apply no_read_after_write_put_get.
  - unfold bind at 1. change loopFuel with (S 599).
    change (wrap64 (level0MaxEntries * txEntrySize)) with (128 * 2 ^ Z.of_nat 0).
    destruct (mergeLevels_trace 56 0 (S 599) v b1) as (b2 & l & Hrun & Hacc & Hnraw & Hw & Hl);
      [lia|lia|lia|].
    rewrite Hrun. cbn [Put bucketPut tracedInternalBucket].
    eexists. exists (AccPut (keyForLevel a 0)
                       (serializeAddrIndexEntry blockID txLoc blockIndex)
                     :: l ++ [AccGet (keyForLevel a 0)]).
    split; [reflexivity|]. split.
    { cbn [accesses]. rewrite Hacc. cbn. by rewrite <- app_assoc. }
    split.
    + apply (no_read_after_write_reads [AccGet (keyForLevel a 0)]
               (AccPut _ _ :: l)); [|apply Forall_singleton; eauto].
      apply (no_read_after_write_app a 0 l [AccPut _ _]); [done| | |].
      * apply no_read_after_write_put.
      * apply (writes_from_mono a 1); [lia|done].
      * intros key Hin. apply list_elem_of_singleton in Hin. discriminate.
    + cbn [length]. rewrite length_app. cbn. lia.
Qed.
End PutTrace.

Lemma foldr_reads (l : list access) (s : gmap bytes bytes) :
  Forall (λ x, ∃ key, x = AccGet key) l → foldr applyAccess s l = s.
Proof.
  induction 1 as [|x l [key ->] _ IH]; [done|]. cbn [foldr applyAccess]. done.
Qed.

Lemma foldr_other_keys (l : list access) (s : gmap bytes bytes) (k : bytes) :
  Forall (λ x, accessKey x ≠ k) l → foldr applyAccess s l !! k = s !! k.
Proof.
  induction 1 as [|x l Hx _ IH]; [done|]. cbn [foldr].
  destruct x as [key|key value|key]; cbn [applyAccess accessKey] in *.
  - done.
  - by rewrite lookup_insert_ne.
  - by rewrite lookup_delete_ne.
Qed.

(** X12. Whatever the bucket holds, a fetch that returns has only read the
    bucket, and only level keys of the address it was asked for. *)
Theorem fetch_only_reads_own_levels (a : bytes) (skip want : Z) (reverse : bool)
    (fetchBlockHash : fetchBlockHashFunc) (b b' : tracedBucket)
    (r : list TxIndexEntry * Z) :
  dbFetchAddrIndexEntries a skip want reverse fetchBlockHash b = Ok (r, b') →
  tracedStore b' = tracedStore b ∧
  ∃ l, accesses b' = l ++ accesses b ∧
       Forall (λ x, ∃ L : nat, x = AccGet (keyForLevel a L)) l.
Proof.
  intros Hrun.
  destruct (dbFetchAddrIndexEntries_only a skip want reverse fetchBlockHash b r b' Hrun)
    as (l & Hacc & Hstore & Hall).
  split; [|by exists l].
  rewrite Hstore. apply foldr_reads. eapply Forall_impl; [exact Hall|].
  intros x [L ->]. eauto.
Qed.

Lemma fetch_only_reads_own_levels_witness :
  let b := {| tracedStore :=
                {[keyForLevel sampleAddr 0 := serializeRecord (sampleRecord 1)]};
              accesses := [] |} in
  ∃ r b', dbFetchAddrIndexEntries sampleAddr 0 1 false (λ id, inr id) b = Ok (r, b') ∧
    tracedStore b' = tracedStore b ∧
    ∃ l, accesses b' = l ++ accesses b ∧
         Forall (λ x, ∃ L : nat, x = AccGet (keyForLevel sampleAddr L)) l.
Proof.
  intros b. eexists. eexists. split; [vm_compute; reflexivity|].
  eapply (fetch_only_reads_own_levels sampleAddr 0 1 false (λ id, inr id) b).
  vm_compute. reflexivity.
Defined.

(** X13. Whatever the bucket holds, [dbPutAddrIndexEntry] that returns has
    only read and written level keys of its address, has deleted nothing,
    has read no key after writing it, and has left every other key as it
    was. *)
Theorem put_touches_own_levels_only (a : bytes) (blockID : Z) (txLoc : TxLoc)
    (blockIndex : Z) (b b' : tracedBucket) :
  dbPutAddrIndexEntry a blockID txLoc blockIndex b = Ok (tt, b') →
  (∃ l, accesses b' = l ++ accesses b ∧
        Forall (λ x, (∃ L : nat, accessKey x = keyForLevel a L) ∧
                     ∀ key, x ≠ AccDelete key) l ∧
        no_read_after_write l) ∧
  (∀ k, (∀ L : nat, k ≠ keyForLevel a L) → tracedStore b' !! k = tracedStore b !! k).
Proof.
  intros Hrun.
  destruct (dbPutAddrIndexEntry_only a blockID txLoc blockIndex b tt b' Hrun)
    as (l & Hacc & Hstore & Hall).
  split.
  - exists l. split; [done|]. split; [done|].
    destruct (dbPutAddrIndexEntry_trace a blockID txLoc blockIndex b)
      as (b'' & l' & Hrun' & Hacc' & Hnraw & _).
    rewrite Hrun in Hrun'. injection Hrun' as <-.
    rewrite Hacc in Hacc'. apply app_inv_tail in Hacc'. by subst l'.
  - intros k Hk. rewrite Hstore. apply foldr_other_keys.
    eapply Forall_impl; [exact Hall|]. intros x [[L HL] _] Heq. apply (Hk L).
    by rewrite <- Heq.
Qed.

Lemma put_touches_own_levels_only_witness :
  let b := {| tracedStore :=
                {[keyForLevel sampleAddr 0 := concat (map serializeRecord (sampleRecords 8 1))]};
              accesses := [] |} in
  ∃ b', dbPutAddrIndexEntry sampleAddr 1 {| TxStart := 9; TxLen := 1 |} 9 b = Ok (tt, b') ∧
    (∃ l, accesses b' = l ++ accesses b ∧
          Forall (λ x, (∃ L : nat, accessKey x = keyForLevel sampleAddr L) ∧
                       ∀ key, x ≠ AccDelete key) l ∧
          no_read_after_write l) ∧
    (∀ k, (∀ L : nat, k ≠ keyForLevel sampleAddr L) →
          tracedStore b' !! k = tracedStore b !! k).
Proof.
  intros b. eexists. split; [vm_compute; reflexivity|].
  eapply (put_touches_own_levels_only sampleAddr 1 {| TxStart := 9; TxLen := 1 |} 9 b).
  vm_compute. reflexivity.
Defined.

(** X29. Whatever the bucket holds, [dbPutAddrIndexEntry] returns on a
    bucket whose writes do not fail, after at most 169 accesses: the loop
    over the levels stops at level 56 at the latest, where the doubled
    level size has wrapped to a negative number. *)
Theorem put_always_returns (a : bytes) (blockID : Z) (txLoc : TxLoc)
    (blockIndex : Z) (b : tracedBucket) :
  ∃ b', dbPutAddrIndexEntry a blockID txLoc blockIndex b = Ok (tt, b') ∧
        (length (accesses b') ≤ length (accesses b) + 169)%nat.
Proof.
  destruct (dbPutAddrIndexEntry_trace a blockID txLoc blockIndex b)
    as (b' & l & Hrun & Hacc & _ & Hlen).
  exists b'. split; [exact Hrun|]. rewrite Hacc, length_app. lia.
Qed.

(** X14. Whatever the bucket holds, [dbRemoveAddrIndexEntries] that returns
    has first only read level keys of its address and then only written or
    deleted level keys of its address, each at most once, and has left
    every other key as it was. *)
Theorem remove_touches_own_levels_only (a : bytes) (count : Z) (b b' : tracedBucket) :
  dbRemoveAddrIndexEntries a count b = Ok (tt, b') →
  (∃ reads writes, accesses b' = writes ++ reads ++ accesses b ∧
     Forall (λ x, ∃ L : nat, x = AccGet (keyForLevel a L)) reads ∧
     Forall (λ x, (∃ L : nat, accessKey x = keyForLevel a L) ∧
                  ∀ key, x ≠ AccGet key) writes ∧
     NoDup (accessKey <$> writes)) ∧
  (∀ k, (∀ L : nat, k ≠ keyForLevel a L) → tracedStore b' !! k = tracedStore b !! k).
Proof.
  intros Hrun.
  destruct (dbRemoveAddrIndexEntries_phases a count b b' Hrun)
    as (b1 & updates & (reads & Hacc1 & Hst1 & Hreads) & Hnd & Happly).
  destruct (applyPendingList_trace a updates b1) as (b'' & Hrun' & Hacc & Hst).
  rewrite Happly in Hrun'. injection Hrun' as <-.
  assert (Hwrites : Forall (λ x, (∃ L : nat, accessKey x = keyForLevel a L) ∧
                                 ∀ key, x ≠ AccGet key)
                      (reverse (pendingWrite a <$> updates))).
  { rewrite Forall_reverse, Forall_fmap. apply Forall_forall. intros [L d] _.
    unfold compose, pendingWrite. cbn [fst snd].
    destruct (len d =? 0); cbn [accessKey]; (split; [by exists L|intros key; discriminate]). }
  split.
  - exists reads, (reverse (pendingWrite a <$> updates)).
    split; [by rewrite Hacc, Hacc1|]. split; [done|]. split; [done|].
    rewrite <- fmap_reverse, reverse_Permutation, <- list_fmap_compose.
    assert (Hkeys : (accessKey ∘ pendingWrite a) <$> updates =
                    keyForLevel a <$> updates.*1).
    { rewrite <- list_fmap_compose. apply list_fmap_ext. intros i [L d] _.
      unfold pendingWrite. cbn. by destruct (len d =? 0). }
    rewrite Hkeys. apply NoDup_fmap_2; [|done].
    intros L L'. apply keyForLevel_level_inj.
  - intros k Hk. rewrite Hst, Hst1. rewrite foldr_other_keys.
    + apply foldr_other_keys. eapply Forall_impl; [exact Hreads|].
      intros x [L ->] Heq. by apply (Hk L).
    + eapply Forall_impl; [exact Hwrites|]. intros x [[L HL] _] Heq. apply (Hk L).
      by rewrite <- Heq.
Qed.

Lemma remove_touches_own_levels_only_witness :
  let b := {| tracedStore :=
                {[keyForLevel sampleAddr 0 := concat (map serializeRecord (sampleRecords 3 1))]};
              accesses := [] |} in
  ∃ b', dbRemoveAddrIndexEntries sampleAddr 2 b = Ok (tt, b') ∧
    (∃ reads writes, accesses b' = writes ++ reads ++ accesses b ∧
       Forall (λ x, ∃ L : nat, x = AccGet (keyForLevel sampleAddr L)) reads ∧
       Forall (λ x, (∃ L : nat, accessKey x = keyForLevel sampleAddr L) ∧
                    ∀ key, x ≠ AccGet key) writes ∧
       NoDup (accessKey <$> writes)) ∧
    (∀ k, (∀ L : nat, k ≠ keyForLevel sampleAddr L) →
          tracedStore b' !! k = tracedStore b !! k).
Proof.
  intros b. eexists. split; [vm_compute; reflexivity|].
  eapply (remove_touches_own_levels_only sampleAddr 2 b).
  vm_compute. reflexivity.
Defined.

(** * Further properties of the block indexer *)

(** ** Address keys *)

(** X15. The key [addrToKey] gives an address is its kind, a byte from 0 to
    3, followed by its hash, 21 bytes for a 20-byte hash; two addresses get
    the same key only if they are the same address once a public key
    address is replaced by its public key hash address. *)
Theorem addrToKey_collision_free (addr addr' : Address) (addrKey : bytes) :
  addrToKey addr = Some addrKey →
  (∃ ty hash160, addrKey = ty :: hash160 ∧ 0 ≤ ty ≤ 3 ∧
                 (len hash160 = 20 → len addrKey = addrKeySize)) ∧
  (addrToKey addr' = Some addrKey →
   default addr (AddressPubKeyHash addr) = default addr' (AddressPubKeyHash addr')).
Proof.
  intros Hk. split.
  - destruct addr as [h|h|h|h|h|h|h|]; cbn in Hk; try discriminate;
      injection Hk as <-; eexists _, h; (split; [reflexivity|]);
      (split; [done|]); intros Hh; unfold len in *; cbn [length];
      unfold addrKeySize; lia.
  - intros Hk'.
    destruct addr as [h|h|h|h|h|h|h|]; cbn in Hk; try discriminate;
      injection Hk as <-;
      destruct addr' as [h'|h'|h'|h'|h'|h'|h'|]; cbn in Hk'; try discriminate;
      injection Hk' as <-; reflexivity.
Qed.

Lemma addrToKey_collision_free_witness :
  (∃ ty hash160, addrKeyTypePubKeyHash :: sampleScript = ty :: hash160 ∧ 0 ≤ ty ≤ 3 ∧
                 (len hash160 = 20 → len (addrKeyTypePubKeyHash :: sampleScript) = addrKeySize)) ∧
  (addrToKey (AddressPubKeyHashEcdsaSecp256k1V0 sampleScript)
     = Some (addrKeyTypePubKeyHash :: sampleScript) →
   default (AddressPubKeyEcdsaSecp256k1V0 sampleScript)
     (AddressPubKeyHash (AddressPubKeyEcdsaSecp256k1V0 sampleScript)) =
   default (AddressPubKeyHashEcdsaSecp256k1V0 sampleScript)
     (AddressPubKeyHash (AddressPubKeyHashEcdsaSecp256k1V0 sampleScript))).
Proof.
  apply (addrToKey_collision_free (AddressPubKeyEcdsaSecp256k1V0 sampleScript)
           (AddressPubKeyHashEcdsaSecp256k1V0 sampleScript)
           (addrKeyTypePubKeyHash :: sampleScript)).
  reflexivity.
Defined.

(** ** An invariant principle for the block indexer *)

Section IndexerInvariant.
Variable ExtractPkScriptAddrs : Z → bytes → bool → ScriptClass * list Address * bool.
Variable AddrFromSStxPkScrCommitment : bytes → option Address.
Variable IsSSGen : MsgTx → bool → bool.
Variable IsTreasuryBase : MsgTx → bool.
Variable IsTSpend : MsgTx → bool.
Variable IsSStx : MsgTx → bool.

(** [Q t data]: what holds of the map before transaction [t] is visited. *)
Variable Q : Z → writeIndexData → Prop.
Hypothesis Q_step : ∀ t data addr, 0 ≤ t → Q (t + 1) data → Q (t + 1) (indexAddr t data addr).
Hypothesis Q_mono : ∀ t data, 0 ≤ t → Q t data → Q (t + 1) data.

Lemma indexPkScript_inv (t : Z) (data : writeIndexData) (scriptVersion : Z)
    (pkScript : bytes) (isSStx isTreasuryEnabled : bool) :
  0 ≤ t → Q (t + 1) data →
  Q (t + 1)
    (indexPkScript ExtractPkScriptAddrs AddrFromSStxPkScrCommitment data scriptVersion
       pkScript t isSStx isTreasuryEnabled).
Proof.
  intros Ht HQ. unfold indexPkScript.
  destruct (ExtractPkScriptAddrs _ _ _) as [[class addrs] err].
  destruct err; [done|].
  assert (Hfold : ∀ addrs data, Q (t + 1) data → Q (t + 1) (foldl (indexAddr t) data addrs)).
  { clear data HQ addrs. intros addrs.
    induction addrs as [|addr addrs IH]; intros data HQ; [done|].
    cbn [foldl]. by apply IH, Q_step. }
  destruct (_ && _).
  - destruct (AddrFromSStxPkScrCommitment pkScript); [|done].
    destruct (_ =? _)%nat; [done|]. by apply Hfold.
  - destruct (_ =? _)%nat; [done|]. by apply Hfold.
Qed.

Lemma indexInputs_inv (prevScripts : PrevScripter) (isTreasuryEnabled : bool)
    (t : Z) (data : writeIndexData) (txIns : list TxIn) :
  0 ≤ t → Q (t + 1) data →
  Q (t + 1)
    (indexInputs ExtractPkScriptAddrs AddrFromSStxPkScrCommitment prevScripts
       isTreasuryEnabled t data txIns).
Proof.
  intros Ht. unfold indexInputs. revert data.
  induction txIns as [|txIn txIns IH]; intros data HQ; [done|].
  cbn [foldl]. apply IH. destruct (prevScripts _) as [[version pkScript]|]; [|done].
  by apply indexPkScript_inv.
Qed.

Lemma indexOutputs_inv (isSStx isTreasuryEnabled : bool)
    (t : Z) (data : writeIndexData) (txOuts : list TxOut) :
  0 ≤ t → Q (t + 1) data →
  Q (t + 1)
    (indexOutputs ExtractPkScriptAddrs AddrFromSStxPkScrCommitment isSStx
       isTreasuryEnabled t data txOuts).
Proof.
  intros Ht. unfold indexOutputs. revert data.
  induction txOuts as [|txOut txOuts IH]; intros data HQ; [done|].
  cbn [foldl]. by apply IH, indexPkScript_inv.
Qed.

Lemma indexRegular_inv (prevScripts : PrevScripter) (isTreasuryEnabled : bool)
    (txs : list Tx) (t : Z) (data : writeIndexData) :
  0 ≤ t → Q t data →
  Q (t + Z.of_nat (length txs))
    (indexRegular ExtractPkScriptAddrs AddrFromSStxPkScrCommitment prevScripts
       isTreasuryEnabled t data txs).
Proof.
  revert t data. induction txs as [|tx txs IH]; intros t data Ht HQ.
  - cbn [indexRegular length]. by rewrite Z.add_0_r.
  - cbn [indexRegular length].
    replace (t + Z.of_nat (S (length txs))) with (t + 1 + Z.of_nat (length txs)) by lia.
    apply IH; [lia|]. apply indexOutputs_inv; [done|].
    destruct (negb _); [by apply indexInputs_inv, Q_mono|by apply Q_mono].
Qed.

Lemma indexStakeInputs_inv (prevScripts : PrevScripter) (isTreasuryEnabled : bool)
    (isSSGen isTreasuryBase isTSpend : bool) (t : Z) (txIns : list TxIn)
    (i : Z) (data : writeIndexData) :
  0 ≤ t → Q (t + 1) data →
  Q (t + 1)
    (indexStakeInputs ExtractPkScriptAddrs AddrFromSStxPkScrCommitment prevScripts
       isTreasuryEnabled isSSGen isTreasuryBase isTSpend t i data txIns).
Proof.
  intros Ht. revert i data.
  induction txIns as [|txIn txIns IH]; intros i data HQ; [done|].
  cbn [indexStakeInputs]. apply IH.
  destruct (_ && _); [done|]. destruct (_ || _); [done|].
  destruct (prevScripts _) as [[version pkScript]|]; [|done].
  by apply indexPkScript_inv.
Qed.

Lemma indexStake_inv (prevScripts : PrevScripter) (isTreasuryEnabled : bool)
    (numRegular : Z) (txs : list Tx) (t : Z) (data : writeIndexData) :
  0 ≤ t → 0 ≤ numRegular → Q (t + numRegular) data →
  Q (t + Z.of_nat (length txs) + numRegular)
    (indexStake ExtractPkScriptAddrs AddrFromSStxPkScrCommitment IsSSGen IsTreasuryBase
       IsTSpend IsSStx prevScripts isTreasuryEnabled numRegular t data txs).
Proof.
  revert t data. induction txs as [|tx txs IH]; intros t data Ht Hn HQ.
  - cbn [indexStake length]. by rewrite Z.add_0_r.
  - cbn [indexStake length].
    replace (t + Z.of_nat (S (length txs)) + numRegular)
      with (t + 1 + Z.of_nat (length txs) + numRegular) by lia.
    apply IH; [lia|done|].
    replace (t + 1 + numRegular) with (t + numRegular + 1) by lia.
    apply indexOutputs_inv; [lia|]. apply indexStakeInputs_inv; [lia|].
    apply Q_mono; [lia|done].
Qed.

Lemma indexBlock_inv (data : writeIndexData) (block : Block) (prevScripts : PrevScripter)
    (isTreasuryEnabled : bool) :
  Q 0 data →
  Q (Z.of_nat (length (Transactions block) + length (STransactions block)))
    (indexBlock ExtractPkScriptAddrs AddrFromSStxPkScrCommitment IsSSGen IsTreasuryBase
       IsTSpend IsSStx data block prevScripts isTreasuryEnabled).
Proof.
  intros HQ. unfold indexBlock.
  replace (Z.of_nat (length (Transactions block) + length (STransactions block)))
    with (0 + Z.of_nat (length (STransactions block)) +
          Z.of_nat (length (Transactions block))) by lia.
  apply indexStake_inv; [lia|lia|].
  pose proof (indexRegular_inv prevScripts isTreasuryEnabled (Transactions block) 0 data
                ltac:(lia) HQ) as H.
  by rewrite Z.add_0_l in *.
Qed.
End IndexerInvariant.

(** ** The lists of a block are ordered and in range *)

Lemma sorted_length (l : list Z) (lo hi : Z) :
  StronglySorted Z.lt l → (∀ y, y ∈ l → lo ≤ y < hi) → lo ≤ hi →
  Z.of_nat (length l) ≤ hi - lo.
Proof.
  revert lo. induction l as [|x l IH]; intros lo Hs Hr Hle; [cbn [length]; lia|].
  apply StronglySorted_cons in Hs as [Hx Hs]. rewrite Forall_forall in Hx.
  pose proof (Hr x ltac:(by left)).
  specialize (IH (x + 1) Hs). cbn [length].
  assert (Z.of_nat (length l) ≤ hi - (x + 1)); [|lia].
  apply IH; [|lia]. intros y Hy. specialize (Hx y Hy). specialize (Hr y ltac:(by right)).
  lia.
Qed.

Lemma ordered_below_mono (t t' : Z) (l : list Z) :
  t ≤ t' → ordered_below t l → ordered_below t' l.
Proof.
  intros Ht (Hs & Hne & Hr). split; [done|]. split; [done|].
  intros y Hy. specialize (Hr y Hy). lia.
Qed.

Lemma ordered_below_snoc (t : Z) (l : list Z) :
  0 ≤ t → (l = [] ∨ ordered_below (t + 1) l) → last l ≠ Some t →
  ordered_below (t + 1) (l ++ [t]).
Proof.
  intros Ht [->|(Hs & Hne & Hr)] Hlast.
  - split; [|split].
    + apply StronglySorted_cons. split; [by apply Forall_nil|constructor].
    + done.
    + intros y ->%list_elem_of_singleton. lia.
  - assert (Hlt : ∀ y, y ∈ l → y < t).
    { destruct (last l) as [x|] eqn:Hx; [|by apply last_None in Hx].
      apply last_Some in Hx as [l' ->]. intros y Hy.
      assert (x ≠ t) by congruence.
      assert (0 ≤ x < t + 1) by (apply Hr, elem_of_app; right; by left).
      apply elem_of_app in Hy as [Hy| ->%list_elem_of_singleton]; [|lia].
      pose proof (StronglySorted_app_1_elem_of _ l' [x] y x Hs Hy ltac:(by left)). lia. }
    split; [|split].
    + apply StronglySorted_app_2; [|done|].
      * intros y x Hy ->%list_elem_of_singleton. by apply Hlt.
      * apply StronglySorted_cons. split; [by apply Forall_nil|constructor].
    + by destruct l.
    + intros y [Hy| ->%list_elem_of_singleton]%elem_of_app; [by apply Hr|lia].
Qed.

Lemma indexAddr_ordered (t : Z) (data : writeIndexData) (addr : Address) :
  0 ≤ t →
  (∀ k l, data !! k = Some l → ordered_below (t + 1) l) →
  ∀ k l, indexAddr t data addr !! k = Some l → ordered_below (t + 1) l.
Proof.
  intros Ht Hall. unfold indexAddr. destruct (addrToKey addr) as [addrKey|]; [|done].
  destruct (_ && _) eqn:Hdup; [done|].
  intros k l. destruct (decide (k = addrKey)) as [->|Hne].
  - rewrite lookup_insert_eq. intros [= <-].
    apply ordered_below_snoc; [done| |].
    + destruct (data !! addrKey) as [l0|] eqn:Hl0; [right; by apply (Hall addrKey)|by left].
    + intros Hlast. apply andb_false_iff in Hdup as [Hlen|Hbd].
      * apply Z.ltb_ge in Hlen. pose proof (len_nonneg (default [] (data !! addrKey))).
        rewrite (len_0_nil (default [] (data !! addrKey))) in Hlast by lia. done.
      * by apply bool_decide_eq_false in Hbd.
  - rewrite lookup_insert_ne by done. apply Hall.
Qed.

Section IndexerOrder.
Variable ExtractPkScriptAddrs : Z → bytes → bool → ScriptClass * list Address * bool.
Variable AddrFromSStxPkScrCommitment : bytes → option Address.
Variable IsSSGen : MsgTx → bool → bool.
Variable IsTreasuryBase : MsgTx → bool.
Variable IsTSpend : MsgTx → bool.
Variable IsSStx : MsgTx → bool.

Lemma indexBlock_ordered_below (block : Block) (prevScripts : PrevScripter)
    (isTreasuryEnabled : bool) (addrKey : bytes) (txIdxs : list Z) :
  indexBlock ExtractPkScriptAddrs AddrFromSStxPkScrCommitment IsSSGen IsTreasuryBase
    IsTSpend IsSStx ∅ block prevScripts isTreasuryEnabled !! addrKey = Some txIdxs →
  ordered_below
    (Z.of_nat (length (Transactions block) + length (STransactions block))) txIdxs.
Proof.
  intros Hl.
  apply (indexBlock_inv ExtractPkScriptAddrs AddrFromSStxPkScrCommitment IsSSGen
           IsTreasuryBase IsTSpend IsSStx
           (λ t data, ∀ k l, data !! k = Some l → ordered_below t l)
           indexAddr_ordered
           (λ t data _ H k l Hk, ordered_below_mono t (t + 1) l ltac:(lia) (H k l Hk))
           ∅ block prevScripts isTreasuryEnabled) with (k := addrKey); [|done].
  intros k l Hk. by rewrite lookup_empty in Hk.
Qed.

(** X16. Every list [indexBlock] builds from the empty map is strictly
    increasing, is not empty, and holds positions of transactions of the
    block only, the stake transactions counted after the regular ones. *)
Theorem indexBlock_ordered_in_range (block : Block) (prevScripts : PrevScripter)
    (isTreasuryEnabled : bool) (addrKey : bytes) (txIdxs : list Z) :
  indexBlock ExtractPkScriptAddrs AddrFromSStxPkScrCommitment IsSSGen IsTreasuryBase
    IsTSpend IsSStx ∅ block prevScripts isTreasuryEnabled !! addrKey = Some txIdxs →
  StronglySorted Z.lt txIdxs ∧ txIdxs ≠ [] ∧
  ∀ t, t ∈ txIdxs →
       0 ≤ t < Z.of_nat (length (Transactions block) + length (STransactions block)).
Proof.
  intros Hl.
  destruct (indexBlock_ordered_below block prevScripts isTreasuryEnabled addrKey txIdxs Hl)
    as (Hsorted & Hne & Hrange).
  split; [exact Hsorted|]. split; [exact Hne|]. intros t Ht. exact (Hrange t Ht).
Qed.
End IndexerOrder.

Lemma indexBlock_ordered_in_range_witness :
  StronglySorted Z.lt [0; 1] ∧ [0; 1] ≠ [] ∧
  ∀ t, t ∈ [0; 1] →
       0 ≤ t < Z.of_nat (length (Transactions sampleBlock) +
                         length (STransactions sampleBlock)).
Proof.
  apply (indexBlock_ordered_in_range sampleExtract (λ _, None) (λ _ _, false) (λ _, false)
           (λ _, false) (λ _, false) sampleBlock (λ _, None) false
           (addrKeyTypeScriptHash :: sampleScript) [0; 1]).
  vm_compute. reflexivity.
Defined.

(** ** Every address of a script is recorded *)

Lemma indexAddr_keeps (t t0 : Z) (data : writeIndexData) (addr : Address) (k : bytes) :
  has_index data k t0 → has_index (indexAddr t data addr) k t0.
Proof.
  intros (l & Hl & Hin). unfold indexAddr.
  destruct (addrToKey addr) as [addrKey|]; [|by exists l].
  destruct (_ && _); [by exists l|].
  destruct (decide (k = addrKey)) as [->|Hne].
  - exists (l ++ [t]). rewrite lookup_insert_eq, Hl. split; [done|].
    apply elem_of_app. by left.
  - exists l. by rewrite lookup_insert_ne.
Qed.

Lemma indexAddr_records (t : Z) (data : writeIndexData) (addr : Address) (k : bytes) :
  addrToKey addr = Some k → has_index (indexAddr t data addr) k t.
Proof.
  intros Hk. unfold indexAddr. rewrite Hk.
  destruct (_ && _) eqn:Hdup.
  - apply andb_true_iff in Hdup as [Hlen Hlast]. apply bool_decide_eq_true in Hlast.
    destruct (data !! k) as [l|] eqn:Hl; [|done].
    exists l. split; [done|]. by apply last_Some_elem_of.
  - eexists. rewrite lookup_insert_eq. split; [done|]. apply elem_of_app. right. by left.
Qed.

Lemma foldl_indexAddr_keeps (t t0 : Z) (addrs : list Address) (data : writeIndexData)
    (k : bytes) :
  has_index data k t0 → has_index (foldl (indexAddr t) data addrs) k t0.
Proof.
  revert data. induction addrs as [|addr addrs IH]; intros data H; [done|].
  cbn [foldl]. by apply IH, indexAddr_keeps.
Qed.

Lemma foldl_indexAddr_records (t : Z) (addrs : list Address) (data : writeIndexData)
    (addr : Address) (k : bytes) :
  addr ∈ addrs → addrToKey addr = Some k →
  has_index (foldl (indexAddr t) data addrs) k t.
Proof.
  intros Hin Hk. revert data. induction addrs as [|addr' addrs IH]; intros data.
  - by apply elem_of_nil in Hin.
  - cbn [foldl]. apply elem_of_cons in Hin as [<-|Hin].
    + by apply foldl_indexAddr_keeps, indexAddr_records.
    + by apply IH.
Qed.

Section IndexerComplete.
Variable ExtractPkScriptAddrs : Z → bytes → bool → ScriptClass * list Address * bool.
Variable AddrFromSStxPkScrCommitment : bytes → option Address.
Variable IsSSGen : MsgTx → bool → bool.
Variable IsTreasuryBase : MsgTx → bool.
Variable IsTSpend : MsgTx → bool.
Variable IsSStx : MsgTx → bool.

Lemma indexPkScript_records (t : Z) (data : writeIndexData) (version : Z)
    (pkScript : bytes) (isTreasuryEnabled : bool) (class : ScriptClass)
    (addrs : list Address) (addr : Address) (k : bytes) :
  ExtractPkScriptAddrs version pkScript isTreasuryEnabled = (class, addrs, false) →
  addr ∈ addrs → addrToKey addr = Some k →
  has_index
    (indexPkScript ExtractPkScriptAddrs AddrFromSStxPkScrCommitment data version pkScript
       t false isTreasuryEnabled) k t.
Proof.
  intros Hex Hin Hk. unfold indexPkScript. rewrite Hex. cbn [andb].
  destruct addrs as [|addr0 addrs]; [by apply elem_of_nil in Hin|].
  cbn [length Nat.eqb]. by apply (foldl_indexAddr_records t _ data addr k).
Qed.

(** The index of a visited transaction stays recorded to the end. *)
Let keeps (k : bytes) (t0 : Z) : Z → writeIndexData → Prop :=
  λ _ data, has_index data k t0.

Lemma indexOutputs_records (isTreasuryEnabled : bool) (t : Z) (txOuts : list TxOut)
    (data : writeIndexData) (txOut : TxOut) (class : ScriptClass)
    (addrs : list Address) (addr : Address) (k : bytes) :
  0 ≤ t → txOut ∈ txOuts →
  ExtractPkScriptAddrs (Version txOut) (PkScript txOut) isTreasuryEnabled
    = (class, addrs, false) →
  addr ∈ addrs → addrToKey addr = Some k →
  has_index
    (indexOutputs ExtractPkScriptAddrs AddrFromSStxPkScrCommitment false
       isTreasuryEnabled t data txOuts) k t.
Proof.
  intros Ht Hout Hex Hin Hk. revert data.
  induction txOuts as [|o outs IH]; intros data; [by apply elem_of_nil in Hout|].
  unfold indexOutputs. cbn [foldl]. apply elem_of_cons in Hout as [<-|Hout].
  - apply (indexOutputs_inv ExtractPkScriptAddrs AddrFromSStxPkScrCommitment
             (keeps k t)
             (λ t' data' addr' _ H, indexAddr_keeps t' t data' addr' k H)
             false isTreasuryEnabled t _ outs Ht).
    unfold keeps. by apply (indexPkScript_records t data _ _ _ class addrs addr k).
  - by apply IH.
Qed.

Lemma indexInputs_records (prevScripts : PrevScripter) (isTreasuryEnabled : bool)
    (t : Z) (txIns : list TxIn) (data : writeIndexData) (txIn : TxIn)
    (version : Z) (pkScript : bytes) (class : ScriptClass)
    (addrs : list Address) (addr : Address) (k : bytes) :
  0 ≤ t → txIn ∈ txIns →
  prevScripts (PreviousOutPoint txIn) = Some (version, pkScript) →
  ExtractPkScriptAddrs version pkScript isTreasuryEnabled = (class, addrs, false) →
  addr ∈ addrs → addrToKey addr = Some k →
  has_index
    (indexInputs ExtractPkScriptAddrs AddrFromSStxPkScrCommitment prevScripts
       isTreasuryEnabled t data txIns) k t.
Proof.
  intros Ht Htin Hps Hex Hin Hk. revert data.
  induction txIns as [|i0 ins IH]; intros data; [by apply elem_of_nil in Htin|].
  unfold indexInputs. cbn [foldl]. apply elem_of_cons in Htin as [<-|Htin].
  - rewrite Hps.
    apply (indexInputs_inv ExtractPkScriptAddrs AddrFromSStxPkScrCommitment
             (keeps k t)
             (λ t' data' addr' _ H, indexAddr_keeps t' t data' addr' k H)
             prevScripts isTreasuryEnabled t _ ins Ht).
    unfold keeps. by apply (indexPkScript_records t data _ _ _ class addrs addr k).
  - by apply IH.
Qed.

Lemma indexRegular_records (prevScripts : PrevScripter) (isTreasuryEnabled : bool)
    (txs : list Tx) (t : Z) (data : writeIndexData) (i : nat) (tx : Tx)
    (version : Z) (pkScript : bytes) (class : ScriptClass) (addrs : list Address)
    (addr : Address) (k : bytes) :
  0 ≤ t → txs !! i = Some tx →
  (∃ txOut, txOut ∈ MsgTxOut (TxMsg tx) ∧
            version = Version txOut ∧ pkScript = PkScript txOut) ∨
  (t + Z.of_nat i ≠ 0 ∧
   ∃ txIn, txIn ∈ MsgTxIn (TxMsg tx) ∧
           prevScripts (PreviousOutPoint txIn) = Some (version, pkScript)) →
  ExtractPkScriptAddrs version pkScript isTreasuryEnabled = (class, addrs, false) →
  addr ∈ addrs → addrToKey addr = Some k →
  has_index
    (indexRegular ExtractPkScriptAddrs AddrFromSStxPkScrCommitment prevScripts
       isTreasuryEnabled t data txs) k (t + Z.of_nat i).
Proof.
  intros Ht Htx Hscript Hex Hin Hk. revert t data i Ht Htx Hscript.
  induction txs as [|tx0 txs IH]; intros t data i Ht Htx Hscript; [done|].
  cbn [indexRegular]. destruct i as [|i].
  - injection Htx as ->. rewrite Z.add_0_r in *.
    apply (indexRegular_inv ExtractPkScriptAddrs AddrFromSStxPkScrCommitment
             (keeps k t)
             (λ t' data' addr' _ H, indexAddr_keeps t' t data' addr' k H)
             (λ _ _ _ H, H) prevScripts isTreasuryEnabled txs (t + 1)); [lia|].
    unfold keeps. destruct Hscript as [(txOut & Hout & -> & ->)|(Hne & txIn & Htin & Hps)].
    + by apply (indexOutputs_records isTreasuryEnabled t _ _ txOut class addrs addr k).
    + destruct (Z.eqb_spec t 0) as [->|_]; [done|]. cbn [negb].
      apply (indexOutputs_inv ExtractPkScriptAddrs AddrFromSStxPkScrCommitment
               (keeps k t)
               (λ t' data' addr' _ H, indexAddr_keeps t' t data' addr' k H)
               false isTreasuryEnabled t _ (MsgTxOut (TxMsg tx)) Ht).
      unfold keeps.
      by apply (indexInputs_records prevScripts isTreasuryEnabled t _ data txIn version
                  pkScript class addrs addr k).
  - replace (t + Z.of_nat (S i)) with (t + 1 + Z.of_nat i) by lia.
    apply IH; [lia|done|].
    destruct Hscript as [?|[Hne ?]]; [by left|right]. split; [lia|done].
Qed.

(** X17. [indexBlock] records the position of a regular transaction under
    the key of every supported address that the extraction returns, without
    error, for the script of one of its outputs or, unless the transaction
    is the coinbase, for the script the scripter gives for one of its
    inputs. *)
Theorem indexBlock_records_regular_scripts (block : Block) (prevScripts : PrevScripter)
    (isTreasuryEnabled : bool) (i : nat) (tx : Tx) (version : Z) (pkScript : bytes)
    (class : ScriptClass) (addrs : list Address) (addr : Address) (addrKey : bytes) :
  Transactions block !! i = Some tx →
  regular_script prevScripts i tx version pkScript →
  ExtractPkScriptAddrs version pkScript isTreasuryEnabled = (class, addrs, false) →
  addr ∈ addrs → addrToKey addr = Some addrKey →
  ∃ txIdxs,
    indexBlock ExtractPkScriptAddrs AddrFromSStxPkScrCommitment IsSSGen IsTreasuryBase
      IsTSpend IsSStx ∅ block prevScripts isTreasuryEnabled !! addrKey = Some txIdxs ∧
    Z.of_nat i ∈ txIdxs.
Proof.
  intros Htx Hscript Hex Hin Hk. unfold indexBlock.
  pose proof (indexStake_inv ExtractPkScriptAddrs AddrFromSStxPkScrCommitment IsSSGen
             IsTreasuryBase IsTSpend IsSStx (keeps addrKey (Z.of_nat i))
             (λ t' data' addr' _ H, indexAddr_keeps t' (Z.of_nat i) data' addr' addrKey H)
             (λ _ _ _ H, H) prevScripts isTreasuryEnabled
             (Z.of_nat (length (Transactions block))) (STransactions block) 0
             (indexRegular ExtractPkScriptAddrs AddrFromSStxPkScrCommitment prevScripts
                isTreasuryEnabled 0 ∅ (Transactions block))
             ltac:(lia) ltac:(lia)) as Hkeep.
  apply Hkeep. unfold keeps.
  pose proof (indexRegular_records prevScripts isTreasuryEnabled (Transactions block) 0 ∅
                i tx version pkScript class addrs addr addrKey ltac:(lia) Htx) as Hrec.
  rewrite Z.add_0_l in Hrec. apply Hrec; [|done..].
  destruct Hscript as [?|[Hne ?]]; [by left|right]. split; [lia|done].
Qed.

Lemma indexPkScript_records_flag (t : Z) (data : writeIndexData) (version : Z)
    (pkScript : bytes) (isSStx isTreasuryEnabled : bool) (addr : Address) (k : bytes) :
  script_address ExtractPkScriptAddrs AddrFromSStxPkScrCommitment version pkScript isSStx
    isTreasuryEnabled addr →
  addrToKey addr = Some k →
  has_index
    (indexPkScript ExtractPkScriptAddrs AddrFromSStxPkScrCommitment data version pkScript
       t isSStx isTreasuryEnabled) k t.
Proof.
  intros (class & addrs & Hex & Haddr) Hk. unfold indexPkScript. rewrite Hex.
  destruct (isSStx && isNullDataTy class).
  - destruct Haddr as (c & -> & Hin).
    destruct (addrs ++ [c]) as [|addr0 l] eqn:Hl; [by apply elem_of_nil in Hin|].
    cbn [length Nat.eqb]. by apply (foldl_indexAddr_records t _ data addr k).
  - destruct addrs as [|addr0 l]; [by apply elem_of_nil in Haddr|].
    cbn [length Nat.eqb]. by apply (foldl_indexAddr_records t _ data addr k).
Qed.

Lemma indexOutputs_records_flag (isSStx isTreasuryEnabled : bool) (t : Z)
    (txOuts : list TxOut) (data : writeIndexData) (txOut : TxOut)
    (addr : Address) (k : bytes) :
  0 ≤ t → txOut ∈ txOuts →
  script_address ExtractPkScriptAddrs AddrFromSStxPkScrCommitment (Version txOut)
    (PkScript txOut) isSStx isTreasuryEnabled addr →
  addrToKey addr = Some k →
  has_index
    (indexOutputs ExtractPkScriptAddrs AddrFromSStxPkScrCommitment isSStx
       isTreasuryEnabled t data txOuts) k t.
Proof.
  intros Ht Hout Haddr Hk. revert data.
  induction txOuts as [|o outs IH]; intros data; [by apply elem_of_nil in Hout|].
  unfold indexOutputs. cbn [foldl]. apply elem_of_cons in Hout as [<-|Hout].
  - apply (indexOutputs_inv ExtractPkScriptAddrs AddrFromSStxPkScrCommitment
             (keeps k t)
             (λ t' data' addr' _ H, indexAddr_keeps t' t data' addr' k H)
             isSStx isTreasuryEnabled t _ outs Ht).
    unfold keeps. by apply (indexPkScript_records_flag t data _ _ _ _ addr k).
  - by apply IH.
Qed.

Lemma indexStakeInputs_records (prevScripts : PrevScripter) (isTreasuryEnabled : bool)
    (isSSGen : bool) (t : Z) (txIns : list TxIn) (i0 : Z) (data : writeIndexData)
    (j : nat) (txIn : TxIn) (version : Z) (pkScript : bytes) (addr : Address)
    (k : bytes) :
  0 ≤ t → 0 ≤ i0 → txIns !! j = Some txIn →
  ¬ (isSSGen = true ∧ i0 + Z.of_nat j = 0) →
  prevScripts (PreviousOutPoint txIn) = Some (version, pkScript) →
  script_address ExtractPkScriptAddrs AddrFromSStxPkScrCommitment version pkScript false
    isTreasuryEnabled addr →
  addrToKey addr = Some k →
  has_index
    (indexStakeInputs ExtractPkScriptAddrs AddrFromSStxPkScrCommitment prevScripts
       isTreasuryEnabled isSSGen false false t i0 data txIns) k t.
Proof.
  intros Ht Hi0 Hj Hgen Hps Haddr Hk. revert i0 data j Hi0 Hj Hgen.
  induction txIns as [|txIn0 txIns IH]; intros i0 data j Hi0 Hj Hgen; [done|].
  cbn [indexStakeInputs]. destruct j as [|j].
  - injection Hj as ->. rewrite Z.add_0_r in Hgen.
    apply (indexStakeInputs_inv ExtractPkScriptAddrs AddrFromSStxPkScrCommitment
             (keeps k t)
             (λ t' data' addr' _ H, indexAddr_keeps t' t data' addr' k H)
             prevScripts isTreasuryEnabled isSSGen false false t txIns (i0 + 1) _ Ht).
    unfold keeps.
    assert (Hskip : isSSGen && (i0 =? 0) = false).
    { destruct isSSGen; [|done]. cbn [andb]. apply Z.eqb_neq. intros ->. by apply Hgen. }
    rewrite Hskip. cbn [orb]. rewrite Hps.
    by apply (indexPkScript_records_flag t data _ _ _ _ addr k).
  - apply (IH (i0 + 1) _ j); [lia|done|].
    intros [Hg Hz]. apply Hgen. split; [done|lia].
Qed.

Lemma indexStake_records (prevScripts : PrevScripter) (isTreasuryEnabled : bool)
    (numRegular : Z) (txs : list Tx) (t : Z) (data : writeIndexData) (i : nat) (tx : Tx)
    (version : Z) (pkScript : bytes) (isSStx : bool) (addr : Address) (k : bytes) :
  0 ≤ t → 0 ≤ numRegular → txs !! i = Some tx →
  stake_script IsSSGen IsTreasuryBase IsTSpend IsSStx prevScripts isTreasuryEnabled tx
    version pkScript isSStx →
  script_address ExtractPkScriptAddrs AddrFromSStxPkScrCommitment version pkScript isSStx
    isTreasuryEnabled addr →
  addrToKey addr = Some k →
  has_index
    (indexStake ExtractPkScriptAddrs AddrFromSStxPkScrCommitment IsSSGen IsTreasuryBase
       IsTSpend IsSStx prevScripts isTreasuryEnabled numRegular t data txs)
    k (t + Z.of_nat i + numRegular).
Proof.
  intros Ht Hn Htx Hscript Haddr Hk. revert t data i Ht Htx.
  induction txs as [|tx0 txs IH]; intros t data i Ht Htx; [done|].
  cbn [indexStake]. destruct i as [|i].
  - injection Htx as ->. rewrite Z.add_0_r.
    pose proof (indexStake_inv ExtractPkScriptAddrs AddrFromSStxPkScrCommitment IsSSGen
             IsTreasuryBase IsTSpend IsSStx (keeps k (t + numRegular))
             (λ t' data' addr' _ H, indexAddr_keeps t' (t + numRegular) data' addr' k H)
             (λ _ _ _ H, H) prevScripts isTreasuryEnabled numRegular txs (t + 1)) as Hkeep.
    apply Hkeep; [lia|done|]. unfold keeps. clear Hkeep.
    destruct Hscript as [(txOut & Hout & -> & -> & ->)|
                         (-> & Hbase & Hspend & j & txIn & Hj & Hgen & Hps)].
    + by apply (indexOutputs_records_flag _ _ _ _ _ txOut addr k); [lia|..].
    + apply (indexOutputs_inv ExtractPkScriptAddrs AddrFromSStxPkScrCommitment
               (keeps k (t + numRegular))
               (λ t' data' addr' _ H, indexAddr_keeps t' (t + numRegular) data' addr' k H)
               _ isTreasuryEnabled (t + numRegular) _ (MsgTxOut (TxMsg tx)) ltac:(lia)).
      unfold keeps. rewrite Hspend, Hbase.
      apply (indexStakeInputs_records prevScripts isTreasuryEnabled _ (t + numRegular)
               (MsgTxIn (TxMsg tx)) 0 data j txIn version pkScript addr k);
        [lia|lia|done| |done..].
      intros [Hg Hz]. apply Hgen. split; [done|lia].
  - replace (t + Z.of_nat (S i) + numRegular) with (t + 1 + Z.of_nat i + numRegular) by lia.
    apply IH; [lia|done].
Qed.

(** X18. [indexBlock] records the position of a stake transaction, counted
    after the regular ones, under the key of every supported address of the
    scripts it reads for the transaction. *)
Theorem indexBlock_records_stake_scripts (block : Block) (prevScripts : PrevScripter)
    (isTreasuryEnabled : bool) (i : nat) (tx : Tx) (version : Z) (pkScript : bytes)
    (isSStx : bool) (addr : Address) (addrKey : bytes) :
  STransactions block !! i = Some tx →
  stake_script IsSSGen IsTreasuryBase IsTSpend IsSStx prevScripts isTreasuryEnabled tx
    version pkScript isSStx →
  script_address ExtractPkScriptAddrs AddrFromSStxPkScrCommitment version pkScript isSStx
    isTreasuryEnabled addr →
  addrToKey addr = Some addrKey →
  ∃ txIdxs,
    indexBlock ExtractPkScriptAddrs AddrFromSStxPkScrCommitment IsSSGen IsTreasuryBase
      IsTSpend IsSStx ∅ block prevScripts isTreasuryEnabled !! addrKey = Some txIdxs ∧
    Z.of_nat (length (Transactions block) + i) ∈ txIdxs.
Proof.
  intros Htx Hscript Haddr Hk. unfold indexBlock.
  pose proof (indexStake_records prevScripts isTreasuryEnabled
                (Z.of_nat (length (Transactions block))) (STransactions block) 0
                (indexRegular ExtractPkScriptAddrs AddrFromSStxPkScrCommitment prevScripts
                   isTreasuryEnabled 0 ∅ (Transactions block))
                i tx version pkScript isSStx addr addrKey ltac:(lia) ltac:(lia) Htx
                Hscript Haddr Hk) as Hrec.
  by replace (0 + Z.of_nat i + Z.of_nat (length (Transactions block)))
    with (Z.of_nat (length (Transactions block) + i)) in Hrec by lia.
Qed.
End IndexerComplete.

(** ** Nothing but the addresses of the scripts is recorded *)

Lemma indexAddr_only (t t0 : Z) (data : writeIndexData) (addr : Address) (k : bytes) :
  has_index (indexAddr t data addr) k t0 →
  has_index data k t0 ∨ (t0 = t ∧ addrToKey addr = Some k).
Proof.
  unfold indexAddr. destruct (addrToKey addr) as [addrKey|] eqn:Hkey; [|by left].
  destruct (_ && _); [by left|].
  intros (l & Hl & Hin). destruct (decide (k = addrKey)) as [Heq|Hne].
  - subst k. rewrite lookup_insert_eq in Hl. injection Hl as <-.
    apply elem_of_app in Hin as [Hin|Hin]; [|apply list_elem_of_singleton in Hin; by right].
    left. destruct (data !! addrKey) as [l0|] eqn:Hl0; simpl in Hin.
    + exists l0. by rewrite Hl0.
    + by apply elem_of_nil in Hin.
  - rewrite lookup_insert_ne in Hl by done. left. by exists l.
Qed.

Lemma foldl_indexAddr_only (t t0 : Z) (addrs : list Address) (data : writeIndexData)
    (k : bytes) :
  has_index (foldl (indexAddr t) data addrs) k t0 →
  has_index data k t0 ∨ (t0 = t ∧ ∃ addr, addr ∈ addrs ∧ addrToKey addr = Some k).
Proof.
  revert data. induction addrs as [|addr addrs IH]; intros data H; [by left|].
  cbn [foldl] in H. destruct (IH _ H) as [Hold|(-> & addr' & Hin & Hk)].
  - destruct (indexAddr_only t t0 data addr k Hold) as [?|[-> Hk]]; [by left|].
    right. split; [done|]. exists addr. split; [by left|done].
  - right. split; [done|]. exists addr'. split; [by right|done].
Qed.

Section IndexerSound.
Variable ExtractPkScriptAddrs : Z → bytes → bool → ScriptClass * list Address * bool.
Variable AddrFromSStxPkScrCommitment : bytes → option Address.
Variable IsSSGen : MsgTx → bool → bool.
Variable IsTreasuryBase : MsgTx → bool.
Variable IsTSpend : MsgTx → bool.
Variable IsSStx : MsgTx → bool.

Lemma indexPkScript_only (t t0 : Z) (data : writeIndexData) (version : Z)
    (pkScript : bytes) (isSStx isTreasuryEnabled : bool) (k : bytes) :
  has_index
    (indexPkScript ExtractPkScriptAddrs AddrFromSStxPkScrCommitment data version pkScript
       t isSStx isTreasuryEnabled) k t0 →
  has_index data k t0 ∨
  (t0 = t ∧
   ∃ addr, script_address ExtractPkScriptAddrs AddrFromSStxPkScrCommitment version
             pkScript isSStx isTreasuryEnabled addr ∧
           addrToKey addr = Some k).
Proof.
  unfold indexPkScript, script_address.
  destruct (ExtractPkScriptAddrs _ _ _) as [[class addrs] err].
  destruct err; [by left|].
  destruct (isSStx && isNullDataTy class) eqn:Hflag.
  - destruct (AddrFromSStxPkScrCommitment pkScript) as [c|]; [|by left].
    destruct (_ =? _)%nat; [by left|]. intros H.
    destruct (foldl_indexAddr_only t t0 _ data k H) as [?|(-> & addr & Hin & Hk)];
      [by left|].
    right. split; [done|]. exists addr. split; [|done].
    exists class, addrs. split; [done|]. rewrite Hflag. by exists c.
  - destruct (_ =? _)%nat; [by left|]. intros H.
    destruct (foldl_indexAddr_only t t0 _ data k H) as [?|(-> & addr & Hin & Hk)];
      [by left|].
    right. split; [done|]. exists addr. split; [|done].
    exists class, addrs. split; [done|]. by rewrite Hflag.
Qed.

Lemma indexOutputs_only (isSStx isTreasuryEnabled : bool) (t t0 : Z)
    (txOuts : list TxOut) (data : writeIndexData) (k : bytes) :
  has_index
    (indexOutputs ExtractPkScriptAddrs AddrFromSStxPkScrCommitment isSStx
       isTreasuryEnabled t data txOuts) k t0 →
  has_index data k t0 ∨
  (t0 = t ∧
   ∃ txOut addr, txOut ∈ txOuts ∧
     script_address ExtractPkScriptAddrs AddrFromSStxPkScrCommitment (Version txOut)
       (PkScript txOut) isSStx isTreasuryEnabled addr ∧
     addrToKey addr = Some k).
Proof.
  unfold indexOutputs. revert data.
  induction txOuts as [|o outs IH]; intros data H; [by left|].
  cbn [foldl] in H. destruct (IH _ H) as [Hold|(-> & txOut & addr & Hin & Ha & Hk)].
  - destruct (indexPkScript_only _ _ _ _ _ _ _ _ Hold) as [?|(-> & addr & Ha & Hk)];
      [by left|].
    right. split; [done|]. exists o, addr. split; [by left|done].
  - right. split; [done|]. exists txOut, addr. split; [by right|done].
Qed.

Lemma indexInputs_only (prevScripts : PrevScripter) (isTreasuryEnabled : bool)
    (t t0 : Z) (txIns : list TxIn) (data : writeIndexData) (k : bytes) :
  has_index
    (indexInputs ExtractPkScriptAddrs AddrFromSStxPkScrCommitment prevScripts
       isTreasuryEnabled t data txIns) k t0 →
  has_index data k t0 ∨
  (t0 = t ∧
   ∃ txIn version pkScript addr, txIn ∈ txIns ∧
     prevScripts (PreviousOutPoint txIn) = Some (version, pkScript) ∧
     script_address ExtractPkScriptAddrs AddrFromSStxPkScrCommitment version pkScript
       false isTreasuryEnabled addr ∧
     addrToKey addr = Some k).
Proof.
  unfold indexInputs. revert data.
  induction txIns as [|i0 ins IH]; intros data H; [by left|].
  cbn [foldl] in H.
  destruct (IH _ H) as [Hold|(-> & txIn & v & s & addr & Hin & Hps & Ha & Hk)].
  - destruct (prevScripts (PreviousOutPoint i0)) as [[version pkScript]|] eqn:Hps;
      [|by left].
    destruct (indexPkScript_only _ _ _ _ _ _ _ _ Hold) as [?|(-> & addr & Ha & Hk)];
      [by left|].
    right. split; [done|]. exists i0, version, pkScript, addr. split; [by left|done].
  - right. split; [done|]. exists txIn, v, s, addr. split; [by right|done].
Qed.

Lemma indexRegular_only (prevScripts : PrevScripter) (isTreasuryEnabled : bool)
    (txs : list Tx) (t t0 : Z) (data : writeIndexData) (k : bytes) :
  0 ≤ t →
  has_index
    (indexRegular ExtractPkScriptAddrs AddrFromSStxPkScrCommitment prevScripts
       isTreasuryEnabled t data txs) k t0 →
  has_index data k t0 ∨
  ∃ (i : nat) tx version pkScript addr,
    txs !! i = Some tx ∧ t0 = t + Z.of_nat i ∧
    ((∃ txOut, txOut ∈ MsgTxOut (TxMsg tx) ∧
               version = Version txOut ∧ pkScript = PkScript txOut) ∨
     (t + Z.of_nat i ≠ 0 ∧
      ∃ txIn, txIn ∈ MsgTxIn (TxMsg tx) ∧
              prevScripts (PreviousOutPoint txIn) = Some (version, pkScript))) ∧
    script_address ExtractPkScriptAddrs AddrFromSStxPkScrCommitment version pkScript
      false isTreasuryEnabled addr ∧
    addrToKey addr = Some k.
Proof.
  revert t data. induction txs as [|tx txs IH]; intros t data Ht H; [by left|].
  cbn [indexRegular] in H.
  destruct (IH (t + 1) _ ltac:(lia) H)
    as [Hold|(i & tx' & v & s & addr & Hi & -> & Hscript & Ha & Hk)].
  - destruct (indexOutputs_only _ _ _ _ _ _ _ Hold)
      as [Hold'|(-> & txOut & addr & Hin & Ha & Hk)].
    + destruct (Z.eqb_spec t 0) as [->|Hne]; cbn [negb] in Hold'; [by left|].
      destruct (indexInputs_only _ _ _ _ _ _ _ Hold')
        as [?|(-> & txIn & v & s & addr & Hin & Hps & Ha & Hk)]; [by left|].
      right. exists 0%nat, tx, v, s, addr. split; [done|]. split; [lia|].
      split; [|done]. right. split; [lia|]. by exists txIn.
    + right. exists 0%nat, tx, (Version txOut), (PkScript txOut), addr.
      split; [done|]. split; [lia|]. split; [|done]. left. by exists txOut.
  - right. exists (S i), tx', v, s, addr. split; [done|]. split; [lia|].
    split; [|done]. destruct Hscript as [?|[Hne ?]]; [by left|right].
    split; [lia|done].
Qed.

Lemma indexStakeInputs_only (prevScripts : PrevScripter) (isTreasuryEnabled : bool)
    (isSSGen isTreasuryBase isTSpend : bool) (t t0 : Z) (txIns : list TxIn) (i0 : Z)
    (data : writeIndexData) (k : bytes) :
  0 ≤ i0 →
  has_index
    (indexStakeInputs ExtractPkScriptAddrs AddrFromSStxPkScrCommitment prevScripts
       isTreasuryEnabled isSSGen isTreasuryBase isTSpend t i0 data txIns) k t0 →
  has_index data k t0 ∨
  (t0 = t ∧ isTreasuryBase = false ∧ isTSpend = false ∧
   ∃ (j : nat) txIn version pkScript addr,
     txIns !! j = Some txIn ∧ ¬ (isSSGen = true ∧ i0 + Z.of_nat j = 0) ∧
     prevScripts (PreviousOutPoint txIn) = Some (version, pkScript) ∧
     script_address ExtractPkScriptAddrs AddrFromSStxPkScrCommitment version pkScript
       false isTreasuryEnabled addr ∧
     addrToKey addr = Some k).
Proof.
  revert i0 data. induction txIns as [|txIn txIns IH]; intros i0 data Hi0 H; [by left|].
  cbn [indexStakeInputs] in H.
  destruct (IH (i0 + 1) _ ltac:(lia) H)
    as [Hold|(-> & Hb & Hs & j & txIn' & v & s & addr & Hj & Hgen & Hps & Ha & Hk)].
  - destruct (isSSGen && (i0 =? 0)) eqn:Hskip; [by left|].
    destruct (isTreasuryBase || isTSpend) eqn:Htre; [by left|].
    apply orb_false_iff in Htre as [-> ->].
    destruct (prevScripts (PreviousOutPoint txIn)) as [[version pkScript]|] eqn:Hps;
      [|by left].
    destruct (indexPkScript_only _ _ _ _ _ _ _ _ Hold) as [?|(-> & addr & Ha & Hk)];
      [by left|].
    right. split; [done|]. split; [done|]. split; [done|].
    exists 0%nat, txIn, version, pkScript, addr. split; [done|]. split; [|done].
    intros [-> Hz]. cbn [andb] in Hskip. apply Z.eqb_neq in Hskip. lia.
  - right. split; [done|]. split; [done|]. split; [done|].
    exists (S j), txIn', v, s, addr. split; [done|]. split; [|done].
    intros [Hg Hz]. apply Hgen. split; [done|lia].
Qed.

Lemma indexStake_only (prevScripts : PrevScripter) (isTreasuryEnabled : bool)
    (numRegular : Z) (txs : list Tx) (t t0 : Z) (data : writeIndexData) (k : bytes) :
  has_index
    (indexStake ExtractPkScriptAddrs AddrFromSStxPkScrCommitment IsSSGen IsTreasuryBase
       IsTSpend IsSStx prevScripts isTreasuryEnabled numRegular t data txs) k t0 →
  has_index data k t0 ∨
  ∃ (i : nat) tx version pkScript isSStx addr,
    txs !! i = Some tx ∧ t0 = t + Z.of_nat i + numRegular ∧
    stake_script IsSSGen IsTreasuryBase IsTSpend IsSStx prevScripts isTreasuryEnabled tx
      version pkScript isSStx ∧
    script_address ExtractPkScriptAddrs AddrFromSStxPkScrCommitment version pkScript
      isSStx isTreasuryEnabled addr ∧
    addrToKey addr = Some k.
Proof.
  revert t data. induction txs as [|tx txs IH]; intros t data H; [by left|].
  cbn [indexStake] in H.
  destruct (IH (t + 1) _ H)
    as [Hold|(i & tx' & v & s & f & addr & Hi & -> & Hscript & Ha & Hk)].
  - destruct (indexOutputs_only _ _ _ _ _ _ _ Hold)
      as [Hold'|(-> & txOut & addr & Hin & Ha & Hk)].
    + destruct (indexStakeInputs_only _ _ _ _ _ _ _ _ 0 _ _ ltac:(lia) Hold')
        as [?|(-> & Hb & Hs & j & txIn & v & s & addr & Hj & Hgen & Hps & Ha & Hk)];
        [by left|].
      right. exists 0%nat, tx, v, s, false, addr. split; [done|]. split; [lia|].
      split; [|done]. right. split; [done|]. split; [done|]. split; [done|].
      exists j, txIn. split; [done|]. split; [|done].
      intros [Hg ->]. apply Hgen. split; [done|lia].
    + right. exists 0%nat, tx, (Version txOut), (PkScript txOut), (IsSStx (TxMsg tx)), addr.
      split; [done|]. split; [lia|]. split; [|done]. left. by exists txOut.
  - right. exists (S i), tx', v, s, f, addr. split; [done|]. split; [lia|]. done.
Qed.

(** X19. [indexBlock] records nothing else: a position listed under a key is
    the position of a regular or of a stake transaction for which it reads
    a script with an address of that key. *)
Theorem indexBlock_records_only_scripts (block : Block) (prevScripts : PrevScripter)
    (isTreasuryEnabled : bool) (addrKey : bytes) (txIdxs : list Z) (t : Z) :
  indexBlock ExtractPkScriptAddrs AddrFromSStxPkScrCommitment IsSSGen IsTreasuryBase
    IsTSpend IsSStx ∅ block prevScripts isTreasuryEnabled !! addrKey = Some txIdxs →
  t ∈ txIdxs →
  (∃ (i : nat) tx version pkScript addr,
     Transactions block !! i = Some tx ∧ t = Z.of_nat i ∧
     regular_script prevScripts i tx version pkScript ∧
     script_address ExtractPkScriptAddrs AddrFromSStxPkScrCommitment version pkScript
       false isTreasuryEnabled addr ∧
     addrToKey addr = Some addrKey) ∨
  (∃ (i : nat) tx version pkScript isSStx addr,
     STransactions block !! i = Some tx ∧
     t = Z.of_nat (length (Transactions block) + i) ∧
     stake_script IsSSGen IsTreasuryBase IsTSpend IsSStx prevScripts isTreasuryEnabled tx
       version pkScript isSStx ∧
     script_address ExtractPkScriptAddrs AddrFromSStxPkScrCommitment version pkScript
       isSStx isTreasuryEnabled addr ∧
     addrToKey addr = Some addrKey).
Proof.
  intros Hl Hin. unfold indexBlock in Hl.
  destruct (indexStake_only prevScripts isTreasuryEnabled _ _ 0 t _ addrKey
              ltac:(by exists txIdxs))
    as [Hold|(i & tx & v & s & f & addr & Hi & -> & Hscript & Ha & Hk)].
  - destruct (indexRegular_only prevScripts isTreasuryEnabled _ 0 t ∅ addrKey ltac:(lia)
                Hold)
      as [(l & Hl0 & _)|(i & tx & v & s & addr & Hi & -> & Hscript & Ha & Hk)].
    { by rewrite lookup_empty in Hl0. }
    left. exists i, tx, v, s, addr. split; [done|]. split; [lia|]. split; [|done].
    destruct Hscript as [?|[Hne ?]]; [by left|right]. split; [lia|done].
  - right. exists i, tx, v, s, f, addr. split; [done|]. split; [lia|]. done.
Qed.
End IndexerSound.


Lemma indexBlock_records_regular_scripts_witness :
  ∃ txIdxs,
    indexBlock sampleExtract (λ _, None) (λ _ _, false) (λ _, false) (λ _, false)
      (λ _, false) ∅ sampleBlock (λ _, None) false
      !! (addrKeyTypeScriptHash :: sampleScript) = Some txIdxs ∧
    Z.of_nat 1 ∈ txIdxs.
Proof.
  apply (indexBlock_records_regular_scripts sampleExtract (λ _, None) (λ _ _, false)
           (λ _, false) (λ _, false) (λ _, false) sampleBlock (λ _, None) false 1
           {| TxHash := [1];
              TxMsg := {| MsgTxIn := [];
                          MsgTxOut := [ {| Version := 0; PkScript := sampleScript |} ] |} |}
           0 sampleScript (OtherTy 0) [AddressScriptHashV0 sampleScript]
           (AddressScriptHashV0 sampleScript)).
  - reflexivity.
  - left. exists {| Version := 0; PkScript := sampleScript |}.
    split; [by left|]. split; reflexivity.
  - reflexivity.
  - by left.
  - reflexivity.
Defined.

Lemma indexBlock_records_stake_scripts_witness :
  ∃ txIdxs,
    indexBlock sampleExtract (λ _, None) (λ _ _, false) (λ _, false) (λ _, false)
      (λ _, false) ∅ sampleStakeBlock (λ _, None) false
      !! (addrKeyTypeScriptHash :: sampleScript) = Some txIdxs ∧
    Z.of_nat (length (Transactions sampleStakeBlock) + 0) ∈ txIdxs.
Proof.
  apply (indexBlock_records_stake_scripts sampleExtract (λ _, None) (λ _ _, false)
           (λ _, false) (λ _, false) (λ _, false) sampleStakeBlock (λ _, None) false 0
           {| TxHash := [2];
              TxMsg := {| MsgTxIn := [];
                          MsgTxOut := [ {| Version := 0; PkScript := sampleScript |} ] |} |}
           0 sampleScript false (AddressScriptHashV0 sampleScript)).
  - reflexivity.
  - left. exists {| Version := 0; PkScript := sampleScript |}.
    split; [by left|]. split; [reflexivity|]. split; reflexivity.
  - exists (OtherTy 0), [AddressScriptHashV0 sampleScript]. split; [reflexivity|].
    by left.
  - reflexivity.
Defined.

Lemma indexBlock_records_only_scripts_witness :
  (∃ (i : nat) tx version pkScript addr,
     Transactions sampleStakeBlock !! i = Some tx ∧ 2 = Z.of_nat i ∧
     regular_script (λ _, None) i tx version pkScript ∧
     script_address sampleExtract (λ _, None) version pkScript false false addr ∧
     addrToKey addr = Some (addrKeyTypeScriptHash :: sampleScript)) ∨
  (∃ (i : nat) tx version pkScript isSStx addr,
     STransactions sampleStakeBlock !! i = Some tx ∧
     2 = Z.of_nat (length (Transactions sampleStakeBlock) + i) ∧
     stake_script (λ _ _, false) (λ _, false) (λ _, false) (λ _, false) (λ _, None) false
       tx version pkScript isSStx ∧
     script_address sampleExtract (λ _, None) version pkScript isSStx false addr ∧
     addrToKey addr = Some (addrKeyTypeScriptHash :: sampleScript)).
Proof.
  apply (indexBlock_records_only_scripts sampleExtract (λ _, None) (λ _ _, false)
           (λ _, false) (λ _, false) (λ _, false) sampleStakeBlock (λ _, None) false
           (addrKeyTypeScriptHash :: sampleScript) [0; 1; 2] 2).
  - vm_compute. reflexivity.
  - right. right. by left.
Defined.

(** * The connector *)

(** ** Connecting a block *)

Lemma indexTxLoc_ok (s : list TxLoc) (i : Z) (b : membucket) :
  0 ≤ i < Z.of_nat (length s) →
  ∀ A (k : TxLoc → M membucket A),
    (let* txLoc := indexTxLoc s i in k txLoc) b =
    k (default {| TxStart := 0; TxLen := 0 |} (s !! Z.to_nat i)) b.
Proof.
  intros Hi A k. unfold indexTxLoc, bind.
  destruct (Z.leb_spec 0 i); [|lia]. destruct (Z.ltb_spec i (Z.of_nat (length s))); [|lia].
  cbn [andb]. destruct (lookup_lt_is_Some_2 s (Z.to_nat i) ltac:(lia)) as [x Hx].
  by rewrite Hx.
Qed.

Lemma connectTxIdxs_appendEntries (txLocs stakeTxLocs : list TxLoc) (blockID : Z)
    (a : bytes) (txIdxs : list Z) (b : membucket) :
  Z.of_nat (length txLocs + length stakeTxLocs) < 2 ^ 63 →
  (∀ t, t ∈ txIdxs → 0 ≤ t < Z.of_nat (length txLocs + length stakeTxLocs)) →
  connectTxIdxs txLocs stakeTxLocs blockID a txIdxs b =
    appendEntries a (map (blockRecord txLocs stakeTxLocs blockID) txIdxs) b.
Proof.
  intros Hsmall. revert b. induction txIdxs as [|t txIdxs IH]; intros b Hr; [done|].
  cbn [connectTxIdxs map appendEntries].
  specialize (Hr t ltac:(by left)) as Ht.
  assert (Hrest : ∀ b' : membucket, connectTxIdxs txLocs stakeTxLocs blockID a txIdxs b' =
            appendEntries a (map (blockRecord txLocs stakeTxLocs blockID) txIdxs) b').
  { intros b'. apply IH. intros t' Ht'. apply Hr. by right. }
  unfold blockRecord at 1 2 3.
  destruct (Z.leb_spec (Z.of_nat (length txLocs)) t) as [Hstake|Hreg].
  - rewrite wrap64_small by lia. rewrite indexTxLoc_ok by lia.
    cbn [recBlockID recTxLoc recBlockIndex]. unfold bind.
    destruct (dbPutAddrIndexEntry _ _ _ _ b) as [[[] b1]| | |]; [apply Hrest|done..].
  - rewrite indexTxLoc_ok by lia.
    cbn [recBlockID recTxLoc recBlockIndex]. unfold bind.
    destruct (dbPutAddrIndexEntry _ _ _ _ b) as [[[] b1]| | |]; [apply Hrest|done..].
Qed.

Lemma len_blockEntries (txLocs stakeTxLocs : list TxLoc) (blockID : Z) (l : list Z) :
  len (blockEntries txLocs stakeTxLocs blockID l) = 16 * Z.of_nat (length l).
Proof. unfold blockEntries. by rewrite len_concat_records, length_map. Qed.


Lemma entries_frame (entries : list (bytes * list Z)) (a0 : bytes) (b b' : membucket) :
  a0 ∉ entries.*1 →
  (∀ k, (∀ L, (L < 256)%nat → k ≠ keyForLevel a0 L) → b' !! k = b !! k) →
  ∀ a l, (a, l) ∈ entries → ∀ L, (L < 256)%nat →
    b' !! keyForLevel a L = b !! keyForLevel a L.
Proof.
  intros Hnot Hframe a l Hin L HL. apply Hframe. intros L' HL' Heq.
  apply keyForLevel_inj in Heq as [-> _]. apply Hnot.
  apply list_elem_of_fmap. by exists (a0, l).
Qed.

Lemma connectAddrs_spec (txLocs stakeTxLocs : list TxLoc) (blockID : Z)
    (entries : list (bytes * list Z)) (N : Z) (b : membucket) :
  Z.of_nat (length txLocs + length stakeTxLocs) < 2 ^ 63 →
  NoDup entries.*1 →
  (∀ a l t, (a, l) ∈ entries → t ∈ l →
     0 ≤ t < Z.of_nat (length txLocs + length stakeTxLocs)) →
  room_for entries N b →
  ∃ b', connectAddrs txLocs stakeTxLocs blockID entries b = Ok (tt, b') ∧
    (∀ a l, (a, l) ∈ entries →
       ∃ n', layout b' a n' ∧
         contents b' a = contents b a ++ blockEntries txLocs stakeTxLocs blockID l) ∧
    (∀ k, (∀ a l L, (a, l) ∈ entries → (L < 256)%nat → k ≠ keyForLevel a L) →
          b' !! k = b !! k).
Proof.
  intros Hsmall. revert b.
  induction entries as [|[a0 l0] entries IH]; intros b Hnd Hrange Hroom.
  - exists b. split; [done|]. split; [|done]. intros a l Hin. by apply elem_of_nil in Hin.
  - cbn [fmap list_fmap fst] in Hnd. apply NoDup_cons in Hnd as [Hnot Hnd].
    destruct (Hroom a0 l0 ltac:(by left)) as (Hlen0 & n0 & Hlay0 & Hsz0).
    cbn [connectAddrs]. unfold bind at 1.
    rewrite connectTxIdxs_appendEntries;
      [|done|intros t Ht; apply (Hrange a0 l0 t); [by left|done]].
    destruct (appendEntries_layout a0 (map (blockRecord txLocs stakeTxLocs blockID) l0)
                b n0 Hlay0) as (b1 & n1 & Hrun1 & Hlay1 & Hcont1 & Hframe1).
    { rewrite length_map. lia. }
    rewrite Hrun1.
    pose proof (entries_frame entries a0 b b1 Hnot Hframe1) as Hsame.
    destruct (IH b1 Hnd) as (b' & Hrun & Hspec & Hframe).
    { intros a l t Hin. apply (Hrange a l t). by right. }
    { intros a l Hin. destruct (Hroom a l ltac:(by right)) as (Hlen & n & Hlay & Hsz).
      split; [done|].
      destruct (layout_frame b b1 a n (Hsame a l Hin) Hlay) as [Hl Hc].
      exists n. split; [done|]. by rewrite Hc. }
    exists b'. split; [done|]. split.
    + intros a l [[= -> ->]|Hin]%elem_of_cons.
      * assert (Hkeep : ∀ L, (L < 256)%nat →
                  b' !! keyForLevel a0 L = b1 !! keyForLevel a0 L).
        { intros L HL. apply Hframe. intros a l L' Hin HL' Heq.
          apply keyForLevel_inj in Heq as [-> _]. apply Hnot.
          apply list_elem_of_fmap. by exists (a, l). }
        destruct (layout_frame b1 b' a0 n1 Hkeep Hlay1) as [Hl Hc].
        exists n1. split; [done|]. by rewrite Hc, Hcont1.
      * destruct (Hspec a l Hin) as (n' & Hl & Hc). exists n'. split; [done|].
        rewrite Hc. f_equal.
        destruct (Hroom a l ltac:(by right)) as (_ & n & Hlay & _).
        by destruct (layout_frame b b1 a n (Hsame a l Hin) Hlay).
    + intros k Hk. rewrite Hframe.
      * apply Hframe1. intros L HL. apply (Hk a0 l0 L); [by left|done].
      * intros a l L Hin HL. apply (Hk a l L); [by right|done].
Qed.

Lemma entries_key_cases (entries : list (bytes * list Z)) (k : bytes) :
  (∃ a l L, (a, l) ∈ entries ∧ (L < 256)%nat ∧ k = keyForLevel a L) ∨
  (∀ a l L, (a, l) ∈ entries → (L < 256)%nat → k ≠ keyForLevel a L).
Proof.
  induction entries as [|[a0 l0] entries IH].
  - right. intros a l L Hin. by apply elem_of_nil in Hin.
  - destruct (level_key_cases a0 k) as [(L & HL & ->)|Hno].
    + left. exists a0, l0, L. split; [by left|done].
    + destruct IH as [(a & l & L & Hin & HL & ->)|Hnone].
      * left. exists a, l, L. split; [by right|done].
      * right. intros a l L [[= -> ->]|Hin]%elem_of_cons HL; [by apply Hno|].
        by apply (Hnone a l L).
Qed.

(** Two enumerations of the same map give the same bucket. *)
Lemma connectAddrs_perm (txLocs stakeTxLocs : list TxLoc) (blockID : Z)
    (e1 e2 : list (bytes * list Z)) (N : Z) (b : membucket) :
  Z.of_nat (length txLocs + length stakeTxLocs) < 2 ^ 63 →
  NoDup e1.*1 → e1 ≡ₚ e2 →
  (∀ a l t, (a, l) ∈ e1 → t ∈ l →
     0 ≤ t < Z.of_nat (length txLocs + length stakeTxLocs)) →
  room_for e1 N b →
  ∃ b', connectAddrs txLocs stakeTxLocs blockID e1 b = Ok (tt, b') ∧
        connectAddrs txLocs stakeTxLocs blockID e2 b = Ok (tt, b').
Proof.
  intros Hsmall Hnd Hperm Hrange Hroom.
  destruct (connectAddrs_spec txLocs stakeTxLocs blockID e1 N b Hsmall Hnd Hrange Hroom)
    as (b1 & Hrun1 & Hspec1 & Hframe1).
  destruct (connectAddrs_spec txLocs stakeTxLocs blockID e2 N b Hsmall)
    as (b2 & Hrun2 & Hspec2 & Hframe2).
  { by rewrite <- Hperm. }
  { intros a l t Hin. apply (Hrange a l t). by rewrite Hperm. }
  { intros a l Hin. apply Hroom. by rewrite Hperm. }
  exists b1. split; [done|]. rewrite Hrun2. do 2 f_equal. apply map_eq. intros k.
  destruct (entries_key_cases e1 k) as [(a & l & L & Hin & HL & ->)|Hnone].
  - destruct (Hspec1 a l Hin) as (n1 & Hl1 & Hc1).
    destruct (Hspec2 a l ltac:(by rewrite <- Hperm)) as (n2 & Hl2 & Hc2).
    symmetry. apply (layout_unique b1 b2 a n1 n2 Hl1 Hl2); [|done]. by rewrite Hc1, Hc2.
  - rewrite Hframe1 by done. rewrite Hframe2; [done|].
    intros a l L Hin. apply (Hnone a l L). by rewrite Hperm.
Qed.

(** ** Disconnecting a block *)

Lemma contents_frame (a : bytes) (b b' : membucket) :
  (∀ L, (L < 256)%nat → b' !! keyForLevel a L = b !! keyForLevel a L) →
  contents b' a = contents b a.
Proof.
  intros H. unfold contents. apply cat_ext. intros L HL. unfold levelData.
  by rewrite H.
Qed.


Lemma disconnectAddrs_spec (entries : list (bytes * list Z)) (b : membucket) :
  NoDup entries.*1 → holds_entries entries b →
  ∃ b', disconnectAddrs entries b = Ok (tt, b') ∧
    (∀ a l, (a, l) ∈ entries →
       ∃ n', layout b' a n' ∧
         contents b' a =
           take (Z.to_nat (len (contents b a) - 16 * Z.of_nat (length l)))
             (contents b a)) ∧
    (∀ k, (∀ a l L, (a, l) ∈ entries → (L < 256)%nat → k ≠ keyForLevel a L) →
          b' !! k = b !! k).
Proof.
  revert b. induction entries as [|[a0 l0] entries IH]; intros b Hnd Hroom.
  - exists b. split; [done|]. split; [|done]. intros a l Hin. by apply elem_of_nil in Hin.
  - cbn [fmap list_fmap fst] in Hnd. apply NoDup_cons in Hnd as [Hnot Hnd].
    destruct (Hroom a0 l0 ltac:(by left)) as (n0 & Hlay0 & Hsz0 & Hle0).
    cbn [disconnectAddrs]. unfold bind at 1.
    assert (Hone : ∃ b1 n1,
              dbRemoveAddrIndexEntries a0 (Z.of_nat (length l0)) b = Ok (tt, b1) ∧
              layout b1 a0 n1 ∧
              contents b1 a0 =
                take (Z.to_nat (len (contents b a0) - 16 * Z.of_nat (length l0)))
                  (contents b a0) ∧
              (∀ k, (∀ L, (L < 256)%nat → k ≠ keyForLevel a0 L) → b1 !! k = b !! k)).
    { destruct l0 as [|t l0].
      - exists b, n0. split; [by apply dbRemoveAddrIndexEntries_nonpositive|].
        split; [done|]. split; [|done]. cbn [length]. rewrite Z.sub_0_r.
        rewrite take_ge; [done|]. unfold len. lia.
      - apply (dbRemoveAddrIndexEntries_layout a0 _ b n0 Hlay0 Hsz0); [|done].
        cbn [length]. lia. }
    destruct Hone as (b1 & n1 & Hrun1 & Hlay1 & Hcont1 & Hframe1).
    rewrite Hrun1.
    pose proof (entries_frame entries a0 b b1 Hnot Hframe1) as Hsame.
    destruct (IH b1 Hnd) as (b' & Hrun & Hspec & Hframe).
    { intros a l Hin. destruct (Hroom a l ltac:(by right)) as (n & Hlay & Hsz & Hle).
      destruct (layout_frame b b1 a n (Hsame a l Hin) Hlay) as [Hl Hc].
      exists n. split; [done|]. by rewrite Hc. }
    exists b'. split; [done|]. split.
    + intros a l [[= -> ->]|Hin]%elem_of_cons.
      * assert (Hkeep : ∀ L, (L < 256)%nat →
                  b' !! keyForLevel a0 L = b1 !! keyForLevel a0 L).
        { intros L HL. apply Hframe. intros a l L' Hin HL' Heq.
          apply keyForLevel_inj in Heq as [-> _]. apply Hnot.
          apply list_elem_of_fmap. by exists (a, l). }
        destruct (layout_frame b1 b' a0 n1 Hkeep Hlay1) as [Hl Hc].
        exists n1. split; [done|]. by rewrite Hc, Hcont1.
      * destruct (Hspec a l Hin) as (n' & Hl & Hc). exists n'. split; [done|].
        rewrite Hc.
        destruct (Hroom a l ltac:(by right)) as (n & Hlay & _).
        destruct (layout_frame b b1 a n (Hsame a l Hin) Hlay) as [_ Hcb].
        by rewrite Hcb.
    + intros k Hk. rewrite Hframe.
      * apply Hframe1. intros L HL. apply (Hk a0 l0 L); [by left|done].
      * intros a l L Hin HL. apply (Hk a l L); [by right|done].
Qed.

(** ** Reading the newest entries of an address *)

Lemma decodeAt_newest (pre : bytes) (p : Z) (es : list IndexRecord)
    (fbh : fetchBlockHashFunc) (hashOf : IndexRecord → bytes) (todo : nat) (i : Z) :
  len pre = 16 * p → 0 ≤ p → 0 ≤ i →
  (∀ e, e ∈ es → fbh (PutUint32 (wrap32 (recBlockID e))) = inr (hashOf e)) →
  (Z.to_nat i + todo ≤ length es)%nat →
  decodeAt (pre ++ concat (map serializeRecord es)) fbh
    (offsetsFrom todo i (λ j, p + Z.of_nat (length es) - j - 1)) =
    inr (map (λ e, entryOf (hashOf e) e)
           (take todo (drop (Z.to_nat i) (list.reverse es)))).
Proof.
  intros Hpre Hp Hi Hfbh. revert i Hi. induction todo as [|todo IH]; intros i Hi Hle.
  - done.
  - cbn [offsetsFrom decodeAt].
    destruct (lookup_lt_is_Some_2 (list.reverse es) (Z.to_nat i)) as [e He].
    { rewrite length_reverse. lia. }
    pose proof He as Hes. rewrite reverse_lookup in Hes by lia.
    destruct (drop_records es _ e Hes) as [rest Hdrop].
    assert (Hd : drop (Z.to_nat (16 * (p + Z.of_nat (length es) - i - 1)))
                   (pre ++ concat (map serializeRecord es)) = serializeRecord e ++ rest).
    { rewrite drop_app_ge by (unfold len in Hpre; lia). rewrite <- Hdrop. f_equal.
      unfold len in Hpre. lia. }
    rewrite Hd, deserialize_serializeRecord.
    rewrite Hfbh by (by apply list_elem_of_lookup_2 in Hes).
    rewrite (IH (i + 1)) by lia.
    rewrite (drop_S _ e _ He). replace (Z.to_nat (i + 1)) with (S (Z.to_nat i)) by lia.
    done.
Qed.

Lemma fetch_newest_records (a : bytes) (b : membucket) (n : nat) (pre : bytes)
    (es : list IndexRecord) (fbh : fetchBlockHashFunc) (hashOf : IndexRecord → bytes) :
  layout b a n → contents b a = pre ++ concat (map serializeRecord es) →
  len (contents b a) < 2 ^ 32 →
  (∀ e, e ∈ es → fbh (PutUint32 (wrap32 (recBlockID e))) = inr (hashOf e)) →
  dbFetchAddrIndexEntries a 0 (Z.of_nat (length es)) true fbh b =
    Ok ((map (λ e, entryOf (hashOf e) e) (list.reverse es), 0), b).
Proof.
  intros Hlay Hcont Hsmall Hfbh.
  pose proof (layout_whole b a n Hlay) as Hw.
  pose proof (len_concat_records es) as Hes.
  assert (Hpre : len pre = 16 * (totalEntries b a - Z.of_nat (length es))).
  { rewrite Hcont, len_app in Hw. lia. }
  pose proof (len_nonneg pre) as Hp0.
  rewrite (dbFetchAddrIndexEntries_layout a 0 _ true fbh b n Hlay Hsmall) by lia.
  destruct es as [|e0 es'] eqn:Hlist.
  - cbn [length Z.of_nat list.reverse map]. rewrite Z.eqb_refl.
    destruct (Z.leb_spec (totalEntries b a) 0); [|done].
    replace (totalEntries b a) with 0; [done|]. cbn [length] in Hpre. lia.
  - rewrite <- Hlist in *. assert (0 < Z.of_nat (length es)) by (subst es; cbn [length]; lia).
    destruct (Z.leb_spec (totalEntries b a) 0); [lia|].
    destruct (Z.eqb_spec (Z.of_nat (length es)) 0); [lia|].
    rewrite Z.sub_0_r, Z.min_l by lia. rewrite Nat2Z.id, Hcont.
    rewrite (offsetsFrom_ext _ _ _
               (λ j, (totalEntries b a - Z.of_nat (length es)) + Z.of_nat (length es) - j - 1)).
    + rewrite (decodeAt_newest pre _ es fbh hashOf (length es) 0 Hpre); [|lia|lia|done|lia].
      change (Z.to_nat 0) with 0%nat. rewrite drop_0.
      rewrite take_ge by (rewrite length_reverse; lia). done.
    + intros j. unfold fetchOffset. lia.
Qed.

Section ConnectorProps.
Variable ExtractPkScriptAddrs : Z → bytes → bool → ScriptClass * list Address * bool.
Variable AddrFromSStxPkScrCommitment : bytes → option Address.
Variable IsSSGen : MsgTx → bool → bool.
Variable IsTreasuryBase : MsgTx → bool.
Variable IsTSpend : MsgTx → bool.
Variable IsSStx : MsgTx → bool.
Variable blockTxLoc : Block → error + (list TxLoc * list TxLoc).
Variable blockHash : Block → bytes.
Variable blockHeight : Block → Z.
Variable blockPrevBlock : Block → bytes.
Variable dbFetchBlockIDByHash : bytes → error + Z.
Variable dbPutIndexerTip : bytes → bytes → Z → M membucket unit.

Variable block parent : Block.
Variable prevScripts : PrevScripter.
Variable isTreasuryEnabled : bool.
Variable txLocs stakeTxLocs : list TxLoc.
Variable blockID : Z.
Variable b : membucket.

Let addrsToTxns : writeIndexData :=
  indexBlock ExtractPkScriptAddrs AddrFromSStxPkScrCommitment IsSSGen IsTreasuryBase
    IsTSpend IsSStx ∅ block prevScripts isTreasuryEnabled.
Let total : Z := Z.of_nat (length txLocs + length stakeTxLocs).

Hypothesis HtxLoc : blockTxLoc block = inr (txLocs, stakeTxLocs).
Hypothesis HlenReg : length txLocs = length (Transactions block).
Hypothesis HlenStake : length stakeTxLocs = length (STransactions block).
Hypothesis HblockID : dbFetchBlockIDByHash (blockHash block) = inr blockID.
Hypothesis Hvalid : ∀ a, is_Some (addrsToTxns !! a) →
  level_invariants b a ∧ whole_entries b a ∧ len (contents b a) + 16 * total < 2 ^ 32.

Lemma block_entries_range (entries : list (bytes * list Z)) :
  entries ≡ₚ map_to_list addrsToTxns →
  NoDup entries.*1 ∧
  (∀ a l, (a, l) ∈ entries ↔ addrsToTxns !! a = Some l) ∧
  (∀ a l t, (a, l) ∈ entries → t ∈ l → 0 ≤ t < total) ∧
  room_for entries total b.
Proof.
  intros Hperm.
  assert (Hmem : ∀ a l, (a, l) ∈ entries ↔ addrsToTxns !! a = Some l).
  { intros a l. rewrite Hperm. apply elem_of_map_to_list. }
  assert (Hord : ∀ a l, (a, l) ∈ entries → ordered_below total l).
  { intros a l Hin%Hmem. unfold total. rewrite HlenReg, HlenStake.
    by apply (indexBlock_ordered_below ExtractPkScriptAddrs AddrFromSStxPkScrCommitment
                IsSSGen IsTreasuryBase IsTSpend IsSStx block prevScripts isTreasuryEnabled
                a l). }
  split; [|split; [done|split]].
  - rewrite Hperm. apply NoDup_fst_map_to_list.
  - intros a l t Hin Ht. by apply (Hord a l Hin).
  - intros a l Hin. destruct (Hord a l Hin) as (Hs & Hne & Hr). split.
    + pose proof (sorted_length l 0 total Hs Hr) as Hlen.
      assert (0 ≤ total) by (unfold total; lia). lia.
    + destruct (Hvalid a ltac:(by rewrite (proj1 (Hmem a l) Hin))) as (Hinv & Hwhole & Hsz).
      destruct (stored_ok_layout b a Hinv Hwhole) as [n Hlay]. by exists n.
Qed.

Lemma total_small (entries : list (bytes * list Z)) :
  entries ≡ₚ map_to_list addrsToTxns → entries ≠ [] → total < 2 ^ 63.
Proof.
  intros Hperm Hne. destruct entries as [|[a l] entries]; [done|].
  destruct (block_entries_range _ Hperm) as (_ & Hmem & _ & _).
  destruct (Hvalid a) as (_ & _ & Hsz).
  { by rewrite (proj1 (Hmem a l) ltac:(by left)). }
  pose proof (len_nonneg (contents b a)). lia.
Qed.

Lemma connectAddrs_block (entries : list (bytes * list Z)) :
  entries ≡ₚ map_to_list addrsToTxns →
  ∃ b1, connectAddrs txLocs stakeTxLocs blockID entries b = Ok (tt, b1) ∧
    (∀ a l, addrsToTxns !! a = Some l →
       ∃ n', layout b1 a n' ∧
         contents b1 a = contents b a ++ blockEntries txLocs stakeTxLocs blockID l) ∧
    (∀ k, (∀ a L, is_Some (addrsToTxns !! a) → (L < 256)%nat → k ≠ keyForLevel a L) →
          b1 !! k = b !! k).
Proof.
  intros Hperm. destruct (block_entries_range entries Hperm) as (Hnd & Hmem & Hrange & Hroom).
  destruct (decide (entries = [])) as [->|Hne].
  - exists b. split; [done|]. split; [|done]. intros a l Hl%Hmem. by apply elem_of_nil in Hl.
  - pose proof (total_small entries Hperm Hne) as Hsmall.
    destruct (connectAddrs_spec txLocs stakeTxLocs blockID entries total b Hsmall Hnd
                Hrange Hroom) as (b1 & Hrun & Hspec & Hframe).
    exists b1. split; [done|]. split.
    + intros a l Hl%Hmem. by apply Hspec.
    + intros k Hk. apply Hframe. intros a l L Hin%Hmem HL. apply Hk; [|done].
      by rewrite Hin.
Qed.

Lemma connectBlock_run :
  connectBlock ExtractPkScriptAddrs AddrFromSStxPkScrCommitment IsSSGen IsTreasuryBase
    IsTSpend IsSStx blockTxLoc blockHash blockHeight dbFetchBlockIDByHash dbPutIndexerTip
    block parent prevScripts isTreasuryEnabled b =
  (let* _ := connectAddrs txLocs stakeTxLocs blockID (map_to_list addrsToTxns) in
   dbPutIndexerTip addrIndexKey (blockHash block) (wrapInt32 (blockHeight block))) b.
Proof. unfold connectBlock. by rewrite HtxLoc, HblockID. Qed.

(** X20. When [block.TxLoc()] gives one location per transaction,
    [dbFetchBlockIDByHash] succeeds, and the addresses of the block are in a
    valid state with room for one entry per transaction of the block,
    [connectBlock] reaches the update of the tip with a bucket in which
    every address holds, after its former entries, one entry per
    transaction of the block that involves it, in block order; the
    addresses of the block are in a valid state again, and the keys of no
    other address have changed. *)
Theorem connectBlock_appends_block_entries :
  ∃ b1,
    connectBlock ExtractPkScriptAddrs AddrFromSStxPkScrCommitment IsSSGen IsTreasuryBase
      IsTSpend IsSStx blockTxLoc blockHash blockHeight dbFetchBlockIDByHash
      dbPutIndexerTip block parent prevScripts isTreasuryEnabled b =
      dbPutIndexerTip addrIndexKey (blockHash block) (wrapInt32 (blockHeight block)) b1 ∧
    (∀ a, contents b1 a =
          contents b a ++
          blockEntries txLocs stakeTxLocs blockID (default [] (addrsToTxns !! a))) ∧
    (∀ a, is_Some (addrsToTxns !! a) → level_invariants b1 a ∧ whole_entries b1 a) ∧
    (∀ k, (∀ a L, is_Some (addrsToTxns !! a) → (L < 256)%nat → k ≠ keyForLevel a L) →
          b1 !! k = b !! k).
Proof.
  destruct (connectAddrs_block (map_to_list addrsToTxns) ltac:(done))
    as (b1 & Hrun & Hspec & Hframe).
  exists b1. split; [|split; [|split; [|done]]].
  - rewrite connectBlock_run. unfold bind. by rewrite Hrun.
  - intros a. destruct (addrsToTxns !! a) as [l|] eqn:Hl.
    + by destruct (Hspec a l Hl) as (n' & _ & ->).
    + cbn [default from_option]. unfold blockEntries. cbn [map concat].
      rewrite app_nil_r. apply contents_frame. intros L HL. apply Hframe.
      intros a' L' [l' Hl'] HL' Heq. apply keyForLevel_inj in Heq as [-> _]. congruence.
  - intros a [l Hl]. destruct (Hspec a l Hl) as (n' & Hlay & _).
    by apply (layout_stored_ok b1 a n').
Qed.

(** X21. Under the same hypotheses the bucket [connectBlock] builds does not
    depend on the order in which the map of the block is ranged over:
    every enumeration of the map gives the same bucket. *)
Theorem connectBlock_order_irrelevant (entries : list (bytes * list Z)) :
  entries ≡ₚ map_to_list addrsToTxns →
  ∃ b1,
    connectAddrs txLocs stakeTxLocs blockID (map_to_list addrsToTxns) b = Ok (tt, b1) ∧
    connectAddrs txLocs stakeTxLocs blockID entries b = Ok (tt, b1).
Proof.
  intros Hperm.
  destruct (block_entries_range (map_to_list addrsToTxns) ltac:(done))
    as (Hnd & Hmem & Hrange & Hroom).
  destruct (decide (map_to_list addrsToTxns = [])) as [Hnil|Hne].
  - rewrite Hnil in *. apply Permutation_nil_r in Hperm as ->. by exists b.
  - pose proof (total_small (map_to_list addrsToTxns) ltac:(done) Hne) as Hsmall.
    apply (connectAddrs_perm txLocs stakeTxLocs blockID (map_to_list addrsToTxns) entries
             total b Hsmall Hnd ltac:(done) Hrange Hroom).
Qed.

(** X22. Under the same hypotheses, [disconnectBlock] of the block, run on
    the bucket [connectBlock] has built, reaches the update of the tip with
    the bucket as it was before the block was connected, whatever the order
    in which the map is ranged over. *)
Theorem disconnectBlock_undoes_connectBlock :
  ∃ b1,
    connectBlock ExtractPkScriptAddrs AddrFromSStxPkScrCommitment IsSSGen IsTreasuryBase
      IsTSpend IsSStx blockTxLoc blockHash blockHeight dbFetchBlockIDByHash
      dbPutIndexerTip block parent prevScripts isTreasuryEnabled b =
      dbPutIndexerTip addrIndexKey (blockHash block) (wrapInt32 (blockHeight block)) b1 ∧
    disconnectBlock ExtractPkScriptAddrs AddrFromSStxPkScrCommitment IsSSGen
      IsTreasuryBase IsTSpend IsSStx blockHeight blockPrevBlock dbPutIndexerTip
      block parent prevScripts isTreasuryEnabled b1 =
      dbPutIndexerTip addrIndexKey (blockPrevBlock block)
        (wrapInt32 (wrap64 (blockHeight block - 1))) b ∧
    ∀ entries, entries ≡ₚ map_to_list addrsToTxns →
               disconnectAddrs entries b1 = Ok (tt, b).
Proof.
  destruct (connectAddrs_block (map_to_list addrsToTxns) ltac:(done))
    as (b1 & Hrun & Hspec & Hframe).
  assert (Hback : ∀ entries, entries ≡ₚ map_to_list addrsToTxns →
                             disconnectAddrs entries b1 = Ok (tt, b)).
  { intros entries Hperm.
    destruct (block_entries_range entries Hperm) as (Hnd & Hmem & Hrange & Hroom).
    destruct (disconnectAddrs_spec entries b1 Hnd) as (b2 & Hrun2 & Hspec2 & Hframe2).
    { intros a l Hin. destruct (Hspec a l (proj1 (Hmem a l) Hin)) as (n' & Hlay & Hc).
      destruct (Hroom a l Hin) as (Hlen & n & _ & Hsz).
      exists n'. split; [done|]. rewrite Hc, len_app, len_blockEntries.
      pose proof (len_nonneg (contents b a)). lia. }
    rewrite Hrun2. do 2 f_equal. apply map_eq. intros k.
    destruct (entries_key_cases entries k) as [(a & l & L & Hin & HL & ->)|Hnone].
    - destruct (Hspec2 a l Hin) as (n2 & Hlay2 & Hc2).
      destruct (Hspec a l (proj1 (Hmem a l) Hin)) as (n1 & Hlay1 & Hc1).
      destruct (Hroom a l Hin) as (_ & n & Hlay & _).
      apply (layout_unique b2 b a n2 n Hlay2 Hlay); [|done].
      rewrite Hc2, Hc1, len_app, len_blockEntries.
      replace (len (contents b a) + 16 * Z.of_nat (length l) - 16 * Z.of_nat (length l))
        with (Z.of_nat (length (contents b a))) by (unfold len; lia).
      rewrite Nat2Z.id. by rewrite take_app_length.
    - rewrite Hframe2 by done. apply Hframe. intros a L [l Hl] HL.
      apply (Hnone a l L); [|done]. by apply Hmem. }
  exists b1. split; [|split; [|done]].
  - rewrite connectBlock_run. unfold bind. by rewrite Hrun.
  - unfold disconnectBlock, bind. fold addrsToTxns.
    by rewrite (Hback (map_to_list addrsToTxns) ltac:(done)).
Qed.

(** X24. Under the hypotheses of X20, after [connectBlock] a backward query
    [EntriesForAddress] for as many entries as the block has transactions
    involving the address returns these transactions, last one first, each
    with the hash found for the block, the location of the transaction and
    its position in its tree. *)
Theorem connectBlock_then_EntriesForAddress (addr : Address) (addrKey : bytes)
    (txIdxs : list Z) (dbFetchBlockHashBySerializedID : fetchBlockHashFunc)
    (hash : bytes) :
  addrToKey addr = Some addrKey → addrsToTxns !! addrKey = Some txIdxs →
  dbFetchBlockHashBySerializedID (PutUint32 (wrap32 blockID)) = inr hash →
  ∃ b1,
    connectBlock ExtractPkScriptAddrs AddrFromSStxPkScrCommitment IsSSGen IsTreasuryBase
      IsTSpend IsSStx blockTxLoc blockHash blockHeight dbFetchBlockIDByHash
      dbPutIndexerTip block parent prevScripts isTreasuryEnabled b =
      dbPutIndexerTip addrIndexKey (blockHash block) (wrapInt32 (blockHeight block)) b1 ∧
    EntriesForAddress dbFetchBlockHashBySerializedID addr 0 (Z.of_nat (length txIdxs))
      true b1 =
      Ok ((map (λ t, entryOf hash (blockRecord txLocs stakeTxLocs blockID t))
             (list.reverse txIdxs), 0), b1).
Proof.
  intros Hkey Hl Hhash.
  destruct (connectAddrs_block (map_to_list addrsToTxns) ltac:(done))
    as (b1 & Hrun & Hspec & Hframe).
  exists b1. split.
  - rewrite connectBlock_run. unfold bind. by rewrite Hrun.
  - unfold EntriesForAddress. rewrite Hkey.
    destruct (Hspec addrKey txIdxs Hl) as (n' & Hlay & Hc).
    destruct (Hvalid addrKey ltac:(by rewrite Hl)) as (_ & _ & Hsz).
    destruct (block_entries_range (map_to_list addrsToTxns) ltac:(done))
      as (_ & Hmem & _ & Hroom).
    destruct (Hroom addrKey txIdxs (proj2 (Hmem addrKey txIdxs) Hl)) as (Hlen & _).
    pose proof (fetch_newest_records addrKey b1 n' (contents b addrKey)
                  (map (blockRecord txLocs stakeTxLocs blockID) txIdxs)
                  dbFetchBlockHashBySerializedID (λ _, hash) Hlay Hc) as Hfetch.
    rewrite length_map in Hfetch. rewrite Hfetch.
    + by rewrite <- fmap_reverse, <- list_fmap_compose.
    + rewrite Hc, len_app, len_blockEntries. lia.
    + intros e (t & -> & Ht)%list_elem_of_fmap. unfold blockRecord.
      by destruct (_ <=? _).
Qed.
End ConnectorProps.

Section DisconnectFails.
Variable ExtractPkScriptAddrs : Z → bytes → bool → ScriptClass * list Address * bool.
Variable AddrFromSStxPkScrCommitment : bytes → option Address.
Variable IsSSGen : MsgTx → bool → bool.
Variable IsTreasuryBase : MsgTx → bool.
Variable IsTSpend : MsgTx → bool.
Variable IsSStx : MsgTx → bool.
Variable blockHeight : Block → Z.
Variable blockPrevBlock : Block → bytes.
Variable dbPutIndexerTip : bytes → bytes → Z → M membucket unit.

(** X23. [disconnectBlock] of a block that involves some address, on a
    bucket that has no level 0 for the addresses of the block, fails with
    the assertion error of [dbRemoveAddrIndexEntries]. *)
Theorem disconnectBlock_unconnected_fails (block parent : Block)
    (prevScripts : PrevScripter) (isTreasuryEnabled : bool) (b : membucket) :
  let addrsToTxns :=
    indexBlock ExtractPkScriptAddrs AddrFromSStxPkScrCommitment IsSSGen IsTreasuryBase
      IsTSpend IsSStx ∅ block prevScripts isTreasuryEnabled in
  addrsToTxns ≠ ∅ →
  (∀ a, is_Some (addrsToTxns !! a) → b !! keyForLevel a 0 = None) →
  disconnectBlock ExtractPkScriptAddrs AddrFromSStxPkScrCommitment IsSSGen
    IsTreasuryBase IsTSpend IsSStx blockHeight blockPrevBlock dbPutIndexerTip
    block parent prevScripts isTreasuryEnabled b =
    Err (AssertError "dbRemoveAddrIndexEntries not enough entries").
Proof.
  intros addrsToTxns Hne Hnone. unfold disconnectBlock. fold addrsToTxns.
  destruct (map_to_list addrsToTxns) as [|[a l] entries] eqn:Hlist.
  { by apply map_to_list_empty_iff in Hlist. }
  assert (Hl : addrsToTxns !! a = Some l).
  { apply elem_of_map_to_list. rewrite Hlist. by left. }
  destruct (indexBlock_ordered_below ExtractPkScriptAddrs AddrFromSStxPkScrCommitment
              IsSSGen IsTreasuryBase IsTSpend IsSStx block prevScripts isTreasuryEnabled
              a l Hl) as (_ & Hnil & _).
  cbn [disconnectAddrs]. unfold bind at 1. unfold bind at 1.
  unfold dbRemoveAddrIndexEntries.
  destruct (Z.leb_spec (Z.of_nat (length l)) 0) as [Hle|Hpos].
  { destruct l; [done|]. cbn [length] in Hle. lia. }
  change loopFuel with (S 599). unfold bind at 1.
  rewrite (removeFromLevels_missing 599 a _ b); [done| |done].
  apply Hnone. by rewrite Hl.
Qed.
End DisconnectFails.

Lemma empty_bucket_valid (data : writeIndexData) (N : Z) :
  N < 2 ^ 27 →
  ∀ a, is_Some (data !! a) →
    level_invariants (∅ : membucket) a ∧ whole_entries (∅ : membucket) a ∧
    len (contents (∅ : membucket) a) + 16 * N < 2 ^ 32.
Proof.
  intros HN a _. destruct (layout_empty a) as [Hlay Hc].
  destruct (layout_stored_ok ∅ a 0 Hlay) as [Hinv Hwhole].
  split; [done|]. split; [done|]. rewrite Hc, len_nil. lia.
Qed.

Lemma disconnectBlock_unconnected_fails_witness :
  disconnectBlock sampleExtract (λ _, None) (λ _ _, false) (λ _, false) (λ _, false)
    (λ _, false) (λ _, 5) (λ _, [0]) (λ _ _ _, ret tt)
    sampleBlock sampleBlock (λ _, None) false (∅ : membucket) =
    Err (AssertError "dbRemoveAddrIndexEntries not enough entries").
Proof.
  apply (disconnectBlock_unconnected_fails sampleExtract (λ _, None) (λ _ _, false)
           (λ _, false) (λ _, false) (λ _, false) (λ _, 5) (λ _, [0]) (λ _ _ _, ret tt)
           sampleBlock sampleBlock (λ _, None) false ∅).
  - intros H. apply (f_equal (λ m : writeIndexData, m !! (addrKeyTypeScriptHash :: sampleScript))) in H.
    vm_compute in H. discriminate H.
  - intros a _. apply lookup_empty.
Defined.

Lemma connectBlock_appends_block_entries_witness :
  let data :=
    indexBlock sampleExtract (λ _, None) (λ _ _, false) (λ _, false) (λ _, false)
      (λ _, false) ∅ sampleBlock (λ _, None) false in
  ∃ b1 : membucket,
    connectBlock sampleExtract (λ _, None) (λ _ _, false) (λ _, false) (λ _, false)
      (λ _, false) (λ _, inr (sampleTxLocs, [])) (λ _, [1]) (λ _, 5) (λ _, inr 7)
      (λ _ _ _, ret tt) sampleBlock sampleBlock (λ _, None) false ∅ =
      (λ _ _ _, ret tt) addrIndexKey [1] (wrapInt32 5) b1 ∧
    (∀ a, contents b1 a =
          contents ∅ a ++ blockEntries sampleTxLocs [] 7 (default [] (data !! a))) ∧
    (∀ a, is_Some (data !! a) → level_invariants b1 a ∧ whole_entries b1 a) ∧
    (∀ k, (∀ a L, is_Some (data !! a) → (L < 256)%nat → k ≠ keyForLevel a L) →
          b1 !! k = (∅ : membucket) !! k).
Proof.
  intros data.
  apply (connectBlock_appends_block_entries sampleExtract (λ _, None) (λ _ _, false)
           (λ _, false) (λ _, false) (λ _, false) (λ _, inr (sampleTxLocs, [])) (λ _, [1])
           (λ _, 5) (λ _, inr 7) (λ _ _ _, ret tt) sampleBlock sampleBlock (λ _, None)
           false sampleTxLocs [] 7 ∅).
  - reflexivity.
  - reflexivity.
  - reflexivity.
  - reflexivity.
  - apply empty_bucket_valid. vm_compute. reflexivity.
Defined.

Lemma connectBlock_order_irrelevant_witness :
  let data :=
    indexBlock sampleExtract (λ _, None) (λ _ _, false) (λ _, false) (λ _, false)
      (λ _, false) ∅ sampleBlock (λ _, None) false in
  ∃ b1 : membucket,
    connectAddrs sampleTxLocs [] 7 (map_to_list data) ∅ = Ok (tt, b1) ∧
    connectAddrs sampleTxLocs [] 7 (list.reverse (map_to_list data)) ∅ = Ok (tt, b1).
Proof.
  intros data.
  apply (connectBlock_order_irrelevant sampleExtract (λ _, None) (λ _ _, false)
           (λ _, false) (λ _, false) (λ _, false) sampleBlock (λ _, None)
           false sampleTxLocs [] 7 ∅).
  - reflexivity.
  - reflexivity.
  - apply empty_bucket_valid. vm_compute. reflexivity.
  - apply reverse_Permutation.
Defined.

Lemma disconnectBlock_undoes_connectBlock_witness :
  let data :=
    indexBlock sampleExtract (λ _, None) (λ _ _, false) (λ _, false) (λ _, false)
      (λ _, false) ∅ sampleBlock (λ _, None) false in
  ∃ b1 : membucket,
    connectBlock sampleExtract (λ _, None) (λ _ _, false) (λ _, false) (λ _, false)
      (λ _, false) (λ _, inr (sampleTxLocs, [])) (λ _, [1]) (λ _, 5) (λ _, inr 7)
      (λ _ _ _, ret tt) sampleBlock sampleBlock (λ _, None) false ∅ =
      (λ _ _ _, ret tt) addrIndexKey [1] (wrapInt32 5) b1 ∧
    disconnectBlock sampleExtract (λ _, None) (λ _ _, false) (λ _, false) (λ _, false)
      (λ _, false) (λ _, 5) (λ _, [0]) (λ _ _ _, ret tt)
      sampleBlock sampleBlock (λ _, None) false b1 =
      (λ _ _ _, ret tt) addrIndexKey [0] (wrapInt32 (wrap64 (5 - 1))) ∅ ∧
    ∀ entries, entries ≡ₚ map_to_list data → disconnectAddrs entries b1 = Ok (tt, ∅).
Proof.
  intros data.
  apply (disconnectBlock_undoes_connectBlock sampleExtract (λ _, None) (λ _ _, false)
           (λ _, false) (λ _, false) (λ _, false) (λ _, inr (sampleTxLocs, [])) (λ _, [1])
           (λ _, 5) (λ _, [0]) (λ _, inr 7) (λ _ _ _, ret tt) sampleBlock sampleBlock
           (λ _, None) false sampleTxLocs [] 7 ∅).
  - reflexivity.
  - reflexivity.
  - reflexivity.
  - reflexivity.
  - apply empty_bucket_valid. vm_compute. reflexivity.
Defined.

Lemma connectBlock_then_EntriesForAddress_witness :
  ∃ b1 : membucket,
    connectBlock sampleExtract (λ _, None) (λ _ _, false) (λ _, false) (λ _, false)
      (λ _, false) (λ _, inr (sampleTxLocs, [])) (λ _, [1]) (λ _, 5) (λ _, inr 7)
      (λ _ _ _, ret tt) sampleBlock sampleBlock (λ _, None) false ∅ =
      (λ _ _ _, ret tt) addrIndexKey [1] (wrapInt32 5) b1 ∧
    EntriesForAddress (λ _, inr [1]) (AddressScriptHashV0 sampleScript) 0
      (Z.of_nat (length [0; 1])) true b1 =
      Ok ((map (λ t, entryOf [1] (blockRecord sampleTxLocs [] 7 t))
             (list.reverse [0; 1]), 0), b1).
Proof.
  apply (connectBlock_then_EntriesForAddress sampleExtract (λ _, None) (λ _ _, false)
           (λ _, false) (λ _, false) (λ _, false) (λ _, inr (sampleTxLocs, [])) (λ _, [1])
           (λ _, 5) (λ _, inr 7) (λ _ _ _, ret tt) sampleBlock sampleBlock
           (λ _, None) false sampleTxLocs [] 7 ∅) with
    (addrKey := addrKeyTypeScriptHash :: sampleScript).
  - reflexivity.
  - reflexivity.
  - reflexivity.
  - reflexivity.
  - apply empty_bucket_valid. vm_compute. reflexivity.
  - reflexivity.
  - vm_compute. reflexivity.
  - reflexivity.
Defined.

(** * Further properties of the unconfirmed index *)

(** ** The unconfirmed index: adding, looking up and removing *)

Lemma UnconfirmedTxnsForAddress_elem (idx : Unconfirmed) (addr : Address) (tx : Tx) :
  tx ∈ UnconfirmedTxnsForAddress idx addr ↔
  ∃ addrKey inner hash,
    addrToKey addr = Some addrKey ∧ txnsByAddr idx !! addrKey = Some inner ∧
    inner !! hash = Some tx.
Proof.
  unfold UnconfirmedTxnsForAddress. destruct (addrToKey addr) as [k|] eqn:Hkey.
  - destruct (txnsByAddr idx !! k) as [inner|] eqn:Hk.
    + rewrite list_elem_of_fmap. split.
      * intros ([h tx'] & Heq & Hin). cbn [snd] in Heq. subst tx'.
        apply elem_of_map_to_list in Hin. by exists k, inner, h.
      * intros (k' & inner' & h & Hk' & Hi' & Hh). injection Hk' as <-.
        rewrite Hk in Hi'. injection Hi' as <-. exists (h, tx). split; [done|].
        by apply elem_of_map_to_list.
    + split; [by intros ?%elem_of_nil|].
      intros (k' & inner' & h & Hk' & Hi' & _). injection Hk' as <-. congruence.
  - split; [by intros ?%elem_of_nil|]. intros (k' & inner' & h & Hk' & _). discriminate.
Qed.

Lemma indexUnconfirmedAddr_stores (tx : Tx) (idx : Unconfirmed) (addr : Address)
    (k : bytes) :
  addrToKey addr = Some k → stores_tx (indexUnconfirmedAddr tx idx addr) k tx.
Proof.
  intros Hk. unfold indexUnconfirmedAddr, stores_tx. rewrite Hk. cbn [txnsByAddr].
  eexists. rewrite lookup_insert_eq. split; [done|]. apply lookup_insert_eq.
Qed.

Lemma indexUnconfirmedAddr_keeps (tx : Tx) (idx : Unconfirmed) (addr : Address)
    (k : bytes) :
  stores_tx idx k tx → stores_tx (indexUnconfirmedAddr tx idx addr) k tx.
Proof.
  intros (inner & Hk & Hh). unfold indexUnconfirmedAddr, stores_tx.
  destruct (addrToKey addr) as [k'|]; [|by exists inner]. cbn [txnsByAddr].
  destruct (decide (k' = k)) as [->|Hne].
  - eexists. rewrite lookup_insert_eq. split; [done|]. apply lookup_insert_eq.
  - exists inner. by rewrite lookup_insert_ne.
Qed.

Lemma indexUnconfirmedAddr_keyed (tx : Tx) (idx : Unconfirmed) (addr : Address) :
  keyed_by_hash idx → keyed_by_hash (indexUnconfirmedAddr tx idx addr).
Proof.
  intros Hkeyed. unfold indexUnconfirmedAddr.
  destruct (addrToKey addr) as [k|]; [|done].
  intros a inner h tx'. cbn [txnsByAddr]. rewrite lookup_insert.
  case_decide as Hka; [|apply Hkeyed]. intros [= <-]. rewrite lookup_insert.
  case_decide as Hh; [by intros [= <-]|].
  destruct (txnsByAddr idx !! k) as [inner0|] eqn:Hk; cbn [default from_option]; unfold id.
  - by apply (Hkeyed k inner0).
  - by rewrite lookup_empty.
Qed.

Lemma removeTxFromAddr_lookup (hash x a : bytes) (r : gmap bytes (gmap bytes Tx)) :
  removeTxFromAddr hash x r !! a =
    if decide (a = x) then withoutTx hash (r !! x) else r !! a.
Proof.
  unfold removeTxFromAddr, withoutTx. destruct (r !! x) as [inner|] eqn:Hx.
  - rewrite lookup_insert_eq. cbn [default from_option]. unfold id.
    case_bool_decide as Hsize.
    + apply map_size_empty_iff in Hsize. rewrite lookup_delete.
      destruct (decide (a = x)) as [->|Hne].
      * rewrite decide_True by done. by rewrite decide_True by done.
      * rewrite decide_False by done. by rewrite lookup_insert_ne.
    + rewrite lookup_insert. destruct (decide (a = x)) as [->|Hne].
      * rewrite decide_True by done. rewrite decide_False; [done|].
        intros Hempty. apply Hsize. rewrite Hempty. apply map_size_empty.
      * by rewrite decide_False by done.
  - rewrite Hx. cbn [default from_option]. rewrite map_size_empty.
    rewrite bool_decide_eq_true_2 by done. rewrite lookup_delete.
    destruct (decide (a = x)) as [->|Hne].
    + by rewrite decide_True by done.
    + by rewrite decide_False by done.
Qed.

Lemma remove_fold_lookup (hash : bytes) (txns : gmap bytes (gmap bytes Tx))
    (X : gset bytes) (a : bytes) :
  set_fold (removeTxFromAddr hash) txns X !! a =
    if decide (a ∈ X) then withoutTx hash (txns !! a) else txns !! a.
Proof.
  revert a.
  pose (P := λ (r : gmap bytes (gmap bytes Tx)) (Y : gset bytes),
              ∀ a : bytes,
                r !! a = if decide (a ∈ Y) then withoutTx hash (txns !! a) else txns !! a).
  apply (set_fold_ind_L P); unfold P; clear P.
  - intros a. rewrite decide_False; [done|]. apply not_elem_of_empty.
  - intros x Y r Hx Hr a. rewrite removeTxFromAddr_lookup.
    destruct (decide (a = x)) as [->|Hne].
    + rewrite decide_True by (apply elem_of_union; left; by apply elem_of_singleton).
      by rewrite Hr, decide_False.
    + rewrite Hr. destruct (decide (a ∈ Y)) as [HY|HY].
      * rewrite decide_True; [done|]. apply elem_of_union. by right.
      * rewrite decide_False; [done|].
        intros [Hax%elem_of_singleton|HaY]%elem_of_union; [by apply Hne|by apply HY].
Qed.

Lemma RemoveUnconfirmedTx_keyed (idx : Unconfirmed) (hash : bytes) :
  keyed_by_hash idx → keyed_by_hash (RemoveUnconfirmedTx idx hash).
Proof.
  intros Hkeyed a inner h tx. cbn [RemoveUnconfirmedTx txnsByAddr].
  rewrite remove_fold_lookup. destruct (decide (a ∈ _)); [|apply Hkeyed].
  unfold withoutTx. destruct (txnsByAddr idx !! a) as [inner0|] eqn:Ha; [|done].
  destruct (decide (delete hash inner0 = ∅)); [done|]. intros [= <-].
  rewrite lookup_delete. case_decide; [done|]. by apply (Hkeyed a inner0).
Qed.

Lemma newUnconfirmed_consistent : mirror_consistent newUnconfirmed.
Proof.
  split.
  - intros a h. unfold tx_of_addr, addr_of_tx, newUnconfirmed.
    cbn [txnsByAddr addrsByTx]. rewrite !lookup_empty. split.
    + by intros (i & Hi & _).
    + by intros (s & Hs & _).
  - intros a i. unfold newUnconfirmed. cbn [txnsByAddr]. by rewrite lookup_empty.
Qed.

Section UnconfirmedProps.
Variable ExtractPkScriptAddrs : Z → bytes → bool → ScriptClass * list Address * bool.
Variable AddrFromSStxPkScrCommitment : bytes → option Address.
Variable IsSSGen : MsgTx → bool → bool.
Variable IsSStx : MsgTx → bool.

(** A property every step of [AddUnconfirmedTx] keeps holds of its result. *)
Section AddInvariant.
Variable tx : Tx.
Variable P : Unconfirmed → Prop.
Hypothesis P_step : ∀ idx addr, P idx → P (indexUnconfirmedAddr tx idx addr).

Lemma indexUnconfirmedAddresses_inv (idx : Unconfirmed) (scriptVersion : Z)
    (pkScript : bytes) (isSStx isTreasuryEnabled : bool) :
  P idx →
  P (indexUnconfirmedAddresses ExtractPkScriptAddrs AddrFromSStxPkScrCommitment idx
       scriptVersion pkScript tx isSStx isTreasuryEnabled).
Proof.
  intros HP. unfold indexUnconfirmedAddresses.
  destruct (ExtractPkScriptAddrs _ _ _) as [[class addrs] err].
  assert (Hfold : ∀ addrs idx, P idx → P (foldl (indexUnconfirmedAddr tx) idx addrs)).
  { clear idx HP addrs. intros addrs.
    induction addrs as [|addr addrs IH]; intros idx HP; [done|].
    cbn [foldl]. by apply IH, P_step. }
  destruct (_ && _).
  - destruct (AddrFromSStxPkScrCommitment pkScript); [|done]. by apply Hfold.
  - by apply Hfold.
Qed.

Lemma addUnconfirmedInputs_inv (prevScripts : PrevScripter) (isTreasuryEnabled : bool)
    (isSSGen : bool) (txIns : list TxIn) (i : Z) (idx : Unconfirmed) :
  P idx →
  P (addUnconfirmedInputs ExtractPkScriptAddrs AddrFromSStxPkScrCommitment prevScripts
       isTreasuryEnabled tx isSSGen i idx txIns).
Proof.
  revert i idx. induction txIns as [|txIn txIns IH]; intros i idx HP; [done|].
  cbn [addUnconfirmedInputs]. apply IH. destruct (_ && _); [done|].
  destruct (prevScripts _) as [[version pkScript]|]; [|done].
  by apply indexUnconfirmedAddresses_inv.
Qed.

Lemma addUnconfirmedOutputs_inv (isSStx isTreasuryEnabled : bool) (txOuts : list TxOut)
    (idx : Unconfirmed) :
  P idx →
  P (foldl (λ idx txOut,
              indexUnconfirmedAddresses ExtractPkScriptAddrs AddrFromSStxPkScrCommitment
                idx (Version txOut) (PkScript txOut) tx isSStx isTreasuryEnabled)
       idx txOuts).
Proof.
  revert idx. induction txOuts as [|txOut txOuts IH]; intros idx HP; [done|].
  cbn [foldl]. by apply IH, indexUnconfirmedAddresses_inv.
Qed.

Lemma AddUnconfirmedTx_inv (idx : Unconfirmed) (prevScripts : PrevScripter)
    (isTreasuryEnabled : bool) :
  P idx →
  P (AddUnconfirmedTx ExtractPkScriptAddrs AddrFromSStxPkScrCommitment IsSSGen IsSStx
       idx tx prevScripts isTreasuryEnabled).
Proof.
  intros HP. unfold AddUnconfirmedTx.
  by apply addUnconfirmedOutputs_inv, addUnconfirmedInputs_inv.
Qed.
End AddInvariant.

(** X25. After [AddUnconfirmedTx], the transaction is among the
    [UnconfirmedTxnsForAddress] of every supported address the extraction
    returns for the script of one of its outputs (a null-data script of a
    ticket purchase apart). *)
Theorem added_tx_is_found (idx : Unconfirmed) (tx : Tx) (prevScripts : PrevScripter)
    (isTreasuryEnabled : bool) (txOut : TxOut) (class : ScriptClass)
    (addrs : list Address) (err : bool) (addr : Address) :
  txOut ∈ MsgTxOut (TxMsg tx) →
  ExtractPkScriptAddrs (Version txOut) (PkScript txOut) isTreasuryEnabled
    = (class, addrs, err) →
  IsSStx (TxMsg tx) && isNullDataTy class = false →
  addr ∈ addrs → is_Some (addrToKey addr) →
  tx ∈ UnconfirmedTxnsForAddress
         (AddUnconfirmedTx ExtractPkScriptAddrs AddrFromSStxPkScrCommitment IsSSGen
            IsSStx idx tx prevScripts isTreasuryEnabled) addr.
Proof.
  intros Hout Hex Hflag Hin [k Hk].
  apply UnconfirmedTxnsForAddress_elem.
  enough (stores_tx (AddUnconfirmedTx ExtractPkScriptAddrs AddrFromSStxPkScrCommitment
                       IsSSGen IsSStx idx tx prevScripts isTreasuryEnabled) k tx)
    as (inner & Hl & Hh) by (by exists k, inner, (TxHash tx)).
  unfold AddUnconfirmedTx.
  generalize (addUnconfirmedInputs ExtractPkScriptAddrs AddrFromSStxPkScrCommitment
                prevScripts isTreasuryEnabled tx (IsSSGen (TxMsg tx) isTreasuryEnabled)
                0 idx (MsgTxIn (TxMsg tx))).
  revert Hout. generalize (MsgTxOut (TxMsg tx)). intros txOuts Hout.
  induction txOuts as [|o outs IH]; intros idx0; [by apply elem_of_nil in Hout|].
  cbn [foldl]. apply elem_of_cons in Hout as [<-|Hout]; [|by apply IH].
  apply (addUnconfirmedOutputs_inv tx (λ idx, stores_tx idx k tx)
           (λ idx' addr' H, indexUnconfirmedAddr_keeps tx idx' addr' k H)).
  unfold indexUnconfirmedAddresses. rewrite Hex, Hflag.
  clear Hex. revert idx0. induction addrs as [|addr0 addrs IHa]; intros idx0;
    [by apply elem_of_nil in Hin|].
  cbn [foldl]. apply elem_of_cons in Hin as [<-|Hin]; [|by apply IHa].
  assert (Hkeep : ∀ addrs idx, stores_tx idx k tx →
                  stores_tx (foldl (indexUnconfirmedAddr tx) idx addrs) k tx).
  { clear. intros addrs. induction addrs as [|a addrs IH]; intros idx H; [done|].
    cbn [foldl]. by apply IH, indexUnconfirmedAddr_keeps. }
  by apply Hkeep, indexUnconfirmedAddr_stores.
Qed.

Lemma reachable_consistent_keyed (ops : list unconfirmedOp) :
  let idx := foldl (runUnconfirmedOp ExtractPkScriptAddrs AddrFromSStxPkScrCommitment
                      IsSSGen IsSStx) newUnconfirmed ops in
  mirror_consistent idx ∧ keyed_by_hash idx.
Proof.
  cbn zeta.
  assert (Hnew : mirror_consistent newUnconfirmed ∧ keyed_by_hash newUnconfirmed).
  { split; [apply newUnconfirmed_consistent|].
    intros a inner h tx. unfold newUnconfirmed. cbn [txnsByAddr]. by rewrite lookup_empty. }
  revert Hnew. generalize newUnconfirmed.
  induction ops as [|o ops IH]; intros idx [Hc Hk]; [done|].
  cbn [foldl]. apply IH. destruct o as [tx prevScripts tre|hash]; cbn [runUnconfirmedOp].
  - split; [by apply AddUnconfirmedTx_consistent|].
    by apply (AddUnconfirmedTx_inv tx keyed_by_hash (indexUnconfirmedAddr_keyed tx)).
  - split; [by apply RemoveUnconfirmedTx_consistent|by apply RemoveUnconfirmedTx_keyed].
Qed.

(** X26. In every state of the unconfirmed index reached from its creation,
    after [RemoveUnconfirmedTx] of a hash no address lists a transaction
    with that hash, and the hash has no entry in [addrsByTx]. *)
Theorem removed_tx_is_gone (ops : list unconfirmedOp) (hash : bytes) (addr : Address) :
  let idx :=
    RemoveUnconfirmedTx
      (foldl (runUnconfirmedOp ExtractPkScriptAddrs AddrFromSStxPkScrCommitment
                IsSSGen IsSStx) newUnconfirmed ops) hash in
  addrsByTx idx !! hash = None ∧
  Forall (λ tx, TxHash tx ≠ hash) (UnconfirmedTxnsForAddress idx addr).
Proof.
  cbn zeta. destruct (reachable_consistent_keyed ops) as [[Hcons Hne] Hkeyed].
  revert Hcons Hne Hkeyed.
  generalize (foldl (runUnconfirmedOp ExtractPkScriptAddrs AddrFromSStxPkScrCommitment
                       IsSSGen IsSStx) newUnconfirmed ops).
  intros idx Hcons Hne Hkeyed. split.
  - cbn [RemoveUnconfirmedTx addrsByTx]. apply lookup_delete_eq.
  - apply Forall_forall. intros tx Hin.
    apply UnconfirmedTxnsForAddress_elem in Hin as (k & inner & h & _ & Hk & Hh).
    cbn [RemoveUnconfirmedTx txnsByAddr] in Hk. rewrite remove_fold_lookup in Hk.
    destruct (decide (k ∈ _)) as [HX|HX].
    + unfold withoutTx in Hk. destruct (txnsByAddr idx !! k) as [inner0|] eqn:Hk0; [|done].
      destruct (decide (delete hash inner0 = ∅)); [done|]. injection Hk as <-.
      rewrite lookup_delete in Hh. case_decide as Hhh; [done|].
      rewrite (Hkeyed k inner0 h tx Hk0 Hh). congruence.
    + rewrite (Hkeyed k inner h tx Hk Hh). intros ->. apply HX.
      assert (Htx : tx_of_addr idx k hash) by (exists inner; split; [done|eauto]).
      apply Hcons in Htx as (s & Hs & Hks). by rewrite Hs.
Qed.
End UnconfirmedProps.

Lemma added_keys_step (idx0 : Unconfirmed) (tx : Tx) (K : gset bytes)
    (idx : Unconfirmed) (addr : Address) :
  addrsByTx idx0 !! TxHash tx = None →
  added_keys idx0 tx K idx →
  ∃ K', added_keys idx0 tx K' (indexUnconfirmedAddr tx idx addr).
Proof.
  intros Hfresh [Haddrs Htxns]. unfold indexUnconfirmedAddr.
  destruct (addrToKey addr) as [k|]; [|by exists K].
  exists ({[k]} ∪ K). split.
  - cbn [addrsByTx]. rewrite decide_False by set_solver. rewrite Haddrs.
    destruct (decide (K = ∅)) as [->|HK].
    + rewrite Hfresh. cbn [default from_option]. by rewrite union_empty_r_L.
    + rewrite lookup_insert_eq. cbn [default from_option]. unfold id.
      by rewrite insert_insert_eq.
  - intros a. cbn [txnsByAddr]. rewrite lookup_insert.
    destruct (decide (k = a)) as [->|Hne].
    + rewrite decide_True by (apply elem_of_union; left; by apply elem_of_singleton).
      rewrite Htxns. destruct (decide (a ∈ K)).
      * cbn [default from_option]. unfold id. by rewrite insert_insert_eq.
      * done.
    + rewrite Htxns. destruct (decide (a ∈ K)) as [HK|HK].
      * rewrite decide_True; [done|]. apply elem_of_union. by right.
      * rewrite decide_False; [done|].
        intros [Hak%elem_of_singleton|HaK]%elem_of_union; [by apply Hne|by apply HK].
Qed.

Section UnconfirmedRoundTrip.
Variable ExtractPkScriptAddrs : Z → bytes → bool → ScriptClass * list Address * bool.
Variable AddrFromSStxPkScrCommitment : bytes → option Address.
Variable IsSSGen : MsgTx → bool → bool.
Variable IsSStx : MsgTx → bool.

Lemma AddUnconfirmedTx_added_keys (idx : Unconfirmed) (tx : Tx)
    (prevScripts : PrevScripter) (isTreasuryEnabled : bool) :
  addrsByTx idx !! TxHash tx = None →
  ∃ K, added_keys idx tx K
         (AddUnconfirmedTx ExtractPkScriptAddrs AddrFromSStxPkScrCommitment IsSSGen
            IsSStx idx tx prevScripts isTreasuryEnabled).
Proof.
  intros Hfresh.
  apply (AddUnconfirmedTx_inv ExtractPkScriptAddrs AddrFromSStxPkScrCommitment IsSSGen
           IsSStx tx (λ idx', ∃ K, added_keys idx tx K idx')).
  - intros idx' addr [K HK]. by apply (added_keys_step idx tx K).
  - exists ∅. split; [by rewrite decide_True|]. intros a.
    rewrite decide_False; [done|]. apply not_elem_of_empty.
Qed.

(** X27. On a consistent unconfirmed index that does not know the hash of a
    transaction, adding the transaction and removing it again gives back
    the index as it was. *)
Theorem remove_undoes_add (idx : Unconfirmed) (tx : Tx) (prevScripts : PrevScripter)
    (isTreasuryEnabled : bool) :
  mirror_consistent idx → addrsByTx idx !! TxHash tx = None →
  RemoveUnconfirmedTx
    (AddUnconfirmedTx ExtractPkScriptAddrs AddrFromSStxPkScrCommitment IsSSGen IsSStx
       idx tx prevScripts isTreasuryEnabled) (TxHash tx) = idx.
Proof.
  intros [Hcons Hne] Hfresh.
  destruct (AddUnconfirmedTx_added_keys idx tx prevScripts isTreasuryEnabled Hfresh)
    as (K & Haddrs & Htxns).
  revert Haddrs Htxns.
  generalize (AddUnconfirmedTx ExtractPkScriptAddrs AddrFromSStxPkScrCommitment IsSSGen
                IsSStx idx tx prevScripts isTreasuryEnabled).
  intros idx1 Haddrs Htxns. unfold RemoveUnconfirmedTx. destruct idx as [txns0 addrs0].
  cbn [txnsByAddr addrsByTx] in *.
  assert (HX : default ∅ (addrsByTx idx1 !! TxHash tx) = K).
  { rewrite Haddrs. destruct (decide (K = ∅)) as [->|HK].
    - by rewrite Hfresh.
    - by rewrite lookup_insert_eq. }
  rewrite HX. f_equal.
  - apply map_eq. intros a. rewrite remove_fold_lookup, Htxns.
    destruct (decide (a ∈ K)) as [HK|HK]; [|done].
    assert (Hno : default ∅ (txns0 !! a) !! TxHash tx = None).
    { destruct (txns0 !! a) as [inner0|] eqn:Ha; [|apply lookup_empty].
      cbn [default from_option]. unfold id.
      destruct (inner0 !! TxHash tx) as [tx'|] eqn:Hh; [|done]. exfalso.
      assert (Htx : tx_of_addr {| txnsByAddr := txns0; addrsByTx := addrs0 |} a (TxHash tx)).
      { exists inner0. split; [done|]. by rewrite Hh. }
      apply Hcons in Htx as (s & Hs & _). cbn [addrsByTx] in Hs. congruence. }
    unfold withoutTx. rewrite (delete_insert_id _ _ _ Hno).
    destruct (txns0 !! a) as [inner0|] eqn:Ha; cbn [default from_option]; unfold id.
    + rewrite decide_False; [done|]. by apply (Hne a).
    + by rewrite decide_True.
  - rewrite Haddrs. destruct (decide (K = ∅)).
    + by apply delete_id.
    + by apply delete_insert_id.
Qed.
End UnconfirmedRoundTrip.


Lemma added_tx_is_found_witness :
  sampleTx ∈ UnconfirmedTxnsForAddress
               (AddUnconfirmedTx sampleExtract (λ _, None) (λ _ _, false) (λ _, false)
                  newUnconfirmed sampleTx (λ _, None) false)
               (AddressScriptHashV0 sampleScript).
Proof.
  apply (added_tx_is_found sampleExtract (λ _, None) (λ _ _, false) (λ _, false)
           newUnconfirmed sampleTx (λ _, None) false
           {| Version := 0; PkScript := sampleScript |} (OtherTy 0)
           [AddressScriptHashV0 sampleScript] false (AddressScriptHashV0 sampleScript)).
  - by left.
  - reflexivity.
  - reflexivity.
  - by left.
  - eexists. reflexivity.
Defined.

Lemma remove_undoes_add_witness :
  RemoveUnconfirmedTx
    (AddUnconfirmedTx sampleExtract (λ _, None) (λ _ _, false) (λ _, false)
       newUnconfirmed sampleTx (λ _, None) false) (TxHash sampleTx) = newUnconfirmed.
Proof.
  apply (remove_undoes_add sampleExtract (λ _, None) (λ _ _, false) (λ _, false)
           newUnconfirmed sampleTx (λ _, None) false).
  - apply newUnconfirmed_consistent.
  - apply lookup_empty.
Defined.

(** ** Other transactions of the unconfirmed index *)

Lemma indexUnconfirmedAddr_others (tx : Tx) (idx : Unconfirmed) (addr : Address)
    (h' a : bytes) :
  h' ≠ TxHash tx →
  addrsByTx (indexUnconfirmedAddr tx idx addr) !! h' = addrsByTx idx !! h' ∧
  (txnsByAddr (indexUnconfirmedAddr tx idx addr) !! a ≫= (.!! h')) =
    (txnsByAddr idx !! a ≫= (.!! h')).
Proof.
  intros Hne. unfold indexUnconfirmedAddr. destruct (addrToKey addr) as [k|]; [|done].
  cbn [addrsByTx txnsByAddr]. split; [by rewrite lookup_insert_ne|].
  rewrite lookup_insert. case_decide as Hka; [|done]. subst a. cbn [mbind option_bind].
  rewrite lookup_insert_ne by done.
  destruct (txnsByAddr idx !! k) as [inner|]; [done|]. apply lookup_empty.
Qed.

Section UnconfirmedOthers.
Variable ExtractPkScriptAddrs : Z → bytes → bool → ScriptClass * list Address * bool.
Variable AddrFromSStxPkScrCommitment : bytes → option Address.
Variable IsSSGen : MsgTx → bool → bool.
Variable IsSStx : MsgTx → bool.

(** X28. Adding or removing a transaction leaves what the unconfirmed index
    records for every other hash as it was. *)
Theorem other_txs_untouched (idx : Unconfirmed) (o : unconfirmedOp) (h' a : bytes) :
  h' ≠ match o with
       | OpAddUnconfirmed tx _ _ => TxHash tx
       | OpRemoveUnconfirmed hash => hash
       end →
  let idx' :=
    runUnconfirmedOp ExtractPkScriptAddrs AddrFromSStxPkScrCommitment IsSSGen IsSStx
      idx o in
  addrsByTx idx' !! h' = addrsByTx idx !! h' ∧
  (txnsByAddr idx' !! a ≫= (.!! h')) = (txnsByAddr idx !! a ≫= (.!! h')).
Proof.
  intros Hne. cbn zeta. destruct o as [tx prevScripts tre|hash]; cbn [runUnconfirmedOp].
  - apply (AddUnconfirmedTx_inv ExtractPkScriptAddrs AddrFromSStxPkScrCommitment IsSSGen
             IsSStx tx
             (λ idx', addrsByTx idx' !! h' = addrsByTx idx !! h' ∧
                      (txnsByAddr idx' !! a ≫= (.!! h')) =
                        (txnsByAddr idx !! a ≫= (.!! h')))); [|done].
    intros idx' addr [H1 H2].
    destruct (indexUnconfirmedAddr_others tx idx' addr h' a Hne) as [H3 H4].
    split; congruence.
  - cbn [RemoveUnconfirmedTx addrsByTx txnsByAddr]. split; [by rewrite lookup_delete_ne|].
    rewrite remove_fold_lookup. destruct (decide (a ∈ _)); [|done].
    unfold withoutTx. destruct (txnsByAddr idx !! a) as [inner|]; [|done].
    destruct (decide (delete hash inner = ∅)) as [Hempty|_]; cbn [mbind option_bind].
    + rewrite <- (lookup_delete_ne inner hash h') by done. by rewrite Hempty, lookup_empty.
    + by rewrite lookup_delete_ne.
Qed.
End UnconfirmedOthers.

Lemma other_txs_untouched_witness :
  let idx' :=
    runUnconfirmedOp sampleExtract (λ _, None) (λ _ _, false) (λ _, false)
      newUnconfirmed (OpAddUnconfirmed sampleTx (λ _, None) false) in
  addrsByTx idx' !! [0] = addrsByTx newUnconfirmed !! [0] ∧
  (txnsByAddr idx' !! (addrKeyTypeScriptHash :: sampleScript) ≫= (.!! [0])) =
    (txnsByAddr newUnconfirmed !! (addrKeyTypeScriptHash :: sampleScript) ≫= (.!! [0])).
Proof.
  apply (other_txs_untouched sampleExtract (λ _, None) (λ _ _, false) (λ _, false)
           newUnconfirmed (OpAddUnconfirmed sampleTx (λ _, None) false) [0]
           (addrKeyTypeScriptHash :: sampleScript)).
  intros H. discriminate H.
Defined.

(** ** What the unconfirmed index lists *)

Lemma indexUnconfirmedAddr_entries (tx0 : Tx) (idx : Unconfirmed) (addr : Address)
    (k h : bytes) (tx : Tx) :
  has_entry (indexUnconfirmedAddr tx0 idx addr) k h tx →
  tx = tx0 ∨ has_entry idx k h tx.
Proof.
  unfold indexUnconfirmedAddr. destruct (addrToKey addr) as [k0|]; [|by right].
  intros (inner & Hk & Hh). cbn [txnsByAddr] in Hk.
  rewrite lookup_insert in Hk. case_decide as Hkk.
  - injection Hk as <-. rewrite lookup_insert in Hh. case_decide as Hhh.
    + left. congruence.
    + right. subst k0. destruct (txnsByAddr idx !! k) as [inner0|] eqn:Hk0.
      * by exists inner0.
      * cbn in Hh. by rewrite lookup_empty in Hh.
  - right. by exists inner.
Qed.

Lemma RemoveUnconfirmedTx_entries (idx : Unconfirmed) (hash k h : bytes) (tx : Tx) :
  mirror_consistent idx →
  has_entry (RemoveUnconfirmedTx idx hash) k h tx →
  h ≠ hash ∧ has_entry idx k h tx.
Proof.
  intros [Hcons Hne] (inner & Hk & Hh).
  cbn [RemoveUnconfirmedTx txnsByAddr] in Hk. rewrite remove_fold_lookup in Hk.
  destruct (decide (k ∈ _)) as [HX|HX].
  - unfold withoutTx in Hk. destruct (txnsByAddr idx !! k) as [inner0|] eqn:Hk0; [|done].
    destruct (decide (delete hash inner0 = ∅)); [done|]. injection Hk as <-.
    rewrite lookup_delete in Hh. case_decide as Hhh; [done|].
    split; [congruence|]. by exists inner0.
  - split; [|by exists inner]. intros ->. apply HX.
    assert (Htx : tx_of_addr idx k hash) by (exists inner; split; [done|eauto]).
    apply Hcons in Htx as (s & Hs & Hks). by rewrite Hs.
Qed.

Section UnconfirmedSound.
Variable ExtractPkScriptAddrs : Z → bytes → bool → ScriptClass * list Address * bool.
Variable AddrFromSStxPkScrCommitment : bytes → option Address.
Variable IsSSGen : MsgTx → bool → bool.
Variable IsSStx : MsgTx → bool.

Lemma reachable_entries_added (ops : list unconfirmedOp) (k h : bytes) (tx : Tx) :
  has_entry
    (foldl (runUnconfirmedOp ExtractPkScriptAddrs AddrFromSStxPkScrCommitment
              IsSSGen IsSStx) newUnconfirmed ops) k h tx →
  added_and_kept ops tx.
Proof.
  revert k h tx. induction ops as [|o ops IH] using rev_ind; intros k h tx.
  - intros (inner & Hk & _). unfold newUnconfirmed in Hk. cbn in Hk.
    by rewrite lookup_empty in Hk.
  - rewrite foldl_app. cbn [foldl].
    destruct (reachable_consistent_keyed ExtractPkScriptAddrs AddrFromSStxPkScrCommitment
                IsSSGen IsSStx ops) as [Hcons Hkeyed].
    revert IH Hcons Hkeyed.
    generalize (foldl (runUnconfirmedOp ExtractPkScriptAddrs AddrFromSStxPkScrCommitment
                         IsSSGen IsSStx) newUnconfirmed ops).
    intros idx IH Hcons Hkeyed.
    destruct o as [tx0 prevScripts tre|hash]; cbn [runUnconfirmedOp]; intros Hent.
    + assert (Hor : tx = tx0 ∨ has_entry idx k h tx).
      { revert Hent.
        apply (AddUnconfirmedTx_inv ExtractPkScriptAddrs AddrFromSStxPkScrCommitment
                 IsSSGen IsSStx tx0
                 (λ idx', has_entry idx' k h tx → tx = tx0 ∨ has_entry idx k h tx));
          [|by right].
        intros idx' addr HP Hent.
        apply indexUnconfirmedAddr_entries in Hent as [->|Hent]; [by left|by apply HP]. }
      destruct Hor as [->|Hold].
      * exists ops, [], prevScripts, tre. split; [done|]. apply not_elem_of_nil.
      * destruct (IH k h tx Hold) as (ops1 & ops2 & ps & t & -> & Hno).
        exists ops1, (ops2 ++ [OpAddUnconfirmed tx0 prevScripts tre]), ps, t.
        split; [by rewrite <- app_assoc|].
        intros [Hin|Hin]%elem_of_app; [done|].
        apply list_elem_of_singleton in Hin. discriminate.
    + apply RemoveUnconfirmedTx_entries in Hent as [Hne Hold]; [|done].
      destruct Hold as (inner & Hk & Hh).
      assert (Hhash : TxHash tx = h) by (by apply (Hkeyed k inner h tx)).
      destruct (IH k h tx) as (ops1 & ops2 & ps & t & -> & Hno); [by exists inner|].
      exists ops1, (ops2 ++ [OpRemoveUnconfirmed hash]), ps, t.
      split; [by rewrite <- app_assoc|].
      intros [Hin|Hin]%elem_of_app; [done|].
      apply list_elem_of_singleton in Hin. injection Hin as Heq. congruence.
Qed.

(** X30. In every state of the unconfirmed index reached from its creation,
    a transaction listed for an address was added by an earlier
    [AddUnconfirmedTx], and its hash was not removed since. *)
Theorem listed_tx_was_added (ops : list unconfirmedOp) (addr : Address) (tx : Tx) :
  tx ∈ UnconfirmedTxnsForAddress
         (foldl (runUnconfirmedOp ExtractPkScriptAddrs AddrFromSStxPkScrCommitment
                   IsSSGen IsSStx) newUnconfirmed ops) addr →
  ∃ ops1 ops2 prevScripts isTreasuryEnabled,
    ops = ops1 ++ OpAddUnconfirmed tx prevScripts isTreasuryEnabled :: ops2 ∧
    OpRemoveUnconfirmed (TxHash tx) ∉ ops2.
Proof.
  intros Hin. apply UnconfirmedTxnsForAddress_elem in Hin as (k & inner & h & _ & Hk & Hh).
  apply (reachable_entries_added ops k h tx). by exists inner.
Qed.
End UnconfirmedSound.

Lemma listed_tx_was_added_witness :
  ∃ ops1 ops2 prevScripts isTreasuryEnabled,
    [OpAddUnconfirmed sampleTx (λ _, None) false] =
      ops1 ++ OpAddUnconfirmed sampleTx prevScripts isTreasuryEnabled :: ops2 ∧
    OpRemoveUnconfirmed (TxHash sampleTx) ∉ ops2.
Proof.
  apply (listed_tx_was_added sampleExtract (λ _, None) (λ _ _, false) (λ _, false)
           [OpAddUnconfirmed sampleTx (λ _, None) false]
           (AddressScriptHashV0 sampleScript) sampleTx).
  apply UnconfirmedTxnsForAddress_elem.
  exists (addrKeyTypeScriptHash :: sampleScript), {[TxHash sampleTx := sampleTx]},
    (TxHash sampleTx).
  split; [reflexivity|]. split; [vm_compute; reflexivity|]. apply lookup_singleton_eq.
Defined.
